(** * bact-mdr-profiler: a shallow embedding of the statistical core

    The development follows the Python sources module by module:
    - [Classification]  mdr/classification.py
    - [DecisionV3]      mdr/decision_v3.py
    - [Hypergraph]      network/hypergraph.py
    - [Discovery]       causal/discovery.py
    - [Pipeline]        pipeline.py (the classification step)
    The definitions come first; the facts proved about them follow in the
    modules whose names end in [Facts].

    Conventions.  A cell of a pandas frame is an [option]: [None] is the
    missing value ([pd.NA] in a class matrix), [Some 0] and [Some 1] are
    the binary calls.  In the comparisons of whole frames and columns a
    missing value counts as unequal to every number; taken as the
    condition of an [if] it raises.  Python integers are [Z]; the
    [int64] of numpy wraps around.  A Python float is the rational it
    denotes ([Q], compared with [==]).  Where the roundings of the float
    operations show in a result, the operations are rounded one by one,
    by a rounding that is [b64] for the program as it runs and [exact]
    for its reading in real arithmetic; the remaining functions are
    given in real arithmetic, and the facts about them say so.  Tables
    are lists of rows in index order.  Functions of scipy are parameters
    of the sections that use them; so is the order in which a Python set
    of names is listed. *)

From Stdlib Require Import ZArith QArith Qround Qminmax Qabs Lia Lqa List String.
From Stdlib Require Import Sorting.Sorted Permutation OrderedTypeEx.
From stdpp Require Import base gmap sets list strings.

Open Scope string_scope.
Open Scope Z_scope.
Open Scope list_scope.

(** ** Numbers *)

Definition Qltb (x y : Q) : bool := negb (Qle_bool y x).
Definition Qleb (x y : Q) : bool := Qle_bool x y.

(** [sum] of a list of floats. *)
Definition Qsum (l : list Q) : Q := fold_right Qplus 0%Q l.

(** Rounding to the nearest integer, ties to the even neighbour. *)
Definition round_half_even (x : Q) : Z :=
  let f := Qfloor x in
  match (x - inject_Z f ?= 1 # 2)%Q with
  | Lt => f
  | Gt => f + 1
  | Eq => if Z.even f then f else f + 1
  end.

(** [round(x, ndigits)]: the nearest multiple of [10^-ndigits], ties to
    even. *)
Definition py_round (x : Q) (ndigits : nat) : Q :=
  (inject_Z (round_half_even (x * inject_Z (10 ^ Z.of_nat ndigits)))
   / inject_Z (10 ^ Z.of_nat ndigits))%Q.

(** *** Binary64 *)

(** [2 ^ s] for an exponent of either sign. *)
Definition pow2 (s : Z) : Q :=
  if 0 <=? s then inject_Z (2 ^ s) else / inject_Z (2 ^ (- s)).

(** The exponent [e] of a positive rational [x]:
    [pow2 e <= x < pow2 (e + 1)]. *)
Definition binade (x : Q) : Z :=
  let l := Z.log2 (Qnum x) - Z.log2 (Zpos (Qden x)) in
  if Qleb (pow2 l) x then l else l - 1.

(** The binary64 number nearest to [x], ties to the even significand: the
    result of a float operation whose exact result is [x].  Overflow and
    subnormal numbers are left out: the values rounded here are 0 or lie
    between [2^-1022] and [2^1024]. *)
Definition b64 (x : Q) : Q :=
  if Qeq_bool x 0 then 0%Q
  else
    let a := Qabs x in
    let s := binade a - 52 in
    let m := (inject_Z (round_half_even (a / pow2 s)) * pow2 s)%Q in
    if Qleb 0 x then m else (- m)%Q.

(** No rounding: real arithmetic. *)
Definition exact (x : Q) : Q := x.

(** [round(x, ndigits)] of a float [x], as a float: the binary64 number
    nearest to the decimal that [x] itself rounds to. *)
Definition py_round_float (x : Q) (ndigits : nat) : Q :=
  b64 (py_round x ndigits).

(** [Series.round(ndigits)] of numpy and pandas, on one float: scale,
    round to the nearest integer, scale back. *)
Definition np_round (x : Q) (ndigits : nat) : Q :=
  b64 (inject_Z (round_half_even (b64 (x * inject_Z (10 ^ Z.of_nat ndigits))))
       / inject_Z (10 ^ Z.of_nat ndigits)).

(** A Python integer stored as a numpy [int64]. *)
Definition wrap64 (z : Z) : Z := (z + 2 ^ 63) mod 2 ^ 64 - 2 ^ 63.

(** [max(df[col])] of a column of floats; the frame has at least one row
    wherever the source takes it. *)
Definition Qmaximum (l : list Q) : Q :=
  match l with
  | [] => 0%Q
  | x :: l' => fold_left Qmax l' x
  end.

(** ** Frames *)

(** A frame keeps its column labels, its index labels and the cells row by
    row; [data] has one list per index label, one cell per column. *)
Record Frame (A : Type) : Type := mkFrame {
  columns : list string;
  index : list string;
  data : list (list (option A))
}.
Arguments mkFrame {A} _ _ _.
Arguments columns {A} _.
Arguments index {A} _.
Arguments data {A} _.

Abbreviation cell := (option Z).
Abbreviation DataFrame := (Frame Z).

(** Every row has one cell per column and one label; the column labels
    are unique. *)
Definition well_shaped {A} (df : Frame A) : Prop :=
  NoDup (columns df) /\
  length (index df) = length (data df) /\
  Forall (fun r => length r = length (columns df)) (data df).

(** [row == k], cell by cell: the missing value compares unequal. *)
Definition cell_eqb (c : cell) (k : Z) : bool :=
  match c with Some z => z =? k | None => false end.

Definition isna {A} (c : option A) : bool :=
  match c with None => true | Some _ => false end.

Definition notna {A} (c : option A) : bool := negb (isna c).

(** How many elements of a list pass a boolean test, as a Python [int]. *)
Definition countb {A : Type} (f : A -> bool) (l : list A) : Z :=
  Z.of_nat (length (List.filter f l)).

(** The position of the first column carrying a label. *)
Fixpoint col_pos (c : string) (cols : list string) : option nat :=
  match cols with
  | [] => None
  | c' :: rest => if String.eqb c c' then Some O else S <$> col_pos c rest
  end.

(** [row[c]] for a row of the frame with columns [cols]. *)
Definition row_get {A} (cols : list string) (row : list (option A)) (c : string)
  : option A :=
  match col_pos c cols with
  | Some j => nth j row None
  | None => None
  end.

(** [df[present]], seen from one row. *)
Definition row_select {A} (cols : list string) (row : list (option A))
    (present : list string) : list (option A) :=
  map (row_get cols row) present.

(** [df.iterrows()]: each row as a series, label by label. *)
Definition series_of {A} (cols : list string) (row : list (option A))
  : list (string * option A) := combine cols row.

(** Column [j] from top to bottom. *)
Definition column_cells {A} (df : Frame A) (j : nat) : list (option A) :=
  map (fun row => nth j row None) (data df).

(** ** mdr/classification.py *)

Module Classification.

(** [_to_binary] on a frame of numeric columns: a present value becomes
    [1] when it is positive and [0] otherwise, a missing value stays
    missing.  (Boolean and text columns take the other branches of the
    source; a [Frame Q] holds numeric columns only.) *)
Definition _to_binary (df : Frame Q) : DataFrame :=
  mkFrame (columns df) (index df)
    (map (map (fun c : option Q =>
                 match c with
                 | None => None
                 | Some q => Some (if Qltb 0 q then 1 else 0)
                 end)) (data df)).

(** One entry of the series [s] for a class with drugs [present], from the
    cells [vals] of one isolate.  The rule is one of the three names the
    caller has already validated. *)
Definition class_call (class_rule : string) (vals : list cell) : cell :=
  let n_drugs := Z.of_nat (length vals) in
  let n_resistant := countb (fun c => cell_eqb c 1) vals in
  let n_susceptible := countb (fun c => cell_eqb c 0) vals in
  let n_tested := n_resistant + n_susceptible in
  let all_tested := n_tested =? n_drugs in
  let s : cell := None in
  if String.eqb class_rule "any" then
    let any_pos := n_resistant >=? 1 in
    let all_neg := all_tested && (n_resistant =? 0) in
    let s := if any_pos then Some 1 else s in
    let s := if all_neg && negb any_pos then Some 0 else s in
    s
  else if String.eqb class_rule "all" then
    let all_pos := all_tested && (n_resistant =? n_drugs) in
    let any_neg := all_tested && (n_susceptible >=? 1) in
    let s := if all_pos then Some 1 else s in
    let s := if any_neg && negb all_pos then Some 0 else s in
    s
  else if String.eqb class_rule "majority" then
    let half := (inject_Z n_tested / 2)%Q in
    let majority_pos := (n_tested >? 0) && Qltb half (inject_Z n_resistant) in
    let majority_neg := all_tested && Qleb (inject_Z n_resistant) half in
    let s := if majority_pos then Some 1 else s in
    let s := if majority_neg && negb majority_pos then Some 0 else s in
    s
  else s.

(** [out[cls] = s]: the column is replaced where the label exists and
    appended otherwise. *)
Definition set_column (out : DataFrame) (cls : string) (s : list cell)
  : DataFrame :=
  match col_pos cls (columns out) with
  | Some j =>
      mkFrame (columns out) (index out)
        (map (fun '(row, v) => <[j := v]> row) (combine (data out) s))
  | None =>
      mkFrame (columns out ++ [cls]) (index out)
        (map (fun '(row, v) => row ++ [v]) (combine (data out) s))
  end.

(** The loop body of [build_class_matrix] for one class of the ontology. *)
Definition add_class (class_rule : string) (ph : DataFrame)
    (out : DataFrame) (entry : string * list string) : DataFrame :=
  let '(cls, drugs) := entry in
  let present :=
    List.filter (fun d => bool_decide (d ∈ columns ph)) drugs in
  match present with
  | [] => out
  | _ =>
      set_column out cls
        (map (fun row => class_call class_rule (row_select (columns ph) row present))
             (data ph))
  end.

(** [build_class_matrix]; [None] stands for the [ValueError] raised on an
    unknown rule (a frame always has an index here, so the first check of
    the source never raises).  The ontology is the dictionary's items in
    order. *)
Definition build_class_matrix (pheno_df : Frame Q)
    (class_to_drugs : list (string * list string)) (class_rule : string)
  : option DataFrame :=
  if negb (bool_decide (class_rule ∈ ["any"; "all"; "majority"])) then None
  else
    let ph := _to_binary pheno_df in
    let out := mkFrame [] (index ph) (map (fun _ => []) (data ph)) in
    Some (fold_left (add_class class_rule ph) class_to_drugs out).

(** The three answers of [identify_mdr]: [True], [False] and [pd.NA]. *)
Inductive mdr_flag : Type := MdrTrue | MdrFalse | MdrNA.

(** [(class_df == 1).sum(axis=1, skipna=True)] for one row. *)
Definition min_res (row : list cell) : Z := countb (fun c => cell_eqb c 1) row.

(** [class_df.isna().sum(axis=1)] for one row. *)
Definition n_missing (row : list cell) : Z := countb isna row.

Definition max_res (row : list cell) : Z := min_res row + n_missing row.

(** The three masked assignments of [identify_mdr], in source order, on the
    entry of one row; the entry starts as [False]. *)
Definition identify_mdr_row (row : list cell) (threshold : Z) : mdr_flag :=
  let out := MdrFalse in
  let out := if min_res row >=? threshold then MdrTrue else out in
  let out := if max_res row <? threshold then MdrFalse else out in
  let out :=
    if (min_res row <? threshold) && (max_res row >=? threshold)
    then MdrNA else out in
  out.

(** The returned series: index label and flag, in index order. *)
Definition identify_mdr (class_df : DataFrame) (threshold : Z)
  : list (string * mdr_flag) :=
  combine (index class_df)
          (map (fun row => identify_mdr_row row threshold) (data class_df)).

(** The dictionary returned by [bayesian_prevalence]; [None] is [nan]. *)
Record prevalence : Type := mkPrevalence {
  Posterior_Mean : option Q;
  Posterior_Mode : option Q;
  CI_Lo : option Q;
  CI_Hi : option Q
}.

Section BayesianPrevalence.

(** The rounding of one float operation: [b64] for the program as it
    runs, [exact] for its reading in real arithmetic. *)
Variable rnd : Q -> Q.

(** [scipy.stats.beta.ppf q a b], the quantile function of the Beta
    distribution, is library code: it is a parameter here. *)
Variable beta_ppf : Q -> Q -> Q -> Q.

(** [bayesian_prevalence], operation by operation; an integer becomes a
    float before it is added to one.  The divisors are not 0 for the
    positive prior parameters that the facts below assume. *)
Definition bayesian_prevalence_with (positives total : Z)
    (prior_a prior_b credible : Q) : prevalence :=
  if total <=? 0 then mkPrevalence None None None None
  else
    let pa := rnd (prior_a + rnd (inject_Z positives))%Q in
    let pb := rnd (prior_b + rnd (inject_Z (total - positives)))%Q in
    let mean := rnd (pa / rnd (pa + pb))%Q in
    let mode :=
      if Qltb 1 pa && Qltb 1 pb
      then rnd (rnd (pa - 1) / rnd (rnd (pa + pb) - 2))%Q else mean in
    let tail := rnd (rnd (1 - credible) / 2)%Q in
    mkPrevalence (Some (rnd (py_round mean 6))) (Some (rnd (py_round mode 6)))
                 (Some (rnd (py_round (beta_ppf tail pa pb) 6)))
                 (Some (rnd (py_round (beta_ppf (rnd (1 - tail)) pa pb) 6))).

End BayesianPrevalence.

(** [bayesian_prevalence] read in real arithmetic. *)
Definition bayesian_prevalence (beta_ppf : Q -> Q -> Q -> Q)
    (positives total : Z) (prior_a prior_b credible : Q) : prevalence :=
  bayesian_prevalence_with exact beta_ppf positives total prior_a prior_b
                           credible.

(** The defaults of the signature: the Jeffreys prior and a 95% interval. *)
Definition default_prior_a : Q := 1 # 2.
Definition default_prior_b : Q := 1 # 2.
Definition default_credible : Q := 95 # 100.

(** [class_df[col].mean(skipna=True)]; [None] is the [nan] of a column
    with no observed cell. *)
Definition col_mean (cs : list cell) : option Q :=
  let obs : list Z := omap id cs in
  match obs with
  | [] => None
  | _ => Some (inject_Z (fold_right Z.add 0%Z obs)
               / inject_Z (Z.of_nat (length obs)))%Q
  end.

(** [.clip(0.0, 1.0)] *)
Definition clip01 (x : Q) : Q := Qmin (Qmax x 0) 1.

(** [p_class[miss_cols]]: the prevalences of the columns missing in a row. *)
Definition missing_probs (pc : list Q) (row : list cell) : list Q :=
  map fst (List.filter (fun '(_, c) => isna c) (combine pc row)).

Record mdr_prob_row : Type := mkMdrProbRow {
  Strain_ID : string;
  Observed_Resistant_Classes : Z;
  Missing_Classes : Z;
  P_MDR : Q;
  P_XDR : Q;
  P_PDR : Q
}.

Section MdrProbability.

(** The rounding of one float operation: [b64] for the program as it
    runs, [exact] for its reading in real arithmetic. *)
Variable rnd : Q -> Q.

(** Pointwise sum of two coefficient lists, the longer one deciding the
    length. *)
Fixpoint padd (a b : list Q) : list Q :=
  match a, b with
  | [], _ => b
  | _, [] => a
  | x :: a', y :: b' => rnd (x + y)%Q :: padd a' b'
  end.

(** [np.convolve(a, v)] in its default full mode, for non-empty arrays:
    entry [n] is the sum of the products [a[m] * v[n - m]].  With the
    two-entry [v] of the source an entry has at most two products; a
    product that stands alone is added to 0.0, which leaves a float as it
    is. *)
Fixpoint convolve (a v : list Q) : list Q :=
  match a with
  | [] => []
  | x :: a' =>
      padd (map (fun y => rnd (x * y)%Q) v)
           (match a' with [] => [] | _ :: _ => 0%Q :: convolve a' v end)
  end.

(** [p_class]: one prevalence per column, the float quotient of the sum
    and the number of the observed calls; [nan] filled with 0, clipped. *)
Definition p_class (class_df : DataFrame) : list Q :=
  map (fun j =>
         clip01 (default 0%Q (rnd <$> col_mean (column_cells class_df j))))
      (seq 0 (length (columns class_df))).

(** The distribution of the number of resistant classes among the missing
    ones: one convolution per missing class. *)
Definition count_dist (probs : list Q) : list Q :=
  fold_left (fun dist p => convolve dist [rnd (1 - p)%Q; p]) probs [1%Q].

(** [float(dist[need:].sum()) if need < len(dist) else 0.0].  The sum
    runs from left to right, from 0.0, as numpy adds fewer than eight
    floats; a longer slice is added in blocks, which gives the same real
    number. *)
Definition tail_prob (dist : list Q) (need : Z) : Q :=
  if need <? Z.of_nat (length dist)
  then fold_left (fun s x => rnd (s + x)%Q) (drop (Z.to_nat need) dist) 0%Q
  else 0%Q.

(** The body of the loop over [class_df.index]. *)
Definition mdr_probability_row (n_classes : Z) (pc : list Q) (threshold : Z)
    (sid : string) (row : list cell) : mdr_prob_row :=
  let probs := missing_probs pc row in
  let dist := count_dist probs in
  let need_mdr := Z.max 0 (threshold - min_res row) in
  let need_xdr := Z.max 0 ((n_classes - 2) - min_res row) in
  let need_pdr := Z.max 0 (n_classes - min_res row) in
  mkMdrProbRow sid (min_res row) (n_missing row)
    (tail_prob dist need_mdr) (tail_prob dist need_xdr) (tail_prob dist need_pdr).

(** [mdr_probability].  The loop reads the row of a label with
    [.loc[sid]]: under a label that two rows carry this is a frame, not a
    row, and the first pass of the loop raises; [None] stands for that. *)
Definition mdr_probability (class_df : DataFrame) (threshold : Z)
  : option (list mdr_prob_row) :=
  if bool_decide (NoDup (index class_df))
  then
    let n_classes := Z.of_nat (length (columns class_df)) in
    let pc := p_class class_df in
    Some (map (fun '(sid, row) =>
                 mdr_probability_row n_classes pc threshold sid row)
              (combine (index class_df) (data class_df)))
  else None.

End MdrProbability.

(** *** [mdr_spectrum] *)

(** [cat], with the [n_classes] and the [threshold] it closes over. *)
Definition cat (n_classes threshold : Z) (s : Z) : string :=
  if s >=? n_classes then "PDR"
  else if s >=? n_classes - 2 then "XDR"
  else if s >=? threshold then "MDR"
  else "susceptible".

(** One row of the frame returned by [mdr_spectrum]. *)
Record spectrum_row : Type := mkSpectrum {
  N_Classes_Resistant_Min : Z;
  N_Classes_Resistant_Max : Z;
  Category : string;
  Category_Definite : string;
  Category_Possible : string;
  N_Classes_Total : Z;
  N_Classes_Missing : Z
}.

(** [mdr_spectrum]: the rows with their index labels, in index order. *)
Definition mdr_spectrum (class_df : DataFrame) (threshold : Z)
  : list (string * spectrum_row) :=
  let n_classes := Z.of_nat (length (columns class_df)) in
  combine (index class_df)
    (map (fun row =>
            let cat_def := cat n_classes threshold (min_res row) in
            let cat_pos := cat n_classes threshold (max_res row) in
            mkSpectrum (min_res row) (max_res row) cat_def cat_def cat_pos
                       n_classes (n_missing row))
         (data class_df)).

(** *** [prevalence_table] *)

(** One row of the frame returned by [prevalence_table]; [bp] holds the
    four entries that [**bp] spreads into the row. *)
Record prevalence_row : Type := mkPrevalenceRow {
  Class : string;
  Positive : Z;
  Total_Observed : Z;
  Total_All : Z;
  Missing : Z;
  bp : prevalence
}.

(** [class_df[col]], top to bottom. *)
Definition column_of (class_df : DataFrame) (col : string) : list cell :=
  map (fun row => row_get (columns class_df) row col) (data class_df).

Section PrevalenceTable.

Variable beta_ppf : Q -> Q -> Q -> Q.

Definition prevalence_table (class_df : DataFrame) (credible : Q)
  : list prevalence_row :=
  let n_all := Z.of_nat (length (data class_df)) in
  map (fun col =>
         let obs := countb notna (column_of class_df col) in
         let pos := countb (fun c => cell_eqb c 1) (column_of class_df col) in
         let miss := n_all - obs in
         mkPrevalenceRow col pos obs n_all miss
           (bayesian_prevalence beta_ppf pos obs default_prior_a default_prior_b
                                credible))
      (columns class_df).

End PrevalenceTable.

End Classification.

(** ** mdr/decision_v3.py *)

Module DecisionV3.

(** A series: labels with their cells, in order. *)
Definition Series : Type := list (string * cell).

(** [d[k] = v] on a dictionary kept as its items in insertion order. *)
Fixpoint dict_set {V} (d : list (string * V)) (k : string) (v : V)
  : list (string * V) :=
  match d with
  | [] => [(k, v)]
  | (k', v') :: rest =>
      if String.eqb k k' then (k', v) :: rest else (k', v') :: dict_set rest k v
  end.

(** [row.to_dict()] *)
Definition to_dict (row : Series) : list (string * cell) :=
  fold_left (fun d '(k, v) => dict_set d k v) row [].

(** [float((missing_prior or {}).get(c, 0.5))] *)
Definition prior_of (missing_prior : option (gmap string Q)) (c : string) : Q :=
  default (1 # 2)%Q (default ∅ missing_prior !! c).

(** [range(n)] *)
Definition py_range (n : Z) : list Z := map Z.of_nat (seq 0 (Z.to_nat n)).

Section Posterior.

(** The rounding of one float operation: [b64] for the program as it
    runs, [exact] for its reading in real arithmetic. *)
Variable rnd : Q -> Q.

(** The inner loop over [enumerate(missing)], from position [i] on, for one
    [mask]: the count [kk] and the weight [pr] it ends with. *)
Fixpoint mask_weight (missing_prior : option (gmap string Q)) (mask : Z)
    (i : Z) (missing : list string) (kk : Z) (pr : Q) : Z * Q :=
  match missing with
  | [] => (kk, pr)
  | c :: rest =>
      let pc := prior_of missing_prior c in
      let bit := Z.land (Z.shiftr mask i) 1 in
      if negb (bit =? 0)
      then mask_weight missing_prior mask (i + 1) rest (kk + 1)
                       (rnd (pr * pc))%Q
      else mask_weight missing_prior mask (i + 1) rest kk
                       (rnd (pr * rnd (1 - pc)))%Q
  end.

(** The loop over [range(1 << len(missing))], accumulating [p]. *)
Definition enumerate_masks (missing_prior : option (gmap string Q))
    (missing : list string) (known_pos threshold : Z) : Q :=
  fold_left
    (fun p mask =>
       let '(kk, pr) := mask_weight missing_prior mask 0 missing known_pos 1%Q in
       if kk >=? threshold then rnd (p + pr)%Q else p)
    (py_range (Z.shiftl 1 (Z.of_nat (length missing)))) 0%Q.

Definition _posterior_mdr_prob_with (row : Series) (threshold : Z)
    (missing_prior : option (gmap string Q)) : Q :=
  let vals := to_dict row in
  let known_pos :=
    countb (fun kv : string * cell => notna (snd kv) && cell_eqb (snd kv) 1) vals in
  let missing := map fst (List.filter (fun kv : string * cell => isna (snd kv)) vals) in
  if known_pos >=? threshold then 1%Q
  else if known_pos + Z.of_nat (length missing) <? threshold then 0%Q
  else
    let p := enumerate_masks missing_prior missing known_pos threshold in
    Qmin (Qmax p 0) 1.

End Posterior.

(** [_posterior_mdr_prob] read in real arithmetic. *)
Definition _posterior_mdr_prob (row : Series) (threshold : Z)
    (missing_prior : option (gmap string Q)) : Q :=
  _posterior_mdr_prob_with exact row threshold missing_prior.

(** *** [next_best_test_evpi] *)

(** [class_df.mean(skipna=True).fillna(0.5).to_dict()] *)
Definition prevalence_dict (class_df : DataFrame) : gmap string Q :=
  fold_left
    (fun d '(c, j) =>
       <[c := default (1 # 2)%Q
                (Classification.col_mean (column_cells class_df j))]> d)
    (combine (columns class_df) (seq 0 (length (columns class_df)))) ∅.

(** The dictionary [costs]: 1.0 for every column, then the entries of
    [test_costs] whose key is a column, each at least [1e-9].  A value of
    [test_costs] is [None] where [float(v)] raises, which the source
    passes over. *)
Definition cost_dict (cols : list string)
    (test_costs : list (string * option Q)) : gmap string Q :=
  let costs := fold_left (fun d c => <[c := 1%Q]> d) cols ∅ in
  fold_left
    (fun d '(k, v) =>
       match d !! k, v with
       | Some _, Some x => <[k := Qmax x (1 # 1000000000)]> d
       | _, _ => d
       end)
    test_costs costs.

(** [min(p * fn_cost, (1 - p) * fp_cost)] *)
Definition bayes_risk (fn_cost fp_cost p : Q) : Q :=
  Qmin (p * fn_cost) ((1 - p) * fp_cost).

(** [r = row.copy(); r[c] = v] *)
Definition series_set (row : Series) (c : string) (v : Z) : Series :=
  map (fun '(k, x) => if String.eqb k c then (k, Some v) else (k, x)) row.

(** One row of the frame returned by [next_best_test_evpi]. *)
Record evpi_row : Type := mkEvpi {
  Strain_ID : string;
  Candidate_Test_Class : string;
  Current_pMDR : Q;
  Current_BayesRisk : Q;
  Expected_BayesRisk_AfterTest : Q;
  EVPI_RiskReduction : Q;
  Test_Cost : Q;
  EVPI_per_Cost : Q;
  Class_Prevalence : Q;
  Current_Uncertain : Z;
  N_tested : Z
}.

(** The rows appended for one isolate: one per missing class. *)
Definition evpi_rows_of (cols : list string) (prev costs : gmap string Q)
    (mdr_threshold : Z) (fn_cost fp_cost : Q) (idx : string)
    (row : list cell) : list evpi_row :=
  let miss := List.filter (fun c => isna (row_get cols row c)) cols in
  match miss with
  | [] => []
  | _ :: _ =>
      let s := series_of cols row in
      let p_mdr := _posterior_mdr_prob s mdr_threshold (Some prev) in
      let risk0 := bayes_risk fn_cost fp_cost p_mdr in
      map (fun c =>
             let pc := default (1 # 2)%Q (prev !! c) in
             let p1 := _posterior_mdr_prob (series_set s c 1) mdr_threshold
                                           (Some prev) in
             let p0 := _posterior_mdr_prob (series_set s c 0) mdr_threshold
                                           (Some prev) in
             let risk_after :=
               (pc * bayes_risk fn_cost fp_cost p1
                + (1 - pc) * bayes_risk fn_cost fp_cost p0)%Q in
             let evpi := Qmax (risk0 - risk_after) 0 in
             let cost := default 1%Q (costs !! c) in
             mkEvpi idx c p_mdr risk0 risk_after evpi cost (evpi / cost)%Q pc
                    (if Qltb 0 p_mdr && Qltb p_mdr 1 then 1 else 0)
                    (countb notna row))
          miss
  end.

(** The order of [sort_values] on [Strain_ID] ascending, then
    [EVPI_per_Cost] and [EVPI_RiskReduction] descending: [x] comes
    strictly before [y]. *)
Definition evpi_before (x y : evpi_row) : bool :=
  match String.compare (Strain_ID x) (Strain_ID y) with
  | Lt => true
  | Gt => false
  | Eq =>
      match (EVPI_per_Cost y ?= EVPI_per_Cost x)%Q with
      | Lt => true
      | Gt => false
      | Eq => Qltb (EVPI_RiskReduction y) (EVPI_RiskReduction x)
      end
  end.

(** One step of the stable sort: [x] goes behind every row that it does
    not come strictly before. *)
Fixpoint insert_evpi (x : evpi_row) (l : list evpi_row) : list evpi_row :=
  match l with
  | [] => [x]
  | y :: rest =>
      if evpi_before x y then x :: l else y :: insert_evpi x rest
  end.

Definition sort_evpi (l : list evpi_row) : list evpi_row :=
  fold_left (fun acc x => insert_evpi x acc) l [].

(** [next_best_test_evpi]; the empty frame is the empty list of rows. *)
Definition next_best_test_evpi (class_df : DataFrame) (mdr_threshold : Z)
    (test_costs : list (string * option Q)) (fn_cost fp_cost : Q)
  : list evpi_row :=
  if bool_decide (index class_df = []) || bool_decide (columns class_df = [])
  then []
  else
    let prev := prevalence_dict class_df in
    let costs := cost_dict (columns class_df) test_costs in
    let rows :=
      flat_map (fun '(idx, row) =>
                  evpi_rows_of (columns class_df) prev costs mdr_threshold
                               fn_cost fp_cost idx row)
               (combine (index class_df) (data class_df)) in
    sort_evpi rows.

End DecisionV3.

(** ** network/hypergraph.py *)

Module Hypergraph.

(** One row of the frame returned by [extract_hyperedges]. *)
Record hyperedge_row : Type := mkHyperedge {
  Hyperedge : string;
  _set : gset string;
  Size : Z;
  Count : Z;
  Support : Q
}.

(** [sorted(pat)] on names. *)
Fixpoint insert_sorted (s : string) (l : list string) : list string :=
  match l with
  | [] => [s]
  | t :: rest => if String.leb s t then s :: l else t :: insert_sorted s rest
  end.

Definition sorted_names (l : list string) : list string :=
  fold_right insert_sorted [] l.

(** [sep.join(names)] *)
Fixpoint join (sep : string) (names : list string) : string :=
  match names with
  | [] => EmptyString
  | [s] => s
  | s :: rest => String.append s (String.append sep (join sep rest))
  end.

(** [frozenset(c for c in class_df.columns if row[c] == 1)].  The value
    of [row[c] == 1] is the condition of an [if]: on a missing cell it is
    [pd.NA], whose truth value raises a TypeError, and under a label that
    two columns carry it is a series, whose truth value raises a
    ValueError; [None] stands for either. *)
Definition active_set (cols : list string) (row : list cell)
  : option (gset string) :=
  if negb (bool_decide (NoDup cols))
     || existsb (fun c => isna (row_get cols row c)) cols
  then None
  else
    Some (list_to_set
            (List.filter (fun c => cell_eqb (row_get cols row c) 1) cols)).

(** [len(fs)] *)
Definition set_len (fs : gset string) : Z := Z.of_nat (size fs).

(** The list [pats] after the loop over the rows; [None] when a row
    raises. *)
Definition patterns (class_df : DataFrame) (min_size max_size : Z)
  : option (list (gset string)) :=
  fss ← mapM (active_set (columns class_df)) (data class_df);
  Some (List.filter
          (fun fs => (min_size <=? set_len fs) && (set_len fs <=? max_size))
          fss).

(** [counts[k] += 1] on a [Counter] kept as its items in insertion order. *)
Fixpoint counter_add (counts : list (gset string * Z)) (k : gset string)
  : list (gset string * Z) :=
  match counts with
  | [] => [(k, 1)]
  | (k', n) :: rest =>
      if bool_decide (k = k') then (k', n + 1) :: rest
      else (k', n) :: counter_add rest k
  end.

(** [Counter(pats)] *)
Definition Counter (pats : list (gset string)) : list (gset string * Z) :=
  fold_left counter_add pats [].

(** One step of a stable sort by decreasing count: [x] goes behind every
    item whose count is at least its own. *)
Fixpoint insert_by_count (x : gset string * Z) (l : list (gset string * Z))
  : list (gset string * Z) :=
  match l with
  | [] => [x]
  | y :: rest =>
      if snd y <? snd x then x :: l else y :: insert_by_count x rest
  end.

(** [counts.most_common()]: the items by decreasing count, equal counts in
    insertion order. *)
Definition most_common (counts : list (gset string * Z))
  : list (gset string * Z) :=
  fold_left (fun acc x => insert_by_count x acc) counts [].

(** [extract_hyperedges]; [None] when a row raises.  [cnt / n] is a
    float division, and [round(sup, 4)] rounds the float it gives. *)
Definition extract_hyperedges (class_df : DataFrame) (min_size max_size : Z)
    (min_support : Q) : option (list hyperedge_row) :=
  let n := Z.of_nat (length (data class_df)) in
  pats ← patterns class_df min_size max_size;
  let counts := Counter pats in
  Some (omap (fun '(pat, cnt) =>
                let sup := b64 (inject_Z cnt / inject_Z n) in
                if Qleb min_support sup
                then Some (mkHyperedge (join ", " (sorted_names (elements pat)))
                                       pat (set_len pat) cnt
                                       (py_round_float sup 4))
                else None)
             (most_common counts)).

(** One row of the centrality frame before the normalised columns. *)
Record centrality_row : Type := mkCentrality {
  Class : string;
  Degree : Z;
  Weighted_Degree : Q;
  Size_Weighted : Q
}.

(** The returned frame: its rows and the three normalised columns, each of
    which is either present (one value per row) or absent. *)
Record centrality_frame : Type := mkCentralityFrame {
  rows : list centrality_row;
  Degree_Norm : option (list Q);
  Weighted_Degree_Norm : option (list Q);
  Size_Weighted_Norm : option (list Q)
}.

(** The dictionaries [deg], [wd] and [swd]. *)
Record accumulators : Type := mkAcc {
  deg : gmap string Z;
  wd : gmap string Q;
  swd : gmap string Q
}.

(** The body of [for m in r["_set"]]; [+=] and [*] are float operations,
    on the floats that the row holds. *)
Definition visit_member (r : hyperedge_row) (acc : accumulators) (m : string)
  : accumulators :=
  match deg acc !! m with
  | Some d =>
      mkAcc (<[m := d + 1]> (deg acc))
            (<[m := b64 (default 0 (wd acc !! m) + Support r)%Q]> (wd acc))
            (<[m := b64 (default 0 (swd acc !! m)
                         + b64 (Support r * inject_Z (Size r)))%Q]> (swd acc))
  | None => acc
  end.

Definition visit_hyperedge (acc : accumulators) (r : hyperedge_row)
  : accumulators :=
  fold_left (visit_member r) (elements (_set r)) acc.

(** One step of a stable sort by decreasing [Size_Weighted]. *)
Fixpoint insert_by_size_weighted (x : centrality_row) (l : list centrality_row)
  : list centrality_row :=
  match l with
  | [] => [x]
  | y :: rest =>
      if Qltb (Size_Weighted y) (Size_Weighted x) then x :: l
      else y :: insert_by_size_weighted x rest
  end.

(** [sort_values("Size_Weighted", ascending=False)].  Rows of equal value
    keep their order here, as they do in pandas for a frame of at most 16
    rows; for a longer one the order among equal values is that of
    numpy's quicksort, which the facts below do not depend on. *)
Definition sort_by_size_weighted (l : list centrality_row)
  : list centrality_row :=
  fold_left (fun acc x => insert_by_size_weighted x acc) l [].

(** [mx = df[col].max(); if mx > 0: df[col + "_Norm"] = (df[col] / mx).round(4)];
    without the assignment the column does not exist.  The division is
    the float division of the column, the rounding that of numpy. *)
Definition norm_column (col : list Q) : option (list Q) :=
  let mx := Qmaximum col in
  if Qltb 0 mx then Some (map (fun x => np_round (b64 (x / mx)) 4) col)
  else None.

Definition hypergraph_centrality (hedges_df : list hyperedge_row)
    (all_classes : list string) : centrality_frame :=
  match all_classes with
  | [] => mkCentralityFrame [] (Some []) (Some []) (Some [])
  | _ =>
      let init :=
        mkAcc (list_to_map (map (fun c => (c, 0)) all_classes))
              (list_to_map (map (fun c => (c, 0%Q)) all_classes))
              (list_to_map (map (fun c => (c, 0%Q)) all_classes)) in
      let acc := fold_left visit_hyperedge hedges_df init in
      let rws :=
        map (fun c => mkCentrality c (default 0 (deg acc !! c))
                        (py_round_float (default 0%Q (wd acc !! c)) 4)
                        (py_round_float (default 0%Q (swd acc !! c)) 4))
            all_classes in
      let df := sort_by_size_weighted rws in
      mkCentralityFrame df
        (norm_column (map (fun r => inject_Z (Degree r)) df))
        (norm_column (map Weighted_Degree df))
        (norm_column (map Size_Weighted df))
  end.

End Hypergraph.

(** ** causal/discovery.py *)

Module Discovery.

(** *** Contingency tables *)

(** The rows of two aligned columns where both cells are present. *)
Definition valid_pairs (x y : list cell) : list (Z * Z) :=
  omap (fun '(a, b) =>
          match a, b with
          | Some a, Some b => Some (a, b)
          | _, _ => None
          end) (combine x y).

Fixpoint insert_level (z : Z) (l : list Z) : list Z :=
  match l with
  | [] => [z]
  | y :: rest =>
      if z <? y then z :: l
      else if z =? y then l
      else y :: insert_level z rest
  end.

(** The distinct values of a column, ascending: the labels of a table. *)
Definition levels (l : list Z) : list Z := fold_right insert_level [] l.

(** [pd.crosstab(x, y)]: counts of the pairs of present values, one row
    per level of [x] and one column per level of [y]. *)
Definition crosstab (x y : list cell) : list (list Z) :=
  let ps := valid_pairs x y in
  let rl := levels (map fst ps) in
  let cl := levels (map snd ps) in
  map (fun r =>
         map (fun c => countb (fun p => (fst p =? r) && (snd p =? c)) ps) cl)
      rl.

(** [tab.shape] *)
Definition shape (tab : list (list Z)) : nat * nat :=
  (length tab, match tab with [] => O | r :: _ => length r end).

Definition is_2x2 (tab : list (list Z)) : bool :=
  bool_decide (shape tab = (2%nat, 2%nat)).

(** [tab.values[r, c]] *)
Definition tab_at (tab : list (list Z)) (r c : nat) : Z :=
  nth c (nth r tab []) 0.

(** [(exp < 5).any()] for
    [exp = np.outer(tab.sum(axis=1), tab.sum(axis=0)) / tab.values.sum()]:
    the products are [int64], the division is that of floats. *)
Definition any_expected_below_5 (tab : list (list Z)) : bool :=
  let row_sums := map (fold_right Z.add 0) tab in
  let col_sums :=
    map (fun c => fold_right Z.add 0 (map (fun r => nth c r 0) tab))
        (seq 0 (snd (shape tab))) in
  let total := fold_right Z.add 0 row_sums in
  existsb (fun rs =>
             existsb (fun cs =>
                        Qltb (b64 (b64 (inject_Z (wrap64 (rs * cs)))
                                   / b64 (inject_Z total))) 5)
                     col_sums) row_sums.

(** [df[c]]; [None] stands for the [KeyError] of an unknown label. *)
Definition get_column (df : DataFrame) (c : string) : option (list cell) :=
  match col_pos c (columns df) with
  | Some j => Some (column_cells df j)
  | None => None
  end.

(** *** Strata *)

(** Keys of strata are tuples of cells; they are visited in ascending
    order, the missing value last. *)
Definition cell_compare (a b : cell) : comparison :=
  match a, b with
  | Some x, Some y => x ?= y
  | Some _, None => Lt
  | None, Some _ => Gt
  | None, None => Eq
  end.

Fixpoint key_compare (k1 k2 : list cell) : comparison :=
  match k1, k2 with
  | [], [] => Eq
  | [], _ :: _ => Lt
  | _ :: _, [] => Gt
  | a :: k1', b :: k2' =>
      match cell_compare a b with
      | Eq => key_compare k1' k2'
      | c => c
      end
  end.

Fixpoint insert_key (k : list cell) (l : list (list cell)) : list (list cell) :=
  match l with
  | [] => [k]
  | k' :: rest =>
      match key_compare k k' with
      | Lt => k :: l
      | Eq => l
      | Gt => k' :: insert_key k rest
      end
  end.

(** The distinct keys in visiting order. *)
Definition sorted_keys (keys : list (list cell)) : list (list cell) :=
  fold_right insert_key [] keys.

(** [df[S].apply(tuple, axis=1)] for one row. *)
Definition row_key (cols : list string) (S : list string) (row : list cell)
  : list cell :=
  map (row_get cols row) S.

(** [df.groupby(key)]: the rows of each stratum, stratum by stratum. *)
Definition strata (df : DataFrame) (S : list string) : list (list (list cell)) :=
  let keys := map (row_key (columns df) S) (data df) in
  map (fun k =>
         List.filter (fun row => bool_decide (row_key (columns df) S row = k))
                     (data df))
      (sorted_keys keys).

(** Sums, products and squares of numpy [int64] counts. *)
Definition i64_add (x y : Z) : Z := wrap64 (x + y).
Definition i64_sub (x y : Z) : Z := wrap64 (x - y).
Definition i64_mul (x y : Z) : Z := wrap64 (x * y).

(** An integer as a float. *)
Definition to_float (z : Z) : Q := b64 (inject_Z z).

(** The contribution of one stratum to [num] and [den]; [None] where the
    loop says [continue].  The entries of the table are [int64], and so
    are their sums and products up to the two divisions, which are float
    divisions, as the subtraction is a float subtraction.  (A divisor
    that wraps to 0 gives [inf] in the source; it takes a stratum of
    [2^32] rows and is left out.) *)
Definition stratum_terms (cols : list string) (i j : string)
    (st : list (list cell)) : option (Q * Q) :=
  let tab :=
    crosstab (map (fun row => row_get cols row i) st)
             (map (fun row => row_get cols row j) st) in
  if negb (is_2x2 tab) then None
  else
    let a := tab_at tab 0 0 in
    let b := tab_at tab 0 1 in
    let c := tab_at tab 1 0 in
    let d := tab_at tab 1 1 in
    let n := i64_add (i64_add (i64_add a b) c) d in
    if n <? 2 then None
    else
      Some (b64 (to_float a
                 - b64 (to_float (i64_mul (i64_add a b) (i64_add a c))
                        / to_float n)),
            b64 (to_float (i64_mul (i64_mul (i64_mul (i64_add a b) (i64_add c d))
                                            (i64_add a c))
                                   (i64_add b d))
                 / to_float (i64_mul (i64_mul n n) (i64_sub n 1))))%Q.

(** [num] and [den] after the loop over the strata, float sums from 0.0. *)
Definition cmh_sums (cols : list string) (i j : string)
    (sts : list (list (list cell))) : Q * Q :=
  fold_left (fun '(num, den) st =>
               match stratum_terms cols i j st with
               | Some (x, y) => (b64 (num + x)%Q, b64 (den + y)%Q)
               | None => (num, den)
               end) sts (0%Q, 0%Q).

Section Tests.

(** The p-values of [scipy.stats] are library code, taken as parameters:
    [fisher_exact tab] and [chi2_contingency tab] give the p-value of a
    table ([None] where [chi2_contingency] raises), [chi2_cdf x df] is
    [chi2.cdf]; the numbers they return are floats. *)
Variable fisher_exact : list (list Z) -> Q.
Variable chi2_contingency : list (list Z) -> option Q.
Variable chi2_cdf : Q -> Q -> Q.

(** [_ci_test]; [None] stands for an exception that leaves the function: an
    unknown column label, or [chi2_contingency] raising outside the
    [try]. *)
Definition _ci_test (df : DataFrame) (i j : string) (S : list string)
    (alpha : Q) : option (bool * Q) :=
  match S with
  | [] =>
      xi ← get_column df i;
      xj ← get_column df j;
      let tab := crosstab xi xj in
      p ← (if is_2x2 tab then
             if any_expected_below_5 tab then Some (fisher_exact tab)
             else chi2_contingency tab
           else
             match chi2_contingency tab with
             | Some p => Some p
             | None => Some 1%Q
             end);
      Some (Qltb alpha p, p)
  | _ :: _ =>
      let known := fun c : string => bool_decide (c ∈ columns df) in
      if negb (forallb known S) then None
      else
        let sts := strata df S in
        if negb (bool_decide (sts = [])) && negb (known i && known j) then None
        else
          let '(num, den) := cmh_sums (columns df) i j sts in
          if Qleb den 0 then Some (true, 1%Q)
          else
            let stat := b64 (b64 (num ^ 2) / den)%Q in
            let p := b64 (1 - chi2_cdf stat 1)%Q in
            Some (Qltb alpha p, p)
  end.

(** *** Graphs

    A networkx graph is its adjacency dictionary: the nodes in insertion
    order, each with its neighbours in insertion order. *)
Definition Graph : Type := list (string * list string).

Definition nodes (G : Graph) : list string := map fst G.

(** [G.neighbors(u)] *)
Fixpoint neighbors (G : Graph) (u : string) : list string :=
  match G with
  | [] => []
  | (n, ns) :: rest => if String.eqb n u then ns else neighbors rest u
  end.

Definition add_node (G : Graph) (n : string) : Graph :=
  if bool_decide (n ∈ nodes G) then G else G ++ [(n, [])].

(** [adj[u][v] = {}] *)
Definition adj_add (G : Graph) (u v : string) : Graph :=
  map (fun '(n, ns) =>
         if String.eqb n u
         then (n, if bool_decide (v ∈ ns) then ns else ns ++ [v])
         else (n, ns)) G.

(** [del adj[u][v]] *)
Definition adj_del (G : Graph) (u v : string) : Graph :=
  map (fun '(n, ns) =>
         if String.eqb n u
         then (n, List.filter (fun w => negb (String.eqb w v)) ns)
         else (n, ns)) G.

Definition add_edge (G : Graph) (u v : string) : Graph :=
  adj_add (adj_add (add_node (add_node G u) v) u v) v u.

Definition has_edge (G : Graph) (u v : string) : bool :=
  bool_decide (v ∈ neighbors G u).

Definition remove_edge (G : Graph) (u v : string) : Graph :=
  let G' := adj_del G u v in
  if String.eqb u v then G' else adj_del G' v u.

(** [G.edges()]: every node in order with those of its neighbours that
    have not been visited as a node before it. *)
Fixpoint edges_from (seen : list string) (G : Graph) : list (string * string) :=
  match G with
  | [] => []
  | (n, ns) :: rest =>
      map (pair n) (List.filter (fun nbr => negb (bool_decide (nbr ∈ seen))) ns)
      ++ edges_from (seen ++ [n]) rest
  end.

Definition edges (G : Graph) : list (string * string) := edges_from [] G.

(** A directed graph is its successor dictionary. *)
Definition DiGraph : Type := list (string * list string).

Definition di_add_edge (DG : DiGraph) (u v : string) : DiGraph :=
  adj_add (add_node (add_node DG u) v) u v.

Definition di_has_edge (DG : DiGraph) (u v : string) : bool :=
  bool_decide (v ∈ neighbors DG u).

Definition di_remove_edge (DG : DiGraph) (u v : string) : DiGraph :=
  adj_del DG u v.

(** [itertools.combinations(l, k)] *)
Fixpoint combinations {A} (l : list A) (k : nat) : list (list A) :=
  match k with
  | O => [[]]
  | S k' =>
      match l with
      | [] => []
      | x :: l' => map (cons x) (combinations l' k') ++ combinations l' k
      end
  end.

(** [combinations(l, 2)] as pairs. *)
Definition pairs_of {A} (l : list A) : list (A * A) :=
  omap (fun c => match c with [a; b] => Some (a, b) | _ => None end)
       (combinations l 2).

(** The graph built before phase 1: the complete graph on [features]. *)
Definition complete_graph (features : list string) : Graph :=
  fold_left (fun G '(u, v) => add_edge G u v) (pairs_of features)
            (fold_left add_node features []).

(** A loop whose body may raise. *)
Fixpoint foldM {A B} (f : B -> A -> option B) (l : list A) (b : B) : option B :=
  match l with
  | [] => Some b
  | x :: rest => b' ← f b x; foldM f rest b'
  end.

(** *** The PC skeleton *)

(** One record of the detail table. *)
Record detail : Type := mkDetail {
  Node1 : string;
  Node2 : string;
  Removed : bool;
  Cond_Set : string;
  P : Q;
  Cond_Size : Z
}.

(** What the scan of one size updates: [rm], [sep] and [details]. *)
Record scan_state : Type := mkScan {
  rm : list (string * string);
  sep : gmap (string * string) (list string);
  details : list detail
}.

(** The set [set(G.neighbors(u)) | set(G.neighbors(v)) - {u, v}] as Python
    parses it: the difference binds tighter than the union. *)
Definition conditioning_pool (G : Graph) (u v : string) : gset string :=
  list_to_set (neighbors G u) ∪ (list_to_set (neighbors G v) ∖ {[u; v]}).

(** The loop [for S in combinations(nbrs, sz)] with its [break]: the first
    subset found independent with its p-value, or [None] when the loop
    runs to its end. *)
Fixpoint first_indep (ci : list string -> option (bool * Q))
    (cands : list (list string)) : option (option (list string * Q)) :=
  match cands with
  | [] => Some None
  | Sc :: rest =>
      match ci Sc with
      | None => None
      | Some (indep, p) =>
          if indep then Some (Some (Sc, p)) else first_indep ci rest
      end
  end.

Section Skeleton.

(** [list(s)] of a set of names follows the order in which CPython stores
    them, which the hashes of the names and the way the set was built
    decide.  The order is a parameter: [set_order sz (u, v) s] is the list
    that the pass of size [sz] gets for the set [s] of the edge [(u, v)].
    A run lists one set per size and edge, so nothing is assumed about how
    the orders of two calls are related. *)
Variable set_order : Z -> string * string -> gset string -> list string.

Definition scan_edge (df : DataFrame) (alpha : Q) (G : Graph) (sz : Z)
    (st : scan_state) (e : string * string) : option scan_state :=
  let '(u, v) := e in
  let nbrs := set_order sz (u, v) (conditioning_pool G u v) in
  if Z.of_nat (length nbrs) <? sz then Some st
  else
    found ← first_indep (fun Sc => _ci_test df u v Sc alpha)
                        (combinations nbrs (Z.to_nat sz));
    match found with
    | Some (Sc, p) =>
        Some (mkScan (rm st ++ [(u, v)])
                     (<[(v, u) := Sc]> (<[(u, v) := Sc]> (sep st)))
                     (details st ++
                      [mkDetail u v true
                         (match Sc with [] => "∅" | _ => Hypergraph.join "," Sc end)
                         (py_round_float p 4) sz]))
    | None =>
        if sz =? 0 then
          '(_, p) ← _ci_test df u v [] alpha;
          Some (mkScan (rm st) (sep st)
                       (details st ++
                        [mkDetail u v false "—" (py_round_float p 4) (-1)]))
        else Some st
    end.

(** [for u, v in rm: if G.has_edge(u, v): G.remove_edge(u, v)] *)
Definition remove_marked (G : Graph) (marked : list (string * string)) : Graph :=
  fold_left (fun G '(u, v) => if has_edge G u v then remove_edge G u v else G)
            marked G.

(** One pass of phase 1, for the size [sz]. *)
Definition phase1_size (df : DataFrame) (alpha : Q)
    (acc : Graph * gmap (string * string) (list string) * list detail) (sz : Z)
  : option (Graph * gmap (string * string) (list string) * list detail) :=
  let '(G, sp, dt) := acc in
  st ← foldM (scan_edge df alpha G sz) (edges G) (mkScan [] sp dt);
  Some (remove_marked G (rm st), sep st, details st).

(** The body of [for i, j in combinations(G.neighbors(k), 2)]. *)
Definition orient_triple (G : Graph) (sp : gmap (string * string) (list string))
    (k : string) (DG : DiGraph) (ij : string * string) : DiGraph :=
  let '(i, j) := ij in
  if negb (has_edge G i j) then
    if negb (bool_decide (k ∈ default [] (sp !! (i, j)))) then
      let DG := if di_has_edge DG k i then di_remove_edge DG k i else DG in
      let DG := if di_has_edge DG k j then di_remove_edge DG k j else DG in
      DG
    else DG
  else DG.

(** Phase 2 *)
Definition orient (G : Graph) (sp : gmap (string * string) (list string))
  : DiGraph :=
  let DG := fold_left add_node (nodes G) [] in
  let DG :=
    fold_left (fun DG '(u, v) => di_add_edge (di_add_edge DG u v) v u)
              (edges G) DG in
  fold_left (fun DG k =>
               fold_left (orient_triple G sp k) (pairs_of (neighbors G k)) DG)
            (nodes G) DG.

(** [pc_skeleton]: the oriented graph and the rows of the detail table;
    [None] when a test raises. *)
Definition pc_skeleton (df : DataFrame) (features : list string) (alpha : Q)
    (max_cond : Z) : option (DiGraph * list detail) :=
  let G := complete_graph features in
  r ← foldM (phase1_size df alpha) (DecisionV3.py_range (max_cond + 1))
            (G, ∅, []);
  let '(G, sp, dt) := r in
  Some (orient G sp, dt).

End Skeleton.

End Tests.

End Discovery.

(** ** pipeline.py *)

Module Pipeline.

(** The ontology coverage report of [Pipeline.run]. *)
Record coverage_rep : Type := mkCoverage {
  n_classes_declared : Z;
  n_classes_matched : Z;
  n_drugs_declared : Z;
  n_drugs_matched : Z;
  matched_drug_columns_per_class : list (string * list string);
  unmatched_drug_columns_per_class : list (string * list string)
}.

(** The report for the columns of the phenotype table and the declared
    ontology, a dictionary given by its items in order. *)
Definition coverage (raw_cols : list string)
    (declared : list (string * list string)) : coverage_rep :=
  let matched :=
    map (fun '(cls, drugs) =>
           (cls, List.filter (fun d => bool_decide (d ∈ raw_cols)) drugs))
        declared in
  let unmatched :=
    map (fun '(cls, drugs) =>
           (cls, List.filter (fun d => negb (bool_decide (d ∈ raw_cols))) drugs))
        declared in
  mkCoverage
    (Z.of_nat (length declared))
    (countb (fun '(cls, ds) => (0 <? Z.of_nat (length ds))) matched)
    (fold_right Z.add 0 (map (fun '(_, v) => Z.of_nat (length v)) declared))
    (fold_right Z.add 0 (map (fun '(_, v) => Z.of_nat (length v)) matched))
    matched unmatched.

(** Steps 2 and 2a of [Pipeline.run]: the class matrix under the default
    rule, and the gate on the coverage of the ontology; [None] stands for
    the [ValueError]. *)
Definition classify (raw : Frame Q) (declared : list (string * list string))
    (min_classes_matched : Z) : option (DataFrame * coverage_rep) :=
  class_df ← Classification.build_class_matrix raw declared "any";
  let rep := coverage (columns raw) declared in
  if bool_decide (columns class_df = [])
     || (n_classes_matched rep <? min_classes_matched)
  then None
  else Some (class_df, rep).

End Pipeline.

(** * The vocabulary of the statements

    The predicates, reference definitions and example inputs that the
    facts below are stated with. *)

Module MdrFlagSpec.
Import Classification.

(** The number of class calls of a row that are known resistant: the
    calls equal to 1. *)
Definition known_resistant_calls (row : list cell) : Z :=
  Z.of_nat (length (List.filter (fun c : cell => bool_decide (c = Some 1)) row)).

(** The number of class calls of a row that are missing. *)
Definition missing_calls (row : list cell) : Z :=
  Z.of_nat (length (List.filter (fun c : cell => bool_decide (c = None)) row)).

(** A class matrix of three isolates with missing calls. *)
Definition example_classes : DataFrame :=
  mkFrame ["Pen"; "Tet"; "Mac"] ["s1"; "s2"; "s3"]
          [[Some 1; Some 1; None]; [Some 1; None; None]; [Some 0; Some 0; None]].

End MdrFlagSpec.

Module AggregationSpec.
Import Classification.

(** A drug was tested when its call is 0 or 1. *)
Definition tested (c : cell) : Prop := c = Some 0 \/ c = Some 1.

(** A drug is resistant when its call is 1. *)
Definition resistant (c : cell) : Prop := c = Some 1.

(** The three outcomes of the [any] rule on the cells of one isolate. *)
Definition any_rule_spec (vals : list cell) (call : cell) : Prop :=
  (call = Some 1 <-> exists v, In v vals /\ resistant v) /\
  (call = Some 0 <->
     (forall v, In v vals -> tested v) /\ ~ (exists v, In v vals /\ resistant v)) /\
  (call = None <->
     ~ (exists v, In v vals /\ resistant v) /\
     ~ (forall v, In v vals -> tested v)).

(** What the loop of [build_class_matrix] maintains about [out]: every
    column stems from a class of the ontology with a matched drug and holds
    that class's calls, row by row. *)
Definition columns_from (class_rule : string) (ph : DataFrame)
    (seen : list (string * list string)) (out : DataFrame) : Prop :=
  length (data out) = length (data ph) /\
  Forall (fun r => length r = length (columns out)) (data out) /\
  forall j cls, columns out !! j = Some cls ->
    exists drugs,
      In (cls, drugs) seen /\
      List.filter (fun d => bool_decide (d ∈ columns ph)) drugs <> [] /\
      column_cells out j
      = map (fun row =>
               class_call class_rule
                 (row_select (columns ph) row
                    (List.filter (fun d => bool_decide (d ∈ columns ph)) drugs)))
            (data ph).

(** Three isolates, three drugs; AMX is untested in two of them. *)
Definition example_pheno : Frame Q :=
  mkFrame ["AMP"; "AMX"; "TET"] ["s1"; "s2"; "s3"]
          [[Some 1%Q; None; Some 0%Q]; [Some 0%Q; None; None];
           [Some 0%Q; Some 0%Q; Some (5 # 2)%Q]].

(** Two classes; ZZZ is not a column of the matrix. *)
Definition example_ontology : list (string * list string) :=
  [("Pen", ["AMP"; "AMX"; "ZZZ"]); ("Tet", ["TET"])].

End AggregationSpec.

Module HyperedgeSpec.
Import Hypergraph.

(** The classes that a row calls resistant: the labels of the cells that
    hold 1, the labels and the cells read side by side. *)
Definition resistant_classes (cols : list string) (row : list cell)
  : gset string :=
  list_to_set
    (omap (fun cv : string * cell =>
             if bool_decide (snd cv = Some 1) then Some (fst cv) else None)
          (combine cols row)).

(** A matrix without a missing call. *)
Definition complete (class_df : DataFrame) : Prop :=
  forall row, In row (data class_df) -> ~ In None row.

(** How often the pattern [k] stands in [pats]. *)
Definition occurrences (k : gset string) (pats : list (gset string)) : Z :=
  countb (fun p => bool_decide (p = k)) pats.

(** A counter of the patterns seen so far: one item per distinct pattern,
    with the number of its occurrences. *)
Definition counts_of (seen : list (gset string))
    (counts : list (gset string * Z)) : Prop :=
  NoDup (map fst counts) /\
  (forall k, In k seen -> In k (map fst counts)) /\
  forall k c, In (k, c) counts -> c = occurrences k seen /\ 1 <= c.

(** The order of [most_common]: the earlier item counts at least as much. *)
Definition by_count : gset string * Z -> gset string * Z -> Prop :=
  fun x y => snd y <= snd x.

(** How many isolates carry exactly the resistant classes [k]. *)
Definition isolates_with (class_df : DataFrame) (k : gset string) : Z :=
  countb (fun row => bool_decide (resistant_classes (columns class_df) row = k))
         (data class_df).

(** The sets of the isolates that are within the two sizes. *)
Definition sized_patterns (class_df : DataFrame) (min_size max_size : Z)
  : list (gset string) :=
  List.filter (fun fs => (min_size <=? set_len fs) && (set_len fs <=? max_size))
              (map (resistant_classes (columns class_df)) (data class_df)).

(** The float that [cnt / n] gives. *)
Definition support_of (cnt n : Z) : Q := b64 (inject_Z cnt / inject_Z n).

(** The row made of one item of [most_common], when it is kept. *)
Definition row_of_item (n : Z) (min_support : Q) (item : gset string * Z)
  : option hyperedge_row :=
  let '(pat, cnt) := item in
  let sup := support_of cnt n in
  if Qleb min_support sup
  then Some (mkHyperedge (join ", " (sorted_names (elements pat)))
                         pat (set_len pat) cnt (py_round_float sup 4))
  else None.

(** Three isolates: {a, b} twice and {b, c} once. *)
Definition example_isolates : DataFrame :=
  mkFrame ["a"; "b"; "c"] ["s1"; "s2"; "s3"]
          [[Some 1; Some 1; Some 0]; [Some 0; Some 1; Some 1];
           [Some 1; Some 1; Some 0]].

(** The rows of the example at [min_support = 0.1]: {a, b} with Count 2
    and Support 0.6667, then {b, c} with Count 1 and Support 0.3333. *)
Definition example_rows : list hyperedge_row :=
  [mkHyperedge "a, b" {["a"; "b"]} 2 2 (b64 (6667 # 10000));
   mkHyperedge "b, c" {["b"; "c"]} 2 1 (b64 (3333 # 10000))].

End HyperedgeSpec.

Module CentralitySpec.
Import Hypergraph.

(** The three entries of a class. *)
Definition entries (acc : accumulators) (c : string)
  : option Z * option Q * option Q :=
  (deg acc !! c, wd acc !! c, swd acc !! c).

(** The rows before sorting. *)
Definition raw_rows (acc : accumulators) (all_classes : list string)
  : list centrality_row :=
  map (fun c => mkCentrality c (default 0 (deg acc !! c))
                  (py_round_float (default 0%Q (wd acc !! c)) 4)
                  (py_round_float (default 0%Q (swd acc !! c)) 4))
      all_classes.

(** The dictionaries before the loop: every class at zero. *)
Definition initial (all_classes : list string) : accumulators :=
  mkAcc (list_to_map (map (fun c => (c, 0)) all_classes))
        (list_to_map (map (fun c => (c, 0%Q)) all_classes))
        (list_to_map (map (fun c => (c, 0%Q)) all_classes)).

(** The hyperedges of the three example isolates. *)
Definition example_hyperedges : list hyperedge_row :=
  HyperedgeSpec.example_rows.

End CentralitySpec.

Module PosteriorSpec.
Import Classification DecisionV3.

(** All assignments of [m] missing classes, resistant ([true]) or not, in
    the order of [mask = 0, 1, 2, ...] with bit [i] for class [i]. *)
Fixpoint assignments (m : nat) : list (list bool) :=
  match m with
  | O => [[]]
  | S m' => flat_map (fun a => [false :: a; true :: a]) (assignments m')
  end.

(** The number of classes an assignment makes resistant. *)
Definition resistant_count (a : list bool) : Z := countb id a.

(** The weight of an assignment: the product, class by class, of the prior
    where the class is assigned 1 and of its complement where it is
    assigned 0. *)
Fixpoint assignment_weight (probs : list Q) (a : list bool) : Q :=
  match probs, a with
  | p :: probs', b :: a' =>
      ((if b then p else 1 - p) * assignment_weight probs' a')%Q
  | _, _ => 1%Q
  end.

(** The spec's enumeration: the total weight of the assignments whose
    resistant count, added to the known one, reaches the threshold. *)
Definition enumeration_sum (probs : list Q) (known threshold : Z) : Q :=
  Qsum (map (fun a =>
               if known + resistant_count a >=? threshold
               then assignment_weight probs a else 0%Q)
            (assignments (length probs))).

(** The weight of an assignment as the floats give it: the product is
    taken from left to right, from [pr], each complement and each product
    rounded. *)
Fixpoint rounded_weight (rnd : Q -> Q) (pr : Q) (probs : list Q)
    (a : list bool) : Q :=
  match probs, a with
  | p :: probs', b :: a' =>
      rounded_weight rnd (rnd (pr * (if b then p else rnd (1 - p)))%Q) probs' a'
  | _, _ => pr
  end.

(** The enumeration as the floats give it: the weights of the assignments
    that reach the threshold are added one by one, in the order of the
    assignments, each sum rounded. *)
Definition rounded_enumeration (rnd : Q -> Q) (probs : list Q)
    (known threshold : Z) : Q :=
  fold_left
    (fun p a =>
       if known + resistant_count a >=? threshold
       then rnd (p + rounded_weight rnd 1 probs a)%Q else p)
    (assignments (length probs)) 0%Q.

(** The number of entries of a series that are known resistant. *)
Definition resistant_entries (row : Series) : Z :=
  Z.of_nat (length (List.filter
                      (fun kv : string * cell => bool_decide (snd kv = Some 1))
                      row)).

(** The labels of the missing entries of a series, in its order. *)
Definition missing_labels (row : Series) : list string :=
  omap (fun kv : string * cell =>
          match snd kv with None => Some (fst kv) | Some _ => None end)
       row.

(** The prior of a class: its entry in the dictionary of priors, and 1/2
    where it has none or no dictionary is given. *)
Definition prior_at (priors : option (gmap string Q)) (c : string) : Q :=
  match priors with
  | Some d => match d !! c with Some p => p | None => (1 # 2)%Q end
  | None => (1 # 2)%Q
  end.

(** The bits [i], [i+1], ... of a mask, one per missing class. *)
Definition bits (mask i : Z) (n : nat) : list bool :=
  map (fun j => Z.testbit mask (i + Z.of_nat j)) (seq 0 n).

(** The classes known resistant and the classes missing in a series, as
    the source reads them off [row.to_dict()]. *)
Definition known_resistant (row : Series) : Z :=
  countb (fun kv : string * cell => cell_eqb (snd kv) 1) (to_dict row).

(** The labels of the missing classes, in the order of the series. *)
Definition missing_classes (row : Series) : list string :=
  map fst (List.filter (fun kv : string * cell => isna (snd kv)) (to_dict row)).

(** One class known resistant, two missing. *)
Definition example_series : Series := [("a", Some 1); ("b", None); ("c", None)].

(** Priors of the two missing classes. *)
Definition example_prior : option (gmap string Q) :=
  Some (list_to_map [("b", 1 # 2); ("c", 1 # 4)]%Q).

End PosteriorSpec.

Module ConvolutionSpec.
Import Classification DecisionV3 PosteriorSpec.

(** The mass of a distribution from position [j] on; all of it for
    [j <= 0]. *)
Definition tail_from (dist : list Q) (j : Z) : Q := Qsum (drop (Z.to_nat j) dist).

(** The priors that [_posterior_mdr_prob] is given: the prevalences of
    the columns, as [mdr_probability] computes them. *)
Definition column_priors (rnd : Q -> Q) (class_df : DataFrame)
  : option (gmap string Q) :=
  Some (list_to_map (combine (columns class_df) (p_class rnd class_df))).

(** A class matrix of four isolates: the prevalences of its classes are
    1/2, 1/2 and 1/3, and the first isolate has no call at all. *)
Definition example_untested : DataFrame :=
  mkFrame ["a"; "b"; "c"] ["s1"; "s2"; "s3"; "s4"]
          [[None; None; None]; [Some 1; Some 1; Some 1];
           [Some 0; Some 0; Some 0]; [None; None; Some 0]].

End ConvolutionSpec.

Module IndependenceSpec.
Import Discovery.

(** The contingency table of a stratum. *)
Definition stratum_table (cols : list string) (i j : string)
    (st : list (list cell)) : list (list Z) :=
  crosstab (map (fun row => row_get cols row i) st)
           (map (fun row => row_get cols row j) st).

(** The number [n] of the rows of a stratum that enter its table, as the
    [int64] sum of the four entries. *)
Definition stratum_size (cols : list string) (i j : string)
    (st : list (list cell)) : Z :=
  let tab := stratum_table cols i j st in
  i64_add (i64_add (i64_add (tab_at tab 0 0) (tab_at tab 0 1)) (tab_at tab 1 0))
          (tab_at tab 1 1).

(** A stratum is degenerate when its table is not 2x2 or holds fewer than
    two rows. *)
Definition degenerate (cols : list string) (i j : string)
    (st : list (list cell)) : bool :=
  negb (is_2x2 (stratum_table cols i j st)) || (stratum_size cols i j st <? 2).

(** The body of the loop over the strata. *)
Definition cmh_step (cols : list string) (i j : string) (acc : Q * Q)
    (st : list (list cell)) : Q * Q :=
  let '(num, den) := acc in
  match stratum_terms cols i j st with
  | Some (x, y) => (b64 (num + x)%Q, b64 (den + y)%Q)
  | None => (num, den)
  end.

(** The label names a column of the frame. *)
Definition known (df : DataFrame) (c : string) : bool :=
  bool_decide (c ∈ columns df).

(** A cohort of eight isolates with three identical columns: four
    isolates resistant to everything, four to nothing. *)
Definition example_cohort : DataFrame :=
  mkFrame ["A"; "B"; "C"] ["0"; "1"; "2"; "3"; "4"; "5"; "6"; "7"]
          (repeat [Some 1; Some 1; Some 1] 4 ++ repeat [Some 0; Some 0; Some 0] 4).

End IndependenceSpec.

Module GraphSpec.
Import Discovery.

(** [x] stands in the neighbour dictionary of [n]. *)
Definition In_adj (G : Graph) (n x : string) : Prop :=
  exists ns, In (n, ns) G /\ In x ns.

(** The graphs of the skeleton learner: every node has one entry, and
    adjacency is symmetric. *)
Definition good (G : Graph) : Prop :=
  List.NoDup (nodes G) /\ forall n x, In_adj G n x -> In_adj G x n.

(** All names of a graph come from [names]. *)
Definition within (names : list string) (G : Graph) : Prop :=
  (forall n, In n (nodes G) -> In n names) /\
  (forall n x, In_adj G n x -> In x names).

(** No node has a neighbour. *)
Definition edgeless (G : Graph) : Prop := forall n x, ~ In_adj G n x.

End GraphSpec.

Module SkeletonSpec.
Import Discovery GraphSpec IndependenceSpec.

(** The pool as the spec words it: the neighbours of [u] and of [v]
    without [u] and [v] themselves.  [conditioning_pool], the pool of the
    source, is compared with it. *)
Definition documented_pool (G : Graph) (u v : string) : gset string :=
  (list_to_set (neighbors G u) ∪ list_to_set (neighbors G v)) ∖ {[u; v]}.

(** The order in which the calls of [list] on a set list it: whatever
    the size of the pass and the edge are, the members of the set, each
    once. *)
Definition set_iteration
    (order : Z -> string * string -> gset string -> list string) : Prop :=
  forall sz e X, Permutation (order sz e X) (elements X).

(** What a row of the detail table decides: the edge, whether it is
    removed, and at which size. *)
Definition decision (d : detail) : string * string * bool * Z :=
  (Node1 d, Node2 d, Removed d, Cond_Size d).

(** Binomial coefficients, by Pascal's rule. *)
Fixpoint binomial (n k : nat) : Z :=
  match n with
  | O => match k with O => 1 | S _ => 0 end
  | S n' => match k with O => 1 | S k' => binomial n' k' + binomial n' k end
  end.

(** [scipy.stats.fisher_exact] on a 2x2 table, two-sided, in exact
    arithmetic: the total probability of the tables with the same margins
    that are no more probable than the observed one.  It runs the
    examples; the theorems hold for any p-value function. *)
Definition fisher_two_sided (tab : list (list Z)) : Q :=
  let r1 := Z.to_nat (tab_at tab 0 0 + tab_at tab 0 1) in
  let r2 := Z.to_nat (tab_at tab 1 0 + tab_at tab 1 1) in
  let c1 := Z.to_nat (tab_at tab 0 0 + tab_at tab 1 0) in
  let pmf := fun x : nat =>
    (inject_Z (binomial r1 x * binomial r2 (c1 - x))
     / inject_Z (binomial (r1 + r2) c1))%Q in
  let observed := pmf (Z.to_nat (tab_at tab 0 0)) in
  Qsum (map (fun x => if Qleb (pmf x) observed then pmf x else 0%Q)
            (seq 0 (S c1))).

(** Two runs: one in which every call lists its set in one order... *)
Definition forward_order (sz : Z) (e : string * string) (X : gset string)
  : list string := elements X.

(** ... and one in which every call lists it in the reverse order. *)
Definition backward_order (sz : Z) (e : string * string) (X : gset string)
  : list string := reverse (elements X).

(** [pc_skeleton] on the example cohort at alpha = 0.05, under a given
    iteration order.  The unconditional tables are [[4, 0], [0, 4]], with
    Fisher's p = 1/35 < 0.05, so no edge is removed at size 0. *)
Definition run (order : Z -> string * string -> gset string -> list string)
    (max_cond : Z)
  : option (DiGraph * list detail) :=
  pc_skeleton fisher_two_sided (fun _ => None) (fun _ _ => 0%Q) order
              example_cohort ["A"; "B"; "C"] (5 # 100) max_cond.

End SkeletonSpec.

Module RulesSpec.
Import Classification AggregationSpec.

(** The drugs of a class that are columns of the phenotype table. *)
Definition present_drugs (cols : list string) (drugs : list string)
  : list string :=
  List.filter (fun d => bool_decide (d ∈ cols)) drugs.

(** The classes of the ontology with at least one matched drug. *)
Definition matched_classes (cols : list string)
    (class_to_drugs : list (string * list string))
  : list (string * list string) :=
  List.filter (fun e => negb (bool_decide (present_drugs cols (snd e) = [])))
              class_to_drugs.

(** The class matrix in closed form: one column per matched class, in the
    order of the ontology, and in each row the call of the rule on the
    matched drugs of the class. *)
Definition class_matrix (class_rule : string) (ph : DataFrame)
    (class_to_drugs : list (string * list string)) : DataFrame :=
  mkFrame (map fst (matched_classes (columns ph) class_to_drugs)) (index ph)
    (map (fun row =>
            map (fun e =>
                   class_call class_rule
                     (row_select (columns ph) row
                                 (present_drugs (columns ph) (snd e))))
                (matched_classes (columns ph) class_to_drugs))
         (data ph)).

(** The outcomes of the [all] rule on the cells of one isolate. *)
Definition all_rule_spec (vals : list cell) (call : cell) : Prop :=
  (call = Some 1 <-> forall v, In v vals -> resistant v) /\
  (call = Some 0 <->
     (forall v, In v vals -> tested v) /\ exists v, In v vals /\ v = Some 0) /\
  (call = None <-> ~ (forall v, In v vals -> tested v)).

(** The number of resistant and of tested cells of one isolate. *)
Definition n_resistant (vals : list cell) : Z :=
  countb (fun c => cell_eqb c 1) vals.

Definition n_tested (vals : list cell) : Z :=
  countb (fun c => cell_eqb c 1) vals + countb (fun c => cell_eqb c 0) vals.

(** The outcomes of the [majority] rule on the cells of one isolate. *)
Definition majority_rule_spec (vals : list cell) (call : cell) : Prop :=
  (call = Some 1 <-> n_tested vals < 2 * n_resistant vals) /\
  (call = Some 0 <->
     (forall v, In v vals -> tested v) /\ 2 * n_resistant vals <= n_tested vals) /\
  (call = None <->
     ~ (forall v, In v vals -> tested v) /\ 2 * n_resistant vals <= n_tested vals).

(** A call of the class matrix is 0, 1 or missing. *)
Definition binary (c : cell) : Prop := c = None \/ c = Some 0 \/ c = Some 1.

End RulesSpec.

Module SpectrumSpec.
Import Classification MdrFlagSpec.

(** The categories in the order of [cat]'s tests, the most severe
    highest. *)
Definition severity (c : string) : Z :=
  if String.eqb c "PDR" then 3
  else if String.eqb c "XDR" then 2
  else if String.eqb c "MDR" then 1
  else 0.

End SpectrumSpec.

Module ProbabilitySpec.
Import Classification DecisionV3 MdrFlagSpec PosteriorSpec ConvolutionSpec.

(** No entry of the list is negative. *)
Definition nonneg_list (l : list Q) : Prop := forall x, In x l -> (0 <= x)%Q.

(** A class matrix of six isolates in which the classes a and b have the
    prevalences 1/3 and 1/5; the first isolate is resistant to c and has
    no call for a and b. *)
Definition example_thirds : DataFrame :=
  mkFrame ["a"; "b"; "c"] ["s1"; "s2"; "s3"; "s4"; "s5"; "s6"]
          [[None; None; Some 1]; [Some 1; Some 1; Some 0];
           [Some 0; Some 0; Some 0]; [Some 0; Some 0; Some 0];
           [None; Some 0; Some 0]; [None; Some 0; Some 0]].

End ProbabilitySpec.

Module PrevalenceTableSpec.
Import Classification.

(** The answer for an empty sample: four times [nan]. *)
Definition no_estimate : prevalence := mkPrevalence None None None None.

End PrevalenceTableSpec.

Module EvpiSpec.
Import Classification DecisionV3 PosteriorSpec ConvolutionSpec RulesSpec PrevalenceTableSpec.

(** Every call of the matrix is 0, 1 or missing. *)
Definition binary_frame (df : DataFrame) : Prop :=
  forall row c, In row (data df) -> In c row -> binary c.

(** The floor [1e-9] of a test cost. *)
Definition cost_floor : Q := 1 # 1000000000.

(** The number of missing calls of a matrix. *)
Definition missing_cells (df : DataFrame) : Z :=
  fold_right Z.add 0 (map n_missing (data df)).

(** The row that [next_best_test_evpi] appends for the isolate [idx] with
    the calls [row] and its missing class [c]. *)
Definition evpi_row_for (class_df : DataFrame) (mdr_threshold : Z)
    (test_costs : list (string * option Q)) (fn_cost fp_cost : Q)
    (idx : string) (row : list cell) (c : string) : evpi_row :=
  let prev := prevalence_dict class_df in
  let s := series_of (columns class_df) row in
  let p_mdr := _posterior_mdr_prob s mdr_threshold (Some prev) in
  let risk0 := bayes_risk fn_cost fp_cost p_mdr in
  let pc := default (1 # 2)%Q (prev !! c) in
  let p1 := _posterior_mdr_prob (series_set s c 1) mdr_threshold (Some prev) in
  let p0 := _posterior_mdr_prob (series_set s c 0) mdr_threshold (Some prev) in
  let risk_after :=
    (pc * bayes_risk fn_cost fp_cost p1
     + (1 - pc) * bayes_risk fn_cost fp_cost p0)%Q in
  let evpi := Qmax (risk0 - risk_after) 0 in
  let cost := default 1%Q (cost_dict (columns class_df) test_costs !! c) in
  mkEvpi idx c p_mdr risk0 risk_after evpi cost (evpi / cost)%Q pc
         (if Qltb 0 p_mdr && Qltb p_mdr 1 then 1 else 0)
         (countb notna row).

(** The missing classes of a row, in column order. *)
Definition missing_of (cols : list string) (row : list cell) : list string :=
  List.filter (fun c => isna (row_get cols row c)) cols.

(** The rows of all isolates, in index order. *)
Definition unsorted_rows (class_df : DataFrame) (mdr_threshold : Z)
    (test_costs : list (string * option Q)) (fn_cost fp_cost : Q)
  : list evpi_row :=
  flat_map (fun ir : string * list cell =>
              map (evpi_row_for class_df mdr_threshold test_costs fn_cost
                                fp_cost (fst ir) (snd ir))
                  (missing_of (columns class_df) (snd ir)))
           (combine (index class_df) (data class_df)).

(** The order of the returned rows, field by field: [x] stands before
    [y]. *)
Definition evpi_ordered (x y : evpi_row) : Prop :=
  String.compare (DecisionV3.Strain_ID x) (DecisionV3.Strain_ID y) <> Gt /\
  (DecisionV3.Strain_ID x = DecisionV3.Strain_ID y ->
   (EVPI_per_Cost y <= EVPI_per_Cost x)%Q /\
   ((EVPI_per_Cost y == EVPI_per_Cost x)%Q ->
    (EVPI_RiskReduction y <= EVPI_RiskReduction x)%Q)).

(** The row for the isolate s2 of the example matrix and its missing class
    Tet, at threshold 2, unit costs and the default error costs. *)
Definition example_evpi_row : evpi_row :=
  evpi_row_for MdrFlagSpec.example_classes 2 [] 5 1 "s2"
               [Some 1; None; None] "Tet".

End EvpiSpec.

Module PatternSpec.
Import Hypergraph HyperedgeSpec.

(** The total of the counts of a counter. *)
Definition total_count (counts : list (gset string * Z)) : Z :=
  fold_right Z.add 0 (map snd counts).

(** An example of a matrix with a missing call. *)
Definition example_missing_call : DataFrame :=
  mkFrame ["a"; "b"; "c"] ["s1"; "s2"]
          [[Some 1; Some 1; Some 0]; [Some 1; None; Some 1]].

End PatternSpec.

Module MeasureSpec.
Import Hypergraph CentralitySpec.

(** The hyperedges that contain a class. *)
Definition containing (c : string) (hedges : list hyperedge_row)
  : list hyperedge_row :=
  List.filter (fun h => bool_decide (c ∈ _set h)) hedges.

(** The rows in order of descending Size_Weighted. *)
Definition by_size_weighted (r1 r2 : centrality_row) : Prop :=
  (Size_Weighted r2 <= Size_Weighted r1)%Q.

(** [s = s0; for x in l: s += x] on floats. *)
Definition float_sum_from (s0 : Q) (l : list Q) : Q :=
  fold_left (fun s x => b64 (s + x)) l s0.

(** The running float sum of a list, from 0.0. *)
Definition float_sum (l : list Q) : Q := float_sum_from 0 l.

End MeasureSpec.

Module RunSpec.
Import Discovery GraphSpec IndependenceSpec SkeletonSpec.

(** What is taken of [scipy.stats.chi2_contingency]: on a 2x2 table whose
    expected counts are all at least 5 it returns a p-value. *)
Definition chi2_defined (chi2_contingency : list (list Z) -> option Q) : Prop :=
  forall tab, is_2x2 tab = true -> any_expected_below_5 tab = false ->
              chi2_contingency tab <> None.

(** The row of the detail table for the unconditional test of a pair. *)
Definition marginal_row (u v : string) (indep : bool) (p : Q) : detail :=
  mkDetail u v indep (if indep then "∅" else "—") (py_round_float p 4)
           (if indep then 0 else -1).

End RunSpec.

Module GateSpec.
Import Classification Pipeline RulesSpec.

(** The number of unmatched drug columns of a report. *)
Definition n_drugs_unmatched (rep : coverage_rep) : Z :=
  fold_right Z.add 0
    (map (fun '(_, v) => Z.of_nat (length v))
         (unmatched_drug_columns_per_class rep)).

(** The example of a phenotype table with the drug columns [AMP] and
    [CIP], and an ontology that also names drugs the table lacks. *)
Definition example_raw : Frame Q :=
  mkFrame ["AMP"; "CIP"] ["s1"; "s2"]
          [[Some (8 # 1)%Q; Some 0%Q]; [None; Some (1 # 2)%Q]].

Definition example_declared : list (string * list string) :=
  [("BetaLactam", ["AMP"; "AMX"]); ("Quinolone", ["CIP"]);
   ("Tetracycline", ["TET"])].

End GateSpec.

(** * Facts *)

(** ** Counting and lookups *)

Section Counting.
Context {A : Type} (f : A -> bool).

Lemma countb_nil : countb f [] = 0.
Proof. reflexivity. Qed.

Lemma countb_cons x l :
  countb f (x :: l) = (if f x then 1 else 0) + countb f l.
Proof.
  unfold countb. simpl. destruct (f x); simpl length; lia.
Qed.

Lemma countb_nonneg l : 0 <= countb f l.
Proof. unfold countb. lia. Qed.

Lemma countb_le_length l : countb f l <= Z.of_nat (length l).
Proof.
  induction l as [|x l IH]; [rewrite countb_nil; simpl; lia|].
  rewrite countb_cons. simpl length. destruct (f x); lia.
Qed.

Lemma countb_pos_iff l :
  1 <= countb f l <-> exists x, In x l /\ f x = true.
Proof.
  induction l as [|x l IH].
  - rewrite countb_nil. split; [lia|]. intros (x & [] & _).
  - rewrite countb_cons. pose proof (countb_nonneg l) as Hn.
    destruct (f x) eqn:E.
    + split; [|lia]. intros _. exists x. split; [now left|exact E].
    + split.
      * intros H. destruct (proj1 IH) as (y & Hy & Hfy); [lia|].
        exists y. split; [now right|exact Hfy].
      * intros (y & [->|Hy] & Hfy); [congruence|].
        assert (1 <= countb f l) by (apply IH; eauto). lia.
Qed.

Lemma countb_zero_iff l :
  countb f l = 0 <-> forall x, In x l -> f x = false.
Proof.
  pose proof (countb_pos_iff l) as Hp. pose proof (countb_nonneg l) as Hn.
  split.
  - intros H x Hx. destruct (f x) eqn:E; [|reflexivity].
    assert (1 <= countb f l) by (apply Hp; eauto). lia.
  - intros H. destruct (Z.eq_dec (countb f l) 0) as [|Hne]; [assumption|].
    destruct (proj1 Hp) as (x & Hx & Hfx); [lia|].
    rewrite (H x Hx) in Hfx. discriminate.
Qed.

Lemma countb_all_iff l :
  countb f l = Z.of_nat (length l) <-> forall x, In x l -> f x = true.
Proof.
  induction l as [|x l IH].
  - rewrite countb_nil. simpl. split; [intros _ x []|reflexivity].
  - rewrite countb_cons. simpl length.
    pose proof (countb_le_length l) as Hle.
    destruct (f x) eqn:E.
    + split.
      * intros H y [->|Hy]; [exact E|]. apply IH; [lia|exact Hy].
      * intros H. assert (countb f l = Z.of_nat (length l)) as ->.
        { apply IH. intros y Hy. apply H. now right. }
        lia.
    + split; [lia|]. intros H. specialize (H x (or_introl eq_refl)). congruence.
Qed.

End Counting.

Lemma countb_disjoint_sum {A} (f g : A -> bool) l :
  (forall x, In x l -> f x = true -> g x = false) ->
  countb f l + countb g l = countb (fun x => f x || g x) l.
Proof.
  induction l as [|x l IH]; intros H; [reflexivity|].
  rewrite !countb_cons. rewrite <- IH by (intros y Hy; apply H; now right).
  specialize (H x (or_introl eq_refl)).
  destruct (f x); [rewrite H by reflexivity|]; simpl; destruct (g x); lia.
Qed.

Lemma lookup_combine {A B} (l1 : list A) (l2 : list B) (i : nat) a b :
  combine l1 l2 !! i = Some (a, b) <-> l1 !! i = Some a /\ l2 !! i = Some b.
Proof.
  revert l2 i. induction l1 as [|x l1 IH]; intros [|y l2] i; simpl;
    try (split; [discriminate|intros [? ?]; destruct i; discriminate]).
  destruct i as [|i]; simpl.
  - split; [intros [= -> ->]; auto|intros [[= ->] [= ->]]; reflexivity].
  - apply IH.
Qed.

Lemma lookup_map {A B} (f : A -> B) (l : list A) (i : nat) :
  map f l !! i = f <$> (l !! i).
Proof.
  revert i. induction l as [|x l IH]; intros [|i]; simpl; auto.
Qed.

Module MdrFlagFacts.
Import Classification.
Import MdrFlagSpec.

(** The flag of a row, read off the source's three assignments. *)
Lemma identify_mdr_row_spec row threshold :
  let flag := identify_mdr_row row threshold in
  (flag = MdrTrue <-> min_res row >= threshold) /\
  (flag = MdrFalse <-> min_res row + n_missing row < threshold) /\
  (flag = MdrNA <->
     min_res row < threshold /\ threshold <= min_res row + n_missing row).
Proof.
  unfold identify_mdr_row, max_res.
  pose proof (countb_nonneg isna row) as Hm. fold (n_missing row) in Hm.
  destruct (Z.geb_spec (min_res row) threshold);
    destruct (Z.ltb_spec (min_res row + n_missing row) threshold);
    destruct (Z.ltb_spec (min_res row) threshold);
    destruct (Z.geb_spec (min_res row + n_missing row) threshold);
    simpl; repeat split; intros; try discriminate; try lia; try reflexivity.
Qed.

Lemma min_res_known_resistant row : min_res row = known_resistant_calls row.
Proof.
  unfold min_res, known_resistant_calls, countb. do 2 f_equal.
  apply List.filter_ext. intros [z|]; cbn [cell_eqb].
  - destruct (Z.eqb_spec z 1) as [->|Hne].
    + rewrite bool_decide_eq_true_2; reflexivity.
    + rewrite bool_decide_eq_false_2; [reflexivity|congruence].
  - rewrite bool_decide_eq_false_2; [reflexivity|discriminate].
Qed.

Lemma n_missing_missing_calls row : n_missing row = missing_calls row.
Proof.
  unfold n_missing, missing_calls, countb. do 2 f_equal.
  apply List.filter_ext. intros [z|]; cbn [isna].
  - rewrite bool_decide_eq_false_2; [reflexivity|discriminate].
  - rewrite bool_decide_eq_true_2; reflexivity.
Qed.

(** C10. [identify_mdr] gives the row of every isolate one of True, False
    and NA: True iff the number of calls equal to 1 reaches the threshold,
    False iff that number plus the number of missing calls stays below it,
    NA iff the threshold lies between the two; so it never answers False
    once the known-resistant count meets the threshold. *)
Theorem identify_mdr_trichotomy (class_df : DataFrame) (threshold : Z)
    (i : nat) (sid : string) (row : list cell) :
  index class_df !! i = Some sid ->
  data class_df !! i = Some row ->
  let known := known_resistant_calls row in
  let possible := known + missing_calls row in
  exists flag,
    identify_mdr class_df threshold !! i = Some (sid, flag) /\
    (flag = MdrTrue <-> threshold <= known) /\
    (flag = MdrFalse <-> possible < threshold) /\
    (flag = MdrNA <-> known < threshold /\ threshold <= possible) /\
    (threshold <= known -> flag <> MdrFalse).
Proof.
  intros Hi Hr known possible. subst known possible.
  exists (identify_mdr_row row threshold).
  assert (Hlk : identify_mdr class_df threshold !! i
                = Some (sid, identify_mdr_row row threshold)).
  { unfold identify_mdr. apply lookup_combine. split; [exact Hi|].
    rewrite lookup_map, Hr. reflexivity. }
  destruct (identify_mdr_row_spec row threshold) as (HT & HF & HN).
  rewrite min_res_known_resistant in HT, HF, HN.
  rewrite n_missing_missing_calls in HF, HN.
  split; [exact Hlk|].
  split; [rewrite HT; lia|]. split; [exact HF|]. split; [exact HN|].
  intros Hge Hfl. assert (identify_mdr_row row threshold = MdrTrue)
    by (apply HT; lia). congruence.
Qed.

(** At threshold 2 the second isolate of the example, with one class
    known resistant and two missing, is flagged NA. *)
Lemma identify_mdr_trichotomy_witness :
  known_resistant_calls [Some 1; None; None] = 1 /\
  missing_calls [Some 1; None; None] = 2 /\
  identify_mdr example_classes 2 !! 1%nat = Some ("s2", MdrNA).
Proof.
  split; [reflexivity|]. split; [reflexivity|].
  destruct (identify_mdr_trichotomy example_classes 2 1 "s2" [Some 1; None; None]
              eq_refl eq_refl) as (flag & Hlk & _ & _ & HN & _).
  assert (E : flag = MdrNA) by (apply HN; vm_compute; split; [reflexivity|discriminate]).
  rewrite E in Hlk. exact Hlk.
Defined.

(** The three flags on the example: the first isolate is MDR whatever its
    missing call is, the third cannot reach the threshold. *)
Lemma identify_mdr_example :
  identify_mdr example_classes 2
  = [("s1", MdrTrue); ("s2", MdrNA); ("s3", MdrFalse)].
Proof. reflexivity. Qed.

End MdrFlagFacts.

Lemma col_pos_Some c cols j :
  col_pos c cols = Some j -> cols !! j = Some c.
Proof.
  revert j. induction cols as [|c' cols IH]; intros j; simpl; [discriminate|].
  destruct (String.eqb_spec c c') as [->|Hne].
  - intros [= <-]. reflexivity.
  - destruct (col_pos c cols) as [k|]; simpl; [|discriminate].
    intros [= <-]. simpl. apply IH. reflexivity.
Qed.

Lemma col_pos_None c cols : col_pos c cols = None -> ~ In c cols.
Proof.
  induction cols as [|c' cols IH]; simpl; [tauto|].
  destruct (String.eqb_spec c c') as [->|Hne]; [discriminate|].
  destruct (col_pos c cols); simpl; [discriminate|].
  intros _ [Heq|Hin]; [congruence|]. apply IH; auto.
Qed.

Lemma col_pos_In c cols : In c cols -> exists j, col_pos c cols = Some j.
Proof.
  intros Hin. destruct (col_pos c cols) as [j|] eqn:E; [eauto|].
  apply col_pos_None in E. contradiction.
Qed.

Module AggregationFacts.
Import Classification.
Import AggregationSpec.

Lemma cell_eqb_true c k : cell_eqb c k = true <-> c = Some k.
Proof.
  destruct c as [z|]; simpl; [|split; discriminate].
  rewrite Z.eqb_eq. split; [intros ->; reflexivity|intros [= ->]; reflexivity].
Qed.

Lemma all_tested_iff (vals : list cell) :
  countb (fun c => cell_eqb c 1) vals + countb (fun c => cell_eqb c 0) vals
  = Z.of_nat (length vals)
  <-> forall v, In v vals -> tested v.
Proof.
  rewrite countb_disjoint_sum.
  - rewrite countb_all_iff. split; intros H v Hv; specialize (H v Hv).
    + apply orb_true_iff in H as [H|H]; apply cell_eqb_true in H;
        [right|left]; exact H.
    + apply orb_true_iff. destruct H as [H|H]; [right|left];
        apply cell_eqb_true; exact H.
  - intros v _ H. apply cell_eqb_true in H. subst v. reflexivity.
Qed.

Lemma class_call_any vals : any_rule_spec vals (class_call "any" vals).
Proof.
  unfold class_call. simpl String.eqb. cbv iota.
  set (nr := countb (fun c => cell_eqb c 1) vals).
  set (ns := countb (fun c => cell_eqb c 0) vals).
  assert (Hres : 1 <= nr <-> exists v, In v vals /\ resistant v).
  { unfold nr. rewrite countb_pos_iff. split; intros (v & Hv & H); exists v;
      (split; [exact Hv|]); apply cell_eqb_true; exact H. }
  assert (Hall : nr + ns = Z.of_nat (length vals)
                 <-> forall v, In v vals -> tested v)
    by apply all_tested_iff.
  pose proof (countb_nonneg (fun c => cell_eqb c 1) vals) as Hnn. fold nr in Hnn.
  unfold any_rule_spec.
  destruct (Z.geb_spec nr 1) as [Hge|Hlt]; simpl.
  - rewrite andb_false_r. simpl.
    assert (Hex : exists v, In v vals /\ resistant v) by (apply Hres; lia).
    repeat split; try discriminate; try tauto.
  - assert (Hno : ~ exists v, In v vals /\ resistant v)
      by (intros Hex; apply Hres in Hex; lia).
    rewrite andb_true_r.
    destruct (Z.eqb_spec (nr + ns) (Z.of_nat (length vals))) as [He|Hne];
      destruct (Z.eqb_spec nr 0) as [Hz|Hnz]; simpl; try lia;
      repeat split; try discriminate; try tauto.
Qed.

Lemma column_cells_replace (rows : list (list cell)) (s : list cell) j j' :
  length rows = length s ->
  Forall (fun r => (j < length r)%nat) rows ->
  map (fun row => nth j' row None)
      (map (fun '(row, v) => <[j := v]> row) (combine rows s))
  = if decide (j' = j) then s else map (fun row => nth j' row None) rows.
Proof.
  revert s. induction rows as [|r rows IH]; intros [|v s] Hlen Hall;
    simpl in *; try discriminate.
  - destruct (decide (j' = j)); reflexivity.
  - inversion Hall as [|? ? Hr Hrest]; subst.
    specialize (IH s ltac:(lia) Hrest).
    rewrite IH. destruct (decide (j' = j)) as [->|Hne].
    + f_equal. apply nth_lookup_Some. apply list_lookup_insert_eq. exact Hr.
    + f_equal. destruct (decide (j' < length r)%nat) as [Hlt|Hge].
      * destruct (lookup_lt_is_Some_2 r j' Hlt) as [x Hx].
        rewrite (nth_lookup_Some _ _ _ _ Hx).
        apply nth_lookup_Some. rewrite list_lookup_insert_ne by auto. exact Hx.
      * rewrite !nth_overflow; [reflexivity|lia|rewrite length_insert; lia].
Qed.

Lemma column_cells_append (rows : list (list cell)) (s : list cell) n j' :
  length rows = length s ->
  Forall (fun r => length r = n) rows ->
  map (fun row => nth j' row None)
      (map (fun '(row, v) => row ++ [v]) (combine rows s))
  = if decide (j' = n) then s
    else if decide (j' < n)%nat then map (fun row => nth j' row None) rows
    else map (fun _ => None) rows.
Proof.
  revert s. induction rows as [|r rows IH]; intros [|v s] Hlen Hall;
    simpl in *; try discriminate.
  - destruct (decide (j' = n)); [reflexivity|]. destruct (decide (j' < n)%nat); reflexivity.
  - inversion Hall as [|? ? Hr Hrest]; subst.
    specialize (IH s ltac:(lia) Hrest). rewrite IH.
    destruct (decide (j' = length r)) as [->|Hne].
    + f_equal. rewrite app_nth2 by lia. rewrite Nat.sub_diag. reflexivity.
    + destruct (decide (j' < length r)%nat) as [Hlt|Hge].
      * f_equal. apply app_nth1. exact Hlt.
      * f_equal. apply nth_overflow. rewrite length_app. simpl. lia.
Qed.

Lemma add_class_preserves class_rule ph seen out entry :
  columns_from class_rule ph seen out ->
  columns_from class_rule ph (seen ++ [entry]) (add_class class_rule ph out entry).
Proof.
  intros (Hlen & Hshape & Hcols). destruct entry as [cls drugs].
  assert (Hweak : columns_from class_rule ph (seen ++ [(cls, drugs)]) out).
  { split; [exact Hlen|]. split; [exact Hshape|].
    intros j c Hj. destruct (Hcols j c Hj) as (ds & Hin & Hne & Hcol).
    exists ds. split; [apply in_or_app; now left|]. split; assumption. }
  unfold add_class.
  set (present := List.filter (fun d => bool_decide (d ∈ columns ph)) drugs).
  destruct present as [|d0 present'] eqn:Epres; [exact Hweak|].
  rewrite <- Epres. clear Hweak.
  set (s := map (fun row => class_call class_rule (row_select (columns ph) row present))
                (data ph)).
  assert (Hs : length (data out) = length s)
    by (unfold s; rewrite length_map; exact Hlen).
  assert (Hpne : present <> []) by (rewrite Epres; discriminate).
  unfold set_column. destruct (col_pos cls (columns out)) as [j|] eqn:Epos.
  - pose proof (col_pos_Some _ _ _ Epos) as Hj.
    assert (Hjlt : (j < length (columns out))%nat)
      by (apply lookup_lt_is_Some; eauto).
    split; [|split]; simpl.
    + rewrite length_map, length_combine. lia.
    + apply List.Forall_forall. intros r Hr. apply in_map_iff in Hr as ([r0 v] & <- & Hin).
      apply in_combine_l in Hin. rewrite List.Forall_forall in Hshape.
      rewrite length_insert. apply Hshape. exact Hin.
    + intros j' c Hj'. unfold column_cells. simpl.
      rewrite column_cells_replace; [|exact Hs|].
      2:{ eapply Forall_impl; [exact Hshape|]. simpl. intros r ->. exact Hjlt. }
      destruct (decide (j' = j)) as [->|Hne].
      * assert (c = cls) by congruence. subst c.
        exists drugs. split; [apply in_or_app; right; now left|].
        split; [exact Hpne|reflexivity].
      * destruct (Hcols j' c Hj') as (ds & Hin & Hne' & Hcol).
        exists ds. split; [apply in_or_app; now left|]. split; assumption.
  - split; [|split]; simpl.
    + rewrite length_map, length_combine. lia.
    + apply List.Forall_forall. intros r Hr. apply in_map_iff in Hr as ([r0 v] & <- & Hin).
      apply in_combine_l in Hin. rewrite List.Forall_forall in Hshape.
      rewrite !length_app. simpl. rewrite (Hshape r0 Hin). reflexivity.
    + intros j' c Hj'. unfold column_cells. simpl.
      rewrite (column_cells_append _ _ (length (columns out))); [|exact Hs|exact Hshape].
      destruct (decide (j' = length (columns out))) as [->|Hne].
      * rewrite lookup_app_r in Hj' by lia. rewrite Nat.sub_diag in Hj'.
        simpl in Hj'. injection Hj' as <-.
        exists drugs. split; [apply in_or_app; right; now left|].
        split; [exact Hpne|reflexivity].
      * assert (Hlt : (j' < length (columns out))%nat).
        { apply lookup_lt_Some in Hj'. rewrite length_app in Hj'. simpl in Hj'. lia. }
        destruct (decide (j' < length (columns out))%nat); [|lia].
        rewrite lookup_app_l in Hj' by exact Hlt.
        destruct (Hcols j' c Hj') as (ds & Hin & Hne' & Hcol).
        exists ds. split; [apply in_or_app; now left|]. split; assumption.
Qed.

Lemma fold_add_class class_rule ph entries : forall seen out,
  columns_from class_rule ph seen out ->
  columns_from class_rule ph (seen ++ entries)
               (fold_left (add_class class_rule ph) entries out).
Proof.
  induction entries as [|e entries IH]; intros seen out H; simpl.
  - rewrite app_nil_r. exact H.
  - replace (seen ++ e :: entries) with ((seen ++ [e]) ++ entries)
      by (rewrite <- app_assoc; reflexivity).
    apply IH. apply add_class_preserves. exact H.
Qed.

(** C3. Under the [any] rule, every class call of the returned matrix is
    [1] exactly when a matched drug of the class is resistant for the row
    (whatever the other drugs are, missing ones included), [0] exactly when
    every matched drug was tested and none is resistant, and missing
    otherwise. *)
Theorem build_class_matrix_any (pheno_df : Frame Q)
    (class_to_drugs : list (string * list string)) (out : DataFrame)
    (j i : nat) (cls : string) (row_out : list cell) :
  build_class_matrix pheno_df class_to_drugs "any" = Some out ->
  columns out !! j = Some cls ->
  data out !! i = Some row_out ->
  exists drugs row call,
    In (cls, drugs) class_to_drugs /\
    data (_to_binary pheno_df) !! i = Some row /\
    row_out !! j = Some call /\
    let present :=
      List.filter (fun d => bool_decide (d ∈ columns pheno_df)) drugs in
    present <> [] /\
    any_rule_spec (row_select (columns pheno_df) row present) call.
Proof.
  unfold build_class_matrix.
  rewrite bool_decide_eq_true_2 by (apply list_elem_of_In; simpl; auto).
  change (negb true) with false. cbv iota.
  set (ph := _to_binary pheno_df).
  set (out0 := mkFrame (A:=Z) [] (index ph) (map (fun _ : list cell => []) (data ph))).
  intros [= <-] Hj Hi.
  assert (H0 : columns_from "any" ph [] out0).
  { split; [simpl; apply length_map|]. split.
    - apply List.Forall_forall. intros r Hr. apply in_map_iff in Hr as (? & <- & _).
      reflexivity.
    - intros j' c Hc. simpl in Hc. destruct j'; discriminate. }
  apply (fold_add_class "any" ph class_to_drugs) in H0. simpl app in H0.
  destruct H0 as (Hlen & Hshape & Hcols).
  destruct (Hcols j cls Hj) as (drugs & Hin & Hne & Hcol).
  assert (Hilt : (i < length (data ph))%nat)
    by (rewrite <- Hlen; apply lookup_lt_is_Some; eauto).
  destruct (lookup_lt_is_Some_2 _ _ Hilt) as [row Hrow].
  assert (Hjlt : (j < length row_out)%nat).
  { rewrite List.Forall_forall in Hshape.
    rewrite (Hshape row_out) by (apply list_elem_of_In; eapply list_elem_of_lookup_2; eauto).
    apply lookup_lt_is_Some. eauto. }
  destruct (lookup_lt_is_Some_2 _ _ Hjlt) as [call Hcall].
  exists drugs, row, call. split; [exact Hin|]. split; [exact Hrow|].
  split; [exact Hcall|]. simpl. split; [exact Hne|].
  assert (Hcell : column_cells (fold_left (add_class "any" ph) class_to_drugs out0) j !! i
                  = Some call).
  { unfold column_cells. rewrite lookup_map, Hi. simpl.
    f_equal. apply nth_lookup_Some. exact Hcall. }
  rewrite Hcol, lookup_map, Hrow in Hcell. simpl in Hcell.
  injection Hcell as <-. apply class_call_any.
Qed.

Lemma build_class_matrix_any_witness :
  exists drugs row call,
    In ("Pen", drugs) example_ontology /\
    data (_to_binary example_pheno) !! 0%nat = Some row /\
    [Some 1; Some 0] !! 0%nat = Some call /\
    let present :=
      List.filter (fun d => bool_decide (d ∈ columns example_pheno)) drugs in
    present <> [] /\
    any_rule_spec (row_select (columns example_pheno) row present) call.
Proof.
  apply (build_class_matrix_any example_pheno example_ontology
           (mkFrame ["Pen"; "Tet"] ["s1"; "s2"; "s3"]
                    [[Some 1; Some 0]; [None; None]; [Some 0; Some 1]])
           0 0 "Pen" [Some 1; Some 0]).
  - vm_compute. reflexivity.
  - reflexivity.
  - reflexivity.
Defined.

End AggregationFacts.

(** ** Rounding *)

Lemma Qltb_lt x y : Qltb x y = true <-> (x < y)%Q.
Proof.
  unfold Qltb. rewrite negb_true_iff. split.
  - intros H. apply Qnot_le_lt. intros Hle. apply Qle_bool_iff in Hle. congruence.
  - intros H. destruct (Qle_bool y x) eqn:E; [|reflexivity].
    apply Qle_bool_iff in E. exfalso. apply (Qlt_not_le _ _ H E).
Qed.

Lemma Qltb_false x y : Qltb x y = false <-> (y <= x)%Q.
Proof.
  unfold Qltb. rewrite negb_false_iff. apply Qle_bool_iff.
Qed.

Lemma Qleb_le x y : Qleb x y = true <-> (x <= y)%Q.
Proof. apply Qle_bool_iff. Qed.

Lemma round_half_even_range x :
  round_half_even x = Qfloor x \/ round_half_even x = Qfloor x + 1.
Proof.
  unfold round_half_even.
  destruct (x - inject_Z (Qfloor x) ?= 1 # 2)%Q; [destruct (Z.even _)| |]; auto.
Qed.

Lemma round_half_even_low x :
  (x - inject_Z (Qfloor x) < 1 # 2)%Q -> round_half_even x = Qfloor x.
Proof.
  intros H. unfold round_half_even.
  rewrite (proj1 (Qlt_alt _ _) H). reflexivity.
Qed.

Lemma round_half_even_high x :
  (1 # 2 < x - inject_Z (Qfloor x))%Q -> round_half_even x = Qfloor x + 1.
Proof.
  intros H. unfold round_half_even.
  rewrite (proj1 (Qgt_alt _ _) H). reflexivity.
Qed.

Lemma round_half_even_mono x y :
  (x <= y)%Q -> round_half_even x <= round_half_even y.
Proof.
  intros Hxy. pose proof (Qfloor_resp_le _ _ Hxy) as Hfl.
  destruct (Z.eq_dec (Qfloor x) (Qfloor y)) as [Heq|Hne].
  - unfold round_half_even. rewrite <- Heq.
    destruct (Qcompare_spec (x - inject_Z (Qfloor x)) (1 # 2)) as [Hx|Hx|Hx];
      destruct (Qcompare_spec (y - inject_Z (Qfloor x)) (1 # 2)) as [Hy|Hy|Hy];
      try destruct (Z.even (Qfloor x)); try lia; exfalso; lra.
  - destruct (round_half_even_range x) as [->| ->];
      destruct (round_half_even_range y) as [->| ->]; lia.
Qed.

Lemma round_half_even_Z z : round_half_even (inject_Z z) = z.
Proof.
  rewrite round_half_even_low; rewrite Qfloor_Z; [reflexivity|].
  unfold Qminus. rewrite Qplus_opp_r. reflexivity.
Qed.

Lemma scale_pos (n : nat) : (0 < inject_Z (10 ^ Z.of_nat n))%Q.
Proof.
  change 0%Q with (inject_Z 0). rewrite <- Zlt_Qlt. apply Z.pow_pos_nonneg; lia.
Qed.

Lemma py_round_mono x y n : (x <= y)%Q -> (py_round x n <= py_round y n)%Q.
Proof.
  intros Hxy. unfold py_round. pose proof (scale_pos n) as Hs.
  apply Qmult_le_compat_r; [|apply Qlt_le_weak, Qinv_lt_0_compat; exact Hs].
  rewrite <- Zle_Qle. apply round_half_even_mono.
  apply Qmult_le_compat_r; [exact Hxy|apply Qlt_le_weak; exact Hs].
Qed.

Lemma py_round_Z z n : (py_round (inject_Z z) n == inject_Z z)%Q.
Proof.
  unfold py_round. pose proof (scale_pos n) as Hs.
  rewrite <- inject_Z_mult, round_half_even_Z, inject_Z_mult.
  field. intros H. rewrite H in Hs. apply (Qlt_irrefl _ Hs).
Qed.

Lemma py_round_0 n : (py_round 0 n == 0)%Q.
Proof. apply (py_round_Z 0). Qed.

Lemma py_round_1 n : (py_round 1 n == 1)%Q.
Proof. apply (py_round_Z 1). Qed.

Lemma py_round_nonneg x n : (0 <= x)%Q -> (0 <= py_round x n)%Q.
Proof.
  intros H. apply Qle_trans with (py_round 0 n); [|apply py_round_mono; exact H].
  rewrite py_round_0. apply Qle_refl.
Qed.

Lemma py_round_le_1 x n : (x <= 1)%Q -> (py_round x n <= 1)%Q.
Proof.
  intros H. apply Qle_trans with (py_round 1 n); [apply py_round_mono; exact H|].
  rewrite py_round_1. apply Qle_refl.
Qed.

(** A value above half a unit of the last digit does not round to zero. *)
Lemma py_round_pos x n :
  (1 # 2 < x * inject_Z (10 ^ Z.of_nat n))%Q -> (0 < py_round x n)%Q.
Proof.
  intros H. unfold py_round. pose proof (scale_pos n) as Hs.
  apply Qlt_shift_div_l; [exact Hs|]. rewrite Qmult_0_l.
  change 0%Q with (inject_Z 0). rewrite <- Zlt_Qlt.
  set (y := (x * inject_Z (10 ^ Z.of_nat n))%Q) in *.
  assert (Hfl : 0 <= Qfloor y).
  { change 0 with (Qfloor 0). apply Qfloor_resp_le. lra. }
  destruct (Z.eq_dec (Qfloor y) 0) as [Hz|Hnz].
  - rewrite round_half_even_high; [lia|]. rewrite Hz. 
    change (inject_Z 0) with 0%Q. lra.
  - destruct (round_half_even_range y) as [->| ->]; lia.
Qed.

(** A non-negative value below half a unit of the last digit rounds to
    zero. *)
Lemma py_round_small x n :
  (0 <= x)%Q -> (x * inject_Z (10 ^ Z.of_nat n) < 1 # 2)%Q ->
  (py_round x n == 0)%Q.
Proof.
  intros H0 H. unfold py_round. pose proof (scale_pos n) as Hs.
  set (y := (x * inject_Z (10 ^ Z.of_nat n))%Q) in *.
  assert (Hy0 : (0 <= y)%Q) by (unfold y; apply Qmult_le_0_compat; lra).
  assert (Hfl : Qfloor y = 0).
  { pose proof (Qfloor_le y) as Hl. pose proof (Qlt_floor y) as Hu.
    assert (0 <= Qfloor y) by (change 0 with (Qfloor 0); apply Qfloor_resp_le; lra).
    assert (Qfloor y < 1); [|lia].
    rewrite Zlt_Qlt. change (inject_Z 1) with 1%Q. lra. }
  rewrite round_half_even_low; rewrite Hfl.
  - unfold Qdiv. apply Qmult_0_l.
  - change (inject_Z 0) with 0%Q. lra.
Qed.

(** *** Binary64 *)

Lemma pow2_pos s : (0 < pow2 s)%Q.
Proof.
  unfold pow2. destruct (Z.leb_spec 0 s) as [Hs|Hs].
  - change 0%Q with (inject_Z 0). rewrite <- Zlt_Qlt. apply Z.pow_pos_nonneg; lia.
  - apply Qinv_lt_0_compat. change 0%Q with (inject_Z 0). rewrite <- Zlt_Qlt.
    apply Z.pow_pos_nonneg; lia.
Qed.

(** Rounding to binary64 keeps a number that is not negative so. *)
Lemma b64_nonneg x : (0 <= x)%Q -> (0 <= b64 x)%Q.
Proof.
  intros Hx. unfold b64. destruct (Qeq_bool x 0); [apply Qle_refl|].
  cbv zeta. unfold Qleb. rewrite (proj2 (Qle_bool_iff 0 x) Hx).
  apply Qmult_le_0_compat; [|apply Qlt_le_weak, pow2_pos].
  change 0%Q with (inject_Z 0). rewrite <- Zle_Qle.
  rewrite <- (round_half_even_Z 0). apply round_half_even_mono.
  apply Qle_shift_div_l; [apply pow2_pos|]. rewrite Qmult_0_l. apply Qabs_nonneg.
Qed.

Module PrevalenceFacts.
Import Classification.

Lemma jeffreys_mean_zero_positives (n : Z) :
  0 < n ->
  (((1 # 2) + inject_Z 0) / ((1 # 2) + inject_Z 0 + ((1 # 2) + inject_Z (n - 0)))
   == 1 / (2 * (inject_Z n + 1)))%Q.
Proof.
  intros Hn. rewrite Z.sub_0_r. change (inject_Z 0) with 0%Q.
  assert (0 < inject_Z n)%Q by (change 0%Q with (inject_Z 0); rewrite <- Zlt_Qlt; lia).
  field. lra.
Qed.

(** In real arithmetic and with the default Jeffreys prior,
    [bayesian_prevalence(0, n)] has a strictly positive Posterior_Mean for
    every [0 < n < 999999] (the mean is rounded to six decimals); and for
    every valid input with [total > 0] (positive prior parameters,
    [0 <= positives <= total], a credible level in [0, 1]) and a quantile
    function that does not decrease, CI_Lo <= CI_Hi. *)
Lemma bayesian_prevalence_bounds (beta_ppf : Q -> Q -> Q -> Q)
    (n positives total : Z) (prior_a prior_b credible : Q) :
  (forall a b q1 q2, (q1 <= q2)%Q -> (beta_ppf q1 a b <= beta_ppf q2 a b)%Q) ->
  0 < n < 999999 ->
  0 < total -> 0 <= positives <= total ->
  (0 < prior_a)%Q -> (0 < prior_b)%Q ->
  (0 <= credible <= 1)%Q ->
  (exists m,
     Posterior_Mean
       (bayesian_prevalence beta_ppf 0 n default_prior_a default_prior_b credible)
     = Some m /\ (0 < m)%Q) /\
  (exists lo hi,
     CI_Lo (bayesian_prevalence beta_ppf positives total prior_a prior_b credible)
     = Some lo /\
     CI_Hi (bayesian_prevalence beta_ppf positives total prior_a prior_b credible)
     = Some hi /\
     (lo <= hi)%Q).
Proof.
  intros Hmono Hn Htot Hpos Hpa Hpb Hcred. split.
  - unfold bayesian_prevalence, bayesian_prevalence_with, exact.
    destruct (Z.leb_spec n 0) as [|_]; [lia|]. simpl Posterior_Mean.
    eexists. split; [reflexivity|]. apply py_round_pos.
    unfold default_prior_a, default_prior_b.
    rewrite jeffreys_mean_zero_positives by lia.
    assert (Hq : (0 < inject_Z n < 999999)%Q).
    { split; [change 0%Q with (inject_Z 0)|change 999999%Q with (inject_Z 999999)];
        rewrite <- Zlt_Qlt; lia. }
    change (inject_Z (10 ^ Z.of_nat 6)) with 1000000%Q.
    assert (Hd : (1 / (2 * (inject_Z n + 1)) * 1000000
                  == 1000000 / (2 * (inject_Z n + 1)))%Q) by (field; lra).
    rewrite Hd. apply Qlt_shift_div_l; lra.
  - unfold bayesian_prevalence, bayesian_prevalence_with, exact.
    destruct (Z.leb_spec total 0) as [|_]; [lia|]. simpl CI_Lo. simpl CI_Hi.
    eexists. eexists. split; [reflexivity|]. split; [reflexivity|].
    apply py_round_mono. apply Hmono.
    assert (Ht : ((1 - credible) / 2 == (1 # 2) - (1 # 2) * credible)%Q) by field.
    rewrite Ht. lra.
Qed.

Lemma bayesian_prevalence_bounds_witness :
  (exists m,
     Posterior_Mean
       (bayesian_prevalence (fun q _ _ => q) 0 50 default_prior_a default_prior_b
                            default_credible)
     = Some m /\ (0 < m)%Q) /\
  (exists lo hi,
     CI_Lo (bayesian_prevalence (fun q _ _ => q) 10 100 (1 # 2) (1 # 2)
                                default_credible) = Some lo /\
     CI_Hi (bayesian_prevalence (fun q _ _ => q) 10 100 (1 # 2) (1 # 2)
                                default_credible) = Some hi /\
     (lo <= hi)%Q).
Proof.
  apply (bayesian_prevalence_bounds (fun q _ _ => q) 50 10 100 (1 # 2) (1 # 2)
                                    default_credible).
  - intros _ _ q1 q2 H. exact H.
  - lia.
  - lia.
  - lia.
  - reflexivity.
  - reflexivity.
  - unfold default_credible. split; [lra|]. vm_compute. discriminate.
Defined.

(** Below 999999 tested isolates the rounded posterior mean of zero
    positives is positive, in real arithmetic. *)
Lemma bayesian_prevalence_mean_positive (beta_ppf : Q -> Q -> Q -> Q)
    (n : Z) (credible : Q) :
  0 < n < 999999 ->
  exists m,
    Posterior_Mean
      (bayesian_prevalence beta_ppf 0 n default_prior_a default_prior_b credible)
    = Some m /\ (0 < m)%Q.
Proof.
  intros Hn. unfold bayesian_prevalence, bayesian_prevalence_with, exact.
  destruct (Z.leb_spec n 0) as [|_]; [lia|]. simpl Posterior_Mean.
  eexists. split; [reflexivity|]. apply py_round_pos.
  unfold default_prior_a, default_prior_b.
  rewrite jeffreys_mean_zero_positives by lia.
  assert (Hq : (0 < inject_Z n < 999999)%Q).
  { split; [change 0%Q with (inject_Z 0)|change 999999%Q with (inject_Z 999999)];
      rewrite <- Zlt_Qlt; lia. }
  change (inject_Z (10 ^ Z.of_nat 6)) with 1000000%Q.
  assert (Hd : (1 / (2 * (inject_Z n + 1)) * 1000000
                == 1000000 / (2 * (inject_Z n + 1)))%Q) by (field; lra).
  rewrite Hd. apply Qlt_shift_div_l; lra.
Qed.

(** From a million tested isolates on, the posterior mean of zero
    positives is returned as 0. *)
Lemma bayesian_prevalence_mean_zero_from_million (beta_ppf : Q -> Q -> Q -> Q)
    (n : Z) (credible : Q) :
  1000000 <= n ->
  exists m,
    Posterior_Mean
      (bayesian_prevalence beta_ppf 0 n default_prior_a default_prior_b credible)
    = Some m /\ (m == 0)%Q.
Proof.
  intros Hn. unfold bayesian_prevalence, bayesian_prevalence_with, exact.
  destruct (Z.leb_spec n 0) as [|_]; [lia|]. simpl Posterior_Mean.
  eexists. split; [reflexivity|].
  assert (Hq : (1000000 <= inject_Z n)%Q)
    by (change 1000000%Q with (inject_Z 1000000); rewrite <- Zle_Qle; lia).
  unfold default_prior_a, default_prior_b.
  assert (Hmean := jeffreys_mean_zero_positives n ltac:(lia)).
  assert (Hpos : (0 < 1 / (2 * (inject_Z n + 1)))%Q)
    by (apply Qlt_shift_div_l; lra).
  apply py_round_small.
  - rewrite Hmean. apply Qlt_le_weak. exact Hpos.
  - rewrite Hmean. change (inject_Z (10 ^ Z.of_nat 6)) with 1000000%Q.
    assert (Hd : (1 / (2 * (inject_Z n + 1)) * 1000000
                  == 1000000 / (2 * (inject_Z n + 1)))%Q) by (field; lra).
    rewrite Hd. apply Qlt_shift_div_r; lra.
Qed.

(** C9, as the code has it.  The Posterior_Mean is rounded to six
    decimals, so it is not always strictly positive: the program returns
    exactly 0.0 for [bayesian_prevalence(0, 1000000)], whose mean
    [0.5 / 1000001] lies below half of [1e-6].  In real arithmetic the
    rounded mean of zero positives is 0 for every [n >= 1000000] and
    strictly positive for every [0 < n < 999999]. *)
Theorem bayesian_prevalence_mean_rounds_to_zero (beta_ppf : Q -> Q -> Q -> Q)
    (credible : Q) :
  Posterior_Mean
    (bayesian_prevalence_with b64 beta_ppf 0 1000000 default_prior_a
                              default_prior_b credible) = Some 0%Q /\
  (forall n, 1000000 <= n ->
     exists m,
       Posterior_Mean
         (bayesian_prevalence beta_ppf 0 n default_prior_a default_prior_b
                              credible) = Some m /\ (m == 0)%Q) /\
  (forall n, 0 < n < 999999 ->
     exists m,
       Posterior_Mean
         (bayesian_prevalence beta_ppf 0 n default_prior_a default_prior_b
                              credible) = Some m /\ (0 < m)%Q).
Proof.
  split; [vm_compute; reflexivity|]. split.
  - intros n Hn. apply bayesian_prevalence_mean_zero_from_million. exact Hn.
  - intros n Hn. apply bayesian_prevalence_mean_positive. exact Hn.
Qed.

(** The rounding of the mean goes by the float that the division gives:
    for 319 isolates without a positive one the mean [0.5 / 320] is the
    float just above 0.0015625 and is returned as 0.001563, where the
    real number 0.0015625 is a tie and rounds to 0.001562. *)
Lemma bayesian_prevalence_mean_tie (beta_ppf : Q -> Q -> Q -> Q) (credible : Q) :
  Posterior_Mean
    (bayesian_prevalence_with b64 beta_ppf 0 319 default_prior_a
                              default_prior_b credible)
  = Some (b64 (1563 # 1000000)) /\
  Posterior_Mean
    (bayesian_prevalence beta_ppf 0 319 default_prior_a default_prior_b
                         credible)
  = Some (py_round (1 # 640) 6) /\
  (py_round (1 # 640) 6 == 1562 # 1000000)%Q.
Proof. vm_compute. repeat split. Qed.

End PrevalenceFacts.

Lemma countb_app {A} (f : A -> bool) l1 l2 :
  countb f (l1 ++ l2) = countb f l1 + countb f l2.
Proof.
  induction l1 as [|x l1 IH]; simpl app.
  - rewrite countb_nil. lia.
  - rewrite !countb_cons, IH. lia.
Qed.

Lemma countb_ext {A} (f g : A -> bool) l :
  (forall x, In x l -> f x = g x) -> countb f l = countb g l.
Proof.
  induction l as [|x l IH]; intros H; [reflexivity|].
  rewrite !countb_cons, IH by (intros y Hy; apply H; now right).
  rewrite (H x) by now left. reflexivity.
Qed.

Lemma countb_map {A B} (g : A -> B) (f : B -> bool) l :
  countb f (map g l) = countb (fun x => f (g x)) l.
Proof.
  induction l as [|x l IH]; [reflexivity|].
  simpl map. rewrite !countb_cons, IH. reflexivity.
Qed.

Lemma countb_filter {A} (f p : A -> bool) l :
  countb f (List.filter p l) = countb (fun x => p x && f x) l.
Proof.
  induction l as [|x l IH]; [reflexivity|].
  simpl List.filter. rewrite countb_cons. destruct (p x); simpl.
  - rewrite countb_cons, IH. reflexivity.
  - rewrite IH. lia.
Qed.

Lemma col_pos_lookup c cols j :
  List.NoDup cols -> cols !! j = Some c -> col_pos c cols = Some j.
Proof.
  intros Hnd Hj.
  assert (Hin : In c cols)
    by (apply list_elem_of_In; eapply list_elem_of_lookup_2; exact Hj).
  destruct (col_pos_In c cols Hin) as [j' Hj']. rewrite Hj'. f_equal.
  apply col_pos_Some in Hj'. apply NoDup_ListNoDup in Hnd.
  eapply NoDup_lookup; eassumption.
Qed.

(** Reading a row label by label gives the row back. *)
Lemma row_get_all {A} (cols : list string) (row : list (option A)) :
  List.NoDup cols -> length cols = length row ->
  map (row_get cols row) cols = row.
Proof.
  intros Hnd Hlen. apply list_eq. intros j. rewrite lookup_map.
  destruct (cols !! j) as [c|] eqn:Ec.
  - cbn. unfold row_get. rewrite (col_pos_lookup c cols j Hnd Ec).
    assert (Hj : (j < length row)%nat)
      by (rewrite <- Hlen; apply lookup_lt_is_Some; eauto).
    destruct (lookup_lt_is_Some_2 _ _ Hj) as [x Hx]. rewrite Hx.
    f_equal. apply nth_lookup_Some. exact Hx.
  - cbn. symmetry. apply lookup_ge_None. rewrite <- Hlen.
    apply lookup_ge_None. exact Ec.
Qed.

(** A loop that raises nowhere returns the list of its results. *)
Lemma mapM_total {A B} (f : A -> option B) (g : A -> B) l :
  (forall x, In x l -> f x = Some (g x)) -> mapM f l = Some (map g l).
Proof.
  induction l as [|x l IH]; intros H; [reflexivity|].
  cbn [mapM map]. rewrite (H x) by now left.
  cbn [mbind option_bind]. rewrite IH by (intros y Hy; apply H; now right).
  reflexivity.
Qed.

(** A loop of which one pass raises does raise. *)
Lemma mapM_raises {A B} (f : A -> option B) l x :
  In x l -> f x = None -> mapM f l = None.
Proof.
  induction l as [|y l IH]; intros Hin Hx; [destruct Hin|].
  cbn [mapM]. destruct Hin as [->|Hin].
  - rewrite Hx. reflexivity.
  - destruct (f y); [|reflexivity]. cbn [mbind option_bind].
    rewrite (IH Hin Hx). reflexivity.
Qed.

(** The passes of a loop that returns. *)
Lemma mapM_returns {A B} (f : A -> option B) l k :
  mapM f l = Some k ->
  length k = length l /\ forall x, In x l -> exists y, f x = Some y.
Proof.
  revert k. induction l as [|x l IH]; intros k; cbn [mapM].
  - intros [= <-]. split; [reflexivity|intros x []].
  - destruct (f x) as [y|] eqn:Ex; [|discriminate]. cbn [mbind option_bind].
    destruct (mapM f l) as [k'|]; [|discriminate]. cbn.
    intros [= <-]. destruct (IH k' eq_refl) as [Hl Hall]. split.
    + cbn [length]. rewrite Hl. reflexivity.
    + intros z [<-|Hz]; [eauto|apply Hall; exact Hz].
Qed.

Module HyperedgeFacts.
Import Hypergraph.
Import HyperedgeSpec.

(** *** What a row carries *)

Lemma resistant_filter (f : string -> cell) (l : list string) :
  omap (fun cv : string * cell =>
          if bool_decide (snd cv = Some 1) then Some (fst cv) else None)
       (combine l (map f l))
  = List.filter (fun c => cell_eqb (f c) 1) l.
Proof.
  induction l as [|c l IH]; [reflexivity|].
  cbn [map combine omap list_omap List.filter fst snd].
  fold (@omap list _ _ _
          (fun cv : string * cell =>
             if bool_decide (snd cv = Some 1) then Some (fst cv) else None)
          (combine l (map f l))).
  rewrite IH. destruct (f c) as [z|]; cbn [cell_eqb].
  - destruct (Z.eqb_spec z 1) as [->|Hne].
    + rewrite bool_decide_eq_true_2 by reflexivity. reflexivity.
    + rewrite bool_decide_eq_false_2 by congruence. reflexivity.
  - rewrite bool_decide_eq_false_2 by discriminate. reflexivity.
Qed.

(** Where the comprehension returns, it returns the resistant classes. *)
Lemma active_set_Some cols row fs :
  length row = length cols ->
  active_set cols row = Some fs ->
  fs = resistant_classes cols row /\ ~ In None row.
Proof.
  intros Hlen. unfold active_set.
  destruct (bool_decide (NoDup cols)) eqn:End; [|discriminate]. cbn [negb orb].
  apply bool_decide_eq_true_1 in End.
  pose proof (row_get_all cols row (proj1 (NoDup_ListNoDup cols) End)
                (eq_sym Hlen)) as Hrow.
  destruct (existsb _ cols) eqn:Ex; [discriminate|]. intros [= <-]. split.
  - unfold resistant_classes. f_equal.
    rewrite <- (resistant_filter (row_get cols row) cols), Hrow. reflexivity.
  - intros Hin. rewrite <- Hrow in Hin. apply in_map_iff in Hin as (c & Hc & Hin).
    assert (Ht : existsb (fun c => isna (row_get cols row c)) cols = true).
    { apply existsb_exists. exists c. rewrite Hc. auto. }
    congruence.
Qed.

Lemma active_set_complete cols row :
  NoDup cols -> length row = length cols -> ~ In None row ->
  active_set cols row = Some (resistant_classes cols row).
Proof.
  intros Hnd Hlen Hc. unfold active_set.
  rewrite bool_decide_eq_true_2 by exact Hnd. cbn [negb orb].
  pose proof (row_get_all cols row (proj1 (NoDup_ListNoDup cols) Hnd)
                (eq_sym Hlen)) as Hrow.
  destruct (existsb _ cols) eqn:Ex.
  - exfalso. apply existsb_exists in Ex as (c & Hin & Hna). apply Hc.
    rewrite <- Hrow. apply in_map_iff. exists c. split; [|exact Hin].
    destruct (row_get cols row c); [discriminate|reflexivity].
  - unfold resistant_classes. do 2 f_equal.
    rewrite <- (resistant_filter (row_get cols row) cols), Hrow. reflexivity.
Qed.

Lemma active_set_missing cols row :
  length row = length cols -> In None row -> active_set cols row = None.
Proof.
  intros Hlen Hin. destruct (active_set cols row) as [fs|] eqn:E; [|reflexivity].
  apply active_set_Some in E as [_ Hc]; [contradiction|exact Hlen].
Qed.

(** *** The counter *)

Lemma counter_add_cons k' n counts k :
  counter_add ((k', n) :: counts) k
  = if bool_decide (k = k') then (k', n + 1) :: counts
    else (k', n) :: counter_add counts k.
Proof. reflexivity. Qed.

Lemma counter_add_keys counts k :
  map fst (counter_add counts k)
  = if bool_decide (k ∈ map fst counts) then map fst counts
    else map fst counts ++ [k].
Proof.
  induction counts as [|[k' n] counts IH].
  - cbn [counter_add map fst].
    rewrite bool_decide_eq_false_2 by apply not_elem_of_nil. reflexivity.
  - rewrite counter_add_cons. cbn [map fst].
    destruct (decide (k = k')) as [->|Hne].
    + rewrite !bool_decide_eq_true_2; [reflexivity|apply list_elem_of_here|reflexivity].
    + rewrite (bool_decide_eq_false_2 (k = k')) by exact Hne. cbn [map fst].
      rewrite IH. destruct (decide (k ∈ map fst counts)) as [Hin|Hnin].
      * rewrite !bool_decide_eq_true_2;
          [reflexivity|apply list_elem_of_further; exact Hin|exact Hin].
      * rewrite !bool_decide_eq_false_2; [reflexivity| |exact Hnin].
        intros Hin. apply elem_of_cons in Hin as [?|?]; contradiction.
Qed.

Lemma counter_add_In counts k k' c' :
  NoDup (map fst counts) ->
  In (k', c') (counter_add counts k) ->
  (k' = k /\ ((~ In k (map fst counts) /\ c' = 1)
              \/ exists c, In (k, c) counts /\ c' = c + 1))
  \/ (k' <> k /\ In (k', c') counts).
Proof.
  induction counts as [|[k0 n] counts IH]; intros Hnd Hin.
  - simpl in *. destruct Hin as [[= <- <-]|[]]. left. split; [reflexivity|]. left. tauto.
  - cbn [map fst] in *. apply NoDup_cons in Hnd as [Hk0 Hnd].
    rewrite counter_add_cons in Hin.
    destruct (decide (k = k0)) as [Hk|Hk];
      [rewrite bool_decide_eq_true_2 in Hin by exact Hk
      |rewrite bool_decide_eq_false_2 in Hin by exact Hk]; simpl In in *.
    + subst k0. destruct Hin as [[= <- <-]|Hin].
      * left. split; [reflexivity|]. right. exists n. split; [now left|reflexivity].
      * right. split; [|now right]. intros ->. apply Hk0.
        apply list_elem_of_In. apply in_map_iff. exists (k, c'). auto.
    + destruct Hin as [[= <- <-]|Hin].
      * right. split; [congruence|now left].
      * destruct (IH Hnd Hin) as [[-> [[Hnin ->]|(c & Hc & ->)]]|[Hne' Hin']].
        -- left. split; [reflexivity|]. left. split; [|reflexivity].
           intros [Heq|Hi]; [congruence|contradiction].
        -- left. split; [reflexivity|]. right. exists c. split; [now right|reflexivity].
        -- right. split; [exact Hne'|now right].
Qed.

Lemma occurrences_zero k seen : ~ In k seen -> occurrences k seen = 0.
Proof.
  intros H. apply countb_zero_iff. intros x Hx.
  apply bool_decide_eq_false_2. intros ->. contradiction.
Qed.

Lemma occurrences_pos k seen : In k seen -> 1 <= occurrences k seen.
Proof.
  intros H. apply countb_pos_iff. exists k. split; [exact H|].
  apply bool_decide_eq_true_2. reflexivity.
Qed.

Lemma counter_add_counts seen counts k :
  counts_of seen counts -> counts_of (seen ++ [k]) (counter_add counts k).
Proof.
  intros (Hnd & Hall & Hc). split; [|split].
  - rewrite counter_add_keys. case_bool_decide as Hin; [exact Hnd|].
    apply NoDup_app. split; [exact Hnd|]. split.
    + intros x Hx Hxk. apply list_elem_of_singleton in Hxk. subst x.
      apply Hin. exact Hx.
    + apply NoDup_singleton.
  - intros k' Hk'. rewrite counter_add_keys. apply in_app_or in Hk'.
    case_bool_decide as Hin.
    + destruct Hk' as [Hk'|[<-|[]]];
        [apply Hall; exact Hk'|apply list_elem_of_In; exact Hin].
    + apply in_or_app. destruct Hk' as [Hk'|Hk']; [left; apply Hall; exact Hk'|now right].
  - intros k' c' Hin. unfold occurrences. rewrite countb_app, countb_cons, countb_nil.
    apply counter_add_In in Hin; [|exact Hnd].
    destruct Hin as [[-> [[Hnin ->]|(c & Hin & ->)]]|[Hne Hin]].
    + rewrite bool_decide_eq_true_2 by reflexivity.
      fold (occurrences k seen). rewrite occurrences_zero; [|].
      lia.
      intros Hs. apply Hnin. apply Hall. exact Hs.
    + destruct (Hc k c Hin) as [-> Hpos]. unfold occurrences in *.
      rewrite bool_decide_eq_true_2 by reflexivity. lia.
    + destruct (Hc k' c' Hin) as [-> Hpos]. unfold occurrences in *.
      rewrite bool_decide_eq_false_2 by congruence. lia.
Qed.

Lemma Counter_counts pats : counts_of pats (Counter pats).
Proof.
  unfold Counter.
  assert (H : forall seen counts, counts_of seen counts ->
            counts_of (seen ++ pats) (fold_left counter_add pats counts)).
  { induction pats as [|p pats IH]; intros seen counts Hc; simpl.
    - rewrite app_nil_r. exact Hc.
    - replace (seen ++ p :: pats) with ((seen ++ [p]) ++ pats)
        by (rewrite <- app_assoc; reflexivity).
      apply IH. apply counter_add_counts. exact Hc. }
  apply (H [] []). split; [apply NoDup_nil_2|]. split; [intros k []|intros k c []].
Qed.

(** *** The order of [most_common] *)

Lemma insert_by_count_perm x l : Permutation (insert_by_count x l) (x :: l).
Proof.
  induction l as [|y l IH]; simpl; [reflexivity|].
  destruct (snd y <? snd x); [reflexivity|].
  rewrite IH. apply perm_swap.
Qed.

Lemma insert_by_count_sorted x l :
  StronglySorted by_count l -> StronglySorted by_count (insert_by_count x l).
Proof.
  induction l as [|y l IH]; simpl; intros Hs.
  - constructor; [constructor|constructor].
  - inversion Hs as [|? ? Hl Hy]; subst.
    destruct (Z.ltb_spec (snd y) (snd x)) as [Hlt|Hge].
    + constructor; [exact Hs|]. constructor; [unfold by_count; lia|].
      eapply Forall_impl; [exact Hy|]. unfold by_count. simpl. intros; lia.
    + constructor; [apply IH; exact Hl|].
      eapply Permutation_Forall; [symmetry; apply insert_by_count_perm|].
      constructor; [unfold by_count; lia|exact Hy].
Qed.

Lemma most_common_perm counts : Permutation (most_common counts) counts.
Proof.
  unfold most_common.
  assert (H : forall acc, Permutation (fold_left (fun acc x => insert_by_count x acc) counts acc)
                                 (acc ++ counts)).
  { induction counts as [|x counts IH]; intros acc; simpl.
    - rewrite app_nil_r. reflexivity.
    - rewrite IH, insert_by_count_perm. apply Permutation_middle. }
  apply (H []).
Qed.

Lemma most_common_sorted counts : StronglySorted by_count (most_common counts).
Proof.
  unfold most_common.
  assert (H : forall acc, StronglySorted by_count acc ->
            StronglySorted by_count (fold_left (fun acc x => insert_by_count x acc) counts acc)).
  { induction counts as [|x counts IH]; intros acc Hs; simpl; [exact Hs|].
    apply IH. apply insert_by_count_sorted. exact Hs. }
  apply H. constructor.
Qed.

(** *** The rows *)

Lemma well_shaped_rows (class_df : DataFrame) row :
  well_shaped class_df -> In row (data class_df) ->
  length row = length (columns class_df).
Proof.
  intros (_ & _ & Hrows) Hrow. rewrite List.Forall_forall in Hrows.
  apply Hrows. exact Hrow.
Qed.

(** The loop over the rows returns exactly on a complete matrix. *)
Lemma patterns_complete class_df min_size max_size :
  well_shaped class_df -> complete class_df ->
  patterns class_df min_size max_size
  = Some (sized_patterns class_df min_size max_size).
Proof.
  intros Hws Hc. unfold patterns, sized_patterns.
  rewrite (mapM_total _ (resistant_classes (columns class_df))); [reflexivity|].
  intros row Hrow. apply active_set_complete.
  - apply Hws.
  - apply well_shaped_rows; assumption.
  - apply Hc. exact Hrow.
Qed.

Lemma patterns_Some class_df min_size max_size pats :
  well_shaped class_df ->
  patterns class_df min_size max_size = Some pats ->
  complete class_df /\ pats = sized_patterns class_df min_size max_size.
Proof.
  intros Hws. unfold patterns.
  destruct (mapM _ (data class_df)) as [fss|] eqn:E; [|discriminate].
  cbn [mbind option_bind]. intros [= <-].
  assert (Hc : complete class_df).
  { intros row Hrow. apply mapM_returns in E as [_ Hall].
    destruct (Hall row Hrow) as [fs Hfs].
    apply active_set_Some in Hfs as [_ H]; [exact H|].
    apply well_shaped_rows; assumption. }
  split; [exact Hc|].
  pose proof (patterns_complete class_df min_size max_size Hws Hc) as Hp.
  unfold patterns in Hp. rewrite E in Hp. cbn [mbind option_bind] in Hp.
  injection Hp as Hp. exact Hp.
Qed.

Lemma patterns_missing class_df min_size max_size row :
  well_shaped class_df -> In row (data class_df) -> In None row ->
  patterns class_df min_size max_size = None.
Proof.
  intros Hws Hrow Hna. unfold patterns.
  rewrite (mapM_raises _ _ row Hrow); [reflexivity|].
  apply active_set_missing; [|exact Hna]. apply well_shaped_rows; assumption.
Qed.

Lemma patterns_In class_df min_size max_size k :
  In k (sized_patterns class_df min_size max_size) ->
  min_size <= set_len k <= max_size.
Proof.
  unfold sized_patterns. intros H. apply filter_In in H as [_ H].
  apply andb_true_iff in H as [H1 H2]. apply Z.leb_le in H1, H2. lia.
Qed.

Lemma patterns_occurrences class_df min_size max_size k :
  min_size <= set_len k <= max_size ->
  occurrences k (sized_patterns class_df min_size max_size)
  = isolates_with class_df k.
Proof.
  intros Hk. unfold occurrences, sized_patterns, isolates_with.
  rewrite countb_filter, countb_map. apply countb_ext. intros row _.
  case_bool_decide as He; [|apply andb_false_r].
  rewrite He. rewrite andb_true_r. apply andb_true_iff.
  split; apply Z.leb_le; lia.
Qed.

Section Omap.
Context {A B K : Type} (f : A -> option B) (ka : A -> K) (kb : B -> K).
Hypothesis f_key : forall x r, f x = Some r -> kb r = ka x.

Lemma omap_cons x l :
  omap f (x :: l) = match f x with Some r => r :: omap f l | None => omap f l end.
Proof. reflexivity. Qed.

Lemma omap_In r l : In r (omap f l) <-> exists x, In x l /\ f x = Some r.
Proof.
  rewrite <- list_elem_of_In, list_elem_of_omap.
  split; intros (x & Hx & Hf); exists x; (split; [|exact Hf]);
    apply list_elem_of_In; exact Hx.
Qed.

Lemma omap_sorted (R : K -> K -> Prop) l :
  StronglySorted (fun x y => R (ka x) (ka y)) l ->
  StronglySorted (fun x y => R (kb x) (kb y)) (omap f l).
Proof.
  induction l as [|x l IH]; intros Hs; [constructor|].
  inversion Hs as [|? ? Hl Hx]; subst. rewrite omap_cons.
  destruct (f x) as [r|] eqn:Er; [|apply IH; exact Hl].
  constructor; [apply IH; exact Hl|].
  apply List.Forall_forall. intros r' Hr'. apply omap_In in Hr' as (y & Hy & Hfy).
  rewrite (f_key _ _ Er), (f_key _ _ Hfy).
  rewrite List.Forall_forall in Hx. apply Hx. exact Hy.
Qed.

Lemma omap_NoDup l : NoDup (map ka l) -> NoDup (map kb (omap f l)).
Proof.
  induction l as [|x l IH]; intros Hnd; [constructor|].
  cbn [map] in Hnd. apply NoDup_cons in Hnd as [Hx Hnd]. rewrite omap_cons.
  destruct (f x) as [r|] eqn:Er; [|apply IH; exact Hnd].
  cbn [map]. apply NoDup_cons. split; [|apply IH; exact Hnd].
  intros Hin. apply Hx. apply list_elem_of_In in Hin. apply list_elem_of_In.
  apply in_map_iff in Hin as (r' & Hk & Hr').
  apply omap_In in Hr' as (y & Hy & Hfy).
  apply in_map_iff. exists y. split; [|exact Hy].
  rewrite <- (f_key _ _ Hfy), Hk. apply (f_key _ _ Er).
Qed.

End Omap.

Lemma extract_hyperedges_unfold class_df min_size max_size min_support :
  extract_hyperedges class_df min_size max_size min_support
  = (fun pats =>
       omap (row_of_item (Z.of_nat (length (data class_df))) min_support)
            (most_common (Counter pats)))
    <$> patterns class_df min_size max_size.
Proof.
  unfold extract_hyperedges.
  destruct (patterns class_df min_size max_size); reflexivity.
Qed.

Lemma extract_hyperedges_complete_matrix class_df min_size max_size min_support :
  well_shaped class_df -> complete class_df ->
  extract_hyperedges class_df min_size max_size min_support
  = Some (omap (row_of_item (Z.of_nat (length (data class_df))) min_support)
               (most_common
                  (Counter (sized_patterns class_df min_size max_size)))).
Proof.
  intros Hws Hc. rewrite extract_hyperedges_unfold.
  rewrite (patterns_complete _ _ _ Hws Hc). reflexivity.
Qed.

Lemma extract_hyperedges_Some class_df min_size max_size min_support out :
  well_shaped class_df ->
  extract_hyperedges class_df min_size max_size min_support = Some out ->
  complete class_df /\
  out = omap (row_of_item (Z.of_nat (length (data class_df))) min_support)
             (most_common
                (Counter (sized_patterns class_df min_size max_size))).
Proof.
  intros Hws. rewrite extract_hyperedges_unfold.
  destruct (patterns class_df min_size max_size) as [pats|] eqn:E; [|discriminate].
  cbn [fmap option_fmap option_map]. intros [= <-].
  apply patterns_Some in E as [Hc ->]; [|exact Hws]. auto.
Qed.

Lemma row_of_item_spec n min_support item r :
  row_of_item n min_support item = Some r ->
  _set r = fst item /\ Count r = snd item /\ Size r = set_len (_set r) /\
  (min_support <= support_of (Count r) n)%Q /\
  Support r = py_round_float (support_of (Count r) n) 4.
Proof.
  destruct item as [pat cnt]. unfold row_of_item.
  destruct (Qleb min_support (support_of cnt n)) eqn:E; [|discriminate].
  intros [= <-]. simpl. apply Qleb_le in E. auto.
Qed.

(** C7, as the code has it.  On a well-shaped matrix
    [extract_hyperedges] returns exactly when no call is missing, and
    then every row has [min_size <= Size <= max_size]; its Count is the
    number of isolates whose set of classes with value exactly 1 equals
    the hyperedge; the float [Count / n] is at least [min_support], for
    the number [n] of isolates; Support is that float rounded to four
    decimals; no set has two rows; and the rows are in order of
    descending Count. *)
Theorem extract_hyperedges_rows (class_df : DataFrame) (min_size max_size : Z)
    (min_support : Q) :
  well_shaped class_df ->
  (complete class_df ->
   exists out,
     extract_hyperedges class_df min_size max_size min_support = Some out) /\
  (forall out,
     extract_hyperedges class_df min_size max_size min_support = Some out ->
     let n := Z.of_nat (length (data class_df)) in
     complete class_df /\
     (forall r, In r out ->
        min_size <= Size r <= max_size /\
        Size r = Z.of_nat (size (_set r)) /\
        Count r = isolates_with class_df (_set r) /\
        1 <= Count r /\
        (min_support <= b64 (inject_Z (Count r) / inject_Z n))%Q /\
        Support r = py_round_float (b64 (inject_Z (Count r) / inject_Z n)) 4) /\
     NoDup (map _set out) /\
     StronglySorted (fun r1 r2 => Count r2 <= Count r1) out).
Proof.
  intros Hws. split.
  { intros Hcomp. eexists.
    apply extract_hyperedges_complete_matrix; assumption. }
  intros out Hout n. subst n.
  apply extract_hyperedges_Some in Hout as [Hcomp ->]; [|exact Hws].
  split; [exact Hcomp|].
  set (n := Z.of_nat (length (data class_df))).
  set (pats := sized_patterns class_df min_size max_size).
  destruct (Counter_counts pats) as (Hnd & Hall & Hc).
  pose proof (most_common_perm (Counter pats)) as Hperm.
  split; [|split].
  - intros r Hr. apply omap_In in Hr as ([pat cnt] & Hin & Hf).
    apply row_of_item_spec in Hf as (Hset & Hcnt & Hsize & Hsup & Hround).
    simpl in Hset, Hcnt.
    assert (Hin' : In (pat, cnt) (Counter pats))
      by (eapply Permutation_in; [exact Hperm|exact Hin]).
    destruct (Hc pat cnt Hin') as [Hocc Hpos].
    assert (Hpat : In pat pats).
    { destruct (decide (pat ∈ pats)) as [Hi|Hn]; [apply list_elem_of_In; exact Hi|].
      rewrite occurrences_zero in Hocc by (rewrite <- list_elem_of_In; exact Hn).
      lia. }
    pose proof (patterns_In _ _ _ _ Hpat) as Hb.
    unfold support_of in Hsup, Hround. unfold set_len in Hsize, Hb.
    rewrite Hsize, Hset, Hcnt.
    repeat split; try lia; try (rewrite <- Hcnt; assumption).
    rewrite Hocc. apply patterns_occurrences. exact Hb.
  - apply (omap_NoDup _ fst _set).
    + intros x r Hf. apply row_of_item_spec in Hf. tauto.
    + rewrite (Permutation_map fst Hperm). exact Hnd.
  - apply (omap_sorted _ snd Count) with (R := fun a b => b <= a).
    + intros x r Hf. apply row_of_item_spec in Hf. tauto.
    + apply most_common_sorted.
Qed.

Lemma example_isolates_well_shaped : well_shaped example_isolates.
Proof.
  split; [|split; [reflexivity|]].
  - cbn. repeat constructor; rewrite ?elem_of_cons, ?elem_of_nil;
      intuition discriminate.
  - repeat constructor.
Qed.

Lemma extract_hyperedges_rows_witness :
  extract_hyperedges example_isolates 2 6 (b64 (1 # 10)) = Some example_rows /\
  complete example_isolates /\
  (forall r, In r example_rows ->
     2 <= Size r <= 6 /\
     Size r = Z.of_nat (size (_set r)) /\
     Count r = isolates_with example_isolates (_set r) /\
     1 <= Count r /\
     (b64 (1 # 10) <= b64 (inject_Z (Count r) / inject_Z 3))%Q /\
     Support r = py_round_float (b64 (inject_Z (Count r) / inject_Z 3)) 4) /\
  NoDup (map _set example_rows) /\
  StronglySorted (fun r1 r2 => Count r2 <= Count r1) example_rows.
Proof.
  assert (H : extract_hyperedges example_isolates 2 6 (b64 (1 # 10))
              = Some example_rows) by (vm_compute; reflexivity).
  split; [exact H|].
  exact (proj2 (extract_hyperedges_rows example_isolates 2 6 (b64 (1 # 10))
                  example_isolates_well_shaped) example_rows H).
Defined.

(** C7 fails as stated on three isolates with [min_support = 0.33333]: the
    set {b, c} is carried by one isolate of three, the float [1 / 3] is at
    least [0.33333] and keeps it, and its Support is returned as [0.3333],
    which is below [min_support] and is not [Count / 3]. *)
Lemma extract_hyperedges_support_rounded :
  exists out r,
    extract_hyperedges example_isolates 2 6 (b64 (33333 # 100000)) = Some out /\
    In r out /\
    Count r = 1 /\
    Support r = b64 (3333 # 10000) /\
    ~ (b64 (33333 # 100000) <= Support r)%Q /\
    ~ (Support r == inject_Z (Count r) / 3)%Q /\
    ~ (Support r == b64 (inject_Z (Count r) / 3))%Q.
Proof.
  eexists. eexists. split; [vm_compute; reflexivity|].
  split; [right; left; reflexivity|].
  cbn [Count Support]. split; [reflexivity|]. split; [reflexivity|].
  split; [|split]; intros H; vm_compute in H; [apply H; reflexivity| |];
    discriminate.
Qed.

End HyperedgeFacts.

Lemma Qmaximum_ge (l : list Q) x : In x l -> (x <= Qmaximum l)%Q.
Proof.
  assert (H : forall l a, (a <= fold_left Qmax l a)%Q /\
                          forall y, In y l -> (y <= fold_left Qmax l a)%Q).
  { clear. induction l as [|z l IH]; intros a; simpl.
    - split; [apply Qle_refl|intros y []].
    - destruct (IH (Qmax a z)) as [Ha Hl]. split.
      + eapply Qle_trans; [apply Q.le_max_l|exact Ha].
      + intros y [->|Hy]; [|apply Hl; exact Hy].
        eapply Qle_trans; [apply Q.le_max_r|exact Ha]. }
  destruct l as [|a l]; [intros []|]. simpl.
  destruct (H l a) as [Ha Hl]. intros [<-|Hx]; [exact Ha|apply Hl; exact Hx].
Qed.

Module CentralityFacts.
Import Hypergraph.
Import CentralitySpec.

(** *** The accumulators *)

Lemma lookup_const_map {V} (v : V) (l : list string) c :
  (list_to_map (map (fun c => (c, v)) l) : gmap string V) !! c
  = if bool_decide (c ∈ l) then Some v else None.
Proof.
  induction l as [|c' l IH]; cbn [map list_to_map foldr].
  - rewrite lookup_empty. rewrite bool_decide_eq_false_2 by apply not_elem_of_nil.
    reflexivity.
  - cbn [fst snd]. destruct (decide (c' = c)) as [->|Hne].
    + rewrite lookup_insert_eq.
      rewrite bool_decide_eq_true_2 by apply list_elem_of_here. reflexivity.
    + rewrite lookup_insert_ne by exact Hne. rewrite IH.
      destruct (decide (c ∈ l)) as [Hin|Hnin].
      * rewrite !bool_decide_eq_true_2;
          [reflexivity|apply list_elem_of_further; exact Hin|exact Hin].
      * rewrite !bool_decide_eq_false_2; [reflexivity| |exact Hnin].
        intros Hin. apply elem_of_cons in Hin as [?|?]; [congruence|contradiction].
Qed.

Lemma visit_member_other r acc m c :
  m <> c -> entries (visit_member r acc m) c = entries acc c.
Proof.
  intros Hne. unfold visit_member, entries.
  destruct (deg acc !! m); [|reflexivity]. simpl.
  rewrite !lookup_insert_ne by exact Hne. reflexivity.
Qed.

Lemma visit_hyperedge_other r acc c :
  c ∉ _set r -> entries (visit_hyperedge acc r) c = entries acc c.
Proof.
  intros Hc. unfold visit_hyperedge.
  assert (H : forall ms, (forall m, In m ms -> m <> c) ->
            forall a, entries (fold_left (visit_member r) ms a) c = entries a c).
  { induction ms as [|m ms IH]; intros Hms a; simpl; [reflexivity|].
    rewrite IH by (intros m' Hm'; apply Hms; now right).
    apply visit_member_other. apply Hms. now left. }
  apply H. intros m Hm ->. apply Hc. apply elem_of_elements, list_elem_of_In. exact Hm.
Qed.

Lemma fold_visit_other hedges acc c :
  (forall h, In h hedges -> c ∉ _set h) ->
  entries (fold_left visit_hyperedge hedges acc) c = entries acc c.
Proof.
  revert acc. induction hedges as [|h hedges IH]; intros acc Hh; simpl; [reflexivity|].
  rewrite IH by (intros h' Hh'; apply Hh; now right).
  apply visit_hyperedge_other. apply Hh. now left.
Qed.

(** *** The order of the rows *)

Lemma insert_by_size_weighted_perm x l :
  Permutation (insert_by_size_weighted x l) (x :: l).
Proof.
  induction l as [|y l IH]; simpl; [reflexivity|].
  destruct (Qltb (Size_Weighted y) (Size_Weighted x)); [reflexivity|].
  rewrite IH. apply perm_swap.
Qed.

Lemma sort_by_size_weighted_perm l : Permutation (sort_by_size_weighted l) l.
Proof.
  unfold sort_by_size_weighted.
  assert (H : forall acc,
            Permutation (fold_left (fun acc x => insert_by_size_weighted x acc) l acc)
                        (acc ++ l)).
  { induction l as [|x l IH]; intros acc; simpl.
    - rewrite app_nil_r. reflexivity.
    - rewrite IH, insert_by_size_weighted_perm. apply Permutation_middle. }
  apply (H []).
Qed.

(** *** Normalised columns *)

Lemma fold_Qmax_le (l : list Q) (a b : Q) :
  (a <= b)%Q -> (forall x, In x l -> (x <= b)%Q) -> (fold_left Qmax l a <= b)%Q.
Proof.
  revert a. induction l as [|x l IH]; intros a Ha Hl; [exact Ha|].
  cbn [fold_left]. apply IH.
  - apply Q.max_lub; [exact Ha|apply Hl; now left].
  - intros y Hy. apply Hl. now right.
Qed.

(** A measure that is positive for no class has no normalised column. *)
Lemma norm_column_none (col : list Q) :
  (forall x, In x col -> (x <= 0)%Q) -> norm_column col = None.
Proof.
  intros H. unfold norm_column.
  assert (Hmx : (Qmaximum col <= 0)%Q).
  { destruct col as [|x col]; [apply Qle_refl|]. cbn [Qmaximum].
    apply fold_Qmax_le; [apply H; now left|]. intros y Hy. apply H. now right. }
  unfold Qltb, Qleb. rewrite (proj2 (Qle_bool_iff _ _) Hmx). reflexivity.
Qed.

Lemma hypergraph_centrality_unfold hedges_df c0 cs :
  hypergraph_centrality hedges_df (c0 :: cs)
  = let acc := fold_left visit_hyperedge hedges_df (initial (c0 :: cs)) in
    let df := sort_by_size_weighted (raw_rows acc (c0 :: cs)) in
    mkCentralityFrame df
      (norm_column (map (fun r => inject_Z (Degree r)) df))
      (norm_column (map Weighted_Degree df))
      (norm_column (map Size_Weighted df)).
Proof. reflexivity. Qed.

(** The row of a class of the universe that no hyperedge contains. *)
Lemma raw_row_untouched hedges_df all_classes c :
  In c all_classes ->
  (forall h, In h hedges_df -> c ∉ _set h) ->
  forall r,
    In r (raw_rows (fold_left visit_hyperedge hedges_df (initial all_classes)) [c]) ->
    r = mkCentrality c 0 0 0.
Proof.
  intros Hc Hno r [<-|[]].
  assert (He : entries (fold_left visit_hyperedge hedges_df (initial all_classes)) c
               = entries (initial all_classes) c)
    by (apply fold_visit_other; exact Hno).
  unfold entries, initial in He. cbn [deg wd swd] in He.
  rewrite !lookup_const_map in He.
  rewrite bool_decide_eq_true_2 in He by (apply list_elem_of_In; exact Hc).
  injection He as H1 H2 H3. cbn [raw_rows map]. unfold initial.
  rewrite H1, H2, H3. reflexivity.
Qed.

(** C8, as the code has it.  [hypergraph_centrality] returns one row for
    every class of the universe, and a class that is in no hyperedge has
    Degree 0 and Weighted_Degree and Size_Weighted 0.0.  But a measure
    whose maximum is 0 gets no normalised column at all, instead of a
    column of zeros: where no hyperedge contains a class of a non-empty
    universe, the returned frame has none of the three columns
    [Degree_Norm], [Weighted_Degree_Norm] and [Size_Weighted_Norm], which
    the frame returned for the empty universe has. *)
Theorem hypergraph_centrality_zero_maximum (hedges_df : list hyperedge_row)
    (all_classes : list string) :
  let out := hypergraph_centrality hedges_df all_classes in
  Permutation (map Class (rows out)) all_classes /\
  (forall r, In r (rows out) ->
     (forall h, In h hedges_df -> Class r ∉ _set h) ->
     Degree r = 0 /\ Weighted_Degree r = 0%Q /\ Size_Weighted r = 0%Q) /\
  (all_classes <> [] ->
   (forall h c, In h hedges_df -> In c all_classes -> c ∉ _set h) ->
   Degree_Norm out = None /\ Weighted_Degree_Norm out = None /\
   Size_Weighted_Norm out = None) /\
  (let empty := hypergraph_centrality hedges_df [] in
   Degree_Norm empty = Some [] /\ Weighted_Degree_Norm empty = Some [] /\
   Size_Weighted_Norm empty = Some []).
Proof.
  cbv zeta. split; [|split; [|split]].
  - destruct all_classes as [|c0 cs]; [reflexivity|].
    rewrite hypergraph_centrality_unfold. cbv zeta. cbn [rows].
    rewrite (Permutation_map Class (sort_by_size_weighted_perm _)).
    unfold raw_rows. rewrite map_map. simpl. rewrite map_id. reflexivity.
  - destruct all_classes as [|c0 cs]; [intros r []|].
    rewrite hypergraph_centrality_unfold. cbv zeta. cbn [rows].
    intros r Hr Hno.
    apply (Permutation_in _ (sort_by_size_weighted_perm _)) in Hr.
    unfold raw_rows in Hr. apply in_map_iff in Hr as (c & Hr & Hc).
    assert (E : r = mkCentrality c 0 0 0).
    { apply (raw_row_untouched hedges_df (c0 :: cs) c Hc).
      - subst r. exact Hno.
      - left. exact Hr. }
    subst r. rewrite E. auto.
  - intros Hne Hno. destruct all_classes as [|c0 cs]; [contradiction|].
    rewrite hypergraph_centrality_unfold. cbv zeta.
    cbn [Degree_Norm Weighted_Degree_Norm Size_Weighted_Norm].
    assert (Hrows : forall r,
              In r (sort_by_size_weighted
                      (raw_rows (fold_left visit_hyperedge hedges_df
                                           (initial (c0 :: cs))) (c0 :: cs))) ->
              Degree r = 0 /\ Weighted_Degree r = 0%Q /\ Size_Weighted r = 0%Q).
    { intros r Hr.
      apply (Permutation_in _ (sort_by_size_weighted_perm _)) in Hr.
      unfold raw_rows in Hr. apply in_map_iff in Hr as (c & Hr & Hc).
      assert (E : r = mkCentrality c 0 0 0).
      { apply (raw_row_untouched hedges_df (c0 :: cs) c Hc).
        - intros h Hh. apply Hno; assumption.
        - left. exact Hr. }
      rewrite E. auto. }
    split; [|split]; apply norm_column_none; intros x Hx;
      apply in_map_iff in Hx as (r & <- & Hr);
      destruct (Hrows r Hr) as (H1 & H2 & H3).
    + rewrite H1. apply Qle_refl.
    + rewrite H2. apply Qle_refl.
    + rewrite H3. apply Qle_refl.
  - auto.
Qed.

(** The divergence on an input: no hyperedge was found, every measure has
    maximum 0 over the two classes, each class has its row of zeros, and
    the frame has none of the three normalised columns. *)
Lemma hypergraph_centrality_no_norm_column :
  let out := hypergraph_centrality [] ["a"; "b"] in
  map Class (rows out) = ["a"; "b"] /\
  map Degree (rows out) = [0; 0] /\
  Degree_Norm out = None /\
  Weighted_Degree_Norm out = None /\
  Size_Weighted_Norm out = None.
Proof. vm_compute. repeat split. Qed.

(** Where a normalised column exists it holds value / maximum, not
    (value - minimum) / (maximum - minimum): the degrees 2, 1, 1 of the
    classes b, a, c of the example give 1.0, 0.5, 0.5. *)
Lemma hypergraph_centrality_divides_by_maximum :
  let out := hypergraph_centrality example_hyperedges ["a"; "b"; "c"] in
  map Class (rows out) = ["b"; "a"; "c"] /\
  map Degree (rows out) = [2; 1; 1] /\
  Degree_Norm out = Some [b64 1; b64 (1 # 2); b64 (1 # 2)].
Proof. vm_compute. repeat split. Qed.

End CentralityFacts.

(** ** Sums of rationals *)

Lemma Qsum_app l1 l2 : (Qsum (l1 ++ l2) == Qsum l1 + Qsum l2)%Q.
Proof.
  induction l1 as [|x l1 IH]; simpl.
  - rewrite Qplus_0_l. reflexivity.
  - rewrite IH. apply Qplus_assoc.
Qed.

Lemma Qsum_map_ext {A} (f g : A -> Q) l :
  (forall x, In x l -> (f x == g x)%Q) -> (Qsum (map f l) == Qsum (map g l))%Q.
Proof.
  induction l as [|x l IH]; intros H; simpl; [reflexivity|].
  rewrite (H x) by now left. rewrite IH by (intros y Hy; apply H; now right).
  reflexivity.
Qed.

Lemma Qsum_map_plus {A} (f g : A -> Q) l :
  (Qsum (map (fun x => f x + g x) l) == Qsum (map f l) + Qsum (map g l))%Q.
Proof.
  induction l as [|x l IH]; simpl; [reflexivity|]. rewrite IH. ring.
Qed.

Lemma Qsum_map_scale {A} (f : A -> Q) c l :
  (Qsum (map (fun x => c * f x) l) == c * Qsum (map f l))%Q.
Proof.
  induction l as [|x l IH]; simpl; [ring|]. rewrite IH. ring.
Qed.

Lemma Qsum_map_nonneg {A} (f : A -> Q) l :
  (forall x, In x l -> (0 <= f x)%Q) -> (0 <= Qsum (map f l))%Q.
Proof.
  induction l as [|x l IH]; intros H; simpl; [apply Qle_refl|].
  specialize (IH (fun y Hy => H y (or_intror Hy))).
  specialize (H x (or_introl eq_refl)). lra.
Qed.

Lemma Qsum_map_le {A} (f g : A -> Q) l :
  (forall x, In x l -> (f x <= g x)%Q) -> (Qsum (map f l) <= Qsum (map g l))%Q.
Proof.
  induction l as [|x l IH]; intros H; simpl; [apply Qle_refl|].
  specialize (IH (fun y Hy => H y (or_intror Hy))).
  specialize (H x (or_introl eq_refl)). lra.
Qed.

Lemma Qsum_flat_map_pair {A B} (g : B -> Q) (h0 h1 : A -> B) l :
  (Qsum (map g (flat_map (fun a => [h0 a; h1 a]) l))
   == Qsum (map (fun a => g (h0 a) + g (h1 a)) l))%Q.
Proof.
  induction l as [|a l IH]; simpl; [reflexivity|]. rewrite IH. ring.
Qed.

(** A loop that adds the terms passing a test computes their sum. *)
Lemma fold_left_guarded_sum {A} (test : A -> bool) (f : A -> Q) l p0 :
  (fold_left (fun p x => if test x then p + f x else p) l p0
   == p0 + Qsum (map (fun x => if test x then f x else 0) l))%Q.
Proof.
  revert p0. induction l as [|x l IH]; intros p0; simpl; [ring|].
  rewrite IH. destruct (test x); ring.
Qed.

Lemma Qeq_refl_eq (x y : Q) : x = y -> (x == y)%Q.
Proof. intros ->. reflexivity. Qed.

Lemma fold_left_ext {A B} (f g : B -> A -> B) l b :
  (forall b x, f b x = g b x) -> fold_left f l b = fold_left g l b.
Proof.
  intros H. revert b. induction l as [|x l IH]; intros b; simpl; [reflexivity|].
  rewrite H. apply IH.
Qed.

(** A series whose labels are distinct is its own dictionary. *)
Lemma dict_set_fresh {V} (d : list (string * V)) k v :
  ~ In k (map fst d) -> DecisionV3.dict_set d k v = d ++ [(k, v)].
Proof.
  induction d as [|[k' v'] d IH]; intros Hk; [reflexivity|].
  cbn [DecisionV3.dict_set]. destruct (String.eqb_spec k k') as [->|Hne].
  - exfalso. apply Hk. now left.
  - cbn [app]. f_equal. apply IH. intros Hin. apply Hk. now right.
Qed.

Lemma to_dict_unique (row : DecisionV3.Series) :
  List.NoDup (map fst row) -> DecisionV3.to_dict row = row.
Proof.
  unfold DecisionV3.to_dict.
  assert (H : forall d, List.NoDup (map fst (d ++ row)) ->
              fold_left (fun d '(k, v) => DecisionV3.dict_set d k v) row d
              = d ++ row).
  { induction row as [|[k v] row IH]; intros d Hnd; cbn [fold_left].
    - rewrite app_nil_r. reflexivity.
    - rewrite dict_set_fresh.
      + rewrite IH; rewrite <- app_assoc; [reflexivity|exact Hnd].
      + rewrite map_app in Hnd. apply NoDup_remove_2 in Hnd.
        intros Hin. apply Hnd. apply in_or_app. now left. }
  intros Hnd. apply (H []). exact Hnd.
Qed.

Lemma fold_left_map {A B C} (f : C -> B -> C) (g : A -> B) l c :
  fold_left f (map g l) c = fold_left (fun c x => f c (g x)) l c.
Proof.
  revert c. induction l as [|x l IH]; intros c; [reflexivity|].
  cbn [map fold_left]. apply IH.
Qed.

Module PosteriorFacts.
Import Classification DecisionV3.
Import PosteriorSpec.

(** *** Assignments of the missing classes *)

Lemma assignments_length m a : In a (assignments m) <-> length a = m.
Proof.
  revert a. induction m as [|m IH]; intros a; simpl.
  - split; [intros [<-|[]]; reflexivity|].
    destruct a; [auto|discriminate].
  - rewrite in_flat_map. split.
    + intros (a' & Ha' & [<-|[<-|[]]]); simpl; f_equal; apply IH; exact Ha'.
    + destruct a as [|b a]; [discriminate|]. intros [= Hlen].
      exists a. split; [apply IH; exact Hlen|]. destruct b; simpl; auto.
Qed.

Lemma assignments_count m : length (assignments m) = (2 ^ m)%nat.
Proof.
  induction m as [|m IH]; [reflexivity|].
  cbn [assignments]. rewrite (flat_map_constant_length (c := 2%nat)) by reflexivity.
  rewrite IH. cbn [Nat.pow]. lia.
Qed.

Lemma assignments_NoDup m : List.NoDup (assignments m).
Proof.
  induction m as [|m IH]; cbn [assignments].
  - constructor; [intros []|constructor].
  - induction IH as [|a l Ha Hl IHl]; cbn [flat_map app]; [constructor|].
    constructor.
    + intros [Heq|Hin]; [discriminate|].
      apply in_flat_map in Hin as (a' & Ha' & [Heq|[Heq|[]]]); [|discriminate].
      injection Heq as <-. contradiction.
    + constructor; [|exact IHl].
      intros Hin. apply in_flat_map in Hin as (a' & Ha' & [Heq|[Heq|[]]]);
        [discriminate|]. injection Heq as <-. contradiction.
Qed.

Lemma assignment_weight_nonneg probs a :
  (forall p, In p probs -> (0 <= p <= 1)%Q) ->
  (0 <= assignment_weight probs a)%Q.
Proof.
  revert a. induction probs as [|p probs IH]; intros a H; simpl; [lra|].
  destruct a as [|b a]; [lra|].
  specialize (IH a (fun q Hq => H q (or_intror Hq))).
  specialize (H p (or_introl eq_refl)).
  apply Qmult_le_0_compat; [destruct b; lra|exact IH].
Qed.

(** The weights of all assignments add up to 1. *)
Lemma total_weight probs :
  (Qsum (map (assignment_weight probs) (assignments (length probs))) == 1)%Q.
Proof.
  induction probs as [|p probs IH]; cbn [length assignments].
  - simpl. ring.
  - rewrite (Qsum_flat_map_pair (assignment_weight (p :: probs))
               (cons false) (cons true)).
    cbn [assignment_weight].
    rewrite (Qsum_map_ext _ (fun a => 1 * assignment_weight probs a)%Q)
      by (intros a _; ring).
    rewrite Qsum_map_scale, IH. ring.
Qed.

Lemma enumeration_sum_range probs known threshold :
  (forall p, In p probs -> (0 <= p <= 1)%Q) ->
  (0 <= enumeration_sum probs known threshold <= 1)%Q.
Proof.
  intros H. unfold enumeration_sum. split.
  - apply Qsum_map_nonneg. intros a _.
    destruct (_ >=? _); [apply assignment_weight_nonneg; exact H|apply Qle_refl].
  - rewrite <- (total_weight probs). apply Qsum_map_le. intros a _.
    destruct (_ >=? _); [apply Qle_refl|apply assignment_weight_nonneg; exact H].
Qed.

Lemma resistant_count_cons b a :
  resistant_count (b :: a) = (if b then 1 else 0) + resistant_count a.
Proof. unfold resistant_count. rewrite countb_cons. reflexivity. Qed.

Lemma enumeration_sum_cons p probs known threshold :
  (enumeration_sum (p :: probs) known threshold
   == (1 - p) * enumeration_sum probs known threshold
      + p * enumeration_sum probs (known + 1) threshold)%Q.
Proof.
  unfold enumeration_sum. cbn [length assignments].
  rewrite (Qsum_flat_map_pair
             (fun a => if known + resistant_count a >=? threshold
                       then assignment_weight (p :: probs) a else 0%Q)
             (cons false) (cons true)).
  rewrite <- !Qsum_map_scale, <- Qsum_map_plus.
  apply Qsum_map_ext. intros a _.
  rewrite !resistant_count_cons. cbn [assignment_weight].
  replace (known + (0 + resistant_count a)) with (known + resistant_count a) by lia.
  replace (known + (1 + resistant_count a)) with (known + 1 + resistant_count a) by lia.
  destruct (_ >=? _); destruct (_ >=? _); ring.
Qed.

(** *** The loop over the masks *)

Lemma bits_S mask i n :
  bits mask i (S n) = Z.testbit mask i :: bits mask (i + 1) n.
Proof.
  unfold bits. cbn [seq map]. rewrite Z.add_0_r. f_equal.
  rewrite <- seq_shift, map_map. apply map_ext. intros j.
  f_equal. lia.
Qed.

Lemma bit_test mask i :
  0 <= i -> negb (Z.land (Z.shiftr mask i) 1 =? 0) = Z.testbit mask i.
Proof.
  intros Hi. change 1 with (Z.ones 1) at 1. rewrite Z.land_ones by lia.
  change (2 ^ 1) with 2. rewrite <- Z.bit0_mod.
  rewrite Z.shiftr_spec by lia. rewrite Z.add_0_l.
  destruct (Z.testbit mask i); reflexivity.
Qed.

Lemma mask_weight_bits rnd mp mask missing : forall i kk pr,
  0 <= i ->
  mask_weight rnd mp mask i missing kk pr
  = (kk + resistant_count (bits mask i (length missing)),
     rounded_weight rnd pr (map (prior_of mp) missing)
                    (bits mask i (length missing))).
Proof.
  induction missing as [|c rest IH]; intros i kk pr Hi.
  - cbn [length mask_weight map rounded_weight].
    unfold bits, resistant_count. cbn [seq map]. rewrite countb_nil, Z.add_0_r.
    reflexivity.
  - cbn [length]. rewrite bits_S. cbn [mask_weight map rounded_weight].
    cbv zeta. rewrite bit_test by exact Hi. rewrite resistant_count_cons.
    destruct (Z.testbit mask i); cbn [negb]; rewrite IH by lia;
      f_equal; lia.
Qed.

Lemma rounded_weight_exact probs : forall a pr,
  (rounded_weight exact pr probs a == pr * assignment_weight probs a)%Q.
Proof.
  induction probs as [|p probs IH]; intros a pr.
  - cbn [rounded_weight assignment_weight]. ring.
  - destruct a as [|b a]; cbn [rounded_weight assignment_weight]; [ring|].
    rewrite IH. unfold exact. ring.
Qed.

Lemma range_double k :
  map Z.of_nat (seq 0 (2 * k))
  = flat_map (fun h => [2 * h; 2 * h + 1]) (map Z.of_nat (seq 0 k)).
Proof.
  induction k as [|k IH]; [reflexivity|].
  replace (2 * S k)%nat with (S (S (2 * k))) by lia.
  rewrite !seq_S, !map_app, flat_map_app. cbn [Nat.add map flat_map app].
  rewrite <- app_assoc, IH. cbn [app]. repeat f_equal; lia.
Qed.

Lemma py_range_pow2_S m :
  py_range (Z.shiftl 1 (Z.of_nat (S m)))
  = flat_map (fun h => [2 * h; 2 * h + 1]) (py_range (Z.shiftl 1 (Z.of_nat m))).
Proof.
  unfold py_range. rewrite !Z.shiftl_1_l.
  replace (Z.to_nat (2 ^ Z.of_nat (S m))) with (2 * Z.to_nat (2 ^ Z.of_nat m))%nat.
  - apply range_double.
  - rewrite Nat2Z.inj_succ, Z.pow_succ_r by lia.
    rewrite Z2Nat.inj_mul by (try apply Z.pow_nonneg; lia). reflexivity.
Qed.

Lemma bits_double h b m :
  0 <= h -> bits (2 * h + Z.b2z b) 0 (S m) = b :: bits h 0 m.
Proof.
  intros Hh. rewrite bits_S. f_equal.
  - apply Z.testbit_0_r.
  - unfold bits. apply map_ext. intros j.
    replace (0 + 1 + Z.of_nat j) with (Z.succ (Z.of_nat j)) by lia.
    rewrite Z.add_0_l. apply Z.testbit_succ_r. lia.
Qed.

Lemma bits_of_doubles m (l : list Z) :
  (forall h, In h l -> 0 <= h) ->
  map (fun mask => bits mask 0 (S m)) (flat_map (fun h => [2 * h; 2 * h + 1]) l)
  = flat_map (fun a => [false :: a; true :: a]) (map (fun mask => bits mask 0 m) l).
Proof.
  induction l as [|h l IHl]; intros Hnn; [reflexivity|].
  cbn [flat_map map app]. rewrite IHl by (intros h' Hh'; apply Hnn; now right).
  assert (0 <= h) by (apply Hnn; now left).
  f_equal; [|f_equal].
  - replace (2 * h) with (2 * h + Z.b2z false) by (simpl; lia).
    apply bits_double. assumption.
  - apply (bits_double h true). assumption.
Qed.

(** The masks of the loop, read bit by bit, are the assignments. *)
Lemma masks_are_assignments m :
  map (fun mask => bits mask 0 m) (py_range (Z.shiftl 1 (Z.of_nat m)))
  = assignments m.
Proof.
  induction m as [|m IH]; [reflexivity|].
  rewrite py_range_pow2_S. cbn [assignments]. rewrite <- IH.
  apply bits_of_doubles.
  intros h Hh. unfold py_range in Hh. apply in_map_iff in Hh as (k & <- & _). lia.
Qed.

(** The loop of the source runs over the assignments, whatever the
    rounding is. *)
Lemma enumerate_masks_rounded rnd mp missing known threshold :
  enumerate_masks rnd mp missing known threshold
  = rounded_enumeration rnd (map (prior_of mp) missing) known threshold.
Proof.
  unfold enumerate_masks, rounded_enumeration.
  rewrite length_map, <- (masks_are_assignments (length missing)).
  rewrite fold_left_map. apply fold_left_ext. intros p mask.
  rewrite mask_weight_bits by lia. reflexivity.
Qed.

Lemma rounded_enumeration_exact probs known threshold :
  (rounded_enumeration exact probs known threshold
   == enumeration_sum probs known threshold)%Q.
Proof.
  unfold rounded_enumeration, enumeration_sum.
  transitivity
    (fold_left (fun p a => if known + resistant_count a >=? threshold
                           then p + rounded_weight exact 1 probs a else p)
               (assignments (length probs)) 0)%Q.
  { apply Qeq_refl_eq. apply fold_left_ext. intros p a. reflexivity. }
  rewrite fold_left_guarded_sum, Qplus_0_l.
  apply Qsum_map_ext. intros a _.
  destruct (_ >=? _); [rewrite rounded_weight_exact; ring|reflexivity].
Qed.

(** In real arithmetic the loop of the source computes the spec's
    enumeration. *)
Lemma enumerate_masks_sum mp missing known threshold :
  (enumerate_masks exact mp missing known threshold
   == enumeration_sum (map (prior_of mp) missing) known threshold)%Q.
Proof. rewrite enumerate_masks_rounded. apply rounded_enumeration_exact. Qed.

Lemma resistant_count_range a : 0 <= resistant_count a <= Z.of_nat (length a).
Proof.
  unfold resistant_count. split; [apply countb_nonneg|apply countb_le_length].
Qed.

Lemma enumeration_sum_met probs known threshold :
  threshold <= known -> (enumeration_sum probs known threshold == 1)%Q.
Proof.
  intros H. rewrite <- (total_weight probs). unfold enumeration_sum.
  apply Qsum_map_ext. intros a _. pose proof (resistant_count_range a).
  destruct (Z.geb_spec (known + resistant_count a) threshold); [reflexivity|lia].
Qed.

Lemma enumeration_sum_unreachable probs known threshold :
  known + Z.of_nat (length probs) < threshold ->
  (enumeration_sum probs known threshold == 0)%Q.
Proof.
  intros H. unfold enumeration_sum.
  rewrite (Qsum_map_ext _ (fun a => 0 * assignment_weight probs a)%Q).
  - rewrite Qsum_map_scale. ring.
  - intros a Ha. apply assignments_length in Ha.
    pose proof (resistant_count_range a).
    destruct (Z.geb_spec (known + resistant_count a) threshold); [lia|ring].
Qed.

Lemma posterior_unfold_with rnd row threshold mp :
  _posterior_mdr_prob_with rnd row threshold mp
  = if known_resistant row >=? threshold then 1%Q
    else if known_resistant row + Z.of_nat (length (missing_classes row)) <? threshold
         then 0%Q
         else Qmin (Qmax (enumerate_masks rnd mp (missing_classes row)
                                          (known_resistant row) threshold) 0) 1.
Proof.
  unfold _posterior_mdr_prob_with, known_resistant, missing_classes.
  rewrite (countb_ext (fun kv : string * cell => notna (snd kv) && cell_eqb (snd kv) 1)
                      (fun kv : string * cell => cell_eqb (snd kv) 1)).
  - reflexivity.
  - intros [k [z|]] _; reflexivity.
Qed.

Lemma posterior_unfold row threshold mp :
  _posterior_mdr_prob row threshold mp
  = if known_resistant row >=? threshold then 1%Q
    else if known_resistant row + Z.of_nat (length (missing_classes row)) <? threshold
         then 0%Q
         else Qmin (Qmax (enumerate_masks exact mp (missing_classes row)
                                          (known_resistant row) threshold) 0) 1.
Proof. apply posterior_unfold_with. Qed.

Lemma clip_id p : (0 <= p <= 1)%Q -> (Qmin (Qmax p 0) 1 == p)%Q.
Proof.
  intros [H0 H1]. rewrite (Q.max_l p 0) by exact H0. apply Q.min_l. exact H1.
Qed.

(** The posterior is the enumeration in every case, the two guards
    included. *)
Lemma posterior_is_enumeration row threshold mp :
  (forall c, In c (missing_classes row) -> (0 <= prior_of mp c <= 1)%Q) ->
  (_posterior_mdr_prob row threshold mp
   == enumeration_sum (map (prior_of mp) (missing_classes row))
                      (known_resistant row) threshold)%Q.
Proof.
  intros Hp. rewrite posterior_unfold.
  destruct (Z.geb_spec (known_resistant row) threshold) as [Hge|Hlt].
  - symmetry. apply enumeration_sum_met. lia.
  - destruct (Z.ltb_spec (known_resistant row
                          + Z.of_nat (length (missing_classes row))) threshold)
      as [Hun|Hre].
    + symmetry. apply enumeration_sum_unreachable. rewrite length_map. exact Hun.
    + rewrite enumerate_masks_sum. apply clip_id. apply enumeration_sum_range.
      intros p Hin. apply in_map_iff in Hin as (c & <- & Hc). apply Hp. exact Hc.
Qed.

(** What the source reads off [row.to_dict()], for a series with distinct
    labels. *)
Lemma known_resistant_entries (row : Series) :
  List.NoDup (map fst row) -> known_resistant row = resistant_entries row.
Proof.
  intros Hnd. unfold known_resistant, resistant_entries, countb.
  rewrite to_dict_unique by exact Hnd. do 2 f_equal.
  apply List.filter_ext. intros [k [z|]]; cbn [snd cell_eqb].
  - destruct (Z.eqb_spec z 1) as [->|Hne].
    + rewrite bool_decide_eq_true_2; reflexivity.
    + rewrite bool_decide_eq_false_2; [reflexivity|congruence].
  - rewrite bool_decide_eq_false_2; [reflexivity|discriminate].
Qed.

Lemma missing_classes_labels (row : Series) :
  List.NoDup (map fst row) -> missing_classes row = missing_labels row.
Proof.
  intros Hnd. unfold missing_classes, missing_labels.
  rewrite to_dict_unique by exact Hnd. clear Hnd.
  induction row as [|[k [z|]] row IH]; [reflexivity| |].
  - cbn [List.filter snd isna]. rewrite IH. reflexivity.
  - cbn [List.filter snd isna map fst]. rewrite IH. reflexivity.
Qed.

Lemma prior_of_at mp c : prior_of mp c = prior_at mp c.
Proof.
  unfold prior_of, prior_at. destruct mp as [d|]; cbn.
  - destruct (d !! c); reflexivity.
  - rewrite lookup_empty. reflexivity.
Qed.

(** C5. For a row with distinct labels and priors that are
    probabilities, the posterior MDR probability is 1 when the count of
    known-resistant classes meets the threshold and 0 when that count
    plus the number of missing classes stays below it, whatever the
    rounding; otherwise it is, in real arithmetic, the sum over all [2^m]
    assignments of the [m] missing classes of the product of the
    per-class prior (class assigned 1) or its complement (class assigned
    0), over the assignments whose total resistant count reaches the
    threshold, and as the program runs it is that sum taken in floats,
    assignment by assignment, and clipped to [0, 1]. *)
Theorem posterior_mdr_prob_cases (row : Series) (threshold : Z)
    (missing_prior : option (gmap string Q)) :
  List.NoDup (map fst row) ->
  (forall c, In c (missing_labels row) ->
             (0 <= prior_at missing_prior c <= 1)%Q) ->
  let known := resistant_entries row in
  let priors := map (prior_at missing_prior) (missing_labels row) in
  let m := length priors in
  (threshold <= known ->
   forall rnd, _posterior_mdr_prob_with rnd row threshold missing_prior = 1%Q) /\
  (known + Z.of_nat m < threshold ->
   forall rnd, _posterior_mdr_prob_with rnd row threshold missing_prior = 0%Q) /\
  (known < threshold <= known + Z.of_nat m ->
   (_posterior_mdr_prob row threshold missing_prior
    == Qsum (map (fun a =>
                    if known + resistant_count a >=? threshold
                    then assignment_weight priors a else 0%Q)
                 (assignments m)))%Q /\
   _posterior_mdr_prob_with b64 row threshold missing_prior
   = Qmin (Qmax (rounded_enumeration b64 priors known threshold) 0) 1) /\
  length (assignments m) = (2 ^ m)%nat /\
  List.NoDup (assignments m) /\
  (forall a, In a (assignments m) <-> length a = m).
Proof.
  intros Hnd Hp known priors m. subst known priors m.
  assert (Hpri : map (prior_of missing_prior) (missing_classes row)
                 = map (prior_at missing_prior) (missing_labels row)).
  { rewrite missing_classes_labels by exact Hnd.
    apply map_ext. intros c. apply prior_of_at. }
  assert (Hlen : length (missing_classes row)
                 = length (map (prior_at missing_prior) (missing_labels row))).
  { rewrite <- Hpri, length_map. reflexivity. }
  split; [|split; [|split; [|split; [|split]]]].
  - intros H rnd. rewrite posterior_unfold_with.
    rewrite known_resistant_entries by exact Hnd.
    destruct (Z.geb_spec (resistant_entries row) threshold); [reflexivity|lia].
  - intros H rnd. rewrite posterior_unfold_with.
    rewrite known_resistant_entries by exact Hnd. rewrite Hlen.
    destruct (Z.geb_spec (resistant_entries row) threshold) as [Hge|Hlt].
    + pose proof (Nat2Z.is_nonneg
                    (length (map (prior_at missing_prior) (missing_labels row)))).
      lia.
    + destruct (Z.ltb_spec
                  (resistant_entries row
                   + Z.of_nat (length (map (prior_at missing_prior)
                                           (missing_labels row)))) threshold);
        [reflexivity|lia].
  - intros [Hlt Hge]. split.
    + rewrite posterior_is_enumeration.
      * rewrite Hpri, known_resistant_entries by exact Hnd.
        unfold enumeration_sum. reflexivity.
      * intros c Hc. rewrite prior_of_at. apply Hp.
        rewrite <- missing_classes_labels by exact Hnd. exact Hc.
    + rewrite posterior_unfold_with.
      rewrite known_resistant_entries by exact Hnd. rewrite Hlen.
      destruct (Z.geb_spec (resistant_entries row) threshold) as [Hge'|_]; [lia|].
      destruct (Z.ltb_spec
                  (resistant_entries row
                   + Z.of_nat (length (map (prior_at missing_prior)
                                           (missing_labels row)))) threshold);
        [lia|].
      rewrite enumerate_masks_rounded, Hpri. reflexivity.
  - apply assignments_count.
  - apply assignments_NoDup.
  - apply assignments_length.
Qed.

Lemma example_series_labels : List.NoDup (map fst example_series).
Proof. repeat constructor; simpl; intuition discriminate. Qed.

Lemma example_prior_range c :
  In c (missing_labels example_series) ->
  (0 <= prior_at example_prior c <= 1)%Q.
Proof.
  intros Hc. vm_compute in Hc.
  destruct Hc as [<-|[<-|[]]]; vm_compute; split; discriminate.
Qed.

(** The example has one known-resistant class and the missing classes b
    and c with the priors 1/2 and 1/4.  At threshold 2 one of the two has
    to be resistant: 1 - 1/2 * 3/4 = 5/8, exactly so in floats too.  At
    threshold 1 the answer is 1 and at threshold 4 it is 0. *)
Lemma posterior_mdr_prob_cases_witness :
  resistant_entries example_series = 1 /\
  map (prior_at example_prior) (missing_labels example_series)
  = [(1 # 2)%Q; (1 # 4)%Q] /\
  (_posterior_mdr_prob example_series 2 example_prior == 5 # 8)%Q /\
  _posterior_mdr_prob_with b64 example_series 2 example_prior = b64 (5 # 8) /\
  _posterior_mdr_prob_with b64 example_series 1 example_prior = 1%Q /\
  _posterior_mdr_prob_with b64 example_series 4 example_prior = 0%Q.
Proof.
  split; [reflexivity|]. split; [reflexivity|].
  destruct (posterior_mdr_prob_cases example_series 2 example_prior
              example_series_labels example_prior_range)
    as (_ & _ & H2 & _).
  destruct (posterior_mdr_prob_cases example_series 1 example_prior
              example_series_labels example_prior_range)
    as (H1 & _).
  destruct (posterior_mdr_prob_cases example_series 4 example_prior
              example_series_labels example_prior_range)
    as (_ & H4 & _).
  destruct H2 as [H2 H2f]; [vm_compute; split; [reflexivity|discriminate]|].
  split; [rewrite H2; vm_compute; reflexivity|].
  split; [rewrite H2f; vm_compute; reflexivity|].
  split; [apply H1; vm_compute; discriminate|].
  apply H4. vm_compute. reflexivity.
Defined.

End PosteriorFacts.

Lemma fold_left_Qplus (l : list Q) (p0 : Q) :
  (fold_left (fun s x => exact (s + x)) l p0 == p0 + Qsum l)%Q.
Proof.
  revert p0. induction l as [|x l IH]; intros p0; cbn [fold_left Qsum fold_right].
  - ring.
  - rewrite IH. unfold exact. fold (Qsum l). ring.
Qed.

Module ConvolutionFacts.
Import Classification DecisionV3 PosteriorFacts.
Import PosteriorSpec ConvolutionSpec.

(** *** Tails of a convolution *)

Lemma tail_prob_tail_from dist j :
  (tail_prob exact dist (Z.max 0 j) == tail_from dist j)%Q.
Proof.
  unfold tail_prob, tail_from.
  replace (Z.to_nat (Z.max 0 j)) with (Z.to_nat j) by lia.
  destruct (Z.ltb_spec (Z.max 0 j) (Z.of_nat (length dist))) as [Hlt|Hge].
  - rewrite fold_left_Qplus. ring.
  - rewrite drop_ge by lia. reflexivity.
Qed.

Lemma convolve_single rnd x q p :
  convolve rnd [x] [q; p] = [rnd (x * q)%Q; rnd (x * p)%Q].
Proof. reflexivity. Qed.

Lemma convolve_cons2 rnd x y d q p :
  exists c0 c,
    convolve rnd (y :: d) [q; p] = c0 :: c /\
    convolve rnd (x :: y :: d) [q; p]
    = rnd (rnd (x * q) + 0)%Q :: rnd (rnd (x * p) + c0)%Q :: c.
Proof.
  assert (H : exists c0 c, convolve rnd (y :: d) [q; p] = c0 :: c).
  { destruct d as [|z d]; cbn [convolve map padd]; eauto. }
  destruct H as (c0 & c & Hc). exists c0, c. split; [exact Hc|].
  change (convolve rnd (x :: y :: d) [q; p])
    with (padd rnd [rnd (x * q)%Q; rnd (x * p)%Q]
               (0%Q :: convolve rnd (y :: d) [q; p])).
  rewrite Hc. reflexivity.
Qed.

(** A convolution with a pair has one entry more. *)
Lemma convolve_length rnd d q p :
  d <> [] -> length (convolve rnd d [q; p]) = S (length d).
Proof.
  induction d as [|x d IH]; intros Hne; [contradiction|].
  destruct d as [|y d]; [reflexivity|].
  destruct (convolve_cons2 rnd x y d q p) as (c0 & c & Hc & ->).
  specialize (IH ltac:(discriminate)). rewrite Hc in IH.
  cbn [length] in *. lia.
Qed.

Lemma count_dist_length rnd probs :
  length (count_dist rnd probs) = S (length probs).
Proof.
  unfold count_dist.
  assert (G : forall d, d <> [] ->
            length (fold_left (fun dist p => convolve rnd dist [rnd (1 - p)%Q; p])
                              probs d)
            = (length d + length probs)%nat).
  { induction probs as [|p probs IH]; intros d Hd; cbn [fold_left length]; [lia|].
    rewrite IH.
    - rewrite convolve_length by exact Hd. lia.
    - intros E. pose proof (convolve_length rnd d (rnd (1 - p)%Q) p Hd) as H.
      rewrite E in H. discriminate. }
  rewrite G by discriminate. reflexivity.
Qed.

Lemma Qsum_drop_convolve d q p : forall n,
  (Qsum (drop n (convolve exact d [q; p]))
   == q * Qsum (drop n d) + p * Qsum (drop (n - 1) d))%Q.
Proof.
  induction d as [|x d IH]; intros n.
  - cbn [convolve]. rewrite !drop_nil. simpl. ring.
  - destruct d as [|y d].
    + rewrite convolve_single. unfold exact.
      destruct n as [|[|n]]; cbn [drop Nat.sub Qsum fold_right];
        rewrite ?drop_nil; cbn [Qsum fold_right]; ring.
    + destruct (convolve_cons2 exact x y d q p) as (c0 & c & Hc & ->).
      destruct n as [|[|n]].
      * specialize (IH 0%nat). rewrite Hc in IH. cbn [drop Nat.sub] in *.
        cbn [Qsum fold_right] in *. unfold exact at 1 2 3 4.
        transitivity (x * q + x * p + (c0 + fold_right Qplus 0 c))%Q; [ring|].
        rewrite IH. ring.
      * specialize (IH 0%nat). rewrite Hc in IH. cbn [drop Nat.sub] in *.
        cbn [Qsum fold_right] in *. unfold exact at 1 2.
        transitivity (x * p + (c0 + fold_right Qplus 0 c))%Q; [ring|].
        rewrite IH. ring.
      * specialize (IH (S n)). rewrite Hc in IH.
        cbn [drop Nat.sub] in *. rewrite Nat.sub_0_r in IH. exact IH.
Qed.

Lemma tail_from_convolve d q p j :
  (tail_from (convolve exact d [q; p]) j
   == q * tail_from d j + p * tail_from d (j - 1))%Q.
Proof.
  unfold tail_from. rewrite Qsum_drop_convolve.
  replace (Z.to_nat (j - 1)) with (Z.to_nat j - 1)%nat by lia. reflexivity.
Qed.

(** The tail of the folded convolutions, assignment by assignment. *)
Lemma tail_from_fold probs : forall d j,
  (tail_from
     (fold_left (fun dist p => convolve exact dist [exact (1 - p)%Q; p]) probs d) j
   == Qsum (map (fun a => assignment_weight probs a
                          * tail_from d (j - resistant_count a))
                (assignments (length probs))))%Q.
Proof.
  induction probs as [|p probs IH]; intros d j.
  - cbn [fold_left length assignments map Qsum fold_right assignment_weight].
    unfold resistant_count. rewrite countb_nil, Z.sub_0_r. ring.
  - cbn [fold_left length assignments]. rewrite IH.
    rewrite (Qsum_flat_map_pair
               (fun a => assignment_weight (p :: probs) a
                         * tail_from d (j - resistant_count a))%Q
               (cons false) (cons true)).
    apply Qsum_map_ext. intros a _.
    rewrite tail_from_convolve, !resistant_count_cons. cbn [assignment_weight].
    replace (j - (0 + resistant_count a)) with (j - resistant_count a) by lia.
    replace (j - (1 + resistant_count a)) with (j - resistant_count a - 1) by lia.
    unfold exact. ring.
Qed.

Lemma tail_from_unit j : (tail_from [1%Q] j == if j <=? 0 then 1 else 0)%Q.
Proof.
  unfold tail_from. destruct (Z.leb_spec j 0) as [Hle|Hgt].
  - replace (Z.to_nat j) with 0%nat by lia. simpl. ring.
  - destruct (Z.to_nat j) as [|n] eqn:E; [lia|]. cbn [drop]. rewrite drop_nil.
    reflexivity.
Qed.

(** In real arithmetic the convolution computes the spec's enumeration. *)
Lemma tail_prob_is_enumeration probs known threshold :
  (tail_prob exact (count_dist exact probs) (Z.max 0 (threshold - known))
   == enumeration_sum probs known threshold)%Q.
Proof.
  rewrite tail_prob_tail_from. unfold count_dist. rewrite tail_from_fold.
  unfold enumeration_sum. apply Qsum_map_ext. intros a _.
  rewrite tail_from_unit.
  destruct (Z.leb_spec (threshold - known - resistant_count a) 0);
    destruct (Z.geb_spec (known + resistant_count a) threshold); try lia; ring.
Qed.

(** *** The two routines on a row of the class matrix *)

Lemma map_fst_combine {A B} (l1 : list A) (l2 : list B) :
  length l1 = length l2 -> map fst (combine l1 l2) = l1.
Proof.
  revert l2. induction l1 as [|x l1 IH]; intros [|y l2] H; simpl in *;
    try discriminate; [reflexivity|]. f_equal. apply IH. lia.
Qed.

Lemma map_snd_combine {A B} (l1 : list A) (l2 : list B) :
  length l1 = length l2 -> map snd (combine l1 l2) = l2.
Proof.
  revert l2. induction l1 as [|x l1 IH]; intros [|y l2] H; simpl in *;
    try discriminate; [reflexivity|]. f_equal. apply IH. lia.
Qed.

Lemma known_resistant_series cols (row : list cell) :
  List.NoDup cols -> length cols = length row ->
  known_resistant (series_of cols row) = min_res row.
Proof.
  intros Hnd Hlen. unfold known_resistant, series_of, min_res.
  rewrite to_dict_unique by (rewrite map_fst_combine; assumption).
  rewrite <- (map_snd_combine cols row Hlen) at 2.
  rewrite countb_map. reflexivity.
Qed.

Lemma missing_priors (prior : string -> Q) cols : forall pc (row : list cell),
  length cols = length pc ->
  (forall c p, In (c, p) (combine cols pc) -> prior c = p) ->
  map prior (map fst (List.filter (fun kv : string * cell => isna (snd kv))
                                  (combine cols row)))
  = missing_probs pc row.
Proof.
  unfold missing_probs.
  induction cols as [|c cols IH]; intros [|p pc] [|v row] Hlen Hp;
    simpl in Hlen; try discriminate; try reflexivity.
  cbn [combine List.filter snd]. destruct v as [z|]; cbn [isna].
  - apply IH; [lia|]. intros c' p' Hin. apply Hp. now right.
  - cbn [map fst]. f_equal; [apply Hp; now left|].
    apply IH; [lia|]. intros c' p' Hin. apply Hp. now right.
Qed.

Lemma prior_of_columns cols pc c p :
  List.NoDup cols -> length cols = length pc ->
  In (c, p) (combine cols pc) ->
  prior_of (Some (list_to_map (combine cols pc))) c = p.
Proof.
  intros Hnd Hlen Hin.
  assert (H : (list_to_map (combine cols pc) : gmap string Q) !! c = Some p).
  { apply elem_of_list_to_map_1.
    - change (NoDup (map fst (combine cols pc))).
      rewrite map_fst_combine by exact Hlen. apply NoDup_ListNoDup. exact Hnd.
    - apply list_elem_of_In. exact Hin. }
  unfold prior_of. change (default ∅ (Some ?m)) with m. rewrite H. reflexivity.
Qed.

Lemma clip01_range x : (0 <= clip01 x <= 1)%Q.
Proof.
  unfold clip01. split.
  - apply Q.min_glb; [apply Q.le_max_r|lra].
  - apply Q.le_min_r.
Qed.

Lemma p_class_length rnd class_df :
  length (p_class rnd class_df) = length (columns class_df).
Proof. unfold p_class. rewrite length_map, length_seq. reflexivity. Qed.

Lemma p_class_range rnd class_df p :
  In p (p_class rnd class_df) -> (0 <= p <= 1)%Q.
Proof.
  unfold p_class. intros Hin. apply in_map_iff in Hin as (j & <- & _).
  apply clip01_range.
Qed.

(** [mdr_probability] returns exactly when no index label is repeated,
    and then with one row per isolate. *)
Lemma mdr_probability_Some rnd class_df threshold :
  NoDup (index class_df) ->
  mdr_probability rnd class_df threshold
  = Some (map (fun '(sid, row) =>
                 mdr_probability_row rnd (Z.of_nat (length (columns class_df)))
                                     (p_class rnd class_df) threshold sid row)
              (combine (index class_df) (data class_df))).
Proof.
  intros Hnd. unfold mdr_probability.
  rewrite bool_decide_eq_true_2 by exact Hnd. reflexivity.
Qed.

Lemma mdr_probability_None rnd class_df threshold :
  ~ NoDup (index class_df) -> mdr_probability rnd class_df threshold = None.
Proof.
  intros Hnd. unfold mdr_probability.
  rewrite bool_decide_eq_false_2 by exact Hnd. reflexivity.
Qed.

Lemma mdr_probability_lookup rnd class_df threshold i sid row :
  NoDup (index class_df) ->
  index class_df !! i = Some sid ->
  data class_df !! i = Some row ->
  exists out,
    mdr_probability rnd class_df threshold = Some out /\
    out !! i
    = Some (mdr_probability_row rnd (Z.of_nat (length (columns class_df)))
                                (p_class rnd class_df) threshold sid row).
Proof.
  intros Hnd Hi Hr. eexists. split; [apply mdr_probability_Some; exact Hnd|].
  rewrite lookup_map.
  assert (H : combine (index class_df) (data class_df) !! i = Some (sid, row))
    by (apply lookup_combine; split; assumption).
  rewrite H. reflexivity.
Qed.

(** The two routines read the same row. *)
Lemma posterior_of_row rnd class_df (row : list cell) :
  well_shaped class_df -> In row (data class_df) ->
  known_resistant (series_of (columns class_df) row) = min_res row /\
  map (prior_of (column_priors rnd class_df))
      (missing_classes (series_of (columns class_df) row))
  = missing_probs (p_class rnd class_df) row.
Proof.
  intros (Hnd & Hlen & Hshape) Hr.
  assert (Hrow : length (columns class_df) = length row).
  { rewrite List.Forall_forall in Hshape. symmetry. apply Hshape. exact Hr. }
  assert (Hnd' : List.NoDup (columns class_df)) by (apply NoDup_ListNoDup; exact Hnd).
  assert (Hpc : length (columns class_df) = length (p_class rnd class_df))
    by (symmetry; apply p_class_length).
  split; [apply known_resistant_series; assumption|].
  unfold missing_classes, series_of.
  rewrite to_dict_unique by (rewrite map_fst_combine; assumption).
  apply missing_priors; [exact Hpc|].
  intros c p Hin. apply prior_of_columns; assumption.
Qed.

(** In real arithmetic a tail of the convolution is the posterior of the
    enumeration at the same threshold. *)
Lemma tail_prob_is_posterior class_df (row : list cell) t :
  well_shaped class_df -> In row (data class_df) ->
  (tail_prob exact (count_dist exact (missing_probs (p_class exact class_df) row))
             (Z.max 0 (t - min_res row))
   == _posterior_mdr_prob (series_of (columns class_df) row) t
                          (column_priors exact class_df))%Q.
Proof.
  intros Hws Hr.
  destruct (posterior_of_row exact class_df row Hws Hr) as [Hk Hprobs].
  rewrite posterior_is_enumeration.
  - rewrite Hprobs, Hk. apply tail_prob_is_enumeration.
  - intros c Hc.
    assert (Hin : In (prior_of (column_priors exact class_df) c)
                     (missing_probs (p_class exact class_df) row))
      by (rewrite <- Hprobs; apply in_map; exact Hc).
    unfold missing_probs in Hin. apply in_map_iff in Hin as ([p v] & Hp & Hin).
    apply filter_In in Hin as [Hin _]. apply in_combine_l in Hin.
    simpl in Hp. rewrite <- Hp. apply (p_class_range exact class_df). exact Hin.
Qed.

(** C6, in real arithmetic.  For every row of a class matrix whose index
    labels are distinct and every threshold, the convolution of
    [mdr_probability] gives P_MDR the value that [_posterior_mdr_prob]
    computes by enumeration for the same row with the same per-class
    probabilities as priors; P_XDR and P_PDR are the values of the
    enumeration at the thresholds [n_classes - 2] and [n_classes]. *)
Theorem convolution_matches_enumeration (class_df : DataFrame) (threshold : Z)
    (i : nat) (sid : string) (row : list cell) :
  well_shaped class_df ->
  NoDup (index class_df) ->
  index class_df !! i = Some sid ->
  data class_df !! i = Some row ->
  let posterior t :=
    _posterior_mdr_prob (series_of (columns class_df) row) t
                        (column_priors exact class_df) in
  let n_classes := Z.of_nat (length (columns class_df)) in
  exists out r,
    mdr_probability exact class_df threshold = Some out /\
    out !! i = Some r /\
    (P_MDR r == posterior threshold)%Q /\
    (P_XDR r == posterior (n_classes - 2)%Z)%Q /\
    (P_PDR r == posterior n_classes)%Q.
Proof.
  intros Hws Hnd Hi Hr posterior n_classes. subst posterior n_classes.
  destruct (mdr_probability_lookup exact class_df threshold i sid row Hnd Hi Hr)
    as (out & Hout & Hrow).
  exists out. eexists. split; [exact Hout|]. split; [exact Hrow|].
  assert (Hin : In row (data class_df))
    by (apply list_elem_of_In; eapply list_elem_of_lookup_2; exact Hr).
  cbn [mdr_probability_row P_MDR P_XDR P_PDR].
  split; [|split]; apply tail_prob_is_posterior; assumption.
Qed.

Lemma example_untested_well_shaped : well_shaped example_untested.
Proof.
  split; [|split].
  - apply NoDup_ListNoDup. repeat constructor; simpl; intuition discriminate.
  - reflexivity.
  - repeat constructor.
Qed.

Lemma example_untested_index : NoDup (index example_untested).
Proof.
  apply NoDup_ListNoDup. repeat constructor; simpl; intuition discriminate.
Qed.

(** For the first isolate of the example at threshold 2 both routines
    give 5/12 in real arithmetic: two of the three classes have to be
    resistant. *)
Lemma convolution_matches_enumeration_witness :
  exists out r,
    mdr_probability exact example_untested 2 = Some out /\
    out !! 0%nat = Some r /\
    (P_MDR r == 5 # 12)%Q /\
    (_posterior_mdr_prob (series_of (columns example_untested) [None; None; None])
                         2 (column_priors exact example_untested) == 5 # 12)%Q.
Proof.
  destruct (convolution_matches_enumeration example_untested 2 0 "s1"
              [None; None; None] example_untested_well_shaped
              example_untested_index eq_refl eq_refl)
    as (out & r & Hout & Hr & Hm & _).
  exists out, r. split; [exact Hout|]. split; [exact Hr|].
  assert (E : (_posterior_mdr_prob
                 (series_of (columns example_untested) [None; None; None]) 2
                 (column_priors exact example_untested) == 5 # 12)%Q)
    by (vm_compute; reflexivity).
  split; [rewrite Hm; exact E|exact E].
Defined.

(** C6 fails for the program as it runs.  In binary64 the convolution
    gives the first isolate of the example P_MDR = 0.4166666666666667 at
    threshold 2, and the enumeration, with the same priors,
    0.41666666666666663. *)
Lemma convolution_differs_in_floats :
  exists out r,
    mdr_probability b64 example_untested 2 = Some out /\
    out !! 0%nat = Some r /\
    P_MDR r = b64 (4166666666666667 # 10000000000000000) /\
    _posterior_mdr_prob_with b64
      (series_of (columns example_untested) [None; None; None]) 2
      (column_priors b64 example_untested)
    = b64 (41666666666666663 # 100000000000000000) /\
    ~ (P_MDR r
       == _posterior_mdr_prob_with b64
            (series_of (columns example_untested) [None; None; None]) 2
            (column_priors b64 example_untested))%Q.
Proof.
  eexists. eexists. split; [vm_compute; reflexivity|].
  split; [reflexivity|]. split; [vm_compute; reflexivity|].
  split; [vm_compute; reflexivity|]. vm_compute. discriminate.
Qed.

(** The same on three missing classes with the prevalences 1/3, 1/2 and
    2/3, where one resistant class is needed: 0.8888888888888891 by
    convolution and 0.8888888888888888 by enumeration. *)
Lemma convolution_differs_on_thirds :
  tail_prob b64 (count_dist b64 [b64 (1 # 3); b64 (1 # 2); b64 (2 # 3)]) 1
  = b64 (8888888888888891 # 10000000000000000) /\
  _posterior_mdr_prob_with b64 [("a", None); ("b", None); ("c", None)] 1
    (Some (list_to_map [("a", b64 (1 # 3)); ("b", b64 (1 # 2));
                        ("c", b64 (2 # 3))]))
  = b64 (8888888888888888 # 10000000000000000).
Proof. split; vm_compute; reflexivity. Qed.

End ConvolutionFacts.

(** ** Arithmetic of [int64] *)

Lemma wrap64_mod z : wrap64 z mod 2 ^ 64 = z mod 2 ^ 64.
Proof.
  unfold wrap64. rewrite Zminus_mod_idemp_l. f_equal. lia.
Qed.

Lemma wrap64_congr x y : x mod 2 ^ 64 = y mod 2 ^ 64 -> wrap64 x = wrap64 y.
Proof.
  intros H. unfold wrap64. f_equal.
  rewrite (Zplus_mod x), (Zplus_mod y), H. reflexivity.
Qed.

Lemma wrap64_add_l x y : wrap64 (wrap64 x + y) = wrap64 (x + y).
Proof.
  apply wrap64_congr. rewrite Zplus_mod, wrap64_mod, <- Zplus_mod. reflexivity.
Qed.

Lemma wrap64_add_r x y : wrap64 (x + wrap64 y) = wrap64 (x + y).
Proof. rewrite Z.add_comm, wrap64_add_l, Z.add_comm. reflexivity. Qed.

Lemma wrap64_sub_l x y : wrap64 (wrap64 x - y) = wrap64 (x - y).
Proof.
  apply wrap64_congr. rewrite Zminus_mod, wrap64_mod, <- Zminus_mod. reflexivity.
Qed.

Lemma wrap64_mul_l x y : wrap64 (wrap64 x * y) = wrap64 (x * y).
Proof.
  apply wrap64_congr. rewrite Zmult_mod, wrap64_mod, <- Zmult_mod. reflexivity.
Qed.

Lemma wrap64_mul_r x y : wrap64 (x * wrap64 y) = wrap64 (x * y).
Proof. rewrite Z.mul_comm, wrap64_mul_l, Z.mul_comm. reflexivity. Qed.

Lemma i64_add_4 a b c d :
  Discovery.i64_add (Discovery.i64_add (Discovery.i64_add a b) c) d
  = wrap64 (a + b + c + d).
Proof.
  unfold Discovery.i64_add. rewrite wrap64_add_l, <- (Z.add_assoc (wrap64 (a + b))).
  rewrite wrap64_add_l. f_equal. lia.
Qed.

Lemma i64_mul_4 a b c d :
  Discovery.i64_mul (Discovery.i64_mul (Discovery.i64_mul a b) c) d
  = wrap64 (a * b * c * d).
Proof.
  unfold Discovery.i64_mul. rewrite wrap64_mul_l, <- (Z.mul_assoc (wrap64 (a * b))).
  rewrite wrap64_mul_l. f_equal. lia.
Qed.

(** Within the range of [int64] nothing wraps. *)
Lemma wrap64_small z : - 2 ^ 63 <= z < 2 ^ 63 -> wrap64 z = z.
Proof.
  intros H. unfold wrap64. rewrite Z.mod_small by lia. lia.
Qed.

Module IndependenceFacts.
Import Discovery.
Import IndependenceSpec.

(** *** Strata *)

Lemma stratum_terms_degenerate cols i j st :
  stratum_terms cols i j st = None <-> degenerate cols i j st = true.
Proof.
  unfold stratum_terms, degenerate, stratum_size.
  fold (stratum_table cols i j st).
  destruct (is_2x2 (stratum_table cols i j st)); cbn [negb orb]; [|tauto].
  destruct (_ <? 2); split; congruence.
Qed.

Lemma cmh_sums_fold cols i j sts :
  cmh_sums cols i j sts = fold_left (cmh_step cols i j) sts (0%Q, 0%Q).
Proof.
  unfold cmh_sums. apply fold_left_ext. intros [num den] st. reflexivity.
Qed.

(** Degenerate strata leave [num] and [den] as they are. *)
Lemma cmh_sums_skip cols i j sts :
  cmh_sums cols i j sts
  = cmh_sums cols i j
      (List.filter (fun st => negb (degenerate cols i j st)) sts).
Proof.
  rewrite !cmh_sums_fold. generalize (0%Q, 0%Q).
  induction sts as [|st sts IH]; intros acc; [reflexivity|].
  cbn [List.filter fold_left].
  destruct (degenerate cols i j st) eqn:E; cbn [negb].
  - rewrite <- IH. f_equal. apply stratum_terms_degenerate in E.
    unfold cmh_step. destruct acc. rewrite E. reflexivity.
  - cbn [fold_left]. apply IH.
Qed.

Lemma cmh_sums_all_degenerate cols i j sts :
  (forall st, In st sts -> degenerate cols i j st = true) ->
  cmh_sums cols i j sts = (0%Q, 0%Q).
Proof.
  intros H. rewrite cmh_sums_skip.
  replace (List.filter (fun st => negb (degenerate cols i j st)) sts) with
    (@nil (list (list cell))); [reflexivity|].
  symmetry. induction sts as [|st sts IH]; [reflexivity|].
  cbn [List.filter]. rewrite (H st) by now left. cbn [negb].
  apply IH. intros st' Hst'. apply H. now right.
Qed.

Section Tests.
Variable fisher_exact : list (list Z) -> Q.
Variable chi2_contingency : list (list Z) -> option Q.
Variable chi2_cdf : Q -> Q -> Q.

Abbreviation ci_test := (_ci_test fisher_exact chi2_contingency chi2_cdf).

(** The stratified branch, with the checks on the labels done. *)
Lemma ci_test_stratified df i j s S alpha :
  forallb (known df) (s :: S) = true ->
  known df i = true -> known df j = true ->
  ci_test df i j (s :: S) alpha
  = let '(num, den) := cmh_sums (columns df) i j (strata df (s :: S)) in
    if Qleb den 0 then Some (true, 1%Q)
    else let p := b64 (1 - chi2_cdf (b64 (b64 (num ^ 2) / den)) 1)%Q in
         Some (Qltb alpha p, p).
Proof.
  intros HS Hi Hj. unfold _ci_test. unfold known in *.
  rewrite HS, Hi, Hj. cbn [negb andb]. rewrite andb_false_r. reflexivity.
Qed.

Lemma ci_test_degenerate_denominator df i j S alpha :
  S <> [] -> forallb (known df) (i :: j :: S) = true ->
  (snd (cmh_sums (columns df) i j (strata df S)) <= 0)%Q ->
  ci_test df i j S alpha = Some (true, 1%Q).
Proof.
  intros HS Hk Hden. destruct S as [|s S]; [contradiction|].
  cbn [forallb] in Hk. apply andb_true_iff in Hk as [Hi Hk].
  apply andb_true_iff in Hk as [Hj Hk].
  rewrite ci_test_stratified by assumption.
  destruct (cmh_sums _ _ _ _) as [num den]. cbn [snd] in Hden.
  rewrite (proj2 (Qleb_le den 0) Hden). reflexivity.
Qed.

(** *** Conditioning on one of the two variables *)

Lemma insert_level_same z l :
  (forall x, In x l -> x = z) -> (length l <= 1)%nat ->
  (forall x, In x (insert_level z l) -> x = z) /\
  (length (insert_level z l) <= 1)%nat.
Proof.
  intros Hl Hlen. destruct l as [|y [|y' l]]; simpl in Hlen; try lia.
  - simpl. split; [intros x [<-|[]]; reflexivity|lia].
  - assert (y = z) by (apply Hl; now left). subst y. cbn [insert_level].
    rewrite Z.ltb_irrefl, Z.eqb_refl. split; [exact Hl|simpl; lia].
Qed.

Lemma levels_constant z l :
  (forall x, In x l -> x = z) -> (length (levels l) <= 1)%nat.
Proof.
  intros H.
  assert (Hboth : (forall x, In x (levels l) -> x = z) /\ (length (levels l) <= 1)%nat).
  { induction l as [|y l IH]; [split; [intros x []|simpl; lia]|].
    cbn [levels fold_right]. fold (levels l).
    rewrite (H y) by now left.
    destruct IH as [IH1 IH2]; [intros x Hx; apply H; now right|].
    apply insert_level_same; assumption. }
  apply Hboth.
Qed.

Lemma crosstab_narrow x y :
  (length (levels (map snd (valid_pairs x y))) <= 1)%nat ->
  is_2x2 (crosstab x y) = false.
Proof.
  intros H. unfold is_2x2, shape, crosstab.
  apply bool_decide_eq_false_2. intros Heq.
  destruct (levels (map fst (valid_pairs x y))) as [|r rl]; [discriminate|].
  cbn [map] in Heq. rewrite length_map in Heq. injection Heq as _ Hc. lia.
Qed.

Lemma valid_pairs_snd x y p :
  In p (valid_pairs x y) -> In (Some (snd p)) y.
Proof.
  unfold valid_pairs. intros Hin. apply list_elem_of_In in Hin.
  apply list_elem_of_omap in Hin as ([a b] & Hab & Hp).
  apply list_elem_of_In in Hab. apply in_combine_r in Hab.
  destruct a as [a|]; [|discriminate]. destruct b as [b|]; [|discriminate].
  injection Hp as <-. exact Hab.
Qed.

(** A stratum in which the second variable is constant is degenerate. *)
Lemma degenerate_constant cols i j st k :
  (forall row, In row st -> row_get cols row j = k) ->
  degenerate cols i j st = true.
Proof.
  intros Hk. unfold degenerate. apply orb_true_iff. left.
  apply negb_true_iff. unfold stratum_table. apply crosstab_narrow.
  apply (levels_constant (default 0 k)). intros z Hz.
  apply in_map_iff in Hz as (p & <- & Hp). apply valid_pairs_snd in Hp.
  apply in_map_iff in Hp as (row & Hrow & Hin). rewrite (Hk row Hin) in Hrow.
  subst k. reflexivity.
Qed.

Lemma strata_rows df S st :
  In st (strata df S) ->
  exists key, forall row, In row st -> row_key (columns df) S row = key.
Proof.
  unfold strata. intros Hin. apply in_map_iff in Hin as (key & <- & _).
  exists key. intros row Hrow. apply filter_In in Hrow as [_ Hrow].
  apply bool_decide_eq_true_1 in Hrow. exact Hrow.
Qed.

(** Conditioning on a set that holds the second variable itself always
    gives (independent = True, p = 1.0): every stratum is degenerate. *)
Lemma ci_test_self_conditioning df i j S alpha :
  S <> [] -> forallb (known df) (i :: j :: S) = true -> In j S ->
  ci_test df i j S alpha = Some (true, 1%Q).
Proof.
  intros HS Hk Hj.
  apply (ci_test_degenerate_denominator df i j S alpha HS Hk).
  rewrite cmh_sums_all_degenerate; [apply Qle_refl|].
  intros st Hst. destruct (strata_rows df S st Hst) as (key & Hkey).
  apply In_nth_error in Hj as (n & Hn).
  apply (degenerate_constant _ _ _ _ (nth n key None)).
  intros row Hrow. specialize (Hkey row Hrow). subst key.
  unfold row_key. apply nth_error_split in Hn as (S1 & S2 & -> & <-).
  rewrite map_app. cbn [map]. rewrite app_nth2 by (rewrite length_map; lia).
  rewrite length_map, Nat.sub_diag. reflexivity.
Qed.

(** A test on a non-empty conditioning set of known columns raises
    nothing. *)
Lemma ci_test_stratified_total df i j S alpha :
  S <> [] -> forallb (known df) (i :: j :: S) = true ->
  exists r, ci_test df i j S alpha = Some r.
Proof.
  intros HS Hk. destruct S as [|s S]; [contradiction|].
  cbn [forallb] in Hk. apply andb_true_iff in Hk as [Hi Hk].
  apply andb_true_iff in Hk as [Hj Hk].
  rewrite ci_test_stratified by assumption.
  destruct (cmh_sums _ _ _ _) as [num den]. destruct (Qleb den 0); eauto.
Qed.

(** C4.  For a significance level [alpha < 1]: (a) in the stratified case
    a pooled denominator [<= 0] gives (independent = True, p = 1.0); (b)
    in the unconditional case a table that is not 2x2 and on which the
    chi-squared computation fails gives p = 1.0; (c) degenerate strata
    (table not 2x2, or fewer than two rows) are skipped: they add nothing
    to the pooled sums; (d) every decision that is returned satisfies
    independent <-> p > alpha; and (e) the test returns, whatever the
    data are, on a non-empty conditioning set of known columns and on an
    unconditional table that is not 2x2. *)
Theorem ci_test_degrades_gracefully (df : DataFrame) (i j : string)
    (S : list string) (alpha : Q) :
  (alpha < 1)%Q ->
  (S <> [] -> forallb (known df) (i :: j :: S) = true ->
   (snd (cmh_sums (columns df) i j (strata df S)) <= 0)%Q ->
   ci_test df i j S alpha = Some (true, 1%Q)) /\
  (forall xi xj,
     get_column df i = Some xi -> get_column df j = Some xj ->
     is_2x2 (crosstab xi xj) = false ->
     chi2_contingency (crosstab xi xj) = None ->
     ci_test df i j [] alpha = Some (true, 1%Q)) /\
  (forall sts,
     cmh_sums (columns df) i j sts
     = cmh_sums (columns df) i j
         (List.filter (fun st => negb (degenerate (columns df) i j st)) sts)) /\
  (forall indep p,
     ci_test df i j S alpha = Some (indep, p) ->
     (indep = true <-> (alpha < p)%Q)) /\
  (S <> [] -> forallb (known df) (i :: j :: S) = true ->
   exists indep p, ci_test df i j S alpha = Some (indep, p)) /\
  (forall xi xj,
     get_column df i = Some xi -> get_column df j = Some xj ->
     is_2x2 (crosstab xi xj) = false ->
     exists indep p, ci_test df i j [] alpha = Some (indep, p)).
Proof.
  intros Ha. split; [|split; [|split; [|split; [|split]]]].
  - apply ci_test_degenerate_denominator.
  - intros xi xj Hi Hj H22 Hchi. unfold _ci_test. rewrite Hi, Hj. cbn.
    rewrite H22, Hchi. cbn. do 2 f_equal. apply Qltb_lt. exact Ha.
  - intros sts. apply cmh_sums_skip.
  - intros indep p H. unfold _ci_test in H. destruct S as [|s S].
    + destruct (get_column df i) as [xi|]; [|discriminate].
      destruct (get_column df j) as [xj|]; [|discriminate]. cbn in H.
      destruct (_ : option Q) as [p'|] in H; [|discriminate].
      cbn in H. injection H as <- <-. apply Qltb_lt.
    + destruct (negb _) in H; [discriminate|].
      destruct (_ && _) in H; [discriminate|].
      destruct (cmh_sums _ _ _ _) as [num den] eqn:Es.
      destruct (Qleb den 0) eqn:Ed.
      * injection H as <- <-. tauto.
      * injection H as <- <-. apply Qltb_lt.
  - intros HS Hk.
    destruct (ci_test_stratified_total df i j S alpha HS Hk) as ([indep p] & H).
    eauto.
  - intros xi xj Hi Hj H22. unfold _ci_test. rewrite Hi, Hj. cbn.
    rewrite H22. destruct (chi2_contingency (crosstab xi xj)); cbn; eauto.
Qed.

End Tests.

(** On the example the conditioning column is a copy of the tested ones:
    every stratum is degenerate and the answer is (True, 1.0). *)
Lemma ci_test_degrades_gracefully_witness :
  _ci_test (fun _ => 0%Q) (fun _ => None) (fun _ _ => 0%Q)
           example_cohort "A" "B" ["C"] (5 # 100) = Some (true, 1%Q) /\
  (snd (cmh_sums (columns example_cohort) "A" "B" (strata example_cohort ["C"]))
   == 0)%Q /\
  (forall indep p,
     _ci_test (fun _ => 0%Q) (fun _ => None) (fun _ _ => 0%Q)
              example_cohort "A" "B" ["C"] (5 # 100) = Some (indep, p) ->
     (indep = true <-> (5 # 100 < p)%Q)) /\
  exists indep p,
    _ci_test (fun _ => 0%Q) (fun _ => None) (fun _ _ => 0%Q)
             example_cohort "A" "B" ["C"] (5 # 100) = Some (indep, p).
Proof.
  destruct (ci_test_degrades_gracefully (fun _ => 0%Q) (fun _ => None)
              (fun _ _ => 0%Q) example_cohort "A" "B" ["C"] (5 # 100) eq_refl)
    as (Ha & _ & _ & Hd & He & _).
  split.
  { apply Ha; [discriminate|reflexivity|vm_compute; discriminate]. }
  split; [vm_compute; reflexivity|]. split; [exact Hd|].
  apply He; [discriminate|reflexivity].
Defined.

(** The bound on [alpha] is needed: at [alpha = 1], conditioning on a copy
    of the second column makes every stratum degenerate, the pooled
    denominator is 0, and the answer is (independent = True, p = 1.0)
    although [p > alpha] is false. *)
Lemma ci_test_alpha_one :
  exists indep p,
    _ci_test (fun _ => 0%Q) (fun _ => None) (fun _ _ => 0%Q)
             example_cohort "A" "B" ["C"] 1%Q = Some (indep, p) /\
    indep = true /\ (p == 1)%Q /\ ~ (1 < p)%Q.
Proof.
  exists true, 1%Q. split; [vm_compute; reflexivity|].
  split; [reflexivity|]. split; [reflexivity|]. apply Qlt_irrefl.
Qed.

End IndependenceFacts.

Module GraphFacts.
Import Discovery.
Import GraphSpec.

Lemma neighbors_In_adj G n x : In x (neighbors G n) -> In_adj G n x.
Proof.
  induction G as [|[m ms] G IH]; cbn [neighbors]; [intros []|].
  destruct (String.eqb_spec m n) as [->|Hne].
  - intros Hx. exists ms. split; [now left|exact Hx].
  - intros Hx. destruct (IH Hx) as (ns & Hin & Hxn).
    exists ns. split; [now right|exact Hxn].
Qed.

Lemma neighbors_entry G n ns :
  List.NoDup (nodes G) -> In (n, ns) G -> neighbors G n = ns.
Proof.
  induction G as [|[m ms] G IH]; cbn [nodes map fst neighbors]; intros Hnd Hin;
    [destruct Hin|].
  apply List.NoDup_cons_iff in Hnd as [Hm Hnd].
  destruct Hin as [[= -> ->]|Hin].
  - rewrite String.eqb_refl. reflexivity.
  - destruct (String.eqb_spec m n) as [->|Hne]; [|apply IH; assumption].
    exfalso. apply Hm. apply in_map_iff. exists (n, ns). split; [reflexivity|exact Hin].
Qed.

Lemma In_adj_neighbors G n x :
  List.NoDup (nodes G) -> In_adj G n x -> In x (neighbors G n).
Proof.
  intros Hnd (ns & Hin & Hx). rewrite (neighbors_entry G n ns Hnd Hin). exact Hx.
Qed.

(** *** Deleting *)

Lemma adj_del_nodes G u v : nodes (adj_del G u v) = nodes G.
Proof.
  unfold nodes, adj_del. rewrite map_map. apply map_ext.
  intros [n ns]. destruct (String.eqb n u); reflexivity.
Qed.

Lemma adj_del_In_adj G u v n x :
  In_adj (adj_del G u v) n x <-> In_adj G n x /\ ~ (n = u /\ x = v).
Proof.
  unfold In_adj, adj_del. split.
  - intros (ns & Hin & Hx). apply in_map_iff in Hin as ([m ms] & Heq & Hin).
    destruct (String.eqb_spec m u) as [->|Hne]; injection Heq as <- <-.
    + apply filter_In in Hx as [Hx Hxv]. split; [eauto|].
      intros [_ ->]. rewrite String.eqb_refl in Hxv. discriminate.
    + split; [eauto|]. intros [-> _]. contradiction.
  - intros [(ns & Hin & Hx) Hne].
    destruct (String.eqb_spec n u) as [->|Hnu].
    + exists (List.filter (fun w => negb (String.eqb w v)) ns). split.
      * apply in_map_iff. exists (u, ns). rewrite String.eqb_refl. auto.
      * apply filter_In. split; [exact Hx|].
        destruct (String.eqb_spec x v) as [->|]; [exfalso; auto|reflexivity].
    + exists ns. split; [|exact Hx]. apply in_map_iff. exists (n, ns).
      destruct (String.eqb_spec n u); [contradiction|auto].
Qed.

Lemma remove_edge_nodes G u v : nodes (remove_edge G u v) = nodes G.
Proof.
  unfold remove_edge. destruct (String.eqb u v); rewrite ?adj_del_nodes; reflexivity.
Qed.

Lemma remove_edge_In_adj G u v n x :
  In_adj (remove_edge G u v) n x
  <-> In_adj G n x /\ ~ (n = u /\ x = v) /\ ~ (n = v /\ x = u).
Proof.
  unfold remove_edge. destruct (String.eqb_spec u v) as [->|Hne].
  - rewrite adj_del_In_adj. tauto.
  - rewrite !adj_del_In_adj. tauto.
Qed.

Lemma remove_edge_good G u v : good G -> good (remove_edge G u v).
Proof.
  intros [Hnd Hsym]. split; [rewrite remove_edge_nodes; exact Hnd|].
  intros n x H. apply remove_edge_In_adj in H as (H & H1 & H2).
  apply remove_edge_In_adj. split; [apply Hsym; exact H|]. tauto.
Qed.

Lemma remove_edge_within names G u v :
  within names G -> within names (remove_edge G u v).
Proof.
  intros [Hn Ha]. split.
  - rewrite remove_edge_nodes. exact Hn.
  - intros n x H. apply remove_edge_In_adj in H as [H _]. eapply Ha. exact H.
Qed.

(** *** Adding *)

Lemma add_node_nodes G n :
  nodes (add_node G n) = if bool_decide (n ∈ nodes G) then nodes G else nodes G ++ [n].
Proof.
  unfold add_node. case_bool_decide; [reflexivity|].
  unfold nodes. rewrite map_app. reflexivity.
Qed.

Lemma add_node_NoDup G n : List.NoDup (nodes G) -> List.NoDup (nodes (add_node G n)).
Proof.
  intros Hnd. rewrite add_node_nodes. case_bool_decide as Hin; [exact Hnd|].
  apply NoDup_ListNoDup. apply NoDup_app. split; [apply NoDup_ListNoDup; exact Hnd|].
  split; [|apply NoDup_singleton].
  intros x Hx Hxn. apply list_elem_of_singleton in Hxn. subst x. contradiction.
Qed.

Lemma add_node_In G n : In n (nodes (add_node G n)).
Proof.
  rewrite add_node_nodes. case_bool_decide as Hin.
  - apply list_elem_of_In. exact Hin.
  - apply in_or_app. right. now left.
Qed.

Lemma add_node_keeps G n m : In m (nodes G) -> In m (nodes (add_node G n)).
Proof.
  intros H. rewrite add_node_nodes. case_bool_decide; [exact H|].
  apply in_or_app. now left.
Qed.

Lemma add_node_In_adj G n a b : In_adj (add_node G n) a b <-> In_adj G a b.
Proof.
  unfold add_node. case_bool_decide; [tauto|]. unfold In_adj. split.
  - intros (ns & Hin & Hb). apply in_app_or in Hin as [Hin|[[= <- <-]|[]]];
      [eauto|destruct Hb].
  - intros (ns & Hin & Hb). exists ns. split; [apply in_or_app; now left|exact Hb].
Qed.

Lemma adj_add_nodes G u v : nodes (adj_add G u v) = nodes G.
Proof.
  unfold nodes, adj_add. rewrite map_map. apply map_ext.
  intros [n ns]. destruct (String.eqb n u); reflexivity.
Qed.

Lemma adj_add_In_adj G u v n x :
  In_adj (adj_add G u v) n x
  <-> In_adj G n x \/ (n = u /\ x = v /\ In u (nodes G)).
Proof.
  unfold In_adj, adj_add. split.
  - intros (ns & Hin & Hx). apply in_map_iff in Hin as ([m ms] & Heq & Hin).
    destruct (String.eqb_spec m u) as [->|Hne]; injection Heq as <- <-; [|eauto].
    case_bool_decide as Hv; [eauto|].
    apply in_app_or in Hx as [Hx|[<-|[]]]; [eauto|].
    right. split; [reflexivity|]. split; [reflexivity|].
    apply in_map_iff. exists (u, ms). auto.
  - intros [(ns & Hin & Hx)|(-> & -> & Hu)].
    + destruct (String.eqb_spec n u) as [->|Hnu].
      * exists (if bool_decide (v ∈ ns) then ns else ns ++ [v]). split.
        -- apply in_map_iff. exists (u, ns). rewrite String.eqb_refl. auto.
        -- case_bool_decide; [exact Hx|apply in_or_app; now left].
      * exists ns. split; [|exact Hx]. apply in_map_iff. exists (n, ns).
        destruct (String.eqb_spec n u); [contradiction|auto].
    + apply in_map_iff in Hu as ([m ms] & Hm & Hin). simpl in Hm. subst m.
      exists (if bool_decide (v ∈ ms) then ms else ms ++ [v]). split.
      * apply in_map_iff. exists (u, ms). rewrite String.eqb_refl. auto.
      * case_bool_decide as Hv; [apply list_elem_of_In; exact Hv|].
        apply in_or_app. right. now left.
Qed.

Lemma add_edge_nodes_NoDup G u v :
  List.NoDup (nodes G) -> List.NoDup (nodes (add_edge G u v)).
Proof.
  intros H. unfold add_edge. rewrite !adj_add_nodes.
  apply add_node_NoDup, add_node_NoDup. exact H.
Qed.

Lemma add_edge_In_adj G u v n x :
  In_adj (add_edge G u v) n x
  <-> In_adj G n x \/ (n = u /\ x = v) \/ (n = v /\ x = u).
Proof.
  unfold add_edge. rewrite !adj_add_In_adj, !adj_add_nodes, !add_node_In_adj.
  assert (Hu : In u (nodes (add_node (add_node G u) v)))
    by apply add_node_keeps, add_node_In.
  assert (Hv : In v (nodes (add_node (add_node G u) v))) by apply add_node_In.
  tauto.
Qed.

Lemma add_edge_good G u v : good G -> good (add_edge G u v).
Proof.
  intros [Hnd Hsym]. split; [apply add_edge_nodes_NoDup; exact Hnd|].
  intros n x H. apply add_edge_In_adj in H. apply add_edge_In_adj.
  destruct H as [H|[H|H]]; [left; apply Hsym; exact H|tauto|tauto].
Qed.

Lemma add_edge_nodes_In G u v m :
  In m (nodes (add_edge G u v)) -> In m (nodes G) \/ m = u \/ m = v.
Proof.
  unfold add_edge. rewrite !adj_add_nodes, !add_node_nodes.
  repeat case_bool_decide; rewrite ?in_app_iff; simpl; intuition auto.
Qed.

Lemma add_edge_within names G u v :
  In u names -> In v names -> within names G -> within names (add_edge G u v).
Proof.
  intros Hu Hv [Hn Ha]. split.
  - intros m Hm. apply add_edge_nodes_In in Hm as [Hm|[->| ->]]; auto.
  - intros n x H. apply add_edge_In_adj in H as [H|[[_ ->]|[_ ->]]]; eauto.
Qed.

(** *** Combinations *)

Lemma combinations_0 {A} (l : list A) : combinations l 0 = [[]].
Proof. destruct l; reflexivity. Qed.

Lemma combinations_1 {A} (l : list A) : combinations l 1 = map (fun x => [x]) l.
Proof.
  induction l as [|x l IH]; [reflexivity|].
  cbn [combinations]. rewrite combinations_0, IH. reflexivity.
Qed.

Lemma combinations_In {A} (l : list A) : forall k c x,
  In c (combinations l k) -> In x c -> In x l.
Proof.
  induction l as [|y l IH]; intros [|k] c x Hc Hx; cbn [combinations] in Hc.
  - destruct Hc as [<-|[]]. destruct Hx.
  - destruct Hc.
  - destruct Hc as [<-|[]]. destruct Hx.
  - apply in_app_or in Hc as [Hc|Hc].
    + apply in_map_iff in Hc as (c' & <- & Hc'). destruct Hx as [<-|Hx]; [now left|].
      right. eapply IH; eassumption.
    + right. eapply IH; eassumption.
Qed.

Lemma pairs_of_In {A} (l : list A) a b :
  In (a, b) (pairs_of l) -> In a l /\ In b l.
Proof.
  unfold pairs_of. intros H. apply list_elem_of_In in H.
  apply list_elem_of_omap in H as (c & Hc & Hab). apply list_elem_of_In in Hc.
  destruct c as [|a' [|b' [|? ?]]]; try discriminate. injection Hab as -> ->.
  split; eapply combinations_In; try exact Hc; simpl; auto.
Qed.

(** *** The complete graph *)

Lemma add_nodes_spec features : forall G,
  good G -> edgeless G -> within features G ->
  good (fold_left add_node features G) /\
  edgeless (fold_left add_node features G) /\
  within features (fold_left add_node features G).
Proof.
  assert (Hstep : forall names G f, In f names ->
            good G -> edgeless G -> within names G ->
            good (add_node G f) /\ edgeless (add_node G f)
            /\ within names (add_node G f)).
  { intros names G f Hf [Hnd Hsym] He [Hn Ha]. split; [|split].
    - split; [apply add_node_NoDup; exact Hnd|].
      intros n x H. apply add_node_In_adj in H. exfalso. eapply He. exact H.
    - intros n x H. apply add_node_In_adj in H. eapply He. exact H.
    - split.
      + intros n H. rewrite add_node_nodes in H.
        case_bool_decide; [auto|]. apply in_app_or in H as [H|[<-|[]]]; auto.
      + intros n x H. apply add_node_In_adj in H. exfalso. eapply He. exact H. }
  assert (Hgen : forall names l G, (forall f, In f l -> In f names) ->
            good G -> edgeless G -> within names G ->
            good (fold_left add_node l G) /\ edgeless (fold_left add_node l G)
            /\ within names (fold_left add_node l G)).
  { intros names l. induction l as [|f l IH]; intros G Hl Hg He Hw; cbn [fold_left];
      [auto|].
    destruct (Hstep names G f (Hl f (or_introl eq_refl)) Hg He Hw) as (Hg' & He' & Hw').
    apply IH; auto. intros f' Hf'. apply Hl. now right. }
  intros G. apply Hgen. auto.
Qed.

Lemma complete_graph_spec features :
  good (complete_graph features) /\ within features (complete_graph features).
Proof.
  unfold complete_graph.
  destruct (add_nodes_spec features []) as (Hg & _ & Hw).
  { split; [constructor|]. intros n x (ns & [] & _). }
  { intros n x (ns & [] & _). }
  { split; [intros n []|]. intros n x (ns & [] & _). }
  pose proof (@pairs_of_In string features) as Hp.
  revert Hp Hg Hw. generalize (fold_left add_node features []).
  induction (pairs_of features) as [|[u v] ps IH]; intros G Hp Hg Hw; cbn [fold_left];
    [auto|].
  destruct (Hp u v (or_introl eq_refl)) as [Hu Hv].
  apply IH.
  - intros a b Hab. apply Hp. now right.
  - apply add_edge_good. exact Hg.
  - apply add_edge_within; assumption.
Qed.

(** *** Edges *)

Lemma edges_from_In seen G n x :
  In (n, x) (edges_from seen G)
  <-> exists G1 ns G2,
        G = G1 ++ (n, ns) :: G2 /\ In x ns /\ ~ In x seen /\ ~ In x (nodes G1).
Proof.
  revert seen. induction G as [|[m ms] G IH]; intros seen; cbn [edges_from].
  - split; [intros []|]. intros (G1 & ns & G2 & H & _). destruct G1; discriminate.
  - rewrite in_app_iff, IH. split.
    + intros [H|(G1 & ns & G2 & -> & Hx & Hs & Hn)].
      * apply in_map_iff in H as (y & [= <- <-] & Hy).
        apply filter_In in Hy as [Hy Hseen]. apply negb_true_iff in Hseen.
        apply bool_decide_eq_false_1 in Hseen.
        exists [], ms, G. split; [reflexivity|]. split; [exact Hy|].
        split; [rewrite <- list_elem_of_In; exact Hseen|intros []].
      * exists ((m, ms) :: G1), ns, G2. split; [reflexivity|]. split; [exact Hx|].
        rewrite in_app_iff in Hs. cbn [nodes map fst In]. simpl in Hs. tauto.
    + intros (G1 & ns & G2 & Heq & Hx & Hs & Hn). destruct G1 as [|e G1].
      * injection Heq as -> -> ->. left. apply in_map_iff. exists x.
        split; [reflexivity|]. apply filter_In. split; [exact Hx|].
        apply negb_true_iff, bool_decide_eq_false_2.
        rewrite list_elem_of_In. exact Hs.
      * injection Heq as <- ->. right. exists G1, ns, G2.
        split; [reflexivity|]. split; [exact Hx|].
        cbn [nodes map fst In] in Hn. rewrite in_app_iff. simpl. tauto.
Qed.

Lemma edges_In_adj G n x : In (n, x) (edges G) -> In_adj G n x.
Proof.
  unfold edges. intros H. apply edges_from_In in H as (G1 & ns & G2 & -> & Hx & _).
  exists ns. split; [apply in_or_app; right; now left|exact Hx].
Qed.

Lemma entry_unique G k a b :
  List.NoDup (nodes G) -> In (k, a) G -> In (k, b) G -> a = b.
Proof.
  intros Hnd Ha Hb. rewrite <- (neighbors_entry G k a Hnd Ha).
  apply neighbors_entry; assumption.
Qed.

(** Every adjacency is listed by [edges], in one direction. *)
Lemma edges_cover G n x :
  good G -> In_adj G n x -> In (n, x) (edges G) \/ In (x, n) (edges G).
Proof.
  intros [Hnd Hsym] Hnx. pose proof (Hsym n x Hnx) as Hxn.
  destruct Hnx as (ns & Hin & Hx).
  apply in_split in Hin as (G1 & G2 & ->).
  destruct (in_dec string_dec x (nodes G1)) as [Hx1|Hx1].
  - right. apply in_map_iff in Hx1 as ([x' xs] & Hk & Hin1). simpl in Hk. subst x'.
    apply in_split in Hin1 as (Ga & Gb & ->).
    destruct Hxn as (xs' & Hin' & Hn').
    assert (xs' = xs).
    { eapply entry_unique; [exact Hnd|exact Hin'|].
      apply in_or_app. left. apply in_or_app. right. now left. }
    subst xs'. unfold edges. apply edges_from_In.
    exists Ga, xs, (Gb ++ (n, ns) :: G2). split; [|split; [exact Hn'|split; [intros []|]]].
    + rewrite <- app_assoc. reflexivity.
    + intros Hna. unfold nodes in Hnd. rewrite !map_app in Hnd. cbn [map fst] in Hnd.
      rewrite <- app_assoc in Hnd. apply NoDup_ListNoDup in Hnd.
      apply NoDup_app in Hnd as (_ & Hdis & _).
      apply (Hdis n); [apply list_elem_of_In; exact Hna|].
      apply list_elem_of_In. cbn [app]. right. apply in_or_app. right. now left.
  - left. unfold edges. apply edges_from_In.
    exists G1, ns, G2. split; [reflexivity|]. split; [exact Hx|]. split; [intros []|exact Hx1].
Qed.

(** *** Removing the marked edges *)

Lemma remove_marked_cons G u v marked :
  remove_marked G ((u, v) :: marked)
  = remove_marked (if has_edge G u v then remove_edge G u v else G) marked.
Proof. reflexivity. Qed.

Lemma remove_marked_good marked : forall G, good G -> good (remove_marked G marked).
Proof.
  induction marked as [|[u v] marked IH]; intros G Hg; [exact Hg|].
  rewrite remove_marked_cons. apply IH.
  destruct (has_edge G u v); [apply remove_edge_good|]; exact Hg.
Qed.

Lemma remove_marked_within names marked : forall G,
  within names G -> within names (remove_marked G marked).
Proof.
  induction marked as [|[u v] marked IH]; intros G Hw; [exact Hw|].
  rewrite remove_marked_cons. apply IH.
  destruct (has_edge G u v); [apply remove_edge_within|]; exact Hw.
Qed.

Lemma remove_marked_In_adj marked : forall G n x,
  good G -> In_adj (remove_marked G marked) n x ->
  In_adj G n x /\ ~ In (n, x) marked /\ ~ In (x, n) marked.
Proof.
  induction marked as [|[u v] marked IH]; intros G n x Hg H; [simpl; tauto|].
  rewrite remove_marked_cons in H.
  destruct (has_edge G u v) eqn:Ehas.
  - apply IH in H as (H & H1 & H2); [|apply remove_edge_good; exact Hg].
    apply remove_edge_In_adj in H as (H & Hn1 & Hn2).
    split; [exact H|]. split; intros [[= <- <-]|Hin]; tauto.
  - apply IH in H as (H & H1 & H2); [|exact Hg].
    assert (Hno : ~ In_adj G u v).
    { intros Hadj. apply In_adj_neighbors in Hadj; [|apply Hg].
      unfold has_edge in Ehas. apply bool_decide_eq_false_1 in Ehas.
      apply Ehas. apply list_elem_of_In. exact Hadj. }
    split; [exact H|]. split; intros [[= <- <-]|Hin]; try tauto.
    apply Hno. apply Hg. exact H.
Qed.

Lemma remove_all_edges G : good G -> edgeless (remove_marked G (edges G)).
Proof.
  intros Hg n x H. apply remove_marked_In_adj in H as (H & H1 & H2); [|exact Hg].
  destruct (edges_cover G n x Hg H); contradiction.
Qed.

Lemma edgeless_entries G n ns : edgeless G -> In (n, ns) G -> ns = [].
Proof.
  intros He Hin. destruct ns as [|x ns]; [reflexivity|].
  exfalso. apply (He n x). exists (x :: ns). split; [exact Hin|now left].
Qed.

Lemma edgeless_edges G : edgeless G -> edges G = [].
Proof.
  intros He. destruct (edges G) as [|[n x] es] eqn:E; [reflexivity|].
  exfalso. apply (He n x). apply edges_In_adj. rewrite E. now left.
Qed.

Lemma edgeless_neighbors G k : edgeless G -> neighbors G k = [].
Proof.
  intros He. destruct (neighbors G k) as [|x ns] eqn:E; [reflexivity|].
  exfalso. apply (He k x). apply neighbors_In_adj. rewrite E. now left.
Qed.

End GraphFacts.

Module SkeletonFacts.
Import Discovery GraphFacts IndependenceFacts.
Import GraphSpec IndependenceSpec SkeletonSpec.

(** *** The conditioning pool *)

(** The pool of the source keeps every neighbour of [u], [v] included. *)
Lemma conditioning_pool_neighbor G u v x :
  In x (neighbors G u) -> x ∈ conditioning_pool G u v.
Proof.
  intros H. unfold conditioning_pool. apply elem_of_union. left.
  apply elem_of_list_to_set, list_elem_of_In. exact H.
Qed.

Lemma conditioning_pool_names G u v x :
  x ∈ conditioning_pool G u v -> In x (neighbors G u) \/ In x (neighbors G v).
Proof.
  unfold conditioning_pool. intros H. apply elem_of_union in H as [H|H].
  - left. apply elem_of_list_to_set in H. apply list_elem_of_In. exact H.
  - right. apply elem_of_difference in H as [H _].
    apply elem_of_list_to_set in H. apply list_elem_of_In. exact H.
Qed.

(** C1, at the failing input.  On the complete graph over A, B, C the
    edge (A, B) is present; the pool the code draws its conditioning
    subsets from is {B, C}, so it holds the endpoint B, while the pool of
    the claim, (neighbors(A) ∪ neighbors(B)) \ {A, B}, is {C}. *)
Theorem conditioning_pool_keeps_endpoint :
  let G := complete_graph ["A"; "B"; "C"] in
  In ("A", "B") (edges G) /\
  (forall x, x ∈ conditioning_pool G "A" "B" <-> x = "B" \/ x = "C") /\
  (forall x, x ∈ documented_pool G "A" "B" <-> x = "C") /\
  conditioning_pool G "A" "B" <> documented_pool G "A" "B".
Proof.
  cbv zeta.
  assert (HA : neighbors (complete_graph ["A"; "B"; "C"]) "A" = ["B"; "C"])
    by reflexivity.
  assert (HB : neighbors (complete_graph ["A"; "B"; "C"]) "B" = ["A"; "C"])
    by reflexivity.
  assert (H1 : forall x, x ∈ conditioning_pool (complete_graph ["A"; "B"; "C"]) "A" "B"
                         <-> x = "B" \/ x = "C").
  { intros x. unfold conditioning_pool. rewrite HA, HB.
    rewrite elem_of_union, elem_of_difference, !elem_of_list_to_set.
    rewrite !elem_of_cons, !elem_of_nil, elem_of_union, !elem_of_singleton.
    split; [|tauto]. intros [H|[H Hn]]; [tauto|].
    destruct H as [->|[->|[]]]; [exfalso; apply Hn; now left|now right]. }
  assert (H2 : forall x, x ∈ documented_pool (complete_graph ["A"; "B"; "C"]) "A" "B"
                         <-> x = "C").
  { intros x. unfold documented_pool. rewrite HA, HB.
    rewrite elem_of_difference, elem_of_union, !elem_of_list_to_set.
    rewrite !elem_of_cons, !elem_of_nil, elem_of_union, !elem_of_singleton.
    split.
    - intros [H Hn]. destruct H as [[->|[->|[]]]|[->|[->|[]]]]; tauto.
    - intros ->. split; [tauto|]. intros [H|H]; discriminate. }
  split; [vm_compute; tauto|]. split; [exact H1|]. split; [exact H2|].
  intros Heq. assert (Hb : "B" ∈ documented_pool (complete_graph ["A"; "B"; "C"]) "A" "B")
    by (rewrite <- Heq; apply H1; now left).
  apply H2 in Hb. discriminate.
Qed.

(** *** Loops that may raise *)

Lemma foldM_ext {A B} (f g : B -> A -> option B) l b :
  (forall b x, In x l -> f b x = g b x) -> foldM f l b = foldM g l b.
Proof.
  revert b. induction l as [|x l IH]; intros b H; [reflexivity|].
  cbn [foldM]. rewrite (H b x) by now left.
  destruct (g b x) as [b'|]; [|reflexivity]. cbn.
  apply IH. intros b0 y Hy. apply H. now right.
Qed.

Lemma first_indep_finds ci cands :
  (forall c, In c cands -> exists r, ci c = Some r) ->
  (exists c p, In c cands /\ ci c = Some (true, p)) ->
  exists c p, first_indep ci cands = Some (Some (c, p)).
Proof.
  induction cands as [|c cands IH]; intros Htot (c0 & p0 & Hin & Hc0);
    [destruct Hin|].
  cbn [first_indep]. destruct (Htot c (or_introl eq_refl)) as ([b p] & Hc).
  rewrite Hc. destruct b; [eauto|].
  apply IH.
  - intros c' Hc'. apply Htot. now right.
  - destruct Hin as [->|Hin]; [congruence|eauto].
Qed.

Section Orders.

Variable fisher_exact : list (list Z) -> Q.
Variable chi2_contingency : list (list Z) -> option Q.
Variable chi2_cdf : Q -> Q -> Q.

Abbreviation ci_test := (_ci_test fisher_exact chi2_contingency chi2_cdf).
Abbreviation scan := (scan_edge fisher_exact chi2_contingency chi2_cdf).
Abbreviation phase := (phase1_size fisher_exact chi2_contingency chi2_cdf).
Abbreviation skeleton := (pc_skeleton fisher_exact chi2_contingency chi2_cdf).

Lemma set_iteration_In order sz e X x :
  set_iteration order -> (In x (order sz e X) <-> x ∈ X).
Proof.
  intros H. rewrite <- elem_of_elements, <- list_elem_of_In.
  split; intros Hx; [rewrite <- (H sz e X)|rewrite (H sz e X)]; exact Hx.
Qed.

(** **** Size 0 *)

Lemma scan_size_0 o1 o2 df alpha G st e :
  scan o1 df alpha G 0 st e = scan o2 df alpha G 0 st e.
Proof.
  unfold scan_edge. destruct e as [u v].
  assert (H : forall n : nat, (Z.of_nat n <? 0) = false)
    by (intros n; apply Z.ltb_ge; lia).
  rewrite !H. change (Z.to_nat 0) with 0%nat. rewrite !combinations_0. reflexivity.
Qed.

Lemma phase_size_0 o1 o2 df alpha acc :
  phase o1 df alpha acc 0 = phase o2 df alpha acc 0.
Proof.
  unfold phase1_size. destruct acc as [[G sp] dt].
  rewrite (foldM_ext (scan o1 df alpha G 0) (scan o2 df alpha G 0));
    [reflexivity|]. intros st e _. apply scan_size_0.
Qed.

(** **** Size 1 *)

Lemma scan_size_1 order df alpha G st u v :
  set_iteration order ->
  (forall x, x ∈ conditioning_pool G u v -> In x (columns df)) ->
  In u (columns df) -> In v (columns df) ->
  In v (neighbors G u) ->
  exists st' d, scan order df alpha G 1 st (u, v) = Some st' /\
                rm st' = rm st ++ [(u, v)] /\
                details st' = details st ++ [d] /\
                decision d = (u, v, true, 1).
Proof.
  intros Ho Hpool Hu Hv Hvu. unfold scan_edge.
  set (nbrs := order 1 (u, v) (conditioning_pool G u v)).
  assert (Hvn : In v nbrs).
  { apply (set_iteration_In order 1 (u, v) _ v Ho).
    apply conditioning_pool_neighbor. exact Hvu. }
  assert (Hlen : (Z.of_nat (length nbrs) <? 1) = false).
  { apply Z.ltb_ge. destruct nbrs; [destruct Hvn|simpl length; lia]. }
  rewrite Hlen. change (Z.to_nat 1) with 1%nat. rewrite combinations_1.
  assert (Hknown : forall x, In x nbrs ->
            forallb (known df) [u; v; x] = true).
  { intros x Hx. cbn [forallb]. unfold known.
    rewrite !bool_decide_eq_true_2; [reflexivity| | |]; apply list_elem_of_In; auto.
    apply Hpool. apply (set_iteration_In order 1 (u, v) _ x Ho). exact Hx. }
  destruct (first_indep_finds (fun Sc => ci_test df u v Sc alpha)
              (map (fun x => [x]) nbrs)) as (c & p & Hf).
  - intros c Hc. apply in_map_iff in Hc as (x & <- & Hx). cbv beta.
    apply (ci_test_stratified_total _ _ _ df u v [x] alpha);
      [discriminate|apply Hknown; exact Hx].
  - exists [v], 1%Q. split; [apply (in_map (fun x => [x])); exact Hvn|]. cbv beta.
    apply (ci_test_self_conditioning _ _ _ df u v [v] alpha);
      [discriminate|apply Hknown; exact Hvn|now left].
  - rewrite Hf. cbn. eexists. eexists. repeat split; reflexivity.
Qed.

Lemma scan_all_size_1 order df alpha G es :
  set_iteration order ->
  (forall u v, In (u, v) es ->
     In u (columns df) /\ In v (columns df) /\ In v (neighbors G u) /\
     forall x, x ∈ conditioning_pool G u v -> In x (columns df)) ->
  forall st, exists st' ds,
    foldM (scan order df alpha G 1) es st = Some st' /\ rm st' = rm st ++ es /\
    details st' = details st ++ ds /\
    map decision ds = map (fun e => (fst e, snd e, true, 1)) es.
Proof.
  intros Ho. induction es as [|[u v] es IH]; intros Hes st; cbn [foldM].
  - exists st, []. rewrite !app_nil_r. auto.
  - destruct (Hes u v (or_introl eq_refl)) as (Hu & Hv & Hvu & Hpool).
    destruct (scan_size_1 order df alpha G st u v Ho Hpool Hu Hv Hvu)
      as (st1 & d & Hs & Hrm & Hdt & Hd).
    rewrite Hs. cbn.
    destruct (IH (fun a b Hab => Hes a b (or_intror Hab)) st1)
      as (st2 & ds & Hf & Hrm2 & Hdt2 & Hds).
    exists st2, (d :: ds). split; [exact Hf|].
    split; [rewrite Hrm2, Hrm, <- app_assoc; reflexivity|].
    split; [rewrite Hdt2, Hdt, <- app_assoc; reflexivity|].
    cbn [map fst snd]. rewrite Hd, Hds. reflexivity.
Qed.

(** At size 1 every edge is marked: its own endpoint conditions it away. *)
Lemma phase_size_1 order df alpha names G sp dt :
  set_iteration order ->
  (forall f, In f names -> In f (columns df)) ->
  good G -> within names G ->
  exists sp' ds,
    phase order df alpha (G, sp, dt) 1
    = Some (remove_marked G (edges G), sp', dt ++ ds) /\
    map decision ds = map (fun e => (fst e, snd e, true, 1)) (edges G).
Proof.
  intros Ho Hcols Hg Hw. unfold phase1_size.
  destruct (scan_all_size_1 order df alpha G (edges G) Ho) with (st := mkScan [] sp dt)
    as (st' & ds & Hf & Hrm & Hdt & Hds).
  - intros u v Huv. apply edges_In_adj in Huv.
    destruct Hw as [Hn Ha]. destruct Hg as [Hnd Hsym].
    split; [|split; [|split]].
    + apply Hcols, Hn. destruct Huv as (ns & Hin & _).
      apply in_map_iff. exists (u, ns). auto.
    + apply Hcols. eapply Ha. exact Huv.
    + apply In_adj_neighbors; assumption.
    + intros x Hx. apply Hcols. apply conditioning_pool_names in Hx as [Hx|Hx];
        apply neighbors_In_adj in Hx; eapply Ha; exact Hx.
  - rewrite Hf. cbn. cbn [rm details] in Hrm, Hdt. rewrite Hrm, Hdt. eauto.
Qed.

(** **** Larger sizes and the orientation *)

Lemma phase_edgeless order df alpha G sp dt sz :
  edgeless G -> phase order df alpha (G, sp, dt) sz = Some (G, sp, dt).
Proof.
  intros He. unfold phase1_size. rewrite (edgeless_edges G He). reflexivity.
Qed.

Lemma phases_edgeless order df alpha G sp dt szs :
  edgeless G -> foldM (phase order df alpha) szs (G, sp, dt) = Some (G, sp, dt).
Proof.
  intros He. induction szs as [|sz szs IH]; [reflexivity|].
  cbn [foldM]. rewrite phase_edgeless by exact He. cbn. exact IH.
Qed.

Lemma orient_edgeless G sp sp' : edgeless G -> orient G sp = orient G sp'.
Proof.
  intros He. unfold orient. rewrite (edgeless_edges G He). cbn [fold_left].
  generalize (fold_left add_node (nodes G) []).
  induction (nodes G) as [|k ks IH]; intros DG; [reflexivity|].
  cbn [fold_left]. rewrite (edgeless_neighbors G k He). cbn [pairs_of combinations omap].
  apply IH.
Qed.

Lemma phase_graph order df alpha names G sp dt sz G' sp' dt' :
  good G -> within names G ->
  phase order df alpha (G, sp, dt) sz = Some (G', sp', dt') ->
  good G' /\ within names G'.
Proof.
  intros Hg Hw. unfold phase1_size.
  destruct (foldM _ _ _) as [st|]; [|discriminate]. cbn. intros [= <- <- <-].
  split; [apply remove_marked_good|apply remove_marked_within]; assumption.
Qed.

Lemma py_range_nonpos n : n <= 0 -> DecisionV3.py_range n = [].
Proof.
  intros H. unfold DecisionV3.py_range. replace (Z.to_nat n) with 0%nat by lia.
  reflexivity.
Qed.

Lemma py_range_from_2 n :
  2 <= n -> exists rest, DecisionV3.py_range n = 0 :: 1 :: rest.
Proof.
  intros H. unfold DecisionV3.py_range.
  destruct (Z.to_nat n) as [|[|k]] eqn:E; try lia.
  cbn [seq map]. eauto.
Qed.

Lemma foldM_cons {A B} (f : B -> A -> option B) x l b :
  foldM f (x :: l) b
  = match f b x with Some b' => foldM f l b' | None => None end.
Proof. cbn [foldM]. destruct (f b x); reflexivity. Qed.

Lemma skeleton_unfold order df features alpha max_cond :
  skeleton order df features alpha max_cond
  = match foldM (phase order df alpha) (DecisionV3.py_range (max_cond + 1))
                (complete_graph features, ∅, []) with
    | Some (G, sp, dt) => Some (orient G sp, dt)
    | None => None
    end.
Proof.
  unfold pc_skeleton. destruct (foldM _ _ _) as [[[G sp] dt]|]; reflexivity.
Qed.

(** C2, as the code has it.  For a matrix, features that are columns of
    it, alpha and max_cond, take two invocations, each listing every set
    it meets in an order of its own.  They raise together or return
    together; they return the same graph; their detail tables have the
    same rows in the same order as far as the edge, the decision and the
    size go; and with [max_cond <= 0] the two tables are the same
    altogether.  (For [max_cond >= 1] the conditioning subsets are
    enumerated in the order in which the set is listed, so the subset and
    the p-value recorded for a removed edge are not fixed by the
    feature-name ordering.) *)
Theorem pc_skeleton_set_order
    (order1 order2 : Z -> string * string -> gset string -> list string)
    (df : DataFrame) (features : list string) (alpha : Q) (max_cond : Z) :
  set_iteration order1 -> set_iteration order2 ->
  (forall f, In f features -> In f (columns df)) ->
  fst <$> skeleton order1 df features alpha max_cond
  = fst <$> skeleton order2 df features alpha max_cond /\
  (map decision ∘ snd) <$> skeleton order1 df features alpha max_cond
  = (map decision ∘ snd) <$> skeleton order2 df features alpha max_cond /\
  (max_cond <= 0 ->
   skeleton order1 df features alpha max_cond
   = skeleton order2 df features alpha max_cond).
Proof.
  intros Ho1 Ho2 Hcols. rewrite !skeleton_unfold.
  destruct (complete_graph_spec features) as [Hg0 Hw0].
  set (G0 := complete_graph features) in *.
  destruct (Z.le_gt_cases max_cond 0) as [Hle|Hgt].
  - assert (Heq : foldM (phase order1 df alpha) (DecisionV3.py_range (max_cond + 1))
                        (G0, ∅, [])
                  = foldM (phase order2 df alpha) (DecisionV3.py_range (max_cond + 1))
                          (G0, ∅, [])).
    { destruct (Z.eq_dec max_cond 0) as [->|Hne].
      - change (DecisionV3.py_range (0 + 1)) with [0]. rewrite !foldM_cons.
        rewrite (phase_size_0 order1 order2). reflexivity.
      - rewrite py_range_nonpos by lia. reflexivity. }
    rewrite Heq. split; [reflexivity|]. split; [reflexivity|].
    intros _. reflexivity.
  - assert (Hboth :
      fst <$> match foldM (phase order1 df alpha)
                          (DecisionV3.py_range (max_cond + 1)) (G0, ∅, []) with
              | Some (G, sp, dt) => Some (orient G sp, dt)
              | None => None
              end
      = fst <$> match foldM (phase order2 df alpha)
                            (DecisionV3.py_range (max_cond + 1)) (G0, ∅, []) with
                | Some (G, sp, dt) => Some (orient G sp, dt)
                | None => None
                end /\
      (map decision ∘ snd)
        <$> match foldM (phase order1 df alpha)
                        (DecisionV3.py_range (max_cond + 1)) (G0, ∅, []) with
            | Some (G, sp, dt) => Some (orient G sp, dt)
            | None => None
            end
      = (map decision ∘ snd)
          <$> match foldM (phase order2 df alpha)
                          (DecisionV3.py_range (max_cond + 1)) (G0, ∅, []) with
              | Some (G, sp, dt) => Some (orient G sp, dt)
              | None => None
              end).
    { destruct (py_range_from_2 (max_cond + 1)) as (rest & ->); [lia|].
      rewrite !(foldM_cons _ 0). rewrite (phase_size_0 order1 order2).
      destruct (phase order2 df alpha (G0, ∅, []) 0) as [[[G1 sp1] dt1]|] eqn:E0;
        [|split; reflexivity].
      destruct (phase_graph _ _ _ _ _ _ _ _ _ _ _ Hg0 Hw0 E0) as [Hg1 Hw1].
      destruct (phase_size_1 order1 df alpha features G1 sp1 dt1 Ho1 Hcols Hg1 Hw1)
        as (spa & dsa & Ha & Hda).
      destruct (phase_size_1 order2 df alpha features G1 sp1 dt1 Ho2 Hcols Hg1 Hw1)
        as (spb & dsb & Hb & Hdb).
      rewrite !foldM_cons, Ha, Hb.
      pose proof (remove_all_edges G1 Hg1) as He.
      rewrite !phases_edgeless by exact He.
      cbn [fmap option_fmap option_map fst snd compose].
      split.
      - f_equal. apply orient_edgeless. exact He.
      - f_equal. rewrite !map_app, Hda, Hdb. reflexivity. }
    destruct Hboth as [H1 H2]. split; [exact H1|]. split; [exact H2|].
    intros; lia.
Qed.

(** The graph returned for [max_cond >= 1] has no edge at all: at size 1
    every remaining edge is conditioned on its own endpoint. *)
Lemma pc_skeleton_edgeless_from_size_1 order df features alpha max_cond DG dt :
  set_iteration order ->
  (forall f, In f features -> In f (columns df)) ->
  1 <= max_cond ->
  skeleton order df features alpha max_cond = Some (DG, dt) ->
  edgeless DG.
Proof.
  intros Ho Hcols Hmc. rewrite skeleton_unfold.
  destruct (complete_graph_spec features) as [Hg0 Hw0].
  destruct (py_range_from_2 (max_cond + 1)) as (rest & ->); [lia|].
  rewrite (foldM_cons _ 0).
  destruct (phase order df alpha (complete_graph features, ∅, []) 0)
    as [[[G1 sp1] dt1]|] eqn:E0; [|discriminate].
  destruct (phase_graph _ _ _ _ _ _ _ _ _ _ _ Hg0 Hw0 E0) as [Hg1 Hw1].
  destruct (phase_size_1 order df alpha features G1 sp1 dt1 Ho Hcols Hg1 Hw1)
    as (spa & dsa & Ha & _).
  rewrite foldM_cons, Ha.
  pose proof (remove_all_edges G1 Hg1) as He.
  rewrite phases_edgeless by exact He. intros [= <- <-].
  unfold orient. rewrite (edgeless_edges _ He). cbn [fold_left].
  set (G2 := remove_marked G1 (edges G1)) in *.
  assert (Hnodes : edgeless (fold_left add_node (nodes G2) [])).
  { apply (add_nodes_spec (nodes G2) []).
    - split; [constructor|]. intros n x (ns & [] & _).
    - intros n x (ns & [] & _).
    - split; [intros n []|]. intros n x (ns & [] & _). }
  revert Hnodes. generalize (fold_left add_node (nodes G2) []).
  induction (nodes G2) as [|k ks IH]; intros DG0 H0; [exact H0|].
  cbn [fold_left]. rewrite (edgeless_neighbors G2 k He).
  cbn [pairs_of combinations omap]. apply IH. exact H0.
Qed.

End Orders.

(** *** A run *)

Lemma forward_order_iteration : set_iteration forward_order.
Proof. intros sz e X. reflexivity. Qed.

Lemma backward_order_iteration : set_iteration backward_order.
Proof. intros sz e X. unfold backward_order. apply reverse_Permutation. Qed.

Lemma pc_skeleton_set_order_witness :
  fst <$> run forward_order 1 = fst <$> run backward_order 1 /\
  (map decision ∘ snd) <$> run forward_order 1
  = (map decision ∘ snd) <$> run backward_order 1 /\
  (1 <= 0 -> run forward_order 1 = run backward_order 1).
Proof.
  apply (pc_skeleton_set_order fisher_two_sided (fun _ => None) (fun _ _ => 0%Q)
           forward_order backward_order example_cohort ["A"; "B"; "C"] (5 # 100) 1).
  - exact forward_order_iteration.
  - exact backward_order_iteration.
  - intros f Hf. simpl in *. tauto.
Defined.

(** C2 fails as stated for [max_cond = 1]: on the same matrix, features
    and alpha, the conditioning set recorded for each removed edge follows
    the order in which the set of candidates is iterated, not the order of
    the feature names, and the two detail tables differ. *)
Lemma pc_skeleton_details_follow_set_order :
  exists d1 d2,
    snd <$> run forward_order 1 = Some d1 /\
    snd <$> run backward_order 1 = Some d2 /\
    map Cond_Set d1 = ["—"; "—"; "—"; "C"; "C"; "C"] /\
    map Cond_Set d2 = ["—"; "—"; "—"; "B"; "B"; "A"] /\
    map (fun d => (Node1 d, Node2 d)) d1 = map (fun d => (Node1 d, Node2 d)) d2.
Proof.
  eexists. eexists. split; [vm_compute; reflexivity|].
  split; [vm_compute; reflexivity|]. repeat split.
Qed.

End SkeletonFacts.

(** ** The class matrix under the three rules *)

Lemma col_pos_fresh c cols : ~ In c cols -> col_pos c cols = None.
Proof.
  intros Hn. destruct (col_pos c cols) as [j|] eqn:E; [|reflexivity].
  exfalso. apply Hn. apply col_pos_Some in E.
  apply list_elem_of_In. eapply list_elem_of_lookup_2. exact E.
Qed.

Lemma map_combine_append {A B} (f : A -> list B) (g : A -> B) l :
  map (fun '(row, v) => row ++ [v]) (combine (map f l) (map g l))
  = map (fun x => f x ++ [g x]) l.
Proof.
  induction l as [|x l IH]; [reflexivity|]. simpl. rewrite IH. reflexivity.
Qed.

Module RulesFacts.
Import Classification AggregationFacts.
Import AggregationSpec RulesSpec.

Lemma matched_classes_app cols l1 l2 :
  matched_classes cols (l1 ++ l2)
  = matched_classes cols l1 ++ matched_classes cols l2.
Proof. unfold matched_classes. apply List.filter_app. Qed.

Lemma matched_classes_names cols l cls :
  In cls (map fst (matched_classes cols l)) -> In cls (map fst l).
Proof.
  intros H. apply in_map_iff in H as (e & <- & He).
  apply filter_In in He as [He _]. apply in_map. exact He.
Qed.

(** One pass of the loop, on the closed form of what came before. *)
Lemma add_class_closed class_rule ph seen entry :
  ~ In (fst entry) (map fst seen) ->
  add_class class_rule ph (class_matrix class_rule ph seen) entry
  = class_matrix class_rule ph (seen ++ [entry]).
Proof.
  intros Hfresh. destruct entry as [cls drugs]. unfold add_class.
  fold (present_drugs (columns ph) drugs).
  unfold class_matrix. rewrite matched_classes_app.
  destruct (present_drugs (columns ph) drugs) as [|d ds] eqn:Ep.
  - assert (Hs : matched_classes (columns ph) [(cls, drugs)] = []).
    { unfold matched_classes. cbn [List.filter snd]. rewrite Ep.
      rewrite bool_decide_eq_true_2 by reflexivity. reflexivity. }
    rewrite Hs, !app_nil_r. reflexivity.
  - assert (Hs : matched_classes (columns ph) [(cls, drugs)] = [(cls, drugs)]).
    { unfold matched_classes. cbn [List.filter snd]. rewrite Ep.
      rewrite bool_decide_eq_false_2 by discriminate. reflexivity. }
    rewrite Hs.
    unfold set_column. cbn [columns index data].
    rewrite col_pos_fresh.
    2:{ intros Hin. apply Hfresh. eapply matched_classes_names. exact Hin. }
    rewrite map_app. cbn [map fst]. f_equal.
    rewrite map_combine_append. apply map_ext. intros row.
    rewrite map_app. cbn [map snd]. rewrite Ep. reflexivity.
Qed.

Lemma fold_add_class_closed class_rule ph entries : forall seen,
  List.NoDup (map fst (seen ++ entries)) ->
  fold_left (add_class class_rule ph) entries (class_matrix class_rule ph seen)
  = class_matrix class_rule ph (seen ++ entries).
Proof.
  induction entries as [|e entries IH]; intros seen Hnd.
  - rewrite app_nil_r. reflexivity.
  - cbn [fold_left]. rewrite add_class_closed.
    + rewrite IH.
      * rewrite <- app_assoc. reflexivity.
      * rewrite <- app_assoc. exact Hnd.
    + rewrite map_app in Hnd. cbn [map] in Hnd.
      apply NoDup_remove_2 in Hnd. intros Hin. apply Hnd.
      apply in_or_app. left. exact Hin.
Qed.

(** The loop of [build_class_matrix] in closed form. *)
Lemma build_class_matrix_closed pheno_df class_to_drugs class_rule :
  In class_rule ["any"; "all"; "majority"] ->
  List.NoDup (map fst class_to_drugs) ->
  build_class_matrix pheno_df class_to_drugs class_rule
  = Some (class_matrix class_rule (_to_binary pheno_df) class_to_drugs).
Proof.
  intros Hrule Hnd. unfold build_class_matrix.
  rewrite bool_decide_eq_true_2 by (apply list_elem_of_In; exact Hrule).
  cbn [negb]. f_equal.
  apply (fold_add_class_closed class_rule (_to_binary pheno_df) class_to_drugs []).
  exact Hnd.
Qed.

Lemma class_call_binary class_rule vals : binary (class_call class_rule vals).
Proof.
  unfold class_call, binary.
  repeat match goal with
         | |- context [if ?b then _ else _] => destruct b
         end; auto.
Qed.

Lemma class_call_all vals : all_rule_spec vals (class_call "all" vals).
Proof.
  unfold class_call. simpl String.eqb. cbv iota.
  set (nr := countb (fun c => cell_eqb c 1) vals).
  set (ns := countb (fun c => cell_eqb c 0) vals).
  assert (Hall : nr + ns = Z.of_nat (length vals)
                 <-> forall v, In v vals -> tested v)
    by apply all_tested_iff.
  assert (Hres : nr = Z.of_nat (length vals)
                 <-> forall v, In v vals -> resistant v).
  { unfold nr. rewrite countb_all_iff. split; intros H v Hv.
    - apply cell_eqb_true. apply H. exact Hv.
    - apply cell_eqb_true. apply H. exact Hv. }
  assert (Hsus : 1 <= ns <-> exists v, In v vals /\ v = Some 0).
  { unfold ns. rewrite countb_pos_iff. split; intros (v & Hv & H); exists v;
      (split; [exact Hv|]); apply cell_eqb_true; exact H. }
  pose proof (countb_nonneg (fun c => cell_eqb c 1) vals) as Hnr. fold nr in Hnr.
  pose proof (countb_nonneg (fun c => cell_eqb c 0) vals) as Hns. fold ns in Hns.
  assert (Hrt : (forall v, In v vals -> resistant v) ->
                forall v, In v vals -> tested v).
  { intros H v Hv. right. apply H. exact Hv. }
  unfold all_rule_spec.
  destruct (Z.eqb_spec (nr + ns) (Z.of_nat (length vals))) as [He|Hne];
    destruct (Z.eqb_spec nr (Z.of_nat (length vals))) as [Hr|Hnr'];
    destruct (Z.geb_spec ns 1) as [Hs|Hns']; simpl;
    repeat split; try discriminate; try tauto; try lia; intros;
    try solve [exfalso; intuition lia].
Qed.

Lemma class_call_majority vals :
  majority_rule_spec vals (class_call "majority" vals).
Proof.
  unfold class_call. simpl String.eqb. cbv iota.
  unfold majority_rule_spec, n_tested, n_resistant.
  set (nr := countb (fun c => cell_eqb c 1) vals).
  set (ns := countb (fun c => cell_eqb c 0) vals).
  assert (Hall : nr + ns = Z.of_nat (length vals)
                 <-> forall v, In v vals -> tested v)
    by apply all_tested_iff.
  pose proof (countb_nonneg (fun c => cell_eqb c 1) vals) as Hnr. fold nr in Hnr.
  pose proof (countb_nonneg (fun c => cell_eqb c 0) vals) as Hns. fold ns in Hns.
  assert (Hlt : Qltb (inject_Z (nr + ns) / 2) (inject_Z nr) = true
                <-> nr + ns < 2 * nr).
  { rewrite Qltb_lt. unfold Qlt, Qdiv, Qmult, Qinv, inject_Z. simpl. lia. }
  assert (Hle : Qleb (inject_Z nr) (inject_Z (nr + ns) / 2) = true
                <-> 2 * nr <= nr + ns).
  { rewrite Qleb_le. unfold Qle, Qdiv, Qmult, Qinv, inject_Z. simpl. lia. }
  destruct (Qltb (inject_Z (nr + ns) / 2) (inject_Z nr)) eqn:E1;
    destruct (Qleb (inject_Z nr) (inject_Z (nr + ns) / 2)) eqn:E2;
    destruct (Z.eqb_spec (nr + ns) (Z.of_nat (length vals))) as [He|Hne];
    destruct (Z.gtb_spec (nr + ns) 0) as [Hg|Hng]; simpl;
    try (assert (nr + ns < 2 * nr) by (apply Hlt; reflexivity));
    try (assert (2 * nr <= nr + ns) by (apply Hle; reflexivity));
    try (assert (~ nr + ns < 2 * nr) by (rewrite <- Hlt; discriminate));
    try (assert (~ 2 * nr <= nr + ns) by (rewrite <- Hle; discriminate));
    repeat split; try discriminate; try tauto; try lia; intros;
    try solve [exfalso; intuition lia].
Qed.

(** A cell of the returned matrix is the call of the rule on the matched
    drugs of the class of its column. *)
Lemma build_class_matrix_cell pheno_df class_to_drugs class_rule out
    j i cls row_out :
  build_class_matrix pheno_df class_to_drugs class_rule = Some out ->
  columns out !! j = Some cls ->
  data out !! i = Some row_out ->
  exists drugs row,
    In (cls, drugs) class_to_drugs /\
    data (_to_binary pheno_df) !! i = Some row /\
    present_drugs (columns pheno_df) drugs <> [] /\
    row_out !! j
    = Some (class_call class_rule
              (row_select (columns pheno_df) row
                          (present_drugs (columns pheno_df) drugs))).
Proof.
  unfold build_class_matrix.
  destruct (negb (bool_decide (class_rule ∈ ["any"; "all"; "majority"])));
    [discriminate|].
  set (ph := _to_binary pheno_df).
  set (out0 := mkFrame (A:=Z) [] (index ph) (map (fun _ : list cell => []) (data ph))).
  intros [= <-] Hj Hi.
  assert (H0 : columns_from class_rule ph [] out0).
  { split; [simpl; apply length_map|]. split.
    - apply List.Forall_forall. intros r Hr. apply in_map_iff in Hr as (? & <- & _).
      reflexivity.
    - intros j' c Hc. simpl in Hc. destruct j'; discriminate. }
  apply (fold_add_class class_rule ph class_to_drugs) in H0. simpl app in H0.
  destruct H0 as (Hlen & Hshape & Hcols).
  destruct (Hcols j cls Hj) as (drugs & Hin & Hne & Hcol).
  assert (Hilt : (i < length (data ph))%nat)
    by (rewrite <- Hlen; apply lookup_lt_is_Some; eauto).
  destruct (lookup_lt_is_Some_2 _ _ Hilt) as [row Hrow].
  assert (Hjlt : (j < length row_out)%nat).
  { rewrite List.Forall_forall in Hshape.
    rewrite (Hshape row_out) by (apply list_elem_of_In; eapply list_elem_of_lookup_2; eauto).
    apply lookup_lt_is_Some. eauto. }
  destruct (lookup_lt_is_Some_2 _ _ Hjlt) as [call Hcall].
  exists drugs, row. split; [exact Hin|]. split; [exact Hrow|].
  split; [exact Hne|]. rewrite Hcall. f_equal.
  assert (Hcell : column_cells (fold_left (add_class class_rule ph) class_to_drugs out0) j !! i
                  = Some call).
  { unfold column_cells. rewrite lookup_map, Hi. simpl.
    f_equal. apply nth_lookup_Some. exact Hcall. }
  rewrite Hcol, lookup_map, Hrow in Hcell. simpl in Hcell.
  injection Hcell as <-. reflexivity.
Qed.

(** With class names that are distinct, as the keys of a dictionary are,
    and one of the three rules, [build_class_matrix] returns the matrix in
    closed form: the index of the phenotype table, one column per class
    with a matched drug, in the order of the ontology (a class without a
    matched drug has no column), and in every cell the call of the rule on
    the matched drugs, which is 0, 1 or missing.  Any other rule name
    raises. *)
Theorem build_class_matrix_closed_form (pheno_df : Frame Q)
    (class_to_drugs : list (string * list string)) (class_rule : string) :
  List.NoDup (map fst class_to_drugs) ->
  (In class_rule ["any"; "all"; "majority"] ->
   build_class_matrix pheno_df class_to_drugs class_rule
   = Some (class_matrix class_rule (_to_binary pheno_df) class_to_drugs)) /\
  (~ In class_rule ["any"; "all"; "majority"] ->
   build_class_matrix pheno_df class_to_drugs class_rule = None) /\
  index (class_matrix class_rule (_to_binary pheno_df) class_to_drugs)
  = index pheno_df /\
  length (data (class_matrix class_rule (_to_binary pheno_df) class_to_drugs))
  = length (data pheno_df) /\
  (forall cls,
     In cls (columns (class_matrix class_rule (_to_binary pheno_df) class_to_drugs))
     <-> exists drugs, In (cls, drugs) class_to_drugs /\
                       exists d, In d drugs /\ In d (columns pheno_df)) /\
  (forall row c,
     In row (data (class_matrix class_rule (_to_binary pheno_df) class_to_drugs)) ->
     In c row -> binary c).
Proof.
  intros Hnd. split; [|split; [|split; [|split; [|split]]]].
  - intros Hrule. apply build_class_matrix_closed; assumption.
  - intros Hrule. unfold build_class_matrix.
    rewrite bool_decide_eq_false_2; [reflexivity|].
    intros H. apply Hrule. apply list_elem_of_In. exact H.
  - reflexivity.
  - unfold class_matrix. cbn [data _to_binary]. rewrite !length_map. reflexivity.
  - intros cls. unfold class_matrix. cbn [columns _to_binary]. split.
    + intros H. apply in_map_iff in H as ([c drugs] & <- & He).
      apply filter_In in He as [He Hp]. exists drugs. split; [exact He|].
      cbn [snd] in Hp. apply negb_true_iff in Hp.
      apply bool_decide_eq_false in Hp.
      destruct (present_drugs (columns pheno_df) drugs) as [|d ds] eqn:Ep;
        [contradiction|].
      exists d. assert (Hd : In d (present_drugs (columns pheno_df) drugs))
        by (rewrite Ep; left; reflexivity).
      apply filter_In in Hd as [Hd1 Hd2]. split; [exact Hd1|].
      apply bool_decide_eq_true in Hd2. apply list_elem_of_In. exact Hd2.
    + intros (drugs & He & d & Hd1 & Hd2).
      apply in_map_iff. exists (cls, drugs). split; [reflexivity|].
      apply filter_In. split; [exact He|]. cbn [snd].
      apply negb_true_iff. apply bool_decide_eq_false. intros Hp.
      assert (Hd : In d (present_drugs (columns pheno_df) drugs)).
      { apply filter_In. split; [exact Hd1|]. apply bool_decide_eq_true.
        apply list_elem_of_In. exact Hd2. }
      rewrite Hp in Hd. destruct Hd.
  - intros row c Hrow Hc. unfold class_matrix in Hrow. cbn [data] in Hrow.
    apply in_map_iff in Hrow as (r & <- & _).
    apply in_map_iff in Hc as (e & <- & _). apply class_call_binary.
Qed.

Lemma build_class_matrix_closed_form_witness :
  (In "all" ["any"; "all"; "majority"] ->
   build_class_matrix example_pheno example_ontology "all"
   = Some (class_matrix "all" (_to_binary example_pheno) example_ontology)) /\
  (~ In "all" ["any"; "all"; "majority"] ->
   build_class_matrix example_pheno example_ontology "all" = None) /\
  index (class_matrix "all" (_to_binary example_pheno) example_ontology)
  = index example_pheno /\
  length (data (class_matrix "all" (_to_binary example_pheno) example_ontology))
  = length (data example_pheno) /\
  (forall cls,
     In cls (columns (class_matrix "all" (_to_binary example_pheno) example_ontology))
     <-> exists drugs, In (cls, drugs) example_ontology /\
                       exists d, In d drugs /\ In d (columns example_pheno)) /\
  (forall row c,
     In row (data (class_matrix "all" (_to_binary example_pheno) example_ontology)) ->
     In c row -> binary c).
Proof.
  apply (build_class_matrix_closed_form example_pheno example_ontology "all").
  cbn. repeat constructor; simpl; intuition discriminate.
Defined.

(** Under the [all] rule, a class call of the returned matrix is [1]
    exactly when every matched drug of the class is resistant for the row,
    [0] exactly when every matched drug was tested and one of them is
    susceptible, and missing exactly when a matched drug is untested. *)
Theorem build_class_matrix_all (pheno_df : Frame Q)
    (class_to_drugs : list (string * list string)) (out : DataFrame)
    (j i : nat) (cls : string) (row_out : list cell) :
  build_class_matrix pheno_df class_to_drugs "all" = Some out ->
  columns out !! j = Some cls ->
  data out !! i = Some row_out ->
  exists drugs row call,
    In (cls, drugs) class_to_drugs /\
    data (_to_binary pheno_df) !! i = Some row /\
    row_out !! j = Some call /\
    present_drugs (columns pheno_df) drugs <> [] /\
    all_rule_spec
      (row_select (columns pheno_df) row (present_drugs (columns pheno_df) drugs))
      call.
Proof.
  intros Hb Hj Hi.
  destruct (build_class_matrix_cell _ _ _ _ _ _ _ _ Hb Hj Hi)
    as (drugs & row & Hin & Hrow & Hne & Hcall).
  exists drugs, row. eexists. split; [exact Hin|]. split; [exact Hrow|].
  split; [exact Hcall|]. split; [exact Hne|]. apply class_call_all.
Qed.

Lemma build_class_matrix_all_witness :
  exists drugs row call,
    In ("Pen", drugs) example_ontology /\
    data (_to_binary example_pheno) !! 2%nat = Some row /\
    [Some 0; Some 1] !! 0%nat = Some call /\
    present_drugs (columns example_pheno) drugs <> [] /\
    all_rule_spec
      (row_select (columns example_pheno) row
                  (present_drugs (columns example_pheno) drugs))
      call.
Proof.
  apply (build_class_matrix_all example_pheno example_ontology
           (mkFrame ["Pen"; "Tet"] ["s1"; "s2"; "s3"]
                    [[None; Some 0]; [None; None]; [Some 0; Some 1]])
           0%nat 2%nat "Pen" [Some 0; Some 1]).
  - vm_compute. reflexivity.
  - reflexivity.
  - reflexivity.
Defined.

(** Under the [majority] rule, a class call of the returned matrix is [1]
    exactly when more than half of the tested matched drugs are resistant
    for the row, whether or not the other matched drugs were tested; [0]
    exactly when every matched drug was tested and at most half are
    resistant; and missing otherwise. *)
Theorem build_class_matrix_majority (pheno_df : Frame Q)
    (class_to_drugs : list (string * list string)) (out : DataFrame)
    (j i : nat) (cls : string) (row_out : list cell) :
  build_class_matrix pheno_df class_to_drugs "majority" = Some out ->
  columns out !! j = Some cls ->
  data out !! i = Some row_out ->
  exists drugs row call,
    In (cls, drugs) class_to_drugs /\
    data (_to_binary pheno_df) !! i = Some row /\
    row_out !! j = Some call /\
    present_drugs (columns pheno_df) drugs <> [] /\
    majority_rule_spec
      (row_select (columns pheno_df) row (present_drugs (columns pheno_df) drugs))
      call.
Proof.
  intros Hb Hj Hi.
  destruct (build_class_matrix_cell _ _ _ _ _ _ _ _ Hb Hj Hi)
    as (drugs & row & Hin & Hrow & Hne & Hcall).
  exists drugs, row. eexists. split; [exact Hin|]. split; [exact Hrow|].
  split; [exact Hcall|]. split; [exact Hne|]. apply class_call_majority.
Qed.

Lemma build_class_matrix_majority_witness :
  exists drugs row call,
    In ("Pen", drugs) example_ontology /\
    data (_to_binary example_pheno) !! 0%nat = Some row /\
    [Some 1; Some 0] !! 0%nat = Some call /\
    present_drugs (columns example_pheno) drugs <> [] /\
    majority_rule_spec
      (row_select (columns example_pheno) row
                  (present_drugs (columns example_pheno) drugs))
      call.
Proof.
  apply (build_class_matrix_majority example_pheno example_ontology
           (mkFrame ["Pen"; "Tet"] ["s1"; "s2"; "s3"]
                    [[Some 1; Some 0]; [None; None]; [Some 0; Some 1]])
           0%nat 0%nat "Pen" [Some 1; Some 0]).
  - vm_compute. reflexivity.
  - reflexivity.
  - reflexivity.
Defined.

(** The three rules on the same cells, a class with a matched drug:
    resistant under [all] implies resistant under [majority] implies
    resistant under [any], and susceptible under [any] implies susceptible
    under [majority] implies susceptible under [all]. *)
Lemma class_call_ordered vals :
  vals <> [] ->
  (class_call "all" vals = Some 1 -> class_call "majority" vals = Some 1) /\
  (class_call "majority" vals = Some 1 -> class_call "any" vals = Some 1) /\
  (class_call "any" vals = Some 0 -> class_call "majority" vals = Some 0) /\
  (class_call "majority" vals = Some 0 -> class_call "all" vals = Some 0).
Proof.
  intros Hne.
  destruct (class_call_all vals) as (A1 & A0 & _).
  destruct (class_call_majority vals) as (M1 & M0 & _).
  destruct (class_call_any vals) as (Y1 & Y0 & _).
  unfold n_tested, n_resistant in M1, M0.
  set (nr := countb (fun c => cell_eqb c 1) vals) in *.
  set (ns := countb (fun c => cell_eqb c 0) vals) in *.
  assert (Hall : nr + ns = Z.of_nat (length vals)
                 <-> forall v, In v vals -> tested v)
    by apply all_tested_iff.
  assert (Hres : nr = Z.of_nat (length vals)
                 <-> forall v, In v vals -> resistant v).
  { unfold nr. rewrite countb_all_iff. split; intros H v Hv;
      apply cell_eqb_true; apply H; exact Hv. }
  assert (Hpos : 1 <= nr <-> exists v, In v vals /\ resistant v).
  { unfold nr. rewrite countb_pos_iff. split; intros (v & Hv & H); exists v;
      (split; [exact Hv|]); apply cell_eqb_true; exact H. }
  assert (Hsus : 1 <= ns <-> exists v, In v vals /\ v = Some 0).
  { unfold ns. rewrite countb_pos_iff. split; intros (v & Hv & H); exists v;
      (split; [exact Hv|]); apply cell_eqb_true; exact H. }
  pose proof (countb_nonneg (fun c => cell_eqb c 1) vals) as Hnr. fold nr in Hnr.
  pose proof (countb_nonneg (fun c => cell_eqb c 0) vals) as Hns. fold ns in Hns.
  assert (Hlen : 1 <= Z.of_nat (length vals)).
  { destruct vals; [contradiction|]. simpl length. lia. }
  assert (Hrt : (forall v, In v vals -> resistant v) ->
                forall v, In v vals -> tested v).
  { intros H v Hv. right. apply H. exact Hv. }
  split; [|split; [|split]].
  - intros H0. pose proof (proj1 A1 H0) as H. apply (proj2 M1).
    assert (nr = Z.of_nat (length vals)) by (apply Hres; exact H).
    assert (nr + ns = Z.of_nat (length vals)) by (apply Hall; auto). lia.
  - intros H0. pose proof (proj1 M1 H0) as H. apply (proj2 Y1). apply (proj1 Hpos). lia.
  - intros H0. destruct (proj1 Y0 H0) as [Ht Hno]. apply (proj2 M0).
    split; [exact Ht|].
    assert (~ 1 <= nr) by (rewrite Hpos; exact Hno). lia.
  - intros H0. destruct (proj1 M0 H0) as [Ht Hhalf]. apply (proj2 A0).
    split; [exact Ht|]. apply (proj1 Hsus). assert (nr + ns = Z.of_nat (length vals)) by (apply Hall; exact Ht).
    lia.
Qed.

Lemma present_drugs_nonempty cols e l :
  In e (matched_classes cols l) -> present_drugs cols (snd e) <> [].
Proof.
  intros H. apply filter_In in H as [_ H]. apply negb_true_iff in H.
  apply bool_decide_eq_false in H. exact H.
Qed.

Lemma row_select_nonempty {A} cols (row : list (option A)) present :
  present <> [] -> row_select cols row present <> [].
Proof. destruct present; [contradiction|]. discriminate. Qed.

(** For the same phenotype table and ontology (distinct class names), the
    matrices of the three rules have the same index and columns, and cell
    by cell a class resistant under [all] is resistant under [majority],
    one resistant under [majority] is resistant under [any], one
    susceptible under [any] is susceptible under [majority], and one
    susceptible under [majority] is susceptible under [all]. *)
Theorem build_class_matrix_rules_ordered (pheno_df : Frame Q)
    (class_to_drugs : list (string * list string)) :
  List.NoDup (map fst class_to_drugs) ->
  exists m_any m_maj m_all,
    build_class_matrix pheno_df class_to_drugs "any" = Some m_any /\
    build_class_matrix pheno_df class_to_drugs "majority" = Some m_maj /\
    build_class_matrix pheno_df class_to_drugs "all" = Some m_all /\
    columns m_any = columns m_maj /\ columns m_maj = columns m_all /\
    index m_any = index m_maj /\ index m_maj = index m_all /\
    forall i j r_any r_maj r_all c_any c_maj c_all,
      data m_any !! i = Some r_any -> r_any !! j = Some c_any ->
      data m_maj !! i = Some r_maj -> r_maj !! j = Some c_maj ->
      data m_all !! i = Some r_all -> r_all !! j = Some c_all ->
      (c_all = Some 1 -> c_maj = Some 1) /\
      (c_maj = Some 1 -> c_any = Some 1) /\
      (c_any = Some 0 -> c_maj = Some 0) /\
      (c_maj = Some 0 -> c_all = Some 0).
Proof.
  intros Hnd.
  exists (class_matrix "any" (_to_binary pheno_df) class_to_drugs),
         (class_matrix "majority" (_to_binary pheno_df) class_to_drugs),
         (class_matrix "all" (_to_binary pheno_df) class_to_drugs).
  split; [apply build_class_matrix_closed; [simpl; tauto|exact Hnd]|].
  split; [apply build_class_matrix_closed; [simpl; tauto|exact Hnd]|].
  split; [apply build_class_matrix_closed; [simpl; tauto|exact Hnd]|].
  split; [reflexivity|]. split; [reflexivity|].
  split; [reflexivity|]. split; [reflexivity|].
  intros i j r_any r_maj r_all c_any c_maj c_all Ha Hca Hm Hcm Hl Hcl.
  unfold class_matrix in Ha, Hm, Hl. cbn [data] in Ha, Hm, Hl.
  rewrite lookup_map in Ha, Hm, Hl.
  destruct (data (_to_binary pheno_df) !! i) as [row|]; [|discriminate].
  cbn [fmap option_fmap option_map] in Ha, Hm, Hl.
  injection Ha as <-. injection Hm as <-. injection Hl as <-.
  rewrite lookup_map in Hca, Hcm, Hcl.
  destruct (matched_classes (columns pheno_df) class_to_drugs !! j)
    as [e|] eqn:Ee; cbn [fmap option_fmap option_map] in Hca, Hcm, Hcl;
    [|discriminate].
  injection Hca as <-. injection Hcm as <-.
  injection Hcl as <-.
  apply class_call_ordered. apply row_select_nonempty.
  eapply present_drugs_nonempty. apply list_elem_of_In.
  eapply list_elem_of_lookup_2. exact Ee.
Qed.

Lemma build_class_matrix_rules_ordered_witness :
  exists m_any m_maj m_all,
    build_class_matrix example_pheno example_ontology "any" = Some m_any /\
    build_class_matrix example_pheno example_ontology "majority" = Some m_maj /\
    build_class_matrix example_pheno example_ontology "all" = Some m_all /\
    columns m_any = columns m_maj /\ columns m_maj = columns m_all /\
    index m_any = index m_maj /\ index m_maj = index m_all /\
    forall i j r_any r_maj r_all c_any c_maj c_all,
      data m_any !! i = Some r_any -> r_any !! j = Some c_any ->
      data m_maj !! i = Some r_maj -> r_maj !! j = Some c_maj ->
      data m_all !! i = Some r_all -> r_all !! j = Some c_all ->
      (c_all = Some 1 -> c_maj = Some 1) /\
      (c_maj = Some 1 -> c_any = Some 1) /\
      (c_any = Some 0 -> c_maj = Some 0) /\
      (c_maj = Some 0 -> c_all = Some 0).
Proof.
  apply (build_class_matrix_rules_ordered example_pheno example_ontology).
  cbn. repeat constructor; simpl; intuition discriminate.
Defined.

End RulesFacts.

(** ** Spectrum and probabilities of a class matrix *)

Lemma resistant_missing_le_length (row : list cell) :
  countb (fun c => cell_eqb c 1) row + countb isna row
  <= Z.of_nat (length row).
Proof.
  rewrite countb_disjoint_sum.
  - apply countb_le_length.
  - intros [z|] _ H; [reflexivity|discriminate].
Qed.

Lemma well_shaped_row {A} (df : Frame A) i row :
  well_shaped df -> data df !! i = Some row ->
  length row = length (columns df).
Proof.
  intros (_ & _ & Hrows) Hrow. rewrite List.Forall_forall in Hrows.
  apply Hrows. apply list_elem_of_In. eapply list_elem_of_lookup_2. exact Hrow.
Qed.

Module SpectrumFacts.
Import Classification MdrFlagFacts.
Import MdrFlagSpec SpectrumSpec.

Lemma cat_cases n_classes threshold s :
  (cat n_classes threshold s = "PDR" <-> n_classes <= s) /\
  (cat n_classes threshold s = "XDR" <-> n_classes - 2 <= s < n_classes) /\
  (cat n_classes threshold s = "MDR" <-> threshold <= s < n_classes - 2) /\
  (cat n_classes threshold s = "susceptible"
   <-> s < threshold /\ s < n_classes - 2).
Proof.
  unfold cat.
  destruct (Z.geb_spec s n_classes); [|destruct (Z.geb_spec s (n_classes - 2));
    [|destruct (Z.geb_spec s threshold)]];
    repeat split; intros; try discriminate; try lia.
Qed.

Lemma cat_monotone n_classes threshold s1 s2 :
  s1 <= s2 ->
  severity (cat n_classes threshold s1) <= severity (cat n_classes threshold s2).
Proof.
  intros Hle. unfold cat.
  destruct (Z.geb_spec s1 n_classes); destruct (Z.geb_spec s2 n_classes);
    destruct (Z.geb_spec s1 (n_classes - 2));
    destruct (Z.geb_spec s2 (n_classes - 2));
    destruct (Z.geb_spec s1 threshold); destruct (Z.geb_spec s2 threshold);
    try lia; vm_compute; discriminate.
Qed.

Lemma mdr_spectrum_lookup class_df threshold i sid row :
  index class_df !! i = Some sid ->
  data class_df !! i = Some row ->
  mdr_spectrum class_df threshold !! i
  = Some (sid,
          let n_classes := Z.of_nat (length (columns class_df)) in
          mkSpectrum (min_res row) (max_res row)
                     (cat n_classes threshold (min_res row))
                     (cat n_classes threshold (min_res row))
                     (cat n_classes threshold (max_res row))
                     n_classes (n_missing row)).
Proof.
  intros Hi Hr. unfold mdr_spectrum. apply lookup_combine.
  split; [exact Hi|]. rewrite lookup_map, Hr. reflexivity.
Qed.

(** [mdr_spectrum] gives every isolate of a well-shaped class matrix one
    row, in which [0 <= Min <= Max <= Total], [Max = Min + Missing],
    [Category] repeats [Category_Definite], the possible category is at
    least as severe as the definite one and equal to it when no class is
    missing; the definite category is PDR iff all classes are resistant,
    XDR iff all but one or two are, MDR iff the count reaches the
    threshold and stays below [Total - 2], and susceptible otherwise. *)
Theorem mdr_spectrum_rows (class_df : DataFrame) (threshold : Z)
    (i : nat) (sid : string) (row : list cell) :
  well_shaped class_df ->
  index class_df !! i = Some sid ->
  data class_df !! i = Some row ->
  exists r,
    mdr_spectrum class_df threshold !! i = Some (sid, r) /\
    N_Classes_Resistant_Min r = min_res row /\
    N_Classes_Missing r = n_missing row /\
    N_Classes_Total r = Z.of_nat (length (columns class_df)) /\
    N_Classes_Resistant_Max r
    = N_Classes_Resistant_Min r + N_Classes_Missing r /\
    0 <= N_Classes_Resistant_Min r <= N_Classes_Resistant_Max r /\
    N_Classes_Resistant_Max r <= N_Classes_Total r /\
    Category r = Category_Definite r /\
    severity (Category_Definite r) <= severity (Category_Possible r) /\
    (N_Classes_Missing r = 0 -> Category_Possible r = Category_Definite r) /\
    (Category_Definite r = "PDR"
     <-> N_Classes_Resistant_Min r = N_Classes_Total r) /\
    (Category_Definite r = "XDR"
     <-> N_Classes_Total r - 2 <= N_Classes_Resistant_Min r < N_Classes_Total r) /\
    (Category_Definite r = "MDR"
     <-> threshold <= N_Classes_Resistant_Min r < N_Classes_Total r - 2) /\
    (Category_Definite r = "susceptible"
     <-> N_Classes_Resistant_Min r < threshold /\
         N_Classes_Resistant_Min r < N_Classes_Total r - 2).
Proof.
  intros Hws Hi Hr. eexists. split; [apply mdr_spectrum_lookup; eassumption|].
  cbn [N_Classes_Resistant_Min N_Classes_Resistant_Max Category
       Category_Definite Category_Possible N_Classes_Total N_Classes_Missing].
  pose proof (well_shaped_row _ _ _ Hws Hr) as Hlen.
  pose proof (resistant_missing_le_length row) as Hle.
  pose proof (countb_nonneg (fun c => cell_eqb c 1) row) as H1.
  pose proof (countb_nonneg (@isna Z) row) as H2.
  unfold max_res, min_res, n_missing in *.
  set (mn := countb (fun c => cell_eqb c 1) row) in *.
  set (ms := countb isna row) in *.
  set (n := Z.of_nat (length (columns class_df))) in *.
  assert (Hn : Z.of_nat (length row) = n) by (unfold n; rewrite Hlen; reflexivity).
  destruct (cat_cases n threshold mn) as (Cp & Cx & Cm & Cs).
  repeat split; try lia; try tauto.
  - apply cat_monotone. lia.
  - intros ->. rewrite Z.add_0_r. reflexivity.
  - intros H. apply Cp in H. lia.
  - intros H. apply Cp. lia.
Qed.

Lemma mdr_spectrum_rows_witness :
  exists r,
    mdr_spectrum example_classes 2 !! 1%nat = Some ("s2", r) /\
    N_Classes_Resistant_Min r = min_res [Some 1; None; None] /\
    N_Classes_Missing r = n_missing [Some 1; None; None] /\
    N_Classes_Total r = Z.of_nat (length (columns example_classes)) /\
    N_Classes_Resistant_Max r
    = N_Classes_Resistant_Min r + N_Classes_Missing r /\
    0 <= N_Classes_Resistant_Min r <= N_Classes_Resistant_Max r /\
    N_Classes_Resistant_Max r <= N_Classes_Total r /\
    Category r = Category_Definite r /\
    severity (Category_Definite r) <= severity (Category_Possible r) /\
    (N_Classes_Missing r = 0 -> Category_Possible r = Category_Definite r) /\
    (Category_Definite r = "PDR"
     <-> N_Classes_Resistant_Min r = N_Classes_Total r) /\
    (Category_Definite r = "XDR"
     <-> N_Classes_Total r - 2 <= N_Classes_Resistant_Min r < N_Classes_Total r) /\
    (Category_Definite r = "MDR"
     <-> 2 <= N_Classes_Resistant_Min r < N_Classes_Total r - 2) /\
    (Category_Definite r = "susceptible"
     <-> N_Classes_Resistant_Min r < 2 /\
         N_Classes_Resistant_Min r < N_Classes_Total r - 2).
Proof.
  apply (mdr_spectrum_rows example_classes 2 1%nat "s2" [Some 1; None; None]).
  - split; [|split].
    + apply NoDup_ListNoDup. cbn. repeat constructor; simpl; intuition discriminate.
    + reflexivity.
    + cbn. repeat constructor.
  - reflexivity.
  - reflexivity.
Defined.

(** The category MDR needs [threshold <= Min < Total - 2]: on a class
    matrix with at most [threshold + 2] columns no isolate is ever
    categorised MDR, definitely or possibly, and with at most two columns
    every isolate is XDR or PDR, whatever its calls are. *)
Theorem mdr_spectrum_narrow_panel (class_df : DataFrame) (threshold : Z)
    (sid : string) (r : spectrum_row) :
  In (sid, r) (mdr_spectrum class_df threshold) ->
  (Z.of_nat (length (columns class_df)) <= threshold + 2 ->
   Category_Definite r <> "MDR" /\ Category_Possible r <> "MDR") /\
  ((length (columns class_df) <= 2)%nat ->
   (Category_Definite r = "XDR" \/ Category_Definite r = "PDR") /\
   (Category_Possible r = "XDR" \/ Category_Possible r = "PDR")).
Proof.
  intros Hin. unfold mdr_spectrum in Hin. apply in_combine_r in Hin.
  apply in_map_iff in Hin as (row & <- & _).
  cbn [Category_Definite Category_Possible].
  set (n := Z.of_nat (length (columns class_df))).
  pose proof (countb_nonneg (fun c => cell_eqb c 1) row) as H1.
  pose proof (countb_nonneg (@isna Z) row) as H2.
  fold (min_res row) in H1. fold (n_missing row) in H2.
  assert (H3 : 0 <= max_res row) by (unfold max_res; lia).
  destruct (cat_cases n threshold (min_res row)) as (Dp & Dx & Dm & Ds).
  destruct (cat_cases n threshold (max_res row)) as (Pp & Px & Pm & Ps).
  split.
  - intros Hn. split; intros H; [apply Dm in H|apply Pm in H]; lia.
  - intros Hn. assert (n <= 2) by (unfold n; lia). split.
    + destruct (Z_lt_le_dec (min_res row) n).
      * left. apply Dx. lia.
      * right. apply Dp. lia.
    + destruct (Z_lt_le_dec (max_res row) n).
      * left. apply Px. lia.
      * right. apply Pp. lia.
Qed.

Lemma mdr_spectrum_narrow_panel_witness :
  (Z.of_nat (length (columns example_classes)) <= 3 + 2 ->
   Category_Definite (mkSpectrum 1 3 "XDR" "XDR" "PDR" 3 2) <> "MDR" /\
   Category_Possible (mkSpectrum 1 3 "XDR" "XDR" "PDR" 3 2) <> "MDR") /\
  ((length (columns example_classes) <= 2)%nat ->
   (Category_Definite (mkSpectrum 1 3 "XDR" "XDR" "PDR" 3 2) = "XDR" \/
    Category_Definite (mkSpectrum 1 3 "XDR" "XDR" "PDR" 3 2) = "PDR") /\
   (Category_Possible (mkSpectrum 1 3 "XDR" "XDR" "PDR" 3 2) = "XDR" \/
    Category_Possible (mkSpectrum 1 3 "XDR" "XDR" "PDR" 3 2) = "PDR")).
Proof.
  apply (mdr_spectrum_narrow_panel example_classes 3 "s2"
           (mkSpectrum 1 3 "XDR" "XDR" "PDR" 3 2)).
  vm_compute. right. left. reflexivity.
Defined.

(** [mdr_spectrum] and [identify_mdr] on the same row: an isolate flagged
    True is not definitely susceptible; one whose definite category is
    MDR is flagged True; one that is possibly susceptible is flagged
    False; and one flagged False is not possibly MDR. *)
Theorem mdr_spectrum_identify_mdr (class_df : DataFrame) (threshold : Z)
    (i : nat) (sid : string) (row : list cell) :
  index class_df !! i = Some sid ->
  data class_df !! i = Some row ->
  exists r flag,
    mdr_spectrum class_df threshold !! i = Some (sid, r) /\
    identify_mdr class_df threshold !! i = Some (sid, flag) /\
    (flag = MdrTrue -> Category_Definite r <> "susceptible") /\
    (Category_Definite r = "MDR" -> flag = MdrTrue) /\
    (Category_Possible r = "susceptible" -> flag = MdrFalse) /\
    (flag = MdrFalse -> Category_Possible r <> "MDR").
Proof.
  intros Hi Hr. eexists. exists (identify_mdr_row row threshold).
  split; [apply mdr_spectrum_lookup; eassumption|].
  split.
  { unfold identify_mdr. apply lookup_combine. split; [exact Hi|].
    rewrite lookup_map, Hr. reflexivity. }
  cbn [Category_Definite Category_Possible].
  set (n := Z.of_nat (length (columns class_df))).
  destruct (identify_mdr_row_spec row threshold) as (Ft & Ff & Fn).
  destruct (cat_cases n threshold (min_res row)) as (Dp & Dx & Dm & Ds).
  destruct (cat_cases n threshold (max_res row)) as (Pp & Px & Pm & Ps).
  unfold max_res in *.
  split; [|split; [|split]].
  - intros Hf H. pose proof (proj1 Ft Hf). pose proof (proj1 Ds H). lia.
  - intros H. apply (proj2 Ft). pose proof (proj1 Dm H). lia.
  - intros H. apply (proj2 Ff). pose proof (proj1 Ps H). lia.
  - intros Hf H. pose proof (proj1 Ff Hf). pose proof (proj1 Pm H). lia.
Qed.

Lemma mdr_spectrum_identify_mdr_witness :
  exists r flag,
    mdr_spectrum example_classes 2 !! 0%nat = Some ("s1", r) /\
    identify_mdr example_classes 2 !! 0%nat = Some ("s1", flag) /\
    (flag = MdrTrue -> Category_Definite r <> "susceptible") /\
    (Category_Definite r = "MDR" -> flag = MdrTrue) /\
    (Category_Possible r = "susceptible" -> flag = MdrFalse) /\
    (flag = MdrFalse -> Category_Possible r <> "MDR").
Proof.
  apply (mdr_spectrum_identify_mdr example_classes 2 0%nat "s1"
           [Some 1; Some 1; None]); reflexivity.
Defined.

End SpectrumFacts.

Module ProbabilityFacts.
Import Classification DecisionV3 MdrFlagFacts PosteriorFacts ConvolutionFacts.
Import MdrFlagSpec PosteriorSpec ConvolutionSpec ProbabilitySpec.

Lemma missing_probs_In pc (row : list cell) p :
  In p (missing_probs pc row) -> In p pc.
Proof.
  unfold missing_probs. intros H. apply in_map_iff in H as ([q c] & <- & H).
  apply filter_In in H as [H _]. apply in_combine_l in H. exact H.
Qed.

Lemma missing_probs_length pc : forall (row : list cell),
  length pc = length row ->
  Z.of_nat (length (missing_probs pc row)) = n_missing row.
Proof.
  unfold missing_probs, n_missing, countb.
  induction pc as [|p pc IH]; intros [|c row] Hlen; try discriminate.
  - reflexivity.
  - cbn [combine List.filter]. injection Hlen as Hlen. specialize (IH row Hlen).
    destruct c as [z|]; cbn [isna]; cbn [map length]; lia.
Qed.

Lemma p_class_In rnd class_df p :
  In p (p_class rnd class_df) -> (0 <= p <= 1)%Q.
Proof.
  unfold p_class. intros H. apply in_map_iff in H as (j & <- & _).
  apply clip01_range.
Qed.

(** A higher threshold never raises the enumerated probability. *)
Lemma enumeration_sum_antitone probs known t1 t2 :
  (forall p, In p probs -> (0 <= p <= 1)%Q) ->
  t1 <= t2 ->
  (enumeration_sum probs known t2 <= enumeration_sum probs known t1)%Q.
Proof.
  intros Hp Hle. unfold enumeration_sum. apply Qsum_map_le. intros a _.
  pose proof (assignment_weight_nonneg probs a Hp) as Hw.
  destruct (Z.geb_spec (known + resistant_count a) t2);
    destruct (Z.geb_spec (known + resistant_count a) t1); try lia;
    try apply Qle_refl. exact Hw.
Qed.

(** The three probabilities of a row are tails of one distribution. *)
Lemma tail_prob_row class_df (row : list cell) t :
  (tail_prob exact (count_dist exact (missing_probs (p_class exact class_df) row))
             (Z.max 0 (t - min_res row))
   == enumeration_sum (missing_probs (p_class exact class_df) row) (min_res row) t)%Q.
Proof. apply tail_prob_is_enumeration. Qed.

(** *** Signs under a rounding *)

Section Signs.
Variable rnd : Q -> Q.
Hypothesis rnd_nonneg : forall x, (0 <= x)%Q -> (0 <= rnd x)%Q.

Lemma padd_nonneg a : forall b,
  nonneg_list a -> nonneg_list b -> nonneg_list (padd rnd a b).
Proof.
  induction a as [|x a IH]; intros [|y b] Ha Hb; cbn [padd]; try assumption.
  intros z [<-|Hz].
  - apply rnd_nonneg.
    assert (0 <= x)%Q by (apply Ha; now left).
    assert (0 <= y)%Q by (apply Hb; now left). lra.
  - revert z Hz. apply IH; intros z Hz; [apply Ha|apply Hb]; now right.
Qed.

Lemma convolve_nonneg a v :
  nonneg_list a -> nonneg_list v -> nonneg_list (convolve rnd a v).
Proof.
  intros Ha Hv. induction a as [|x a IH]; [intros z []|].
  cbn [convolve]. apply padd_nonneg.
  - intros z Hz. apply in_map_iff in Hz as (y & <- & Hy). apply rnd_nonneg.
    apply Qmult_le_0_compat; [apply Ha; now left|apply Hv; exact Hy].
  - destruct a as [|y a]; [intros z []|].
    intros z [<-|Hz]; [apply Qle_refl|].
    revert z Hz. apply IH. intros z Hz. apply Ha. now right.
Qed.

Lemma count_dist_nonneg probs :
  (forall p, In p probs -> (0 <= p <= 1)%Q) ->
  nonneg_list (count_dist rnd probs).
Proof.
  intros Hp. unfold count_dist.
  assert (G : forall d, nonneg_list d ->
            nonneg_list (fold_left (fun dist p => convolve rnd dist [rnd (1 - p)%Q; p])
                                   probs d)).
  { induction probs as [|p probs IH]; intros d Hd; [exact Hd|].
    cbn [fold_left]. apply IH.
    - intros q Hq. apply Hp. now right.
    - assert (0 <= p <= 1)%Q by (apply Hp; now left).
      apply convolve_nonneg; [exact Hd|].
      intros z [<-|[<-|[]]]; [apply rnd_nonneg; lra|lra]. }
  apply G. intros z [<-|[]]. lra.
Qed.

Lemma tail_prob_nonneg dist need :
  nonneg_list dist -> (0 <= tail_prob rnd dist need)%Q.
Proof.
  intros Hd. unfold tail_prob. destruct (_ <? _); [|apply Qle_refl].
  assert (G : forall l s, nonneg_list l -> (0 <= s)%Q ->
            (0 <= fold_left (fun s x => rnd (s + x)%Q) l s)%Q).
  { induction l as [|x l IH]; intros s Hl Hs; [exact Hs|].
    cbn [fold_left]. apply IH; [intros z Hz; apply Hl; now right|].
    apply rnd_nonneg. assert (0 <= x)%Q by (apply Hl; now left). lra. }
  apply G; [|apply Qle_refl].
  intros z Hz. apply Hd. apply list_elem_of_In.
  apply list_elem_of_In in Hz. eapply (subseteq_drop (Z.to_nat need) dist).
  exact Hz.
Qed.

End Signs.

(** The row of an isolate that cannot reach the threshold gets the
    probability 0.0, whatever the rounding. *)
Lemma tail_prob_out_of_reach rnd probs need :
  Z.of_nat (length probs) < need -> tail_prob rnd (count_dist rnd probs) need = 0%Q.
Proof.
  intros H. unfold tail_prob. rewrite count_dist_length.
  destruct (Z.ltb_spec need (Z.of_nat (S (length probs)))); [lia|reflexivity].
Qed.

(** [mdr_probability] raises on a class matrix in which two isolates
    carry the same label.  Otherwise it gives each isolate of a
    well-shaped matrix one row with its label, its number of known
    resistant calls and its number of missing calls, and probabilities
    that are not negative, whatever the rounding of the floats is.  In
    real arithmetic the three probabilities lie in [0, 1], P_PDR is at
    most P_XDR, P_XDR is at most P_MDR when [threshold <= n_classes - 2]
    (and at least P_MDR when [threshold >= n_classes - 2]), and P_MDR
    does not grow with the threshold. *)
Theorem mdr_probability_rows (class_df : DataFrame) (threshold : Z)
    (i : nat) (sid : string) (row : list cell) :
  well_shaped class_df ->
  index class_df !! i = Some sid ->
  data class_df !! i = Some row ->
  (~ NoDup (index class_df) ->
   forall rnd, mdr_probability rnd class_df threshold = None) /\
  (NoDup (index class_df) ->
   (forall rnd, (forall x, (0 <= x)%Q -> (0 <= rnd x)%Q) ->
      exists out r,
        mdr_probability rnd class_df threshold = Some out /\
        length out = length (data class_df) /\
        out !! i = Some r /\
        Classification.Strain_ID r = sid /\
        Observed_Resistant_Classes r = known_resistant_calls row /\
        Missing_Classes r = missing_calls row /\
        Observed_Resistant_Classes r + Missing_Classes r
        <= Z.of_nat (length (columns class_df)) /\
        (0 <= P_MDR r)%Q /\ (0 <= P_XDR r)%Q /\ (0 <= P_PDR r)%Q) /\
   (exists out r,
      mdr_probability exact class_df threshold = Some out /\
      out !! i = Some r /\
      (P_PDR r <= P_XDR r)%Q /\ (P_XDR r <= 1)%Q /\ (P_MDR r <= 1)%Q /\
      (threshold <= Z.of_nat (length (columns class_df)) - 2 ->
       (P_XDR r <= P_MDR r)%Q) /\
      (Z.of_nat (length (columns class_df)) - 2 <= threshold ->
       (P_MDR r <= P_XDR r)%Q) /\
      (forall threshold', threshold <= threshold' ->
         exists out' r',
           mdr_probability exact class_df threshold' = Some out' /\
           out' !! i = Some r' /\ (P_MDR r' <= P_MDR r)%Q))).
Proof.
  intros Hws Hi Hr. split.
  { intros Hdup rnd. apply mdr_probability_None. exact Hdup. }
  intros Hnd. split.
  - intros rnd Hrnd.
    destruct (mdr_probability_lookup rnd class_df threshold i sid row Hnd Hi Hr)
      as (out & Hout & Hrow).
    exists out. eexists. split; [exact Hout|].
    split.
    { rewrite (mdr_probability_Some rnd class_df threshold Hnd) in Hout.
      injection Hout as <-. rewrite length_map, length_combine.
      destruct Hws as (_ & Hlen & _). lia. }
    split; [exact Hrow|].
    cbn [mdr_probability_row Classification.Strain_ID Observed_Resistant_Classes
         Missing_Classes P_MDR P_XDR P_PDR].
    pose proof (well_shaped_row _ _ _ Hws Hr) as Hlen.
    pose proof (resistant_missing_le_length row) as Hle.
    fold (min_res row) in Hle. fold (n_missing row) in Hle.
    assert (Hd : nonneg_list
                   (count_dist rnd (missing_probs (p_class rnd class_df) row))).
    { apply count_dist_nonneg; [exact Hrnd|].
      intros p H. apply (p_class_In rnd class_df). eapply missing_probs_In. exact H. }
    split; [reflexivity|]. split; [apply min_res_known_resistant|].
    split; [apply n_missing_missing_calls|].
    split; [rewrite <- Hlen; exact Hle|].
    split; [|split]; apply tail_prob_nonneg; assumption.
  - destruct (mdr_probability_lookup exact class_df threshold i sid row Hnd Hi Hr)
      as (out & Hout & Hrow).
    exists out. eexists. split; [exact Hout|]. split; [exact Hrow|].
    cbn [mdr_probability_row P_MDR P_XDR P_PDR].
    set (n := Z.of_nat (length (columns class_df))).
    set (probs := missing_probs (p_class exact class_df) row).
    assert (Hp : forall p, In p probs -> (0 <= p <= 1)%Q).
    { intros p H. apply (p_class_In exact class_df). eapply missing_probs_In.
      exact H. }
    pose proof (tail_prob_row class_df row threshold) as Em.
    pose proof (tail_prob_row class_df row (n - 2)) as Ex.
    pose proof (tail_prob_row class_df row n) as Ep.
    fold probs in Em, Ex, Ep.
    pose proof (enumeration_sum_range probs (min_res row) threshold Hp) as Rm.
    pose proof (enumeration_sum_range probs (min_res row) (n - 2) Hp) as Rx.
    split.
    { rewrite Ep, Ex. apply enumeration_sum_antitone; [exact Hp|lia]. }
    split; [rewrite Ex; apply Rx|].
    split; [rewrite Em; apply Rm|].
    split.
    { intros Ht. rewrite Ex, Em. apply enumeration_sum_antitone; [exact Hp|lia]. }
    split.
    { intros Ht. rewrite Ex, Em. apply enumeration_sum_antitone; [exact Hp|lia]. }
    intros t' Ht.
    destruct (mdr_probability_lookup exact class_df t' i sid row Hnd Hi Hr)
      as (out' & Hout' & Hrow').
    exists out'. eexists. split; [exact Hout'|]. split; [exact Hrow'|].
    cbn [mdr_probability_row P_MDR]. fold probs.
    pose proof (tail_prob_row class_df row t') as Em'. fold probs in Em'.
    rewrite Em', Em. apply enumeration_sum_antitone; [exact Hp|lia].
Qed.

Lemma example_classes_well_shaped : well_shaped example_classes.
Proof.
  split; [|split].
  - apply NoDup_ListNoDup. cbn. repeat constructor; simpl; intuition discriminate.
  - reflexivity.
  - cbn. repeat constructor.
Qed.

Lemma example_classes_index : NoDup (index example_classes).
Proof.
  apply NoDup_ListNoDup. cbn. repeat constructor; simpl; intuition discriminate.
Qed.

(** The second isolate of the example, with one class known resistant
    and two missing, at threshold 2: its row as the program computes it,
    with P_MDR = 0.5, the prevalence of the one missing class that is
    ever resistant, and P_XDR = 1.0, one resistant class being enough for
    XDR among three classes. *)
Lemma mdr_probability_rows_witness :
  known_resistant_calls [Some 1; None; None] = 1 /\
  missing_calls [Some 1; None; None] = 2 /\
  exists out,
    mdr_probability b64 example_classes 2 = Some out /\
    out !! 1%nat = Some (mkMdrProbRow "s2" 1 2 (b64 (1 # 2)) (b64 1) 0).
Proof.
  split; [reflexivity|]. split; [reflexivity|].
  destruct (mdr_probability_rows example_classes 2 1%nat "s2" [Some 1; None; None]
              example_classes_well_shaped eq_refl eq_refl) as [_ H].
  destruct (H example_classes_index) as [Hf _].
  destruct (Hf b64 b64_nonneg) as (out & r & Hout & _ & Hr & _).
  exists out. split; [exact Hout|].
  assert (E : mdr_probability b64 example_classes 2
              = Some [mkMdrProbRow "s1" 2 1 (b64 1) (b64 1) 0;
                      mkMdrProbRow "s2" 1 2 (b64 (1 # 2)) (b64 1) 0;
                      mkMdrProbRow "s3" 0 1 0 0 0])
    by (vm_compute; reflexivity).
  rewrite E in Hout. injection Hout as <-. reflexivity.
Defined.

(** As the program runs a probability can exceed 1: the first isolate of
    [example_thirds] is MDR at threshold 1 whatever its missing calls
    are, and the four floats of its distribution add up to
    1.0000000000000002. *)
Lemma mdr_probability_above_one :
  exists out r,
    mdr_probability b64 example_thirds 1 = Some out /\
    out !! 0%nat = Some r /\
    Observed_Resistant_Classes r = 1 /\
    P_MDR r = b64 (10000000000000002 # 10000000000000000) /\
    (1 < P_MDR r)%Q.
Proof.
  eexists. eexists. split; [vm_compute; reflexivity|].
  split; [reflexivity|]. split; [reflexivity|].
  split; vm_compute; reflexivity.
Qed.

(** [mdr_probability] and [identify_mdr] on the same row of a well-shaped
    class matrix with distinct index labels: an isolate flagged False has
    P_MDR = 0.0, whatever the rounding of the floats is; and in real
    arithmetic an isolate flagged True has P_MDR = 1, so that a P_MDR
    strictly between 0 and 1 belongs to an isolate flagged NA. *)
Theorem mdr_probability_identify_mdr (class_df : DataFrame) (threshold : Z)
    (i : nat) (sid : string) (row : list cell) :
  well_shaped class_df ->
  NoDup (index class_df) ->
  index class_df !! i = Some sid ->
  data class_df !! i = Some row ->
  exists flag,
    identify_mdr class_df threshold !! i = Some (sid, flag) /\
    (forall rnd, exists out r,
       mdr_probability rnd class_df threshold = Some out /\
       out !! i = Some r /\
       (flag = MdrFalse -> P_MDR r = 0%Q)) /\
    (exists out r,
       mdr_probability exact class_df threshold = Some out /\
       out !! i = Some r /\
       (flag = MdrTrue -> (P_MDR r == 1)%Q) /\
       ((0 < P_MDR r)%Q -> (P_MDR r < 1)%Q -> flag = MdrNA)).
Proof.
  intros Hws Hnd Hi Hr. exists (identify_mdr_row row threshold).
  split.
  { unfold identify_mdr. apply lookup_combine. split; [exact Hi|].
    rewrite lookup_map, Hr. reflexivity. }
  destruct (identify_mdr_row_spec row threshold) as (Ft & Ff & Fn).
  assert (Hlen : forall rnd,
            Z.of_nat (length (missing_probs (p_class rnd class_df) row))
            = n_missing row).
  { intros rnd. apply missing_probs_length. rewrite p_class_length.
    symmetry. eapply well_shaped_row; eassumption. }
  split.
  - intros rnd.
    destruct (mdr_probability_lookup rnd class_df threshold i sid row Hnd Hi Hr)
      as (out & Hout & Hrow).
    exists out. eexists. split; [exact Hout|]. split; [exact Hrow|].
    cbn [mdr_probability_row P_MDR]. intros Hf.
    pose proof (proj1 Ff Hf) as Hlt.
    apply tail_prob_out_of_reach. rewrite Hlen. lia.
  - destruct (mdr_probability_lookup exact class_df threshold i sid row Hnd Hi Hr)
      as (out & Hout & Hrow).
    exists out. eexists. split; [exact Hout|]. split; [exact Hrow|].
    cbn [mdr_probability_row P_MDR].
    set (probs := missing_probs (p_class exact class_df) row).
    pose proof (tail_prob_row class_df row threshold) as Em. fold probs in Em.
    assert (Ht : identify_mdr_row row threshold = MdrTrue ->
                 (tail_prob exact (count_dist exact probs)
                            (Z.max 0 (threshold - min_res row)) == 1)%Q).
    { intros Hf. rewrite Em. apply enumeration_sum_met.
      pose proof (proj1 Ft Hf). lia. }
    assert (Hfa : identify_mdr_row row threshold = MdrFalse ->
                  (tail_prob exact (count_dist exact probs)
                             (Z.max 0 (threshold - min_res row)) == 0)%Q).
    { intros Hf. rewrite Em. apply enumeration_sum_unreachable.
      pose proof (proj1 Ff Hf). unfold probs. rewrite (Hlen exact). lia. }
    split; [exact Ht|].
    intros Hpos Hlt1.
    destruct (identify_mdr_row row threshold) eqn:Ef; [| |reflexivity].
    + exfalso. rewrite (Ht eq_refl) in Hlt1. apply (Qlt_irrefl 1). exact Hlt1.
    + exfalso. rewrite (Hfa eq_refl) in Hpos. apply (Qlt_irrefl 0). exact Hpos.
Qed.

(** At threshold 2 the third isolate of the example is flagged False and
    has P_MDR = 0.0; the first one is flagged True and has P_MDR = 1. *)
Lemma mdr_probability_identify_mdr_witness :
  identify_mdr example_classes 2 !! 2%nat = Some ("s3", MdrFalse) /\
  (exists out r,
     mdr_probability b64 example_classes 2 = Some out /\
     out !! 2%nat = Some r /\ P_MDR r = 0%Q) /\
  identify_mdr example_classes 2 !! 0%nat = Some ("s1", MdrTrue) /\
  (exists out r,
     mdr_probability exact example_classes 2 = Some out /\
     out !! 0%nat = Some r /\ (P_MDR r == 1)%Q).
Proof.
  destruct (mdr_probability_identify_mdr example_classes 2 2%nat "s3"
              [Some 0; Some 0; None] example_classes_well_shaped
              example_classes_index eq_refl eq_refl)
    as (flag & Hflag & Hany & _).
  destruct (mdr_probability_identify_mdr example_classes 2 0%nat "s1"
              [Some 1; Some 1; None] example_classes_well_shaped
              example_classes_index eq_refl eq_refl)
    as (flag' & Hflag' & _ & Hex).
  assert (E : flag = MdrFalse) by (vm_compute in Hflag; congruence).
  assert (E' : flag' = MdrTrue) by (vm_compute in Hflag'; congruence).
  subst flag flag'.
  split; [exact Hflag|]. split.
  - destruct (Hany b64) as (out & r & Hout & Hr & H0).
    exists out, r. split; [exact Hout|]. split; [exact Hr|]. apply H0. reflexivity.
  - split; [exact Hflag'|].
    destruct Hex as (out & r & Hout & Hr & H1 & _).
    exists out, r. split; [exact Hout|]. split; [exact Hr|]. apply H1. reflexivity.
Defined.

End ProbabilityFacts.

(** ** Prevalence estimates *)

Lemma ratio_range (a b : Q) :
  (0 <= a)%Q -> (0 <= b)%Q -> (0 < a + b)%Q -> (0 <= a / (a + b) <= 1)%Q.
Proof.
  intros Ha Hb Hab. split.
  - apply Qle_shift_div_l; [exact Hab|]. rewrite Qmult_0_l. exact Ha.
  - apply Qle_shift_div_r; [exact Hab|]. rewrite Qmult_1_l. lra.
Qed.

Module PrevalenceTableFacts.
Import Classification.
Import PrevalenceTableSpec.

Lemma posterior_point_range (positives total : Z) (prior_a prior_b : Q) :
  0 < total -> 0 <= positives <= total ->
  (0 < prior_a)%Q -> (0 < prior_b)%Q ->
  let pa := (prior_a + inject_Z positives)%Q in
  let pb := (prior_b + inject_Z (total - positives))%Q in
  (0 < pa)%Q /\ (0 < pb)%Q /\
  (0 <= pa / (pa + pb) <= 1)%Q /\
  ((1 < pa)%Q -> (1 < pb)%Q -> (0 <= (pa - 1) / (pa + pb - 2) <= 1)%Q).
Proof.
  intros Ht Hp Ha Hb pa pb.
  assert (H1 : (0 <= inject_Z positives)%Q)
    by (change 0%Q with (inject_Z 0); rewrite <- Zle_Qle; lia).
  assert (H2 : (0 <= inject_Z (total - positives))%Q)
    by (change 0%Q with (inject_Z 0); rewrite <- Zle_Qle; lia).
  assert (Hpa : (0 < pa)%Q) by (unfold pa; lra).
  assert (Hpb : (0 < pb)%Q) by (unfold pb; lra).
  split; [exact Hpa|]. split; [exact Hpb|]. split.
  - apply ratio_range; lra.
  - intros Ga Gb.
    assert (E : (pa + pb - 2 == (pa - 1) + (pb - 1))%Q) by ring.
    rewrite E. apply ratio_range; lra.
Qed.

(** For a valid sample ([total > 0], [0 <= positives <= total], positive
    prior parameters) the posterior mean and mode returned by
    [bayesian_prevalence] lie in [0, 1]; the mode is the mean itself when
    one of the posterior parameters is at most 1, as with the Jeffreys
    prior when no isolate, or every isolate, is positive; and a sample
    with [total <= 0] gets four times [nan]. *)
Theorem bayesian_prevalence_point_estimates (beta_ppf : Q -> Q -> Q -> Q)
    (positives total : Z) (prior_a prior_b credible : Q) :
  0 < total -> 0 <= positives <= total ->
  (0 < prior_a)%Q -> (0 < prior_b)%Q ->
  (exists m mo,
     Posterior_Mean
       (bayesian_prevalence beta_ppf positives total prior_a prior_b credible)
     = Some m /\
     Posterior_Mode
       (bayesian_prevalence beta_ppf positives total prior_a prior_b credible)
     = Some mo /\
     (0 <= m <= 1)%Q /\ (0 <= mo <= 1)%Q /\
     ((prior_a + inject_Z positives <= 1)%Q \/
      (prior_b + inject_Z (total - positives) <= 1)%Q -> mo = m)) /\
  (positives = 0 \/ positives = total ->
   Posterior_Mode
     (bayesian_prevalence beta_ppf positives total default_prior_a
                          default_prior_b credible)
   = Posterior_Mean
       (bayesian_prevalence beta_ppf positives total default_prior_a
                            default_prior_b credible)) /\
  (forall total', total' <= 0 ->
     bayesian_prevalence beta_ppf positives total' prior_a prior_b credible
     = no_estimate).
Proof.
  intros Ht Hp Ha Hb.
  destruct (posterior_point_range positives total prior_a prior_b Ht Hp Ha Hb)
    as (Hpa & Hpb & Hmean & Hmode).
  split; [|split].
  - unfold bayesian_prevalence, bayesian_prevalence_with, exact.
    destruct (Z.leb_spec total 0) as [Hle|_]; [lia|].
    cbn [Posterior_Mean Posterior_Mode].
    set (pa := (prior_a + inject_Z positives)%Q) in *.
    set (pb := (prior_b + inject_Z (total - positives))%Q) in *.
    eexists. eexists. split; [reflexivity|]. split; [reflexivity|].
    split.
    { split; [apply py_round_nonneg|apply py_round_le_1]; apply Hmean. }
    destruct (Qltb 1 pa) eqn:Ea; destruct (Qltb 1 pb) eqn:Eb; cbn [andb].
    + apply Qltb_lt in Ea. apply Qltb_lt in Eb. split.
      * split; [apply py_round_nonneg|apply py_round_le_1]; apply Hmode; assumption.
      * intros [H|H]; lra.
    + split; [|reflexivity].
      split; [apply py_round_nonneg|apply py_round_le_1]; apply Hmean.
    + split; [|reflexivity].
      split; [apply py_round_nonneg|apply py_round_le_1]; apply Hmean.
    + split; [|reflexivity].
      split; [apply py_round_nonneg|apply py_round_le_1]; apply Hmean.
  - intros Hb0. unfold bayesian_prevalence, bayesian_prevalence_with, exact.
    destruct (Z.leb_spec total 0) as [Hle|_]; [lia|].
    cbn [Posterior_Mean Posterior_Mode]. unfold default_prior_a, default_prior_b.
    destruct Hb0 as [-> | ->].
    + assert (E : Qltb 1 ((1 # 2) + inject_Z 0) = false) by reflexivity.
      rewrite E. reflexivity.
    + assert (E : Qltb 1 ((1 # 2) + inject_Z (total - total)) = false)
        by (rewrite Z.sub_diag; reflexivity).
      rewrite E, andb_false_r. reflexivity.
  - intros total' Hle. unfold bayesian_prevalence, bayesian_prevalence_with, exact.
    destruct (Z.leb_spec total' 0) as [_|H]; [reflexivity|lia].
Qed.

Lemma bayesian_prevalence_point_estimates_witness :
  (exists m mo,
     Posterior_Mean
       (bayesian_prevalence (fun q _ _ => q) 0 50 (1 # 2) (1 # 2) (95 # 100))
     = Some m /\
     Posterior_Mode
       (bayesian_prevalence (fun q _ _ => q) 0 50 (1 # 2) (1 # 2) (95 # 100))
     = Some mo /\
     (0 <= m <= 1)%Q /\ (0 <= mo <= 1)%Q /\
     (((1 # 2) + inject_Z 0 <= 1)%Q \/
      ((1 # 2) + inject_Z (50 - 0) <= 1)%Q -> mo = m)) /\
  (0 = 0 \/ 0 = 50 ->
   Posterior_Mode
     (bayesian_prevalence (fun q _ _ => q) 0 50 default_prior_a
                          default_prior_b (95 # 100))
   = Posterior_Mean
       (bayesian_prevalence (fun q _ _ => q) 0 50 default_prior_a
                            default_prior_b (95 # 100))) /\
  (forall total', total' <= 0 ->
     bayesian_prevalence (fun q _ _ => q) 0 total' (1 # 2) (1 # 2) (95 # 100)
     = no_estimate).
Proof.
  apply (bayesian_prevalence_point_estimates (fun q _ _ => q) 0 50
           (1 # 2) (1 # 2) (95 # 100)).
  - lia.
  - lia.
  - reflexivity.
  - reflexivity.
Defined.

Section Table.
Variable beta_ppf : Q -> Q -> Q -> Q.

Lemma column_of_cells (class_df : DataFrame) j col :
  List.NoDup (columns class_df) -> columns class_df !! j = Some col ->
  column_of class_df col = column_cells class_df j.
Proof.
  intros Hnd Hj. unfold column_of, column_cells. apply map_ext. intros row.
  unfold row_get. rewrite (col_pos_lookup col (columns class_df) j Hnd Hj).
  reflexivity.
Qed.

Lemma observed_missing_length (cs : list cell) :
  countb notna cs + countb isna cs = Z.of_nat (length cs).
Proof.
  unfold countb. induction cs as [|[z|] cs IH]; cbn [List.filter notna isna negb];
    cbn [length]; lia.
Qed.

Lemma positives_le_observed (cs : list cell) :
  countb (fun c => cell_eqb c 1) cs <= countb notna cs.
Proof.
  unfold countb. induction cs as [|[z|] cs IH];
    cbn [List.filter notna isna negb cell_eqb]; [lia| |exact IH].
  destruct (z =? 1); cbn [length]; lia.
Qed.

(** [prevalence_table] gives every column of a well-shaped class matrix,
    in the order of the columns, one row: the number of isolates called
    resistant, the number with a call, the number of isolates and the
    number without a call, with
    [0 <= Positive <= Total_Observed <= Total_All] and
    [Missing = Total_All - Total_Observed]; its estimates are those of
    [bayesian_prevalence] under the Jeffreys prior for Positive out of
    Total_Observed, so a column without any call gets four times [nan],
    and any other column a posterior mean within [0, 1]. *)
Theorem prevalence_table_rows (class_df : DataFrame) (credible : Q)
    (j : nat) (col : string) :
  well_shaped class_df ->
  columns class_df !! j = Some col ->
  exists r,
    prevalence_table beta_ppf class_df credible !! j = Some r /\
    Class r = col /\
    Positive r = countb (fun c => cell_eqb c 1) (column_cells class_df j) /\
    Total_Observed r = countb notna (column_cells class_df j) /\
    Missing r = countb isna (column_cells class_df j) /\
    Total_All r = Z.of_nat (length (data class_df)) /\
    0 <= Positive r <= Total_Observed r /\
    Total_Observed r <= Total_All r /\
    Missing r = Total_All r - Total_Observed r /\
    bp r = bayesian_prevalence beta_ppf (Positive r) (Total_Observed r)
                               (1 # 2) (1 # 2) credible /\
    (Total_Observed r = 0 -> bp r = no_estimate) /\
    (0 < Total_Observed r ->
     exists m, Posterior_Mean (bp r) = Some m /\ (0 <= m <= 1)%Q).
Proof.
  intros Hws Hj. destruct Hws as (Hnd & _ & _).
  apply NoDup_ListNoDup in Hnd.
  unfold prevalence_table. rewrite lookup_map, Hj. eexists.
  split; [reflexivity|].
  cbn [Class Positive Total_Observed Total_All Missing bp].
  rewrite (column_of_cells class_df j col Hnd Hj).
  set (cs := column_cells class_df j).
  assert (Hlen : length cs = length (data class_df))
    by (unfold cs, column_cells; apply length_map).
  pose proof (observed_missing_length cs) as Hom.
  pose proof (positives_le_observed cs) as Hpo.
  pose proof (countb_nonneg (fun c => cell_eqb c 1) cs) as Hp0.
  pose proof (countb_nonneg (@isna Z) cs) as Hm0.
  rewrite Hlen in Hom.
  split; [reflexivity|]. split; [reflexivity|]. split; [reflexivity|].
  split; [lia|]. split; [reflexivity|]. split; [lia|]. split; [lia|].
  split; [reflexivity|]. split; [reflexivity|]. split.
  - intros H0. unfold bayesian_prevalence, bayesian_prevalence_with, exact. rewrite H0. reflexivity.
  - intros Hpos. unfold bayesian_prevalence, bayesian_prevalence_with, exact.
    destruct (Z.leb_spec (countb notna cs) 0) as [Hle|_]; [lia|].
    cbn [Posterior_Mean]. eexists. split; [reflexivity|].
    destruct (posterior_point_range (countb (fun c => cell_eqb c 1) cs)
                (countb notna cs) default_prior_a default_prior_b)
      as (_ & _ & Hmean & _); [lia|lia|reflexivity|reflexivity|].
    split; [apply py_round_nonneg|apply py_round_le_1]; apply Hmean.
Qed.

End Table.

Lemma prevalence_table_rows_witness :
  exists r,
    prevalence_table (fun q _ _ => q) MdrFlagSpec.example_classes (95 # 100)
      !! 1%nat = Some r /\
    Class r = "Tet" /\
    Positive r
    = countb (fun c => cell_eqb c 1) (column_cells MdrFlagSpec.example_classes 1) /\
    Total_Observed r = countb notna (column_cells MdrFlagSpec.example_classes 1) /\
    Missing r = countb isna (column_cells MdrFlagSpec.example_classes 1) /\
    Total_All r = Z.of_nat (length (data MdrFlagSpec.example_classes)) /\
    0 <= Positive r <= Total_Observed r /\
    Total_Observed r <= Total_All r /\
    Missing r = Total_All r - Total_Observed r /\
    bp r = bayesian_prevalence (fun q _ _ => q) (Positive r) (Total_Observed r)
                               (1 # 2) (1 # 2) (95 # 100) /\
    (Total_Observed r = 0 -> bp r = no_estimate) /\
    (0 < Total_Observed r ->
     exists m, Posterior_Mean (bp r) = Some m /\ (0 <= m <= 1)%Q).
Proof.
  apply (prevalence_table_rows (fun q _ _ => q) MdrFlagSpec.example_classes
           (95 # 100) 1%nat "Tet").
  - split; [|split].
    + apply NoDup_ListNoDup. cbn. repeat constructor; simpl; intuition discriminate.
    + reflexivity.
    + cbn. repeat constructor.
  - reflexivity.
Defined.

End PrevalenceTableFacts.

Module TestingFacts.
Import Classification DecisionV3 PosteriorFacts ConvolutionFacts ProbabilityFacts.
Import PosteriorSpec ConvolutionSpec ProbabilitySpec.

(** *** Testing one missing class *)

(** The enumeration with the first class split off. *)
Lemma enumeration_sum_head p probs known threshold :
  (enumeration_sum (p :: probs) known threshold
   == (1 - p) * enumeration_sum probs known threshold
      + p * enumeration_sum probs (known + 1) threshold)%Q.
Proof.
  unfold enumeration_sum. cbn [length assignments].
  rewrite (Qsum_flat_map_pair
             (fun a => if known + resistant_count a >=? threshold
                       then assignment_weight (p :: probs) a else 0%Q)
             (cons false) (cons true)).
  rewrite Qsum_map_plus.
  rewrite <- !Qsum_map_scale.
  apply Qplus_comp; apply Qsum_map_ext; intros a _;
    rewrite resistant_count_cons; cbn [assignment_weight].
  - replace (known + (0 + resistant_count a)) with (known + resistant_count a)
      by lia.
    destruct (known + resistant_count a >=? threshold); ring.
  - replace (known + (1 + resistant_count a))
      with (known + 1 + resistant_count a) by lia.
    destruct (known + 1 + resistant_count a >=? threshold); ring.
Qed.

(** The same for a class anywhere among the missing ones. *)
Lemma enumeration_sum_insert p ps2 threshold : forall ps1 known,
  (enumeration_sum (ps1 ++ p :: ps2) known threshold
   == (1 - p) * enumeration_sum (ps1 ++ ps2) known threshold
      + p * enumeration_sum (ps1 ++ ps2) (known + 1) threshold)%Q.
Proof.
  induction ps1 as [|q ps1 IH]; intros known.
  - apply enumeration_sum_head.
  - cbn [app]. rewrite (enumeration_sum_head q (ps1 ++ p :: ps2)).
    rewrite (IH known), (IH (known + 1)).
    rewrite (enumeration_sum_head q (ps1 ++ ps2) known).
    rewrite (enumeration_sum_head q (ps1 ++ ps2) (known + 1)).
    ring.
Qed.

Lemma series_set_other (s : Series) c v :
  ~ In c (map fst s) -> series_set s c v = s.
Proof.
  induction s as [|[k x] s IH]; intros Hn; [reflexivity|].
  cbn [series_set map]. destruct (String.eqb_spec k c) as [->|Hne].
  - exfalso. apply Hn. left. reflexivity.
  - f_equal. apply IH. intros H. apply Hn. right. exact H.
Qed.

Lemma series_set_labels (s : Series) c v :
  map fst (series_set s c v) = map fst s.
Proof.
  induction s as [|[k x] s IH]; [reflexivity|].
  cbn [series_set map]. destruct (String.eqb k c); cbn [fst]; f_equal; exact IH.
Qed.

Lemma series_set_split (s1 s2 : Series) c x v :
  ~ In c (map fst s1) -> ~ In c (map fst s2) ->
  series_set (s1 ++ (c, x) :: s2) c v = s1 ++ (c, Some v) :: s2.
Proof.
  intros H1 H2. unfold series_set. rewrite map_app. cbn [map].
  rewrite String.eqb_refl.
  fold (series_set s1 c v). fold (series_set s2 c v).
  rewrite !series_set_other by assumption. reflexivity.
Qed.

(** The counts of a series with distinct labels, read off the series. *)
Lemma known_resistant_unique (s : Series) :
  List.NoDup (map fst s) ->
  known_resistant s = countb (fun kv : string * cell => cell_eqb (snd kv) 1) s.
Proof. intros H. unfold known_resistant. rewrite to_dict_unique by exact H. reflexivity. Qed.

Lemma missing_classes_unique (s : Series) :
  List.NoDup (map fst s) ->
  missing_classes s
  = map fst (List.filter (fun kv : string * cell => isna (snd kv)) s).
Proof. intros H. unfold missing_classes. rewrite to_dict_unique by exact H. reflexivity. Qed.

Lemma NoDup_split_middle (s1 s2 : Series) c x :
  List.NoDup (map fst (s1 ++ (c, x) :: s2)) ->
  ~ In c (map fst s1) /\ ~ In c (map fst s2).
Proof.
  rewrite map_app. cbn [map fst]. intros H.
  apply NoDup_remove_2 in H. split; intros Hin; apply H; apply in_or_app; auto.
Qed.

(** What a test of the missing class [c] changes in a series. *)
Lemma tested_series (s1 s2 : Series) c v :
  List.NoDup (map fst (s1 ++ (c, None) :: s2)) ->
  let s := s1 ++ (c, None) :: s2 in
  let m1 := map fst (List.filter (fun kv : string * cell => isna (snd kv)) s1) in
  let m2 := map fst (List.filter (fun kv : string * cell => isna (snd kv)) s2) in
  missing_classes s = m1 ++ c :: m2 /\
  missing_classes (series_set s c v) = m1 ++ m2 /\
  known_resistant (series_set s c v)
  = known_resistant s + (if v =? 1 then 1 else 0).
Proof.
  intros Hnd s m1 m2.
  destruct (NoDup_split_middle _ _ _ _ Hnd) as [H1 H2].
  assert (Hset : series_set s c v = s1 ++ (c, Some v) :: s2)
    by (apply series_set_split; assumption).
  assert (Hnd' : List.NoDup (map fst (series_set s c v)))
    by (rewrite series_set_labels; exact Hnd).
  rewrite (missing_classes_unique s Hnd).
  rewrite (missing_classes_unique _ Hnd'), (known_resistant_unique _ Hnd').
  rewrite (known_resistant_unique s Hnd). rewrite Hset. unfold s.
  rewrite !List.filter_app, !countb_app. cbn [List.filter snd isna].
  rewrite !map_app. cbn [map fst].
  rewrite !countb_cons. cbn [snd cell_eqb].
  split; [reflexivity|]. split; [reflexivity|].
  destruct (v =? 1); lia.
Qed.

(** The posterior of a row, split on the outcome of testing a class the
    row lacks. *)
Lemma posterior_split (row : Series) (threshold : Z)
    (missing_prior : option (gmap string Q)) (c : string) :
  List.NoDup (map fst row) ->
  In (c, None) row ->
  (forall k, In k (missing_classes row) ->
             (0 <= prior_of missing_prior k <= 1)%Q) ->
  (_posterior_mdr_prob row threshold missing_prior
   == prior_of missing_prior c
      * _posterior_mdr_prob (series_set row c 1) threshold missing_prior
      + (1 - prior_of missing_prior c)
        * _posterior_mdr_prob (series_set row c 0) threshold missing_prior)%Q.
Proof.
  intros Hnd Hin Hp.
  apply in_split in Hin as (s1 & s2 & ->).
  destruct (tested_series s1 s2 c 1 Hnd) as (Hm & Hm1 & Hk1).
  destruct (tested_series s1 s2 c 0 Hnd) as (_ & Hm0 & Hk0).
  change (1 =? 1) with true in Hk1. change (0 =? 1) with false in Hk0.
  cbv zeta iota in Hm, Hm1, Hk1, Hm0, Hk0.
  set (s := s1 ++ (c, None) :: s2) in *.
  set (m1 := map fst (List.filter (fun kv : string * cell => isna (snd kv)) s1)) in *.
  set (m2 := map fst (List.filter (fun kv : string * cell => isna (snd kv)) s2)) in *.
  assert (Hp' : forall k, In k (m1 ++ m2) ->
                          (0 <= prior_of missing_prior k <= 1)%Q).
  { intros k Hk. apply Hp. rewrite Hm. apply in_app_or in Hk.
    apply in_or_app. destruct Hk; [left|right; right]; assumption. }
  rewrite (posterior_is_enumeration s threshold missing_prior Hp).
  rewrite (posterior_is_enumeration (series_set s c 1) threshold missing_prior)
    by (rewrite Hm1; exact Hp').
  rewrite (posterior_is_enumeration (series_set s c 0) threshold missing_prior)
    by (rewrite Hm0; exact Hp').
  rewrite Hm, Hm1, Hm0, Hk1, Hk0, Z.add_0_r.
  rewrite !map_app. cbn [map]. rewrite enumeration_sum_insert. ring.
Qed.

(** Testing a missing class: the posterior MDR probability of a row is
    the prior-weighted mean of its posteriors after the class is found
    resistant and after it is found susceptible. *)
Theorem posterior_total_probability (row : Series) (threshold : Z)
    (missing_prior : option (gmap string Q)) (c : string) :
  List.NoDup (map fst row) ->
  In (c, None) row ->
  (forall k, In k (missing_classes row) ->
             (0 <= prior_of missing_prior k <= 1)%Q) ->
  (_posterior_mdr_prob row threshold missing_prior
   == prior_of missing_prior c
      * _posterior_mdr_prob (series_set row c 1) threshold missing_prior
      + (1 - prior_of missing_prior c)
        * _posterior_mdr_prob (series_set row c 0) threshold missing_prior)%Q.
Proof. apply posterior_split. Qed.

Lemma posterior_total_probability_witness :
  (_posterior_mdr_prob example_series 2 example_prior
   == prior_of example_prior "c"
      * _posterior_mdr_prob (series_set example_series "c" 1) 2 example_prior
      + (1 - prior_of example_prior "c")
        * _posterior_mdr_prob (series_set example_series "c" 0) 2 example_prior)%Q.
Proof.
  apply (posterior_total_probability example_series 2 example_prior "c").
  - cbn. repeat constructor; simpl; intuition discriminate.
  - cbn. right. right. left. reflexivity.
  - intros k Hk. vm_compute in Hk.
    destruct Hk as [<-|[<-|[]]]; vm_compute; split; discriminate.
Defined.

(** [_posterior_mdr_prob] always answers within [0, 1], whatever the
    priors are; with priors that are probabilities it does not grow with
    the threshold, it is 1 for every threshold that the known-resistant
    count meets, and 0 for every threshold above the number of classes of
    the row. *)
Theorem posterior_mdr_prob_range (row : Series) (threshold : Z)
    (missing_prior : option (gmap string Q)) :
  (forall k, In k (missing_classes row) ->
             (0 <= prior_of missing_prior k <= 1)%Q) ->
  (forall t mp, (0 <= _posterior_mdr_prob row t mp <= 1)%Q) /\
  (forall threshold', threshold <= threshold' ->
     (_posterior_mdr_prob row threshold' missing_prior
      <= _posterior_mdr_prob row threshold missing_prior)%Q) /\
  (threshold <= 0 -> _posterior_mdr_prob row threshold missing_prior = 1%Q) /\
  (Z.of_nat (length (to_dict row)) < threshold ->
   _posterior_mdr_prob row threshold missing_prior = 0%Q).
Proof.
  intros Hp. split; [|split; [|split]].
  - intros t mp. rewrite posterior_unfold.
    destruct (known_resistant row >=? t); [split; discriminate|].
    destruct (known_resistant row + Z.of_nat (length (missing_classes row)) <? t);
      [split; discriminate|].
    split.
    + apply Q.min_glb; [apply Q.le_max_r|discriminate].
    + apply Q.le_min_r.
  - intros t' Ht.
    rewrite (posterior_is_enumeration row t' missing_prior Hp).
    rewrite (posterior_is_enumeration row threshold missing_prior Hp).
    apply enumeration_sum_antitone; [|exact Ht].
    intros p H. apply in_map_iff in H as (k & <- & Hk). apply Hp. exact Hk.
  - intros Ht. rewrite posterior_unfold.
    pose proof (countb_nonneg (fun kv : string * cell => cell_eqb (snd kv) 1)
                              (to_dict row)) as H0.
    fold (known_resistant row) in H0.
    destruct (Z.geb_spec (known_resistant row) threshold); [reflexivity|lia].
  - intros Ht. rewrite posterior_unfold.
    assert (Hsum : known_resistant row + Z.of_nat (length (missing_classes row))
                   <= Z.of_nat (length (to_dict row))).
    { unfold known_resistant, missing_classes. rewrite length_map.
      change (Z.of_nat (length (List.filter (fun kv : string * cell => isna (snd kv))
                                            (to_dict row))))
        with (countb (fun kv : string * cell => isna (snd kv)) (to_dict row)).
      rewrite countb_disjoint_sum; [apply countb_le_length|].
      intros [k [z|]] _ H; [reflexivity|discriminate]. }
    destruct (Z.geb_spec (known_resistant row) threshold); [lia|].
    destruct (Z.ltb_spec (known_resistant row
                          + Z.of_nat (length (missing_classes row))) threshold);
      [reflexivity|lia].
Qed.

Lemma posterior_mdr_prob_range_witness :
  (forall t mp, (0 <= _posterior_mdr_prob example_series t mp <= 1)%Q) /\
  (forall threshold', 2 <= threshold' ->
     (_posterior_mdr_prob example_series threshold' example_prior
      <= _posterior_mdr_prob example_series 2 example_prior)%Q) /\
  (2 <= 0 -> _posterior_mdr_prob example_series 2 example_prior = 1%Q) /\
  (Z.of_nat (length (to_dict example_series)) < 2 ->
   _posterior_mdr_prob example_series 2 example_prior = 0%Q).
Proof.
  apply (posterior_mdr_prob_range example_series 2 example_prior).
  intros k Hk. vm_compute in Hk.
  destruct Hk as [<-|[<-|[]]]; vm_compute; split; discriminate.
Defined.

End TestingFacts.

(** ** The next best test *)

Lemma sum_binary (obs : list Z) :
  (forall z, In z obs -> z = 0 \/ z = 1) ->
  0 <= fold_right Z.add 0 obs <= Z.of_nat (length obs).
Proof.
  induction obs as [|z obs IH]; intros H; [simpl; lia|].
  cbn [fold_right length].
  assert (Hz : z = 0 \/ z = 1) by (apply H; left; reflexivity).
  assert (IH' : 0 <= fold_right Z.add 0 obs <= Z.of_nat (length obs))
    by (apply IH; intros z' Hz'; apply H; right; exact Hz').
  lia.
Qed.

Lemma filter_map_length {A B} (f : A -> B) (p : B -> bool) l :
  length (List.filter (fun x => p (f x)) l) = length (List.filter p (map f l)).
Proof.
  induction l as [|x l IH]; [reflexivity|]. cbn [List.filter map].
  destruct (p (f x)); cbn [length]; rewrite IH; reflexivity.
Qed.

Module EvpiFacts.
Import Classification DecisionV3 PosteriorFacts ConvolutionFacts RulesFacts.
Import PosteriorSpec ConvolutionSpec RulesSpec PrevalenceTableSpec EvpiSpec.
Import PrevalenceTableFacts TestingFacts.

(** *** The two dictionaries *)

Lemma col_mean_range (cs : list cell) m :
  (forall c, In c cs -> binary c) -> col_mean cs = Some m -> (0 <= m <= 1)%Q.
Proof.
  intros Hb. unfold col_mean.
  assert (Hobs : forall z, In z (omap id cs) -> z = 0 \/ z = 1).
  { intros z Hz. apply list_elem_of_In in Hz. apply list_elem_of_omap in Hz.
    destruct Hz as (c & Hc & Hid). cbn in Hid. subst c.
    apply list_elem_of_In in Hc. destruct (Hb _ Hc) as [H|[H|H]];
      [discriminate|left|right]; congruence. }
  pose proof (sum_binary (omap id cs) Hobs) as Hs. revert Hs.
  destruct (omap id cs) as [|z obs']; intros Hs; [discriminate|]. intros [= <-].
  cbn [fold_right] in Hs |- *.
  assert (Hn : (0 < inject_Z (Z.of_nat (length (z :: obs'))))%Q).
  { change 0%Q with (inject_Z 0). rewrite <- Zlt_Qlt. simpl length. lia. }
  split.
  - apply Qle_shift_div_l; [exact Hn|]. rewrite Qmult_0_l.
    change 0%Q with (inject_Z 0). rewrite <- Zle_Qle. lia.
  - apply Qle_shift_div_r; [exact Hn|]. rewrite Qmult_1_l.
    rewrite <- Zle_Qle. simpl length in *. lia.
Qed.

Lemma column_cells_binary (df : DataFrame) j c :
  binary_frame df -> In c (column_cells df j) -> binary c.
Proof.
  intros Hb Hc. unfold column_cells in Hc. apply in_map_iff in Hc as (row & <- & Hrow).
  destruct (nth_in_or_default j row None) as [Hin | Hdef]; [|rewrite Hdef].
  - eapply Hb; eassumption.
  - left. reflexivity.
Qed.

Lemma fold_insert_values {K} (P : Q -> Prop) (f : K -> Q)
    (l : list (string * K)) : forall (d : gmap string Q),
  (forall c x, d !! c = Some x -> P x) ->
  (forall k, In k (map snd l) -> P (f k)) ->
  forall c x,
    fold_left (fun d '(c, j) => <[c := f j]> d) l d !! c = Some x -> P x.
Proof.
  induction l as [|[c0 k0] l IH]; intros d Hd Hf c x; [apply Hd|].
  cbn [fold_left]. apply IH.
  - intros c' x' H. apply lookup_insert_Some in H as [[_ <-]|[_ H]].
    + apply Hf. left. reflexivity.
    + eapply Hd. exact H.
  - intros k Hk. apply Hf. right. exact Hk.
Qed.

Lemma prevalence_dict_range (df : DataFrame) c x :
  binary_frame df -> prevalence_dict df !! c = Some x -> (0 <= x <= 1)%Q.
Proof.
  intros Hb. unfold prevalence_dict.
  apply (fold_insert_values (fun x => (0 <= x <= 1)%Q)
           (fun j => default (1 # 2)%Q (col_mean (column_cells df j)))).
  - intros c' x' H. rewrite lookup_empty in H. discriminate.
  - intros j _. destruct (col_mean (column_cells df j)) as [m|] eqn:Em; cbn.
    + eapply col_mean_range; [|exact Em]. intros c' Hc'.
      eapply column_cells_binary; eassumption.
    + split; discriminate.
Qed.

Lemma prior_of_prevalence (df : DataFrame) c :
  binary_frame df ->
  (0 <= prior_of (Some (prevalence_dict df)) c <= 1)%Q.
Proof.
  intros Hb. unfold prior_of.
  change (default ∅ (Some (prevalence_dict df))) with (prevalence_dict df).
  destruct (prevalence_dict df !! c) as [x|] eqn:E.
  - exact (prevalence_dict_range df c x Hb E).
  - split; discriminate.
Qed.

(** The first loop of [costs]: every entry is 1. *)
Lemma unit_costs_floor (l : list string) : forall (d : gmap string Q),
  (forall c x, d !! c = Some x -> (cost_floor <= x)%Q) ->
  forall c x,
    fold_left (fun d c => <[c := 1%Q]> d) l d !! c = Some x ->
    (cost_floor <= x)%Q.
Proof.
  induction l as [|c0 l IH]; intros d Hd c x; [apply Hd|].
  cbn [fold_left]. apply IH. intros c' x' H.
  apply lookup_insert_Some in H as [[_ <-]|[_ H]]; [discriminate|].
  eapply Hd. exact H.
Qed.

(** The second loop: an entry is replaced by a value that is at least the
    floor. *)
Lemma updated_costs_floor (l : list (string * option Q)) :
  forall (d : gmap string Q),
  (forall c x, d !! c = Some x -> (cost_floor <= x)%Q) ->
  forall c x,
    fold_left
      (fun d '(k, v) =>
         match d !! k, v with
         | Some _, Some x => <[k := Qmax x (1 # 1000000000)]> d
         | _, _ => d
         end) l d !! c = Some x ->
    (cost_floor <= x)%Q.
Proof.
  induction l as [|[k v] l IH]; intros d Hd c x; [apply Hd|].
  cbn [fold_left]. apply IH. intros c' x' H.
  destruct (d !! k) as [y|] eqn:Ek; [|eapply Hd; exact H].
  destruct v as [v|]; [|eapply Hd; exact H].
  apply lookup_insert_Some in H as [[_ <-]|[_ H]].
  - apply Q.le_max_r.
  - eapply Hd. exact H.
Qed.

Lemma cost_dict_floor cols test_costs c x :
  cost_dict cols test_costs !! c = Some x -> (cost_floor <= x)%Q.
Proof.
  unfold cost_dict. apply updated_costs_floor.
  apply unit_costs_floor. intros c' x' H. rewrite lookup_empty in H.
  discriminate.
Qed.

Lemma test_cost_floor cols test_costs c :
  (cost_floor <= default 1%Q (cost_dict cols test_costs !! c))%Q.
Proof.
  destruct (cost_dict cols test_costs !! c) as [x|] eqn:E; cbn.
  - eapply cost_dict_floor. exact E.
  - discriminate.
Qed.

(** *** The rows before sorting *)

Lemma insert_evpi_perm x l : Permutation (insert_evpi x l) (x :: l).
Proof.
  induction l as [|y l IH]; [reflexivity|]. cbn [insert_evpi].
  destruct (evpi_before x y); [reflexivity|].
  rewrite IH. apply perm_swap.
Qed.

Lemma sort_evpi_perm l : Permutation (sort_evpi l) l.
Proof.
  unfold sort_evpi.
  assert (G : forall l acc,
            Permutation (fold_left (fun acc x => insert_evpi x acc) l acc)
                        (acc ++ l)).
  { clear. induction l as [|x l IH]; intros acc.
    - rewrite app_nil_r. reflexivity.
    - cbn [fold_left]. rewrite IH. rewrite insert_evpi_perm.
      cbn [app]. apply Permutation_middle. }
  rewrite (G l []). reflexivity.
Qed.

Lemma evpi_rows_of_map class_df mdr_threshold test_costs fn_cost fp_cost idx row :
  evpi_rows_of (columns class_df) (prevalence_dict class_df)
               (cost_dict (columns class_df) test_costs) mdr_threshold
               fn_cost fp_cost idx row
  = map (evpi_row_for class_df mdr_threshold test_costs fn_cost fp_cost idx row)
        (missing_of (columns class_df) row).
Proof.
  unfold evpi_rows_of, missing_of.
  destruct (List.filter (fun c => isna (row_get (columns class_df) row c))
                        (columns class_df)); reflexivity.
Qed.

Lemma unsorted_rows_empty class_df mdr_threshold test_costs fn_cost fp_cost :
  index class_df = [] \/ columns class_df = [] ->
  unsorted_rows class_df mdr_threshold test_costs fn_cost fp_cost = [].
Proof.
  unfold unsorted_rows. intros [H|H]; rewrite H; [reflexivity|].
  induction (combine (index class_df) (data class_df)) as [|ir l IH];
    [reflexivity|]. cbn [flat_map]. rewrite IH. reflexivity.
Qed.

(** The returned rows are the rows of all isolates, reordered. *)
Lemma next_best_test_evpi_perm class_df mdr_threshold test_costs fn_cost fp_cost :
  Permutation
    (next_best_test_evpi class_df mdr_threshold test_costs fn_cost fp_cost)
    (unsorted_rows class_df mdr_threshold test_costs fn_cost fp_cost).
Proof.
  unfold next_best_test_evpi.
  destruct (bool_decide (index class_df = []) || bool_decide (columns class_df = []))
    eqn:E.
  - rewrite unsorted_rows_empty; [reflexivity|].
    apply orb_true_iff in E as [E|E]; apply bool_decide_eq_true in E; auto.
  - rewrite sort_evpi_perm. unfold unsorted_rows.
    assert (G : forall l,
              flat_map (fun '(idx, row) =>
                          evpi_rows_of (columns class_df) (prevalence_dict class_df)
                            (cost_dict (columns class_df) test_costs)
                            mdr_threshold fn_cost fp_cost idx row) l
              = flat_map (fun ir : string * list cell =>
                            map (evpi_row_for class_df mdr_threshold test_costs
                                   fn_cost fp_cost (fst ir) (snd ir))
                                (missing_of (columns class_df) (snd ir))) l).
    { induction l as [|[idx row] l IH]; [reflexivity|]. cbn [flat_map fst snd].
      rewrite IH, evpi_rows_of_map. reflexivity. }
    rewrite G. reflexivity.
Qed.

Lemma missing_of_In cols (row : list cell) c :
  In c (missing_of cols row) <-> In c cols /\ row_get cols row c = None.
Proof.
  unfold missing_of. rewrite filter_In. split; intros [H1 H2]; split; auto.
  - destruct (row_get cols row c); [discriminate|reflexivity].
  - rewrite H2. reflexivity.
Qed.

Lemma missing_of_length cols (row : list cell) :
  List.NoDup cols -> length cols = length row ->
  Z.of_nat (length (missing_of cols row)) = n_missing row.
Proof.
  intros Hnd Hlen. unfold missing_of, n_missing, countb.
  rewrite (filter_map_length (row_get cols row) isna cols).
  rewrite (row_get_all cols row Hnd Hlen). reflexivity.
Qed.

Lemma missing_in_series cols (row : list cell) c :
  length cols = length row -> In c cols -> row_get cols row c = None ->
  In (c, None) (series_of cols row).
Proof.
  intros Hlen Hc Hget. destruct (col_pos_In c cols Hc) as [j Hj].
  unfold row_get in Hget. rewrite Hj in Hget.
  pose proof (col_pos_Some _ _ _ Hj) as Hcj.
  assert (Hjr : (j < length row)%nat)
    by (rewrite <- Hlen; apply lookup_lt_is_Some; eauto).
  destruct (lookup_lt_is_Some_2 _ _ Hjr) as [x Hx].
  assert (x = None) by (rewrite <- Hget; symmetry; apply nth_lookup_Some; exact Hx).
  subst x. unfold series_of. apply list_elem_of_In.
  apply (list_elem_of_lookup_2 _ j). apply lookup_combine. split; assumption.
Qed.

(** *** The risk *)

(** The Bayes risk is concave in the probability. *)
Lemma bayes_risk_concave (fn_cost fp_cost l a b p : Q) :
  (0 <= l <= 1)%Q -> (p == l * a + (1 - l) * b)%Q ->
  (l * bayes_risk fn_cost fp_cost a + (1 - l) * bayes_risk fn_cost fp_cost b
   <= bayes_risk fn_cost fp_cost p)%Q.
Proof.
  intros Hl Hp. unfold bayes_risk.
  pose proof (Q.le_min_l (a * fn_cost) ((1 - a) * fp_cost)) as A1.
  pose proof (Q.le_min_r (a * fn_cost) ((1 - a) * fp_cost)) as A2.
  pose proof (Q.le_min_l (b * fn_cost) ((1 - b) * fp_cost)) as B1.
  pose proof (Q.le_min_r (b * fn_cost) ((1 - b) * fp_cost)) as B2.
  set (ga := Qmin (a * fn_cost) ((1 - a) * fp_cost)) in *.
  set (gb := Qmin (b * fn_cost) ((1 - b) * fp_cost)) in *.
  apply Q.min_glb; nra.
Qed.

Lemma posterior_mdr_prob_bounds (s : Series) t mp :
  (0 <= _posterior_mdr_prob s t mp)%Q /\ (_posterior_mdr_prob s t mp <= 1)%Q.
Proof.
  rewrite posterior_unfold.
  destruct (known_resistant s >=? t); [split; discriminate|].
  destruct (known_resistant s + Z.of_nat (length (missing_classes s)) <? t);
    [split; discriminate|].
  split.
  - apply Q.min_glb; [apply Q.le_max_r|discriminate].
  - apply Q.le_min_r.
Qed.

(** *** The returned rows *)

Lemma unsorted_rows_In class_df mdr_threshold test_costs fn_cost fp_cost r :
  In r (unsorted_rows class_df mdr_threshold test_costs fn_cost fp_cost) <->
  exists i idx row c,
    index class_df !! i = Some idx /\ data class_df !! i = Some row /\
    In c (columns class_df) /\ row_get (columns class_df) row c = None /\
    r = evpi_row_for class_df mdr_threshold test_costs fn_cost fp_cost idx row c.
Proof.
  unfold unsorted_rows. rewrite in_flat_map. split.
  - intros ([idx row] & Hir & Hr). cbn [fst snd] in Hr.
    apply in_map_iff in Hr as (c & <- & Hc). apply missing_of_In in Hc as [Hc Hg].
    apply list_elem_of_In in Hir. apply list_elem_of_lookup_1 in Hir as [i Hi].
    apply lookup_combine in Hi as [Hi1 Hi2].
    exists i, idx, row, c. auto.
  - intros (i & idx & row & c & Hi & Hr & Hc & Hg & ->).
    exists (idx, row). split.
    + apply list_elem_of_In. apply (list_elem_of_lookup_2 _ i).
      apply lookup_combine. split; assumption.
    + cbn [fst snd]. apply in_map. apply missing_of_In. split; assumption.
Qed.

(** Every row returned by [next_best_test_evpi] for a well-shaped matrix
    of calls 0, 1 and missing names an isolate and one of its missing
    classes; Current_pMDR is the posterior of the isolate under the
    per-class prevalences and lies in [0, 1], as Class_Prevalence does;
    Test_Cost is at least [1e-9]; the expected risk after the test never
    exceeds the current risk, so EVPI_RiskReduction is their difference
    and the clamp at 0 changes nothing; EVPI_per_Cost is that reduction
    over the cost; both are non-negative; and N_tested counts the calls
    present, fewer than the classes. *)
Theorem next_best_test_evpi_rows (class_df : DataFrame) (mdr_threshold : Z)
    (test_costs : list (string * option Q)) (fn_cost fp_cost : Q)
    (r : evpi_row) :
  well_shaped class_df -> binary_frame class_df ->
  In r (next_best_test_evpi class_df mdr_threshold test_costs fn_cost fp_cost) ->
  exists i row,
    index class_df !! i = Some (DecisionV3.Strain_ID r) /\
    data class_df !! i = Some row /\
    In (Candidate_Test_Class r) (columns class_df) /\
    row_get (columns class_df) row (Candidate_Test_Class r) = None /\
    Current_pMDR r
    = _posterior_mdr_prob (series_of (columns class_df) row) mdr_threshold
                          (Some (prevalence_dict class_df)) /\
    (0 <= Current_pMDR r <= 1)%Q /\
    (0 <= Class_Prevalence r <= 1)%Q /\
    (cost_floor <= Test_Cost r)%Q /\
    Current_BayesRisk r = bayes_risk fn_cost fp_cost (Current_pMDR r) /\
    (Expected_BayesRisk_AfterTest r <= Current_BayesRisk r)%Q /\
    (EVPI_RiskReduction r
     == Current_BayesRisk r - Expected_BayesRisk_AfterTest r)%Q /\
    (0 <= EVPI_RiskReduction r)%Q /\
    EVPI_per_Cost r = (EVPI_RiskReduction r / Test_Cost r)%Q /\
    (0 <= EVPI_per_Cost r)%Q /\
    N_tested r = countb notna row /\
    0 <= N_tested r < Z.of_nat (length (columns class_df)).
Proof.
  intros Hws Hb Hin.
  apply (Permutation_in _ (next_best_test_evpi_perm _ _ _ _ _)) in Hin.
  apply unsorted_rows_In in Hin as (i & idx & row & c & Hi & Hr & Hc & Hg & ->).
  exists i, row. unfold evpi_row_for.
  cbn [DecisionV3.Strain_ID Candidate_Test_Class Current_pMDR Current_BayesRisk
       Expected_BayesRisk_AfterTest EVPI_RiskReduction Test_Cost EVPI_per_Cost
       Class_Prevalence Current_Uncertain N_tested].
  pose proof (well_shaped_row _ _ _ Hws Hr) as Hlen.
  destruct Hws as (Hnd & _ & _). apply NoDup_ListNoDup in Hnd.
  set (prev := prevalence_dict class_df).
  set (s := series_of (columns class_df) row).
  set (pc := default (1 # 2)%Q (prev !! c)).
  assert (Hpc : pc = prior_of (Some prev) c) by reflexivity.
  assert (Hprior : forall k, (0 <= prior_of (Some prev) k <= 1)%Q)
    by (intros k; apply prior_of_prevalence; exact Hb).
  assert (Hs : List.NoDup (map fst s)).
  { unfold s, series_of. rewrite map_fst_combine by (symmetry; exact Hlen).
    exact Hnd. }
  assert (Hcs : In (c, None) s)
    by (apply missing_in_series; [symmetry; exact Hlen|exact Hc|exact Hg]).
  pose proof (posterior_split s mdr_threshold (Some prev) c Hs Hcs
                (fun k _ => Hprior k)) as Htot.
  rewrite <- Hpc in Htot.
  set (p_mdr := _posterior_mdr_prob s mdr_threshold (Some prev)) in *.
  set (p1 := _posterior_mdr_prob (series_set s c 1) mdr_threshold (Some prev)) in *.
  set (p0 := _posterior_mdr_prob (series_set s c 0) mdr_threshold (Some prev)) in *.
  assert (Hrange : (0 <= pc <= 1)%Q) by (rewrite Hpc; apply Hprior).
  pose proof (bayes_risk_concave fn_cost fp_cost pc p1 p0 p_mdr Hrange Htot)
    as Hconc.
  set (risk0 := bayes_risk fn_cost fp_cost p_mdr) in *.
  set (risk_after := (pc * bayes_risk fn_cost fp_cost p1
                      + (1 - pc) * bayes_risk fn_cost fp_cost p0)%Q) in *.
  pose proof (test_cost_floor (columns class_df) test_costs c) as Hcost.
  set (cost := default 1%Q (cost_dict (columns class_df) test_costs !! c)) in *.
  assert (Hcpos : (0 < cost)%Q).
  { apply Qlt_le_trans with cost_floor; [reflexivity|exact Hcost]. }
  assert (Hevpi : (Qmax (risk0 - risk_after) 0 == risk0 - risk_after)%Q)
    by (apply Q.max_l; lra).
  assert (Hmissing : 1 <= countb isna row).
  { apply countb_pos_iff. exists None. split; [|reflexivity].
    destruct (col_pos_In c (columns class_df) Hc) as [j Hj].
    unfold row_get in Hg. rewrite Hj in Hg.
    assert (Hjr : (j < length row)%nat).
    { rewrite Hlen. apply lookup_lt_is_Some. apply col_pos_Some in Hj. eauto. }
    rewrite <- Hg. apply nth_In. exact Hjr. }
  pose proof (observed_missing_length row) as Hom.
  pose proof (countb_nonneg (@notna Z) row) as Hn0.
  split; [exact Hi|]. split; [exact Hr|]. split; [exact Hc|]. split; [exact Hg|].
  split; [reflexivity|].
  split.
  { destruct (posterior_mdr_prob_bounds s mdr_threshold (Some prev)) as [L U].
    split; assumption. }
  split; [exact Hrange|]. split; [exact Hcost|]. split; [reflexivity|].
  split; [exact Hconc|]. split; [exact Hevpi|].
  split; [rewrite Hevpi; lra|]. split; [reflexivity|].
  split.
  { apply Qle_shift_div_l; [exact Hcpos|]. rewrite Qmult_0_l, Hevpi. lra. }
  split; [reflexivity|]. rewrite <- Hlen. lia.
Qed.

Lemma flat_map_length {A B} (f : A -> list B) l :
  Z.of_nat (length (flat_map f l))
  = fold_right Z.add 0 (map (fun x => Z.of_nat (length (f x))) l).
Proof.
  induction l as [|x l IH]; [reflexivity|]. cbn [flat_map map fold_right].
  rewrite length_app, Nat2Z.inj_add, IH. reflexivity.
Qed.

(** [next_best_test_evpi] has one row for every missing call of a
    well-shaped matrix: each isolate with a missing class gets a row for
    that class, and the number of rows is the number of missing calls; a
    matrix without rows or without columns gets no row. *)
Theorem next_best_test_evpi_complete (class_df : DataFrame) (mdr_threshold : Z)
    (test_costs : list (string * option Q)) (fn_cost fp_cost : Q) :
  well_shaped class_df ->
  let out :=
    next_best_test_evpi class_df mdr_threshold test_costs fn_cost fp_cost in
  (forall i j sid row c,
     index class_df !! i = Some sid -> data class_df !! i = Some row ->
     columns class_df !! j = Some c -> row !! j = Some None ->
     exists r, In r out /\ DecisionV3.Strain_ID r = sid /\
               Candidate_Test_Class r = c) /\
  Z.of_nat (length out) = missing_cells class_df /\
  (index class_df = [] \/ columns class_df = [] -> out = []).
Proof.
  intros Hws out.
  pose proof (next_best_test_evpi_perm class_df mdr_threshold test_costs
                fn_cost fp_cost) as Hperm. fold out in Hperm.
  split; [|split].
  - intros i j sid row c Hi Hr Hj Hc.
    exists (evpi_row_for class_df mdr_threshold test_costs fn_cost fp_cost
                         sid row c).
    split; [|split; reflexivity].
    apply (Permutation_in _ (Permutation_sym Hperm)).
    apply unsorted_rows_In. exists i, sid, row, c.
    destruct Hws as (Hnd & _ & _). apply NoDup_ListNoDup in Hnd.
    split; [exact Hi|]. split; [exact Hr|]. split.
    + apply list_elem_of_In. eapply list_elem_of_lookup_2. exact Hj.
    + split; [|reflexivity]. unfold row_get.
      rewrite (col_pos_lookup c (columns class_df) j Hnd Hj).
      apply nth_lookup_Some. exact Hc.
  - rewrite (Permutation_length Hperm). unfold unsorted_rows, missing_cells.
    rewrite flat_map_length.
    destruct Hws as (Hnd & Hidx & Hrows). apply NoDup_ListNoDup in Hnd.
    rewrite List.Forall_forall in Hrows.
    assert (G : forall (ix : list string) (rows : list (list cell)),
              length ix = length rows ->
              (forall r, In r rows -> length r = length (columns class_df)) ->
              fold_right Z.add 0
                (map (fun x : string * list cell =>
                        Z.of_nat (length
                          (map (evpi_row_for class_df mdr_threshold test_costs
                                  fn_cost fp_cost (fst x) (snd x))
                               (missing_of (columns class_df) (snd x)))))
                     (combine ix rows))
              = fold_right Z.add 0 (map n_missing rows)).
    { induction ix as [|a ix IH]; intros [|r rows] Hl Hr; try discriminate;
        [reflexivity|].
      cbn [combine map fold_right fst snd]. rewrite length_map.
      rewrite missing_of_length;
        [|exact Hnd|symmetry; apply Hr; left; reflexivity].
      f_equal. apply IH; [injection Hl as Hl; exact Hl|].
      intros r' Hr'. apply Hr. right. exact Hr'. }
    apply G; [exact Hidx|]. intros r Hr. apply Hrows.
    apply list_elem_of_In. apply list_elem_of_In in Hr. exact Hr.
  - intros He. unfold out, next_best_test_evpi.
    destruct He as [He|He]; rewrite He.
    + reflexivity.
    + rewrite (bool_decide_eq_true_2 ([] = [])) by reflexivity.
      rewrite orb_true_r. reflexivity.
Qed.

(** *** The order of the rows *)

Lemma evpi_before_iff x y :
  evpi_before x y = true <->
  String_as_OT.lt (DecisionV3.Strain_ID x) (DecisionV3.Strain_ID y) \/
  (DecisionV3.Strain_ID x = DecisionV3.Strain_ID y /\
   ((EVPI_per_Cost y < EVPI_per_Cost x)%Q \/
    ((EVPI_per_Cost y == EVPI_per_Cost x)%Q /\
     (EVPI_RiskReduction y < EVPI_RiskReduction x)%Q))).
Proof.
  unfold evpi_before.
  change (String.compare (DecisionV3.Strain_ID x) (DecisionV3.Strain_ID y))
    with (String_as_OT.cmp (DecisionV3.Strain_ID x) (DecisionV3.Strain_ID y)).
  destruct (String_as_OT.cmp (DecisionV3.Strain_ID x) (DecisionV3.Strain_ID y))
    eqn:Ec.
  - apply String_as_OT.cmp_eq in Ec.
    assert (Hnlt : ~ String_as_OT.lt (DecisionV3.Strain_ID x)
                                     (DecisionV3.Strain_ID y))
      by (intros H; apply String_as_OT.lt_not_eq in H; apply H; exact Ec).
    destruct (EVPI_per_Cost y ?= EVPI_per_Cost x)%Q eqn:Eq.
    + apply Qeq_alt in Eq. rewrite Qltb_lt. split.
      * intros H. right. split; [exact Ec|]. right. split; assumption.
      * intros [H|[_ [H|[_ H]]]]; [contradiction| |exact H].
        rewrite Eq in H. exfalso. apply (Qlt_irrefl _ H).
    + apply Qlt_alt in Eq. split; [|reflexivity].
      intros _. right. split; [exact Ec|]. left. exact Eq.
    + apply Qgt_alt in Eq. split; [discriminate|].
      intros [H|[_ [H|[H _]]]]; [contradiction| |].
      * exfalso. apply (Qlt_irrefl (EVPI_per_Cost x)).
        eapply Qlt_trans; eassumption.
      * rewrite H in Eq. exfalso. apply (Qlt_irrefl _ Eq).
  - apply String_as_OT.cmp_lt in Ec. split; [|reflexivity]. intros _. left. exact Ec.
  - split; [discriminate|].
    assert (Hgt : String_as_OT.lt (DecisionV3.Strain_ID y) (DecisionV3.Strain_ID x)).
    { apply String_as_OT.cmp_lt. rewrite String_as_OT.cmp_antisym, Ec. reflexivity. }
    intros [H|[H _]].
    + exfalso. apply (String_as_OT.lt_not_eq _ _ (String_as_OT.lt_trans _ _ _ H Hgt)).
      reflexivity.
    + exfalso. apply (String_as_OT.lt_not_eq _ _ Hgt). symmetry. exact H.
Qed.

Lemma evpi_before_trans x y z :
  evpi_before x y = true -> evpi_before y z = true -> evpi_before x z = true.
Proof.
  rewrite !evpi_before_iff.
  intros [H1|[E1 H1]] [H2|[E2 H2]].
  - left. eapply String_as_OT.lt_trans; eassumption.
  - left. rewrite <- E2. exact H1.
  - left. rewrite E1. exact H2.
  - right. split; [congruence|].
    destruct H1 as [H1|[Q1 H1]]; destruct H2 as [H2|[Q2 H2]].
    + left. eapply Qlt_trans; eassumption.
    + left. rewrite Q2. exact H1.
    + left. rewrite <- Q1. exact H2.
    + right. split; [rewrite Q2; exact Q1|]. eapply Qlt_trans; eassumption.
Qed.

Lemma evpi_before_asym x y :
  evpi_before x y = true -> evpi_before y x = false.
Proof.
  intros H. destruct (evpi_before y x) eqn:E; [|reflexivity].
  pose proof (evpi_before_trans x y x H E) as Hxx.
  apply evpi_before_iff in Hxx. exfalso.
  destruct Hxx as [Hlt|[_ [Hlt|[_ Hlt]]]].
  - apply (String_as_OT.lt_not_eq _ _ Hlt). reflexivity.
  - apply (Qlt_irrefl _ Hlt).
  - apply (Qlt_irrefl _ Hlt).
Qed.

Lemma insert_evpi_sorted x l :
  StronglySorted (fun a b => evpi_before b a = false) l ->
  StronglySorted (fun a b => evpi_before b a = false) (insert_evpi x l).
Proof.
  induction l as [|y l IH]; intros Hs.
  - repeat constructor.
  - cbn [insert_evpi]. apply StronglySorted_inv in Hs as [Hs Hy].
    destruct (evpi_before x y) eqn:E.
    + constructor; [constructor; assumption|].
      constructor; [apply evpi_before_asym; exact E|].
      rewrite List.Forall_forall in Hy |- *. intros z Hz.
      destruct (evpi_before z x) eqn:Ez; [|reflexivity].
      specialize (Hy z Hz). rewrite (evpi_before_trans z x y Ez E) in Hy.
      discriminate.
    + constructor; [apply IH; exact Hs|].
      rewrite List.Forall_forall in Hy |- *. intros z Hz.
      apply (Permutation_in _ (insert_evpi_perm x l)) in Hz.
      destruct Hz as [<-|Hz]; [exact E|apply Hy; exact Hz].
Qed.

Lemma sort_evpi_sorted l :
  StronglySorted (fun a b => evpi_before b a = false) (sort_evpi l).
Proof.
  unfold sort_evpi.
  assert (G : forall l acc,
            StronglySorted (fun a b => evpi_before b a = false) acc ->
            StronglySorted (fun a b => evpi_before b a = false)
                           (fold_left (fun acc x => insert_evpi x acc) l acc)).
  { clear. induction l as [|x l IH]; intros acc Hs; [exact Hs|].
    cbn [fold_left]. apply IH. apply insert_evpi_sorted. exact Hs. }
  apply G. constructor.
Qed.

Lemma not_before_ordered x y : evpi_before y x = false -> evpi_ordered x y.
Proof.
  intros H.
  assert (Hn : ~ (evpi_before y x = true)) by (rewrite H; discriminate).
  rewrite evpi_before_iff in Hn. unfold evpi_ordered. split.
  - intros Hgt. apply Hn. left. apply String_as_OT.cmp_lt.
    change (String_as_OT.cmp (DecisionV3.Strain_ID y) (DecisionV3.Strain_ID x))
      with (String.compare (DecisionV3.Strain_ID y) (DecisionV3.Strain_ID x)).
    rewrite String.compare_antisym, Hgt. reflexivity.
  - intros Heq. split.
    + apply Qnot_lt_le. intros Hlt. apply Hn. right. split; [symmetry; exact Heq|].
      left. exact Hlt.
    + intros Hq. apply Qnot_lt_le. intros Hlt. apply Hn. right.
      split; [symmetry; exact Heq|]. right. split; [symmetry; exact Hq|exact Hlt].
Qed.

Lemma StronglySorted_weaken {A} (R S : A -> A -> Prop) l :
  (forall x y, R x y -> S x y) -> StronglySorted R l -> StronglySorted S l.
Proof.
  intros HRS. induction 1 as [|x l Hs IH Hx]; constructor; [exact IH|].
  rewrite List.Forall_forall in Hx |- *. intros y Hy. apply HRS. apply Hx. exact Hy.
Qed.

(** The rows returned by [next_best_test_evpi] are in order: Strain_ID
    ascending; within an isolate EVPI_per_Cost descending, so the first
    row of an isolate is its best next test; and EVPI_RiskReduction
    descending among equal EVPI_per_Cost. *)
Theorem next_best_test_evpi_sorted (class_df : DataFrame) (mdr_threshold : Z)
    (test_costs : list (string * option Q)) (fn_cost fp_cost : Q) :
  StronglySorted evpi_ordered
    (next_best_test_evpi class_df mdr_threshold test_costs fn_cost fp_cost).
Proof.
  unfold next_best_test_evpi.
  destruct (bool_decide (index class_df = []) || bool_decide (columns class_df = []));
    [constructor|].
  eapply StronglySorted_weaken; [|apply sort_evpi_sorted].
  intros x y. apply not_before_ordered.
Qed.

(** *** An example *)

Lemma next_best_test_evpi_rows_witness :
  exists i row,
    index MdrFlagSpec.example_classes !! i
    = Some (DecisionV3.Strain_ID example_evpi_row) /\
    data MdrFlagSpec.example_classes !! i = Some row /\
    In (Candidate_Test_Class example_evpi_row)
       (columns MdrFlagSpec.example_classes) /\
    row_get (columns MdrFlagSpec.example_classes) row
            (Candidate_Test_Class example_evpi_row) = None /\
    Current_pMDR example_evpi_row
    = _posterior_mdr_prob (series_of (columns MdrFlagSpec.example_classes) row)
                          2 (Some (prevalence_dict MdrFlagSpec.example_classes)) /\
    (0 <= Current_pMDR example_evpi_row <= 1)%Q /\
    (0 <= Class_Prevalence example_evpi_row <= 1)%Q /\
    (cost_floor <= Test_Cost example_evpi_row)%Q /\
    Current_BayesRisk example_evpi_row
    = bayes_risk 5 1 (Current_pMDR example_evpi_row) /\
    (Expected_BayesRisk_AfterTest example_evpi_row
     <= Current_BayesRisk example_evpi_row)%Q /\
    (EVPI_RiskReduction example_evpi_row
     == Current_BayesRisk example_evpi_row
        - Expected_BayesRisk_AfterTest example_evpi_row)%Q /\
    (0 <= EVPI_RiskReduction example_evpi_row)%Q /\
    EVPI_per_Cost example_evpi_row
    = (EVPI_RiskReduction example_evpi_row / Test_Cost example_evpi_row)%Q /\
    (0 <= EVPI_per_Cost example_evpi_row)%Q /\
    N_tested example_evpi_row = countb notna row /\
    0 <= N_tested example_evpi_row
      < Z.of_nat (length (columns MdrFlagSpec.example_classes)).
Proof.
  apply (next_best_test_evpi_rows MdrFlagSpec.example_classes 2 [] 5 1
           example_evpi_row).
  - split; [|split].
    + apply NoDup_ListNoDup. cbn. repeat constructor; simpl; intuition discriminate.
    + reflexivity.
    + cbn. repeat constructor.
  - unfold binary_frame, binary. cbn. intros row c Hr Hc.
    repeat (destruct Hr as [<-|Hr]; [cbn in Hc; intuition (subst; auto)|]).
    destruct Hr.
  - vm_compute. right. left. reflexivity.
Defined.

Lemma next_best_test_evpi_complete_witness :
  let out := next_best_test_evpi MdrFlagSpec.example_classes 2 [] 5 1 in
  (forall i j sid row c,
     index MdrFlagSpec.example_classes !! i = Some sid ->
     data MdrFlagSpec.example_classes !! i = Some row ->
     columns MdrFlagSpec.example_classes !! j = Some c ->
     row !! j = Some None ->
     exists r, In r out /\ DecisionV3.Strain_ID r = sid /\
               Candidate_Test_Class r = c) /\
  Z.of_nat (length out) = missing_cells MdrFlagSpec.example_classes /\
  (index MdrFlagSpec.example_classes = [] \/
   columns MdrFlagSpec.example_classes = [] -> out = []).
Proof.
  apply (next_best_test_evpi_complete MdrFlagSpec.example_classes 2 [] 5 1).
  split; [|split].
  - apply NoDup_ListNoDup. cbn. repeat constructor; simpl; intuition discriminate.
  - reflexivity.
  - cbn. repeat constructor.
Defined.

End EvpiFacts.

(** ** More on the hypergraph *)

Lemma py_round_comp x y n : (x == y)%Q -> (py_round x n == py_round y n)%Q.
Proof.
  intros H. apply Qle_antisym; apply py_round_mono; rewrite H; apply Qle_refl.
Qed.

Lemma Qsum_head x l : Qsum (x :: l) = (x + Qsum l)%Q.
Proof. reflexivity. Qed.

Lemma sum_nonneg (l : list Z) :
  (forall z, In z l -> 0 <= z) -> 0 <= fold_right Z.add 0 l.
Proof.
  induction l as [|z l IH]; intros H; [simpl; lia|]. cbn [fold_right].
  assert (0 <= z) by (apply H; left; reflexivity).
  assert (0 <= fold_right Z.add 0 l) by (apply IH; intros; apply H; right; assumption).
  lia.
Qed.

Lemma sum_perm (l1 l2 : list Z) :
  Permutation l1 l2 -> fold_right Z.add 0 l1 = fold_right Z.add 0 l2.
Proof. induction 1; cbn [fold_right]; lia. Qed.

Module PatternFacts.
Import Hypergraph HyperedgeFacts.
Import HyperedgeSpec PatternSpec.

Lemma counter_add_total counts k :
  total_count (counter_add counts k) = total_count counts + 1.
Proof.
  unfold total_count. induction counts as [|[k' n] counts IH].
  - reflexivity.
  - rewrite counter_add_cons. case_bool_decide; cbn [map snd fold_right].
    + lia.
    + fold (map snd (counter_add counts k)). rewrite IH. lia.
Qed.

Lemma Counter_total pats : total_count (Counter pats) = Z.of_nat (length pats).
Proof.
  unfold Counter.
  assert (G : forall pats acc,
            total_count (fold_left counter_add pats acc)
            = total_count acc + Z.of_nat (length pats)).
  { clear. induction pats as [|p pats IH]; intros acc; [simpl; lia|].
    cbn [fold_left length]. rewrite IH, counter_add_total. lia. }
  rewrite G. reflexivity.
Qed.

Lemma sized_patterns_length class_df min_size max_size :
  (length (sized_patterns class_df min_size max_size)
   <= length (data class_df))%nat.
Proof.
  unfold sized_patterns. etransitivity; [apply List.filter_length_le|].
  rewrite length_map. reflexivity.
Qed.

Lemma kept_counts_le n min_support (items : list (gset string * Z)) :
  (forall item, In item items -> 0 <= snd item) ->
  fold_right Z.add 0 (map Count (omap (row_of_item n min_support) items))
  <= total_count items.
Proof.
  unfold total_count. induction items as [|[pat cnt] items IH]; intros Hpos;
    [simpl; lia|].
  rewrite omap_cons.
  assert (Hc : 0 <= cnt) by (apply (Hpos (pat, cnt)); left; reflexivity).
  assert (IH' : fold_right Z.add 0 (map Count (omap (row_of_item n min_support) items))
                <= fold_right Z.add 0 (map snd items))
    by (apply IH; intros; apply Hpos; right; assumption).
  cbn [map snd fold_right]. unfold row_of_item at 1.
  destruct (Qleb min_support (support_of cnt n));
    cbn [map Count fold_right]; lia.
Qed.

(** On a class matrix without missing calls [extract_hyperedges] returns,
    and keeps every pattern that qualifies: a set of classes whose size is
    within [min_size, max_size], carried by at least one isolate, and with
    the float [Count / n >= min_support] has a row, whose label is the
    sorted names of the set joined by a comma and a space; the counts of
    the rows add up to at most the number [n] of isolates; and a matrix
    without rows has no hyperedge.  On a matrix with a missing call it
    raises. *)
Theorem extract_hyperedges_complete (class_df : DataFrame)
    (min_size max_size : Z) (min_support : Q) :
  well_shaped class_df ->
  (complete class_df ->
   exists out,
     extract_hyperedges class_df min_size max_size min_support = Some out /\
     (forall k : gset string,
        min_size <= Z.of_nat (size k) <= max_size ->
        1 <= isolates_with class_df k ->
        (min_support
         <= b64 (inject_Z (isolates_with class_df k)
                 / inject_Z (Z.of_nat (length (data class_df)))))%Q ->
        exists r, In r out /\ _set r = k /\
                  Count r = isolates_with class_df k /\
                  Hyperedge r = join ", " (sorted_names (elements k))) /\
     fold_right Z.add 0 (map Count out) <= Z.of_nat (length (data class_df)) /\
     (data class_df = [] -> out = [])) /\
  (forall row, In row (data class_df) -> In None row ->
     extract_hyperedges class_df min_size max_size min_support = None).
Proof.
  intros Hws. split.
  - intros Hcomplete.
    rewrite (extract_hyperedges_complete_matrix _ _ _ _ Hws Hcomplete).
    eexists. split; [reflexivity|].
    set (pats := sized_patterns class_df min_size max_size).
    set (n := Z.of_nat (length (data class_df))) in *.
    destruct (Counter_counts pats) as (Hnd & Hcov & Hcnt).
    split; [|split].
    + intros k Hsize Hocc Hsup.
      assert (Hk : occurrences k pats = isolates_with class_df k)
        by (apply patterns_occurrences; exact Hsize).
      assert (Hin : In k pats).
      { assert (H1 : 1 <= occurrences k pats) by lia.
        unfold occurrences in H1.
        apply countb_pos_iff in H1 as (p & Hp & Hpk).
        apply bool_decide_eq_true in Hpk. subst p. exact Hp. }
      apply Hcov in Hin. apply in_map_iff in Hin as ([k' c] & Hk' & Hitem).
      cbn [fst] in Hk'. subst k'.
      destruct (Hcnt k c Hitem) as [Hc _].
      exists (mkHyperedge (join ", " (sorted_names (elements k))) k (set_len k) c
                          (py_round_float (support_of c n) 4)).
      split; [|split; [reflexivity|split; [cbn; lia|reflexivity]]].
      apply list_elem_of_In. apply list_elem_of_omap. exists (k, c). split.
      * apply list_elem_of_In.
        apply (Permutation_in _ (Permutation_sym (most_common_perm _))). exact Hitem.
      * unfold row_of_item, support_of. rewrite Hc, Hk.
        apply Qleb_le in Hsup. rewrite Hsup. reflexivity.
    + etransitivity; [apply kept_counts_le|].
      * intros [pat cnt] Hitem.
        apply (Permutation_in _ (most_common_perm _)) in Hitem.
        destruct (Hcnt pat cnt Hitem) as [_ H1]. cbn [snd]. lia.
      * unfold total_count.
        rewrite (sum_perm _ _ (Permutation_map snd (most_common_perm (Counter pats)))).
        fold (total_count (Counter pats)). rewrite Counter_total.
        unfold n. apply inj_le. apply sized_patterns_length.
    + intros Hd. unfold pats, sized_patterns. rewrite Hd. reflexivity.
  - intros row Hrow Hna. rewrite extract_hyperedges_unfold.
    rewrite (patterns_missing _ _ _ row Hws Hrow Hna). reflexivity.
Qed.

Lemma example_missing_call_well_shaped : well_shaped example_missing_call.
Proof.
  unfold well_shaped. cbn. split; [|split].
  - apply NoDup_ListNoDup. repeat constructor; simpl; intuition discriminate.
  - reflexivity.
  - repeat constructor.
Qed.

Lemma extract_hyperedges_complete_witness :
  (extract_hyperedges example_isolates 2 6 (b64 (1 # 10)) = Some example_rows /\
   exists r, In r example_rows /\ _set r = {["a"; "b"]} /\ Count r = 2 /\
             Hyperedge r = "a, b") /\
  extract_hyperedges example_missing_call 2 6 (b64 (1 # 10)) = None.
Proof.
  split.
  - destruct (extract_hyperedges_complete example_isolates 2 6 (b64 (1 # 10))
                example_isolates_well_shaped) as [H _].
    destruct H as (out & Hout & Hk & _).
    { intros row Hrow Hna. cbn in Hrow.
      destruct Hrow as [<-|[<-|[<-|[]]]]; cbn in Hna;
        intuition discriminate. }
    assert (E : out = example_rows).
    { assert (E0 : extract_hyperedges example_isolates 2 6 (b64 (1 # 10))
                   = Some example_rows) by (vm_compute; reflexivity).
      rewrite E0 in Hout. injection Hout as <-. reflexivity. }
    subst out. split; [exact Hout|].
    destruct (Hk {["a"; "b"]}) as (r & Hr & Hs & Hc & Hl).
    + vm_compute. split; discriminate.
    + vm_compute. discriminate.
    + vm_compute. discriminate.
    + exists r. split; [exact Hr|]. split; [exact Hs|].
      split; [rewrite Hc; vm_compute; reflexivity|].
      rewrite Hl. vm_compute. reflexivity.
  - destruct (extract_hyperedges_complete example_missing_call 2 6 (b64 (1 # 10))
                example_missing_call_well_shaped) as [_ H].
    apply (H [Some 1; None; Some 1]).
    + right. left. reflexivity.
    + right. left. reflexivity.
Defined.

End PatternFacts.

Module MeasureFacts.
Import Hypergraph CentralityFacts.
Import CentralitySpec MeasureSpec.

Lemma fold_member_other r ms c : forall acc,
  ~ In c ms -> entries (fold_left (visit_member r) ms acc) c = entries acc c.
Proof.
  induction ms as [|m ms IH]; intros acc Hn; [reflexivity|].
  cbn [fold_left]. rewrite IH by (intros H; apply Hn; right; exact H).
  apply visit_member_other. intros ->. apply Hn. left. reflexivity.
Qed.

Lemma visit_member_self r acc c d :
  deg acc !! c = Some d ->
  entries (visit_member r acc c) c
  = (Some (d + 1), Some (b64 (default 0 (wd acc !! c) + Support r))%Q,
     Some (b64 (default 0 (swd acc !! c)
                + b64 (Support r * inject_Z (Size r))))%Q).
Proof.
  intros Hd. unfold visit_member. rewrite Hd. unfold entries.
  cbn [deg wd swd]. rewrite !lookup_insert_eq. reflexivity.
Qed.

(** One hyperedge that contains the class adds one to its degree and the
    support, and the support times the size, to its weighted degrees. *)
Lemma visit_hyperedge_self r acc c d :
  c ∈ _set r -> deg acc !! c = Some d ->
  entries (visit_hyperedge acc r) c
  = (Some (d + 1), Some (b64 (default 0 (wd acc !! c) + Support r))%Q,
     Some (b64 (default 0 (swd acc !! c)
                + b64 (Support r * inject_Z (Size r))))%Q).
Proof.
  intros Hc Hd. unfold visit_hyperedge.
  assert (Hin : In c (elements (_set r)))
    by (apply list_elem_of_In, elem_of_elements; exact Hc).
  pose proof (NoDup_elements (_set r)) as Hnd. apply NoDup_ListNoDup in Hnd.
  apply in_split in Hin as (l1 & l2 & Hl). rewrite Hl in Hnd |- *.
  assert (H1 : ~ In c l1 /\ ~ In c l2).
  { apply NoDup_remove_2 in Hnd. split; intros H; apply Hnd; apply in_or_app; auto. }
  destruct H1 as [H1 H2].
  rewrite fold_left_app. cbn [fold_left].
  rewrite fold_member_other by exact H2.
  pose proof (fold_member_other r l1 c acc H1) as E1. unfold entries in E1.
  injection E1 as Ed Ew Es.
  rewrite (visit_member_self r _ c d) by (rewrite Ed; exact Hd).
  rewrite Ew, Es. reflexivity.
Qed.

(** The accumulators of a class of the universe after the loop over the
    hyperedges. *)
Lemma fold_visit_measures c hedges : forall acc d w sw,
  deg acc !! c = Some d -> wd acc !! c = Some w -> swd acc !! c = Some sw ->
  entries (fold_left visit_hyperedge hedges acc) c
  = (Some (d + countb (fun h => bool_decide (c ∈ _set h)) hedges),
     Some (float_sum_from w (map Support (containing c hedges))),
     Some (float_sum_from sw
             (map (fun h => b64 (Support h * inject_Z (Size h)))
                  (containing c hedges)))).
Proof.
  induction hedges as [|h hedges IH]; intros acc d w sw Hd Hw Hs.
  - unfold entries. cbn [fold_left]. rewrite Hd, Hw, Hs.
    rewrite countb_nil, Z.add_0_r. reflexivity.
  - cbn [fold_left]. rewrite countb_cons. unfold containing.
    cbn [List.filter]. fold (containing c hedges).
    destruct (decide (c ∈ _set h)) as [Hin|Hnin].
    + rewrite (bool_decide_eq_true_2 _ Hin).
      pose proof (visit_hyperedge_self h acc c d Hin Hd) as E.
      unfold entries in E. injection E as Ed Ew Es.
      rewrite Hw in Ew. rewrite Hs in Es. cbv [default from_option id] in Ew, Es.
      rewrite (IH _ _ _ _ Ed Ew Es). unfold float_sum_from.
      cbn [map fold_left]. rewrite <- Z.add_assoc. reflexivity.
    + rewrite (bool_decide_eq_false_2 _ Hnin).
      pose proof (visit_hyperedge_other h acc c Hnin) as E.
      unfold entries in E. injection E as Ed Ew Es.
      rewrite Hd in Ed. rewrite Hw in Ew. rewrite Hs in Es.
      rewrite (IH _ _ _ _ Ed Ew Es). rewrite Z.add_0_l. reflexivity.
Qed.

(** Every row of [hypergraph_centrality] belongs to a class of the
    universe; its Degree is the number of hyperedges that contain the
    class; its Weighted_Degree is the float sum, taken in the order of the
    hyperedges, of their supports, and its Size_Weighted that of their
    float products support * size, each rounded to four decimals by
    Python's [round]. *)
Theorem hypergraph_centrality_measures (hedges_df : list hyperedge_row)
    (all_classes : list string) (r : centrality_row) :
  In r (rows (hypergraph_centrality hedges_df all_classes)) ->
  In (Class r) all_classes /\
  Degree r = countb (fun h => bool_decide (Class r ∈ _set h)) hedges_df /\
  Weighted_Degree r
  = py_round_float
      (float_sum (map Support (containing (Class r) hedges_df))) 4 /\
  Size_Weighted r
  = py_round_float
      (float_sum (map (fun h => b64 (Support h * inject_Z (Size h)))
                      (containing (Class r) hedges_df))) 4.
Proof.
  destruct all_classes as [|c0 cs]; [intros []|].
  rewrite hypergraph_centrality_unfold. cbv zeta. cbn [rows]. intros Hr.
  apply (Permutation_in _ (sort_by_size_weighted_perm _)) in Hr.
  unfold raw_rows in Hr. apply in_map_iff in Hr as (c & <- & Hc).
  cbn [Class Degree Weighted_Degree Size_Weighted].
  split; [exact Hc|].
  assert (Hel : c ∈ c0 :: cs) by (apply list_elem_of_In; exact Hc).
  assert (Hd : deg (initial (c0 :: cs)) !! c = Some 0).
  { unfold initial. cbn [deg]. rewrite lookup_const_map.
    rewrite (bool_decide_eq_true_2 _ Hel). reflexivity. }
  assert (Hw : wd (initial (c0 :: cs)) !! c = Some 0%Q).
  { unfold initial. cbn [wd]. rewrite lookup_const_map.
    rewrite (bool_decide_eq_true_2 _ Hel). reflexivity. }
  assert (Hs : swd (initial (c0 :: cs)) !! c = Some 0%Q).
  { unfold initial. cbn [swd]. rewrite lookup_const_map.
    rewrite (bool_decide_eq_true_2 _ Hel). reflexivity. }
  pose proof (fold_visit_measures c hedges_df _ _ _ _ Hd Hw Hs) as E.
  unfold entries in E. injection E as Ed Ew Es.
  rewrite Ed, Ew, Es. cbv [default from_option id].
  split; [lia|]. split; reflexivity.
Qed.

(** The class b of the example is in both hyperedges: its supports 0.6667
    and 0.3333 add up to the float 1.0, and their products with the size 2
    to 2.0. *)
Lemma hypergraph_centrality_measures_witness :
  In (Class (mkCentrality "b" 2 (b64 1) (b64 2))) ["a"; "b"; "c"; "z"] /\
  Degree (mkCentrality "b" 2 (b64 1) (b64 2)) = 2 /\
  Weighted_Degree (mkCentrality "b" 2 (b64 1) (b64 2))
  = py_round_float (float_sum [b64 (6667 # 10000); b64 (3333 # 10000)]) 4 /\
  Size_Weighted (mkCentrality "b" 2 (b64 1) (b64 2))
  = py_round_float
      (float_sum [b64 (b64 (6667 # 10000) * 2); b64 (b64 (3333 # 10000) * 2)])
      4.
Proof.
  apply (hypergraph_centrality_measures example_hyperedges ["a"; "b"; "c"; "z"]
           (mkCentrality "b" 2 (b64 1) (b64 2))).
  vm_compute. left. reflexivity.
Defined.

Lemma insert_by_size_weighted_sorted x l :
  StronglySorted by_size_weighted l ->
  StronglySorted by_size_weighted (insert_by_size_weighted x l).
Proof.
  induction l as [|y l IH]; intros Hs.
  - repeat constructor.
  - cbn [insert_by_size_weighted]. apply StronglySorted_inv in Hs as [Hs Hy].
    destruct (Qltb (Size_Weighted y) (Size_Weighted x)) eqn:E.
    + apply Qltb_lt in E. constructor; [constructor; assumption|].
      constructor; [apply Qlt_le_weak; exact E|].
      rewrite List.Forall_forall in Hy |- *. intros z Hz.
      unfold by_size_weighted in *. specialize (Hy z Hz).
      apply Qle_trans with (Size_Weighted y); [exact Hy|apply Qlt_le_weak; exact E].
    + apply Qltb_false in E. constructor; [apply IH; exact Hs|].
      rewrite List.Forall_forall in Hy |- *. intros z Hz.
      apply (Permutation_in _ (insert_by_size_weighted_perm x l)) in Hz.
      destruct Hz as [<-|Hz]; [exact E|apply Hy; exact Hz].
Qed.

(** The rows of [hypergraph_centrality] stand in order of descending
    Size_Weighted, one per entry of the universe; and each normalised
    column that the frame has holds one value per row. *)
Theorem hypergraph_centrality_order (hedges_df : list hyperedge_row)
    (all_classes : list string) :
  let out := hypergraph_centrality hedges_df all_classes in
  StronglySorted by_size_weighted (rows out) /\
  length (rows out) = length all_classes /\
  (forall col, Degree_Norm out = Some col -> length col = length (rows out)) /\
  (forall col, Weighted_Degree_Norm out = Some col ->
               length col = length (rows out)) /\
  (forall col, Size_Weighted_Norm out = Some col ->
               length col = length (rows out)).
Proof.
  destruct all_classes as [|c0 cs].
  - cbn. split; [constructor|]. split; [reflexivity|].
    repeat split; intros col [= <-]; reflexivity.
  - rewrite hypergraph_centrality_unfold. cbv zeta.
    cbn [rows Degree_Norm Weighted_Degree_Norm Size_Weighted_Norm].
    set (acc := fold_left visit_hyperedge hedges_df (initial (c0 :: cs))).
    set (df := sort_by_size_weighted (raw_rows acc (c0 :: cs))).
    split; [|split].
    + unfold df, sort_by_size_weighted.
      assert (G : forall l a, StronglySorted by_size_weighted a ->
                StronglySorted by_size_weighted
                  (fold_left (fun acc x => insert_by_size_weighted x acc) l a)).
      { clear. induction l as [|x l IH]; intros a Ha; [exact Ha|].
        cbn [fold_left]. apply IH. apply insert_by_size_weighted_sorted. exact Ha. }
      apply G. constructor.
    + unfold df. rewrite (Permutation_length (sort_by_size_weighted_perm _)).
      unfold raw_rows. apply length_map.
    + assert (N : forall l col, norm_column l = Some col -> length col = length l).
      { intros l col. unfold norm_column.
        destruct (Qltb 0 (Qmaximum l)); [|discriminate].
        intros [= <-]. apply length_map. }
      repeat split; intros col H; apply N in H; rewrite H; apply length_map.
Qed.

End MeasureFacts.

(** ** More on the skeleton learner *)

Module RunFacts.
Import Discovery GraphFacts IndependenceFacts SkeletonFacts.
Import GraphSpec IndependenceSpec SkeletonSpec RunSpec.

(** *** Pairs *)

Lemma pairs_of_cons {A} (x : A) l :
  pairs_of (x :: l) = map (pair x) l ++ pairs_of l.
Proof.
  unfold pairs_of. cbn [combinations]. rewrite combinations_1.
  rewrite omap_app. f_equal.
  induction l as [|y l IH]; [reflexivity|]. cbn [map omap]. rewrite <- IH.
  reflexivity.
Qed.

Lemma pairs_of_cover {A} (l : list A) a b :
  In a l -> In b l -> a <> b -> In (a, b) (pairs_of l) \/ In (b, a) (pairs_of l).
Proof.
  induction l as [|x l IH]; intros Ha Hb Hne; [destruct Ha|].
  rewrite pairs_of_cons. rewrite !in_app_iff.
  destruct Ha as [->|Ha]; destruct Hb as [->|Hb].
  - contradiction.
  - left. left. apply in_map. exact Hb.
  - right. left. apply in_map. exact Ha.
  - destruct (IH Ha Hb Hne); [left|right]; right; assumption.
Qed.

Lemma add_edges_In_adj ps : forall G u v,
  In (u, v) ps \/ In_adj G u v ->
  In_adj (fold_left (fun G '(u, v) => add_edge G u v) ps G) u v.
Proof.
  induction ps as [|[a b] ps IH]; intros G u v H; cbn [fold_left].
  - destruct H as [[]|H]. exact H.
  - apply IH. destruct H as [[Heq|H]|H].
    + right. injection Heq as -> ->. apply add_edge_In_adj. right. left. auto.
    + left. exact H.
    + right. apply add_edge_In_adj. left. exact H.
Qed.

(** Every two distinct features are the ends of an edge of the graph that
    phase 1 starts from. *)
Lemma complete_graph_edges features u v :
  In u features -> In v features -> u <> v ->
  In (u, v) (edges (complete_graph features))
  \/ In (v, u) (edges (complete_graph features)).
Proof.
  intros Hu Hv Hne. destruct (complete_graph_spec features) as [Hg _].
  apply edges_cover; [exact Hg|]. unfold complete_graph.
  destruct (pairs_of_cover features u v Hu Hv Hne) as [H|H].
  - apply add_edges_In_adj. left. exact H.
  - destruct Hg as [_ Hsym]. apply Hsym. apply add_edges_In_adj. left. exact H.
Qed.

Lemma complete_graph_edge_ends features u v :
  In (u, v) (edges (complete_graph features)) ->
  In u features /\ In v features.
Proof.
  intros H. destruct (complete_graph_spec features) as [Hg [Hn Ha]].
  apply edges_In_adj in H. split.
  - destruct Hg as [_ Hsym]. apply Hsym in H. eapply Ha. exact H.
  - eapply Ha. exact H.
Qed.

Section Runs.

Variable fisher_exact : list (list Z) -> Q.
Variable chi2_contingency : list (list Z) -> option Q.
Variable chi2_cdf : Q -> Q -> Q.

Abbreviation ci_test := (_ci_test fisher_exact chi2_contingency chi2_cdf).
Abbreviation scan := (scan_edge fisher_exact chi2_contingency chi2_cdf).
Abbreviation phase := (phase1_size fisher_exact chi2_contingency chi2_cdf).
Abbreviation skeleton := (pc_skeleton fisher_exact chi2_contingency chi2_cdf).

(** *** The unconditional test *)

Lemma get_column_known df c :
  In c (columns df) -> exists x, get_column df c = Some x.
Proof.
  intros H. unfold get_column. destruct (col_pos_In c (columns df) H) as [j ->].
  eauto.
Qed.

Lemma get_column_unknown df c : ~ In c (columns df) -> get_column df c = None.
Proof. intros H. unfold get_column. rewrite col_pos_fresh by exact H. reflexivity. Qed.

Lemma ci_test_marginal_total df u v alpha :
  chi2_defined chi2_contingency ->
  In u (columns df) -> In v (columns df) ->
  exists p, ci_test df u v [] alpha = Some (Qltb alpha p, p).
Proof.
  intros Hchi Hu Hv. unfold _ci_test.
  destruct (get_column_known df u Hu) as [xu ->].
  destruct (get_column_known df v Hv) as [xv ->]. cbn.
  destruct (is_2x2 (crosstab xu xv)) eqn:E22.
  - destruct (any_expected_below_5 (crosstab xu xv)) eqn:E5; [cbn; eauto|].
    destruct (chi2_contingency (crosstab xu xv)) as [p|] eqn:Ec; [cbn; eauto|].
    exfalso. eapply Hchi; eassumption.
  - destruct (chi2_contingency (crosstab xu xv)) as [p|]; cbn; eauto.
Qed.

(** *** The pass of size 0 *)

Lemma scan_size_0_step order df alpha G st u v indep p :
  ci_test df u v [] alpha = Some (indep, p) ->
  scan order df alpha G 0 st (u, v)
  = Some (if indep
          then mkScan (rm st ++ [(u, v)])
                      (<[(v, u) := []]> (<[(u, v) := []]> (sep st)))
                      (details st ++ [marginal_row u v true p])
          else mkScan (rm st) (sep st)
                      (details st ++ [marginal_row u v false p])).
Proof.
  intros Hci. unfold scan_edge.
  assert (H : forall n : nat, (Z.of_nat n <? 0) = false)
    by (intros n; apply Z.ltb_ge; lia).
  rewrite H. change (Z.to_nat 0) with 0%nat. rewrite combinations_0.
  cbn [first_indep]. cbv beta. rewrite Hci.
  destruct indep; reflexivity.
Qed.

Lemma fold_scan_size_0 order df alpha G es :
  chi2_defined chi2_contingency ->
  (forall u v, In (u, v) es -> In u (columns df) /\ In v (columns df)) ->
  forall st, exists st' rows,
    foldM (scan order df alpha G 0) es st = Some st' /\
    details st' = details st ++ rows /\
    Forall2 (fun e d =>
               exists p, ci_test df (fst e) (snd e) [] alpha
                         = Some (Qltb alpha p, p) /\
                         d = marginal_row (fst e) (snd e) (Qltb alpha p) p)
            es rows.
Proof.
  intros Hchi. induction es as [|[u v] es IH]; intros Hes st.
  - exists st, []. cbn [foldM]. rewrite app_nil_r. split; [reflexivity|].
    split; [reflexivity|constructor].
  - destruct (Hes u v (or_introl eq_refl)) as [Hu Hv].
    destruct (ci_test_marginal_total df u v alpha Hchi Hu Hv) as [p Hp].
    rewrite foldM_cons, (scan_size_0_step order df alpha G st u v _ p Hp).
    set (st1 := if Qltb alpha p then _ else _).
    destruct (IH (fun a b Hab => Hes a b (or_intror Hab)) st1)
      as (st' & rows & Hf & Hd & Hrows).
    exists st', (marginal_row u v (Qltb alpha p) p :: rows).
    split; [exact Hf|]. split.
    + rewrite Hd. unfold st1. destruct (Qltb alpha p); cbn [details];
        rewrite <- app_assoc; reflexivity.
    + constructor; [|exact Hrows]. exists p. cbn [fst snd]. auto.
Qed.

(** With [max_cond = 0], [pc_skeleton] tests every pair of features
    unconditionally: for features that are columns of the matrix, and a
    chi-squared routine that answers on the 2x2 tables it is given, it
    returns a graph and a detail table with one row for every edge of the
    complete graph over the features, in order; the row of a pair carries
    the p-value of its test rounded to four decimals, Removed = (p >
    alpha), and the conditioning set [∅] of size 0 when removed, [—] of
    size -1 otherwise.  Every two distinct features are such a pair.
    With a negative [max_cond] no test is run and the table is empty. *)
Theorem pc_skeleton_marginal_pass
    (order : Z -> string * string -> gset string -> list string)
    (df : DataFrame) (features : list string) (alpha : Q) :
  chi2_defined chi2_contingency ->
  (forall f, In f features -> In f (columns df)) ->
  (exists DG dt,
     skeleton order df features alpha 0 = Some (DG, dt) /\
     Forall2 (fun e d =>
                exists p, ci_test df (fst e) (snd e) [] alpha
                          = Some (Qltb alpha p, p) /\
                          d = marginal_row (fst e) (snd e) (Qltb alpha p) p)
             (edges (complete_graph features)) dt) /\
  (forall u v, In u features -> In v features -> u <> v ->
     In (u, v) (edges (complete_graph features))
     \/ In (v, u) (edges (complete_graph features))) /\
  (forall max_cond, max_cond < 0 ->
     exists DG, skeleton order df features alpha max_cond = Some (DG, [])).
Proof.
  intros Hchi Hcols. split; [|split].
  - rewrite skeleton_unfold. change (DecisionV3.py_range (0 + 1)) with [0].
    rewrite foldM_cons. unfold phase1_size at 1.
    destruct (fold_scan_size_0 order df alpha (complete_graph features)
                (edges (complete_graph features)) Hchi) with (st := mkScan [] ∅ [])
      as (st' & rows & Hf & Hd & Hrows).
    { intros u v Huv. apply complete_graph_edge_ends in Huv as [Hu Hv].
      split; apply Hcols; assumption. }
    rewrite Hf. cbn [mbind option_bind foldM]. eexists. eexists.
    split; [reflexivity|]. rewrite Hd. exact Hrows.
  - apply complete_graph_edges.
  - intros max_cond Hneg. rewrite skeleton_unfold.
    rewrite py_range_nonpos by lia. cbn [foldM]. eauto.
Qed.

(** With [max_cond >= 1], for features that are columns of the matrix and
    a chi-squared routine that answers on the 2x2 tables it is given,
    [pc_skeleton] returns, and the graph it returns has no edge: every
    edge left by the pass of size 0 is removed at size 1, where one of its
    own ends is in the conditioning pool. *)
Theorem pc_skeleton_removes_every_edge
    (order : Z -> string * string -> gset string -> list string)
    (df : DataFrame) (features : list string) (alpha : Q) (max_cond : Z) :
  set_iteration order ->
  chi2_defined chi2_contingency ->
  (forall f, In f features -> In f (columns df)) ->
  1 <= max_cond ->
  exists DG dt,
    skeleton order df features alpha max_cond = Some (DG, dt) /\
    edgeless DG.
Proof.
  intros Ho Hchi Hcols Hmc.
  assert (Hsome : exists r, skeleton order df features alpha max_cond = Some r).
  { rewrite skeleton_unfold.
    destruct (complete_graph_spec features) as [Hg0 Hw0].
    destruct (py_range_from_2 (max_cond + 1)) as (rest & ->); [lia|].
    rewrite (foldM_cons _ 0). unfold phase1_size at 1.
    destruct (fold_scan_size_0 order df alpha (complete_graph features)
                (edges (complete_graph features)) Hchi) with (st := mkScan [] ∅ [])
      as (st' & rows & Hf & _ & _).
    { intros u v Huv. apply complete_graph_edge_ends in Huv as [Hu Hv].
      split; apply Hcols; assumption. }
    rewrite Hf. cbn [mbind option_bind].
    set (G1 := remove_marked (complete_graph features) (rm st')).
    assert (Hg1 : good G1) by (apply remove_marked_good; exact Hg0).
    assert (Hw1 : within features G1) by (apply remove_marked_within; exact Hw0).
    destruct (phase_size_1 fisher_exact chi2_contingency chi2_cdf order df alpha
                features G1 (sep st') (details st') Ho Hcols Hg1 Hw1)
      as (spa & dta & Ha & _).
    rewrite foldM_cons, Ha.
    rewrite phases_edgeless by (apply remove_all_edges; exact Hg1). eauto. }
  destruct Hsome as [[DG dt] Hr]. exists DG, dt. split; [exact Hr|].
  eapply pc_skeleton_edgeless_from_size_1; eassumption.
Qed.

End Runs.

Lemma example_chi2_defined : chi2_defined (fun _ => Some 1%Q).
Proof. intros tab _ _. discriminate. Qed.

Lemma pc_skeleton_marginal_pass_witness :
  (exists DG dt,
     pc_skeleton fisher_two_sided (fun _ => Some 1%Q) (fun _ _ => 0%Q)
                 forward_order example_cohort ["A"; "B"; "C"] (5 # 100) 0
     = Some (DG, dt) /\
     Forall2 (fun e d =>
                exists p, _ci_test fisher_two_sided (fun _ => Some 1%Q)
                                   (fun _ _ => 0%Q) example_cohort
                                   (fst e) (snd e) [] (5 # 100)
                          = Some (Qltb (5 # 100) p, p) /\
                          d = marginal_row (fst e) (snd e) (Qltb (5 # 100) p) p)
             (edges (complete_graph ["A"; "B"; "C"])) dt) /\
  (forall u v, In u ["A"; "B"; "C"] -> In v ["A"; "B"; "C"] -> u <> v ->
     In (u, v) (edges (complete_graph ["A"; "B"; "C"]))
     \/ In (v, u) (edges (complete_graph ["A"; "B"; "C"]))) /\
  (forall max_cond, max_cond < 0 ->
     exists DG,
       pc_skeleton fisher_two_sided (fun _ => Some 1%Q) (fun _ _ => 0%Q)
                   forward_order example_cohort ["A"; "B"; "C"] (5 # 100) max_cond
       = Some (DG, [])).
Proof.
  apply (pc_skeleton_marginal_pass fisher_two_sided (fun _ => Some 1%Q)
           (fun _ _ => 0%Q) forward_order example_cohort ["A"; "B"; "C"] (5 # 100)).
  - exact example_chi2_defined.
  - intros f Hf. simpl in *. tauto.
Defined.

Lemma pc_skeleton_removes_every_edge_witness :
  exists DG dt,
    pc_skeleton fisher_two_sided (fun _ => Some 1%Q) (fun _ _ => 0%Q)
                forward_order example_cohort ["A"; "B"; "C"] (5 # 100) 1
    = Some (DG, dt) /\
    edgeless DG.
Proof.
  apply (pc_skeleton_removes_every_edge fisher_two_sided (fun _ => Some 1%Q)
           (fun _ _ => 0%Q) forward_order example_cohort ["A"; "B"; "C"]
           (5 # 100) 1).
  - exact forward_order_iteration.
  - exact example_chi2_defined.
  - intros f Hf. simpl in *. tauto.
  - lia.
Defined.

End RunFacts.

(** ** More on the independence test *)

Module StratifiedFacts.
Import Discovery IndependenceFacts.
Import IndependenceSpec.

(** *** Tables of swapped variables *)

Lemma valid_pairs_swap x : forall y,
  valid_pairs y x = map (fun p => (snd p, fst p)) (valid_pairs x y).
Proof.
  unfold valid_pairs. induction x as [|a x IH]; intros [|b y];
    [reflexivity|reflexivity|reflexivity|].
  cbn [combine omap list_omap].
  fold (@omap list _ _ _
          (fun '(a, b) =>
             match a, b with
             | Some a, Some b => Some (a, b)
             | _, _ => None
             end) (combine y x)).
  rewrite IH.
  destruct a as [a|]; destruct b as [b|]; reflexivity.
Qed.

Lemma valid_pairs_fst x y p :
  In p (valid_pairs x y) -> In (Some (fst p)) x.
Proof.
  unfold valid_pairs. intros Hin. apply list_elem_of_In in Hin.
  apply list_elem_of_omap in Hin as ([a b] & Hab & Hp).
  apply list_elem_of_In in Hab. apply in_combine_l in Hab.
  destruct a as [a|]; [|discriminate]. destruct b as [b|]; [|discriminate].
  injection Hp as <-. exact Hab.
Qed.

(** An entry of a table made of a function of the two labels. *)
Lemma tab_at_table (f : Z -> Z -> Z) (rl cl : list Z) (a b : nat) :
  (a < length rl)%nat -> (b < length cl)%nat ->
  tab_at (map (fun r => map (fun c => f r c) cl) rl) a b
  = f (nth a rl 0) (nth b cl 0).
Proof.
  intros Ha Hb. unfold tab_at.
  rewrite (nth_indep _ [] (map (fun c => f 0 c) cl))
    by (rewrite length_map; exact Ha).
  rewrite (map_nth (fun r => map (fun c => f r c) cl) rl 0 a).
  rewrite (nth_indep _ 0 (f (nth a rl 0) 0)) by (rewrite length_map; exact Hb).
  apply (map_nth (fun c => f (nth a rl 0) c) cl 0 b).
Qed.

Lemma is_2x2_table (f : Z -> Z -> Z) (rl cl : list Z) :
  is_2x2 (map (fun r => map (fun c => f r c) cl) rl) = true
  <-> length rl = 2%nat /\ length cl = 2%nat.
Proof.
  unfold is_2x2, shape. rewrite bool_decide_eq_true. rewrite length_map.
  destruct rl as [|r rl]; cbn [map length].
  - split; [intros [=]|intros [[=] _]].
  - rewrite length_map. split.
    + intros [= H1 H2]. split; [f_equal; exact H1|exact H2].
    + intros [H1 H2]. injection H1 as H1. rewrite H1, H2. reflexivity.
Qed.

(** The table of [y] against [x] is the transpose of the table of [x]
    against [y]. *)
Lemma crosstab_swap x y :
  is_2x2 (crosstab y x) = is_2x2 (crosstab x y) /\
  (is_2x2 (crosstab x y) = true ->
   tab_at (crosstab y x) 0 0 = tab_at (crosstab x y) 0 0 /\
   tab_at (crosstab y x) 0 1 = tab_at (crosstab x y) 1 0 /\
   tab_at (crosstab y x) 1 0 = tab_at (crosstab x y) 0 1 /\
   tab_at (crosstab y x) 1 1 = tab_at (crosstab x y) 1 1).
Proof.
  unfold crosstab. rewrite (valid_pairs_swap x y).
  set (ps := valid_pairs x y).
  rewrite !map_map. cbn [fst snd].
  set (rl := levels (map fst ps)). set (cl := levels (map snd ps)).
  change (map (fun x0 : Z * Z => snd x0) ps) with (map snd ps). fold cl.
  change (map (fun x0 : Z * Z => fst x0) ps) with (map fst ps). fold rl.
  set (f := fun r c => countb (fun p : Z * Z => (fst p =? r) && (snd p =? c)) ps).
  set (g := fun r c =>
              countb (fun p : Z * Z => (fst p =? r) && (snd p =? c))
                     (map (fun p : Z * Z => (snd p, fst p)) ps)).
  assert (Hfg : forall r c, g r c = f c r).
  { intros r c. unfold g, f. rewrite countb_map. apply countb_ext.
    intros p _. cbn [fst snd]. apply andb_comm. }
  pose proof (is_2x2_table f rl cl) as Hf.
  pose proof (is_2x2_table g cl rl) as Hg.
  split.
  - apply eq_true_iff_eq.
    change (is_2x2 (map (fun r => map (fun c => g r c) rl) cl) = true
            <-> is_2x2 (map (fun r => map (fun c => f r c) cl) rl) = true).
    rewrite Hf, Hg. tauto.
  - change (is_2x2 (map (fun r => map (fun c => f r c) cl) rl) = true ->
            tab_at (map (fun r => map (fun c => g r c) rl) cl) 0 0
            = tab_at (map (fun r => map (fun c => f r c) cl) rl) 0 0 /\
            tab_at (map (fun r => map (fun c => g r c) rl) cl) 0 1
            = tab_at (map (fun r => map (fun c => f r c) cl) rl) 1 0 /\
            tab_at (map (fun r => map (fun c => g r c) rl) cl) 1 0
            = tab_at (map (fun r => map (fun c => f r c) cl) rl) 0 1 /\
            tab_at (map (fun r => map (fun c => g r c) rl) cl) 1 1
            = tab_at (map (fun r => map (fun c => f r c) cl) rl) 1 1).
    intros E. destruct (proj1 Hf E) as [H1 H2].
    rewrite !(tab_at_table g), !(tab_at_table f) by lia.
    rewrite !Hfg. auto.
Qed.

Lemma stratum_terms_swap cols i j st :
  stratum_terms cols j i st = stratum_terms cols i j st.
Proof.
  unfold stratum_terms.
  set (xi := map (fun row => row_get cols row i) st).
  set (xj := map (fun row => row_get cols row j) st).
  destruct (crosstab_swap xi xj) as [H22 Hat]. rewrite H22.
  destruct (is_2x2 (crosstab xi xj)) eqn:E; [|reflexivity]. cbn [negb].
  destruct (Hat eq_refl) as (Ha & Hb & Hc & Hd). rewrite Ha, Hb, Hc, Hd.
  set (a := tab_at (crosstab xi xj) 0 0). set (b := tab_at (crosstab xi xj) 0 1).
  set (c := tab_at (crosstab xi xj) 1 0). set (d := tab_at (crosstab xi xj) 1 1).
  assert (Hn : i64_add (i64_add (i64_add a c) b) d
               = i64_add (i64_add (i64_add a b) c) d).
  { rewrite !i64_add_4. f_equal. lia. }
  assert (Hm : i64_mul (i64_add a c) (i64_add a b)
               = i64_mul (i64_add a b) (i64_add a c)).
  { unfold i64_mul. f_equal. ring. }
  assert (Hp : i64_mul (i64_mul (i64_mul (i64_add a c) (i64_add b d)) (i64_add a b))
                       (i64_add c d)
               = i64_mul (i64_mul (i64_mul (i64_add a b) (i64_add c d)) (i64_add a c))
                         (i64_add b d)).
  { rewrite !i64_mul_4. f_equal. ring. }
  rewrite Hn, Hm, Hp. reflexivity.
Qed.

Lemma cmh_sums_swap cols i j sts :
  cmh_sums cols j i sts = cmh_sums cols i j sts.
Proof.
  unfold cmh_sums. apply fold_left_ext. intros [num den] st.
  rewrite stratum_terms_swap. reflexivity.
Qed.

(** A stratum in which the first variable is constant is degenerate. *)
Lemma degenerate_constant_first cols i j st k :
  (forall row, In row st -> row_get cols row i = k) ->
  degenerate cols i j st = true.
Proof.
  intros Hk. rewrite <- (proj1 (stratum_terms_degenerate cols i j st)
                              : stratum_terms cols i j st = None -> _);
    [reflexivity|].
  rewrite <- stratum_terms_swap. apply stratum_terms_degenerate.
  eapply degenerate_constant. exact Hk.
Qed.

Section Tests.
Variable fisher_exact : list (list Z) -> Q.
Variable chi2_contingency : list (list Z) -> option Q.
Variable chi2_cdf : Q -> Q -> Q.

Abbreviation ci_test := (_ci_test fisher_exact chi2_contingency chi2_cdf).

(** The stratified test does not depend on the order of its two
    variables: it gives the same decision and the same p-value for
    [(i, j)] and for [(j, i)], and raises for the one exactly when it
    raises for the other. *)
Theorem ci_test_stratified_symmetric (df : DataFrame) (i j : string)
    (S : list string) (alpha : Q) :
  S <> [] ->
  _ci_test fisher_exact chi2_contingency chi2_cdf df j i S alpha
  = _ci_test fisher_exact chi2_contingency chi2_cdf df i j S alpha.
Proof.
  intros HS. destruct S as [|s S]; [contradiction|]. unfold _ci_test.
  rewrite cmh_sums_swap.
  rewrite (andb_comm (bool_decide (j ∈ columns df)) (bool_decide (i ∈ columns df))).
  reflexivity.
Qed.

(** Conditioning on a set that holds one of the two tested variables
    always answers (independent = True, p = 1.0), whatever the data and
    alpha are: the variable is constant within every stratum, so every
    stratum is skipped. *)
Theorem ci_test_conditioning_on_endpoint (df : DataFrame) (i j : string)
    (S : list string) (alpha : Q) :
  forallb (known df) (i :: j :: S) = true ->
  In i S \/ In j S ->
  ci_test df i j S alpha = Some (true, 1%Q).
Proof.
  intros Hk Hin.
  assert (HS : S <> []) by (intros ->; destruct Hin as [[]|[]]).
  apply (ci_test_degenerate_denominator _ _ _ df i j S alpha HS Hk).
  rewrite cmh_sums_all_degenerate; [apply Qle_refl|].
  intros st Hst. destruct (strata_rows df S st Hst) as (key & Hkey).
  assert (Hpos : forall c, In c S ->
            exists k, forall row, In row st -> row_get (columns df) row c = k).
  { intros c Hc. apply In_nth_error in Hc as (n & Hn).
    exists (nth n key None). intros row Hrow. specialize (Hkey row Hrow).
    subst key. unfold row_key. apply nth_error_split in Hn as (S1 & S2 & -> & <-).
    rewrite map_app. cbn [map]. rewrite app_nth2 by (rewrite length_map; lia).
    rewrite length_map, Nat.sub_diag. reflexivity. }
  destruct Hin as [Hi|Hj].
  - destruct (Hpos i Hi) as [k Hk']. eapply degenerate_constant_first. exact Hk'.
  - destruct (Hpos j Hj) as [k Hk']. eapply degenerate_constant. exact Hk'.
Qed.

(** What makes [_ci_test] raise.  Unconditionally, an unknown label (a
    KeyError) raises, and with known labels the test returns unless the
    chi-squared routine raises on a 2x2 table whose expected counts are
    all at least 5.  With a conditioning set, an unknown label in the set
    raises, an unknown tested label raises as soon as the matrix has a
    row, and known labels never raise. *)
Theorem ci_test_raises (df : DataFrame) (i j : string) (S : list string)
    (alpha : Q) :
  (known df i = false \/ known df j = false -> ci_test df i j [] alpha = None) /\
  (forall xi xj, get_column df i = Some xi -> get_column df j = Some xj ->
   (ci_test df i j [] alpha = None
    <-> is_2x2 (crosstab xi xj) = true /\
        any_expected_below_5 (crosstab xi xj) = false /\
        chi2_contingency (crosstab xi xj) = None)) /\
  (S <> [] -> forallb (known df) S = false -> ci_test df i j S alpha = None) /\
  (S <> [] -> forallb (known df) S = true -> data df <> [] ->
   known df i = false \/ known df j = false -> ci_test df i j S alpha = None) /\
  (S <> [] -> forallb (known df) (i :: j :: S) = true ->
   exists r, ci_test df i j S alpha = Some r).
Proof.
  split; [|split; [|split; [|split]]].
  - intros H. unfold _ci_test, get_column, known in *.
    destruct H as [H|H]; apply bool_decide_eq_false in H;
      rewrite list_elem_of_In in H.
    + rewrite (col_pos_fresh i (columns df) H). reflexivity.
    + rewrite (col_pos_fresh j (columns df) H).
      destruct (col_pos i (columns df)); reflexivity.
  - intros xi xj Hi Hj. unfold _ci_test. rewrite Hi, Hj.
    cbn [mbind option_bind].
    destruct (is_2x2 (crosstab xi xj));
      [destruct (any_expected_below_5 (crosstab xi xj))|];
      destruct (chi2_contingency (crosstab xi xj)); cbn;
      split; try discriminate; try tauto;
      intros (H1 & H2 & H3); discriminate.
  - intros HS Hk. destruct S as [|s S]; [contradiction|]. unfold _ci_test.
    unfold known in Hk. rewrite Hk. reflexivity.
  - intros HS Hk Hd Hij. destruct S as [|s S]; [contradiction|].
    unfold _ci_test. unfold known in *. rewrite Hk. cbn [negb].
    assert (Hst : bool_decide (strata df (s :: S) = []) = false).
    { unfold strata. destruct (data df) as [|row rows]; [contradiction|].
      apply bool_decide_eq_false_2. cbn [map sorted_keys fold_right].
      intros H. apply map_eq_nil in H.
      destruct (fold_right insert_key [] (map (row_key (columns df) (s :: S)) rows))
        as [|k ks]; cbn [insert_key] in H; [discriminate|].
      destruct (key_compare _ k); discriminate. }
    rewrite Hst. cbn [negb andb].
    destruct Hij as [H|H]; rewrite H; [|rewrite andb_false_r]; reflexivity.
  - apply ci_test_stratified_total.
Qed.

End Tests.

Lemma ci_test_stratified_symmetric_witness :
  _ci_test (fun _ => 0%Q) (fun _ => None) (fun _ _ => 0%Q)
           example_cohort "B" "A" ["C"] (5 # 100)
  = _ci_test (fun _ => 0%Q) (fun _ => None) (fun _ _ => 0%Q)
             example_cohort "A" "B" ["C"] (5 # 100).
Proof.
  apply (ci_test_stratified_symmetric (fun _ => 0%Q) (fun _ => None)
           (fun _ _ => 0%Q) example_cohort "A" "B" ["C"] (5 # 100)).
  discriminate.
Defined.

Lemma ci_test_conditioning_on_endpoint_witness :
  _ci_test (fun _ => 0%Q) (fun _ => None) (fun _ _ => 0%Q)
           example_cohort "A" "B" ["A"; "C"] (5 # 100)
  = Some (true, 1%Q).
Proof.
  apply (ci_test_conditioning_on_endpoint (fun _ => 0%Q) (fun _ => None)
           (fun _ _ => 0%Q) example_cohort "A" "B" ["A"; "C"] (5 # 100)).
  - vm_compute. reflexivity.
  - left. left. reflexivity.
Defined.

End StratifiedFacts.

(** ** The coverage of the ontology and the gate of the pipeline *)

Lemma filter_split_perm {A} (f : A -> bool) (l : list A) :
  Permutation (List.filter f l ++ List.filter (fun x => negb (f x)) l) l.
Proof.
  induction l as [|x l IH]; [constructor|]. cbn [List.filter].
  destruct (f x); cbn [negb app].
  - constructor. exact IH.
  - apply Permutation_sym. apply Permutation_cons_app.
    apply Permutation_sym. exact IH.
Qed.

Lemma filter_split_length {A} (f : A -> bool) (l : list A) :
  (length (List.filter f l) + length (List.filter (fun x => negb (f x)) l)
   = length l)%nat.
Proof.
  rewrite <- length_app. apply Permutation_length. apply filter_split_perm.
Qed.

Module GateFacts.
Import Classification Pipeline RulesFacts.
Import RulesSpec GateSpec.

Lemma coverage_matched_count raw_cols declared :
  n_classes_matched (coverage raw_cols declared)
  = Z.of_nat (length (matched_classes raw_cols declared)).
Proof.
  unfold coverage. cbn [n_classes_matched]. unfold countb. f_equal.
  unfold matched_classes, present_drugs.
  induction declared as [|[cls drugs] declared IH]; [reflexivity|].
  cbn [map List.filter snd].
  destruct (List.filter (fun d => bool_decide (d ∈ raw_cols)) drugs) as [|d ds].
  - cbn [length]. rewrite bool_decide_eq_true_2 by reflexivity.
    cbn [negb]. change (0 <? Z.of_nat 0) with false. cbv iota. exact IH.
  - rewrite bool_decide_eq_false_2 by discriminate. cbn [negb].
    replace (0 <? Z.of_nat (length (d :: ds))) with true
      by (symmetry; apply Z.ltb_lt; cbn [length]; lia).
    cbn [length]. f_equal. exact IH.
Qed.

Lemma coverage_drug_counts raw_cols declared :
  let rep := coverage raw_cols declared in
  n_drugs_matched rep + n_drugs_unmatched rep = n_drugs_declared rep /\
  0 <= n_drugs_unmatched rep /\
  n_classes_matched rep <= n_drugs_matched rep.
Proof.
  cbv zeta. rewrite coverage_matched_count.
  unfold n_drugs_unmatched, coverage.
  cbn [n_drugs_matched n_drugs_declared unmatched_drug_columns_per_class].
  unfold matched_classes, present_drugs.
  induction declared as [|[cls drugs] declared IH];
    [cbn; lia|].
  cbn [map fold_right List.filter snd].
  pose proof (filter_split_length (fun d => bool_decide (d ∈ raw_cols)) drugs) as Hs.
  destruct IH as (IH1 & IH2 & IH3).
  destruct (List.filter (fun d => bool_decide (d ∈ raw_cols)) drugs) as [|d ds] eqn:E.
  - rewrite bool_decide_eq_true_2 by reflexivity. cbn [negb length] in *.
    repeat split; lia.
  - rewrite bool_decide_eq_false_2 by discriminate. cbn [negb length] in *.
    repeat split; lia.
Qed.

Lemma coverage_no_class raw_cols declared :
  n_classes_matched (coverage raw_cols declared) = 0 ->
  n_drugs_matched (coverage raw_cols declared) = 0.
Proof.
  unfold coverage. cbn [n_classes_matched n_drugs_matched]. unfold countb.
  induction declared as [|[cls drugs] declared IH]; [reflexivity|].
  cbn [map List.filter fold_right].
  destruct (List.filter (fun d => bool_decide (d ∈ raw_cols)) drugs) as [|d ds'].
  - cbn [length]. change (0 <? Z.of_nat 0) with false. cbv iota.
    intros H0. rewrite (IH H0). reflexivity.
  - replace (0 <? Z.of_nat (length (d :: ds'))) with true
      by (symmetry; apply Z.ltb_lt; cbn [length]; lia).
    cbn [length]. lia.
Qed.

(** The counts of the ontology coverage report are consistent: the
    matched classes are at most the declared ones, every declared drug is
    counted once as matched or as unmatched, each matched class matches at
    least one drug, and no class is matched exactly when no drug is. *)
Theorem coverage_counts (raw_cols : list string)
    (declared : list (string * list string)) :
  let rep := coverage raw_cols declared in
  0 <= n_classes_matched rep <= n_classes_declared rep /\
  n_drugs_matched rep + n_drugs_unmatched rep = n_drugs_declared rep /\
  0 <= n_drugs_unmatched rep /\
  n_classes_matched rep <= n_drugs_matched rep /\
  (n_classes_matched rep = 0 <-> n_drugs_matched rep = 0).
Proof.
  cbv zeta. pose proof (coverage_drug_counts raw_cols declared) as Hd.
  cbv zeta in Hd. destruct Hd as (Hd1 & Hd2 & Hd3).
  assert (Hc : 0 <= n_classes_matched (coverage raw_cols declared)
               <= n_classes_declared (coverage raw_cols declared)).
  { rewrite coverage_matched_count. unfold coverage. cbn [n_classes_declared].
    unfold matched_classes.
    pose proof (List.filter_length_le
      (fun e : string * list string =>
         negb (bool_decide (present_drugs raw_cols (snd e) = []))) declared).
    lia. }
  pose proof (coverage_no_class raw_cols declared) as Hz.
  repeat split; try lia.
Qed.

(** The report lists, for every declared class and in the order of the
    ontology, the drugs that are columns of the table and those that are
    not; together they are the declared drugs of the class. *)
Theorem coverage_partitions_drugs (raw_cols : list string)
    (declared : list (string * list string)) :
  let rep := coverage raw_cols declared in
  map fst (matched_drug_columns_per_class rep) = map fst declared /\
  map fst (unmatched_drug_columns_per_class rep) = map fst declared /\
  forall k cls drugs,
    nth_error declared k = Some (cls, drugs) ->
    exists mt um,
      nth_error (matched_drug_columns_per_class rep) k = Some (cls, mt) /\
      nth_error (unmatched_drug_columns_per_class rep) k = Some (cls, um) /\
      Permutation (mt ++ um) drugs /\
      (forall d, In d mt <-> In d drugs /\ In d raw_cols) /\
      (forall d, In d um <-> In d drugs /\ ~ In d raw_cols).
Proof.
  cbv zeta. unfold coverage.
  cbn [matched_drug_columns_per_class unmatched_drug_columns_per_class].
  split; [|split].
  - rewrite map_map. apply map_ext. intros [cls drugs]. reflexivity.
  - rewrite map_map. apply map_ext. intros [cls drugs]. reflexivity.
  - intros k cls drugs Hk.
    exists (List.filter (fun d => bool_decide (d ∈ raw_cols)) drugs),
           (List.filter (fun d => negb (bool_decide (d ∈ raw_cols))) drugs).
    split; [|split; [|split; [|split]]].
    + rewrite nth_error_map, Hk. reflexivity.
    + rewrite nth_error_map, Hk. reflexivity.
    + apply filter_split_perm.
    + intros d. rewrite filter_In, bool_decide_eq_true, list_elem_of_In. tauto.
    + intros d. rewrite filter_In, negb_true_iff, bool_decide_eq_false,
        list_elem_of_In. tauto.
Qed.

(** The gate of the pipeline: with an ontology whose class names are
    distinct, the run stops with the ValueError exactly when fewer than
    max(1, min_classes_matched) declared classes have a drug among the
    columns; otherwise the class matrix has one column per matched class,
    in the order of the ontology, and one row per isolate. *)
Theorem classify_gate (raw : Frame Q)
    (declared : list (string * list string)) (min_classes_matched : Z) :
  List.NoDup (map fst declared) ->
  let rep := coverage (columns raw) declared in
  (classify raw declared min_classes_matched = None
   <-> n_classes_matched rep < Z.max 1 min_classes_matched) /\
  (forall class_df rep',
     classify raw declared min_classes_matched = Some (class_df, rep') ->
     rep' = rep /\
     build_class_matrix raw declared "any" = Some class_df /\
     columns class_df = map fst (matched_classes (columns raw) declared) /\
     Z.of_nat (length (columns class_df)) = n_classes_matched rep /\
     index class_df = index raw /\
     length (data class_df) = length (data raw)).
Proof.
  intros Hnd. cbv zeta. unfold classify.
  rewrite (build_class_matrix_closed raw declared "any")
    by (first [left; reflexivity | exact Hnd]).
  cbn [mbind option_bind].
  rewrite coverage_matched_count.
  change (columns (class_matrix "any" (_to_binary raw) declared))
    with (map fst (matched_classes (columns raw) declared)).
  set (mc := matched_classes (columns raw) declared).
  assert (Hnil : bool_decide (map fst mc = []) = (Z.of_nat (length mc) <? 1)).
  { destruct mc as [|e mc']; [reflexivity|].
    rewrite bool_decide_eq_false_2 by discriminate.
    symmetry. apply Z.ltb_ge. cbn [length]. lia. }
  rewrite Hnil.
  destruct (Z.of_nat (length mc) <? 1) eqn:E1;
    destruct (Z.of_nat (length mc) <? min_classes_matched) eqn:E2;
    cbn [orb];
    try apply Z.ltb_lt in E1; try apply Z.ltb_ge in E1;
    try apply Z.ltb_lt in E2; try apply Z.ltb_ge in E2.
  - split; [split; [lia|reflexivity]|discriminate].
  - split; [split; [lia|reflexivity]|discriminate].
  - split; [split; [lia|reflexivity]|discriminate].
  - split; [split; [discriminate|lia]|].
    intros class_df rep' H. injection H as <- <-.
    split; [reflexivity|]. split; [reflexivity|].
    split; [reflexivity|]. split; [|split].
    + cbn [columns class_matrix]. rewrite length_map. reflexivity.
    + reflexivity.
    + cbn [data class_matrix _to_binary]. rewrite !length_map. reflexivity.
Qed.

Lemma classify_gate_witness :
  (classify example_raw example_declared 3 = None
   <-> n_classes_matched (coverage (columns example_raw) example_declared)
       < Z.max 1 3) /\
  (forall class_df rep',
     classify example_raw example_declared 3 = Some (class_df, rep') ->
     rep' = coverage (columns example_raw) example_declared /\
     build_class_matrix example_raw example_declared "any" = Some class_df /\
     columns class_df
     = map fst (matched_classes (columns example_raw) example_declared) /\
     Z.of_nat (length (columns class_df))
     = n_classes_matched (coverage (columns example_raw) example_declared) /\
     index class_df = index example_raw /\
     length (data class_df) = length (data example_raw)).
Proof.
  apply (classify_gate example_raw example_declared 3).
  cbn. repeat constructor; simpl; intuition discriminate.
Defined.

End GateFacts.
